(** * authord-render-core: the schema-validating XML front end

    A shallow embedding of the sanitizer ([xast_xml.ts]), the DTD index
    builder and validator ([dtd_index.ts], [dtd_validator.ts]) and the XSD
    index builder and validator ([xsd_index.ts], [xsd_validator.ts]),
    with the properties the specification states about them.

    Conventions.
    - A JavaScript string is the list of its UTF-16 code units, [list N];
      [lit] turns an ASCII literal into one.
    - A JavaScript [Map] or [Set] that the code iterates is an
      insertion-ordered list; one that is only looked up is a [gmap].
    - A thrown [Error] is a constructor of the result type. *)

From Stdlib Require Import ZArith NArith Lia Ascii String.
From stdpp Require Import base option list gmap strings pretty sorting.

Set Warnings "-register-all".
Local Open Scope list_scope.

(** ** JavaScript strings *)

Abbreviation str := (list N).

Definition lit (s : string) : str :=
  map N_of_ascii (list_ascii_of_string s).

(** Decimal rendering of an integer, as [String(n)] or a template gives. *)
Definition showZ (z : Z) : str := lit (pretty z).
Definition showNat (n : nat) : str := lit (pretty n).

(** [a.join(sep)] *)
Fixpoint join (sep : str) (parts : list str) : str :=
  match parts with
  | [] => []
  | [p] => p
  | p :: rest => p ++ sep ++ join sep rest
  end.

(** [s.startsWith(p)] *)
Fixpoint startsWith (s p : str) : bool :=
  match p, s with
  | [], _ => true
  | _ :: _, [] => false
  | c :: p', d :: s' => if N.eqb c d then startsWith s' p' else false
  end.

Definition str_eqb (a b : str) : bool := bool_decide (a = b).

(** [xs.includes(x)], [set.has(x)] *)
Definition has {A} `{EqDecision A} (x : A) (xs : list A) : bool :=
  bool_decide (x ∈ xs).

(** [set.add(x)] on an insertion-ordered set. *)
Definition set_add {A} `{EqDecision A} (x : A) (xs : list A) : list A :=
  if has x xs then xs else xs ++ [x].

(** [new Set(xs)] *)
Definition set_of {A} `{EqDecision A} (xs : list A) : list A :=
  foldl (fun acc x => set_add x acc) [] xs.

Definition isSome {A} (o : option A) : bool :=
  match o with Some _ => true | None => false end.

Definition is_nil {A} (l : list A) : bool :=
  match l with [] => true | _ => false end.

(** [xs.slice(from, to)] *)
Definition slice {A} (l : list A) (from to : nat) : list A :=
  take (to - from) (drop from l).

(** The code units [/\s/] and [String.prototype.trim] treat as white space. *)
Definition isJsSpace (c : N) : bool :=
  ((9 <=? c) && (c <=? 13) || (c =? 32) || (c =? 160) || (c =? 5760)
   || (8192 <=? c) && (c <=? 8202) || (c =? 8232) || (c =? 8233)
   || (c =? 8239) || (c =? 8287) || (c =? 12288) || (c =? 65279))%N.

(** Whether [s.trim()] is not the empty string. *)
Definition nonBlank (s : str) : bool := negb (forallb isJsSpace s).

(** ** xast nodes *)

(** [xast] nodes: elements carry a qualified name, an attribute object
    (own keys in insertion order) and an ordered child list. *)
Inductive Node : Type :=
| Element (name : str) (attributes : list (str * str)) (children : list Node)
| Text (value : str)
| Other.

(** [attrs[k]] for an own key of the attribute object. *)
Fixpoint attr_get (attrs : list (str * str)) (k : str) : option str :=
  match attrs with
  | [] => None
  | (k', v) :: rest => if str_eqb k' k then Some v else attr_get rest k
  end.

(** The members a plain object inherits from [Object.prototype]. *)
Definition OBJECT_PROTOTYPE_MEMBERS : list str :=
  map lit [ "constructor"; "__defineGetter__"; "__defineSetter__";
            "hasOwnProperty"; "__lookupGetter__"; "__lookupSetter__";
            "isPrototypeOf"; "propertyIsEnumerable"; "toString"; "valueOf";
            "__proto__"; "toLocaleString" ]%string.

(** [k in attrs] for the attribute object, a plain object: an own key
    or a member inherited from [Object.prototype]. *)
Definition attr_in (attrs : list (str * str)) (k : str) : bool :=
  isSome (attr_get attrs k) || has k OBJECT_PROTOTYPE_MEMBERS.

Definition el_name (n : Node) : str :=
  match n with Element nm _ _ => nm | _ => [] end.
Definition el_attributes (n : Node) : list (str * str) :=
  match n with Element _ a _ => a | _ => [] end.
Definition el_children (n : Node) : list Node :=
  match n with Element _ _ c => c | _ => [] end.
Definition is_element (n : Node) : bool :=
  match n with Element _ _ _ => true | _ => false end.

(** The slice after the first colon, when [qname.indexOf(":") >= 0]. *)
Fixpoint after_colon (s : str) : option str :=
  match s with
  | [] => None
  | c :: rest => if N.eqb c 58 then Some rest else after_colon rest
  end.

(** [localName(qname)] *)
Definition localName (qname : str) : str :=
  match after_colon qname with
  | Some l => l
  | None => qname
  end.

(** [childElements(el)] *)
Definition childElements (el : Node) : list Node :=
  filter (fun c => is_element c = true) (el_children el).

(** [nonWhitespaceText(el)]: the first text child that is not blank. *)
Definition nonWhitespaceText (el : Node) : option str :=
  (fix go (cs : list Node) : option str :=
     match cs with
     | [] => None
     | Text v :: rest => if nonBlank v then Some v else go rest
     | _ :: rest => go rest
     end) (el_children el).

(** A validation finding: where and what. *)
Record ValidationError := { path : str; msg : str }.

(** Result of a function that returns nothing or throws an [Error]. *)
Inductive outcome : Type :=
| Returns
| Throws (message : str).

Definition formatError (e : ValidationError) : str :=
  lit "- " ++ path e ++ lit ": " ++ msg e.

Definition dq : str := [34%N].
Definition nl : str := [10%N].

(** * XSD index ([xsd_index.ts]) *)

Inductive MaxOccurs : Type :=
| MaxN (n : Z)
| Unbounded.

Record Occurs := { omin : Z; omax : MaxOccurs }.

Inductive XsdParticle : Type :=
| PEmpty (occurs : Occurs)
| PElement (name : str) (occurs : Occurs)
| PSequence (items : list XsdParticle) (occurs : Occurs)
| PChoice (items : list XsdParticle) (occurs : Occurs)
| PAll (items : list XsdParticle) (occurs : Occurs)
| PGroupRef (ref : str) (occurs : Occurs)
| PAny (occurs : Occurs).

Definition p_occurs (p : XsdParticle) : Occurs :=
  match p with
  | PEmpty o | PElement _ o | PSequence _ o | PChoice _ o | PAll _ o
  | PGroupRef _ o | PAny o => o
  end.

Record XsdAttrDef := {
  use : str;
  enum : option (list str);
  fixed : option str;
}.

Inductive AllowedChildren : Type :=
| AllowedSet (names : list str)
| AllowedANY
| AllowedEMPTY.

Record XsdElementDef := {
  xe_name : str;
  xe_content : XsdParticle;
  xe_attributes : list (str * XsdAttrDef);
  xe_mixed : bool;
  xe_allowAnyAttribute : bool;
  xe_allowedChildren : AllowedChildren;
}.

Record XsdIndex := {
  elements : gmap str XsdElementDef;
  groups : gmap str XsdParticle;
  attributes : gmap str XsdAttrDef;
  substitutionGroups : gmap str (list str);
  substitutionGroupFor : gmap str str;
}.

(** [isEl(n, ln)] *)
Definition isEl (n : Node) (ln : str) : bool :=
  match n with
  | Element nm _ _ =>
      match ln with [] => true | _ => str_eqb (localName nm) ln end
  | _ => false
  end.

(** [attr(e, k)] *)
Definition attr (e : Node) (k : str) : option str := attr_get (el_attributes e) k.

(** [xs.find(pred)] *)
Fixpoint find_first {A} (f : A -> bool) (xs : list A) : option A :=
  match xs with
  | [] => None
  | x :: rest => if f x then Some x else find_first f rest
  end.

(** [extractAttributeEnum(attrEl)] *)
Definition extractAttributeEnum (attrEl : Node) : option (list str) :=
  let simpleType := find_first (fun n => isEl n (lit "simpleType")) (el_children attrEl) in
  let restriction :=
    match simpleType with
    | Some st => find_first (fun n => isEl n (lit "restriction")) (el_children st)
    | None => None
    end in
  match restriction with
  | None => None
  | Some r =>
      let enums := List.filter (fun n => isEl n (lit "enumeration")) (el_children r) in
      match enums with
      | [] => None
      | _ =>
          let values :=
            omap (fun e => match attr e (lit "value") with
                           | Some [] => None
                           | other => other
                           end) enums in
          match values with
          | [] => None
          | _ => Some (set_of values)
          end
      end
  end.

(** [parseAttributeDef(attrEl, globalAttributes)] *)
Definition parseAttributeDef (attrEl : Node) (globalAttributes : gmap str XsdAttrDef)
  : XsdAttrDef :=
  let use_ := default (lit "optional") (attr attrEl (lit "use")) in
  let fixed_ := attr attrEl (lit "fixed") in
  let enumVals := extractAttributeEnum attrEl in
  match attr attrEl (lit "ref") with
  | Some (c :: r) =>
      let baseName := localName (c :: r) in
      let base := globalAttributes !! baseName in
      {| use := use_;
         fixed := match fixed_ with Some f => Some f | None => base ≫= fixed end;
         enum := match enumVals with Some e => Some e | None => base ≫= enum end |}
  | _ => {| use := use_; fixed := fixed_; enum := enumVals |}
  end.

(** The maps [buildXsdIndex] fills in its pass over the children of
    [<schema>]. *)
Record Globals := {
  globalElements : gmap str Node;
  complexTypeEls : gmap str Node;
  groupEls : gmap str Node;
  attributeGroupEls : gmap str Node;
  globalAttrEls : gmap str Node;
  g_substitutionGroups : gmap str (list str);
  g_substitutionGroupFor : gmap str str;
}.

Definition emptyGlobals : Globals :=
  {| globalElements := ∅; complexTypeEls := ∅; groupEls := ∅;
     attributeGroupEls := ∅; globalAttrEls := ∅;
     g_substitutionGroups := ∅; g_substitutionGroupFor := ∅ |}.

(** A present and non-empty attribute value ([if (nm)]). *)
Definition truthy (v : option str) : option str :=
  match v with
  | Some (c :: r) => Some (c :: r)
  | _ => None
  end.

(** One iteration of the loop over [schema.children]. *)
Definition collectGlobal (g : Globals) (n : Node) : Globals :=
  if negb (is_element n) then g else
  let ln := localName (el_name n) in
  if str_eqb ln (lit "element") then
    match truthy (attr n (lit "name")) with
    | None => g
    | Some nm =>
        let ge := <[nm := n]> (globalElements g) in
        let '(sgs, sgf) :=
          match truthy (attr n (lit "substitutionGroup")) with
          | None => (g_substitutionGroups g, g_substitutionGroupFor g)
          | Some sg =>
              match localName sg with
              | [] => (g_substitutionGroups g, g_substitutionGroupFor g)
              | head =>
                  let members := default [] (g_substitutionGroups g !! head) in
                  (<[head := set_add nm members]> (g_substitutionGroups g),
                   <[nm := head]> (g_substitutionGroupFor g))
              end
          end in
        {| globalElements := ge; complexTypeEls := complexTypeEls g;
           groupEls := groupEls g; attributeGroupEls := attributeGroupEls g;
           globalAttrEls := globalAttrEls g;
           g_substitutionGroups := sgs; g_substitutionGroupFor := sgf |}
    end
  else if str_eqb ln (lit "complexType") then
    match truthy (attr n (lit "name")) with
    | None => g
    | Some nm =>
        {| globalElements := globalElements g;
           complexTypeEls := <[nm := n]> (complexTypeEls g);
           groupEls := groupEls g; attributeGroupEls := attributeGroupEls g;
           globalAttrEls := globalAttrEls g;
           g_substitutionGroups := g_substitutionGroups g;
           g_substitutionGroupFor := g_substitutionGroupFor g |}
    end
  else if str_eqb ln (lit "group") then
    match truthy (attr n (lit "name")) with
    | None => g
    | Some nm =>
        {| globalElements := globalElements g;
           complexTypeEls := complexTypeEls g;
           groupEls := <[nm := n]> (groupEls g);
           attributeGroupEls := attributeGroupEls g;
           globalAttrEls := globalAttrEls g;
           g_substitutionGroups := g_substitutionGroups g;
           g_substitutionGroupFor := g_substitutionGroupFor g |}
    end
  else if str_eqb ln (lit "attributeGroup") then
    match truthy (attr n (lit "name")) with
    | None => g
    | Some nm =>
        {| globalElements := globalElements g;
           complexTypeEls := complexTypeEls g;
           groupEls := groupEls g;
           attributeGroupEls := <[nm := n]> (attributeGroupEls g);
           globalAttrEls := globalAttrEls g;
           g_substitutionGroups := g_substitutionGroups g;
           g_substitutionGroupFor := g_substitutionGroupFor g |}
    end
  else if str_eqb ln (lit "attribute") then
    match truthy (attr n (lit "name")) with
    | None => g
    | Some nm =>
        {| globalElements := globalElements g;
           complexTypeEls := complexTypeEls g;
           groupEls := groupEls g;
           attributeGroupEls := attributeGroupEls g;
           globalAttrEls := <[nm := n]> (globalAttrEls g);
           g_substitutionGroups := g_substitutionGroups g;
           g_substitutionGroupFor := g_substitutionGroupFor g |}
    end
  else g.

(** The whole pass ([buildXsdIndex], "collect globals"). *)
Definition collectGlobals (schemaChildren : list Node) : Globals :=
  foldl collectGlobal emptyGlobals schemaChildren.

(** * XSD validator ([xsd_validator.ts]) *)

Module Xsd.

Definition IGNORED_ATTR_PREFIXES : list str :=
  [lit "xmlns"; lit "xml:"; lit "xsi:"].

Definition COMPAT_ATTR_ALLOWLIST : list (str * list str) :=
  [(lit "topics", [lit "web-path"]); (lit "a", [lit "type"; lit "target"])].

Definition RELAXED_CHILD_ORDER : list str :=
  [lit "topic"; lit "section-starting-page"; lit "links"; lit "snippet"].

Fixpoint assoc {V} (k : str) (m : list (str * V)) : option V :=
  match m with
  | [] => None
  | (k', v) :: rest => if str_eqb k' k then Some v else assoc k rest
  end.

Definition isCompatAttrAllowed (elName attrName : str) : bool :=
  match assoc elName COMPAT_ATTR_ALLOWLIST with
  | Some s => has attrName s
  | None => false
  end.

(** [resolveElementDef(name, xsd)] *)
Definition resolveElementDef (name : str) (xsd : XsdIndex) : option XsdElementDef :=
  match elements xsd !! name with
  | None => None
  | Some def =>
      match truthy (substitutionGroupFor xsd !! name) with
      | None => Some def
      | Some head =>
          match elements xsd !! head with
          | Some d => Some d
          | None => Some def
          end
      end
  end.

(** [matchesElementName(expected, actual, xsd)] *)
Definition matchesElementName (expected actual : str) (xsd : XsdIndex) : bool :=
  if str_eqb expected actual then true
  else match substitutionGroups xsd !! expected with
       | Some subs => has actual subs
       | None => false
       end.

(** [childrenAllowedBySet(allowed, kidNames)] *)
Definition childrenAllowedBySet (allowed : AllowedChildren) (kidNames : list str) : bool :=
  match allowed with
  | AllowedANY => true
  | AllowedEMPTY => match kidNames with [] => true | _ => false end
  | AllowedSet s => forallb (fun n => has n s) kidNames
  end.

(** [filterCompatChildren(kidNames)]. The function hands back its
    argument itself when nothing was filtered out and a new array
    otherwise; the second component records which, for the caller's
    [compatKidNames !== kidNames]. *)
Definition filterCompatChildren (kidNames : list str) : list str * bool :=
  let filtered := List.filter (fun n => negb (str_eqb n (lit "include"))) kidNames in
  if Nat.eqb (length filtered) (length kidNames)
  then (kidNames, true) else (filtered, false).

(** [counts.get(name) ?? 0] after [countChildren(kidNames)] *)
Definition countOf (name : str) (kidNames : list str) : nat :=
  length (List.filter (fun n => str_eqb n name) kidNames).

(** [countForName(name, counts, xsd)] *)
Definition countForName (name : str) (kidNames : list str) (xsd : XsdIndex) : nat :=
  let total := countOf name kidNames in
  match substitutionGroups xsd !! name with
  | Some subs => foldl (fun t s => t + countOf s kidNames) total subs
  | None => total
  end.

(** [requiredChildrenSatisfied(particle, counts, xsd)]; [None] when the
    recursion through group references does not end within [fuel]. *)
Fixpoint requiredChildrenSatisfied (fuel : nat) (xsd : XsdIndex) (kidNames : list str)
  : XsdParticle -> option bool :=
  fix go (particle : XsdParticle) : option bool :=
    match particle with
    | PEmpty _ | PAny _ => Some true
    | PElement name o => Some (omin o <=? Z.of_nat (countForName name kidNames xsd))%Z
    | PSequence items o | PAll items o =>
        if (omin o =? 0)%Z then Some true else
        (fix each (its : list XsdParticle) : option bool :=
           match its with
           | [] => Some true
           | it :: rest =>
               match go it with
               | None => None
               | Some false => Some false
               | Some true => each rest
               end
           end) items
    | PChoice items o =>
        if (omin o =? 0)%Z then Some true else
        (fix some (its : list XsdParticle) : option bool :=
           match its with
           | [] => Some false
           | it :: rest =>
               match go it with
               | None => None
               | Some true => Some true
               | Some false => some rest
               end
           end) items
    | PGroupRef ref o =>
        if (omin o =? 0)%Z then Some true else
        match groups xsd !! ref with
        | None => Some true
        | Some group =>
            match fuel with
            | O => None
            | S f => requiredChildrenSatisfied f xsd kidNames group
            end
        end
    end.

(** ** Particle matching *)

(** The identity of a particle object ([idOf(node)]): the root particle
    or the named group it belongs to, and its place below it. Distinct
    objects of one schema have distinct places. *)
Abbreviation NodeId := (option str * list nat)%type.

Definition child (id : NodeId) (k : nat) : NodeId := (id.1, id.2 ++ [k]).

(** The memo table, keyed by [`${idOf(node)}@${pos}`]. *)
Abbreviation Memo := (gmap (NodeId * nat) (list nat)).

(** Computations that read and write the memo table and may fail to end. *)
Definition M (A : Type) : Type := Memo -> option (A * Memo).

Definition mret {A} (x : A) : M A := fun m => Some (x, m).
Definition mbind {A B} (c : M A) (k : A -> M B) : M B :=
  fun m => match c m with
           | None => None
           | Some (x, m') => k x m'
           end.
Definition mfail {A} : M A := fun _ => None.

Notation "'let*' x ':=' c 'in' k" := (mbind c (fun x => k))
  (at level 10, x name, c at level 100, k at level 200).

Definition adds (acc es : list nat) : list nat :=
  foldl (fun a e => set_add e a) acc es.

(** [for (const p of current) for (const e of onceEnds(p)) next.add(e)] *)
Fixpoint collect (once : nat -> M (list nat)) (current next : list nat) : M (list nat) :=
  match current with
  | [] => mret next
  | p :: rest => let* es := once p in collect once rest (adds next es)
  end.

(** The loop over the required occurrences; [None] is the early exit on
    an empty position set. *)
Fixpoint required (n : nat) (once : nat -> M (list nat)) (current : list nat)
  : M (option (list nat)) :=
  match n with
  | O => mret (Some current)
  | S n' =>
      let* next := collect once current [] in
      if is_nil next then mret None else required n' once next
  end.

(** The loop over the optional extra occurrences. *)
Fixpoint extras (n : nat) (once : nat -> M (list nat)) (prev results : list nat)
  : M (list nat) :=
  match n with
  | O => mret results
  | S n' =>
      let* next := collect once prev [] in
      let progressed := existsb (fun e => negb (has e prev)) next in
      let results' := adds results next in
      if is_nil next || negb progressed then mret results'
      else extras n' once next results'
  end.

(** [allSatisfied(items, prefix)] *)
Definition allSatisfied (items : list XsdParticle) (prefix : list str) : bool :=
  let isAny := fun i => match i with PAny _ => true | _ => false end in
  let anyItems := List.filter isAny items in
  let namesOk :=
    if is_nil anyItems then
      forallb (fun it => match it with PElement _ _ => true | _ => false end) items
      && forallb (fun n => has n (omap (fun it => match it with
                                                   | PElement nm _ => Some nm
                                                   | _ => None
                                                   end) items)) prefix
    else true in
  namesOk &&
  forallb (fun it =>
    match it with
    | PElement nm o =>
        let c := Z.of_nat (countOf nm prefix) in
        let maxN := match omax o with Unbounded => 9007199254740991%Z | MaxN m => m end in
        negb ((c <? omin o)%Z || (maxN <? c)%Z)
    | PAny _ => true
    | _ => false
    end) items.

(** The loop of [matchOnce] over the items of a sequence; [k] is the
    place of the first of [its] among the items. *)
Fixpoint seqLoop (rec : XsdParticle -> NodeId -> nat -> M (list nat)) (id : NodeId)
    (its : list XsdParticle) (k : nat) (positions : list nat) : M (list nat) :=
  match its with
  | [] => mret positions
  | it :: rest =>
      let* next := collect (rec it (child id k)) positions [] in
      if is_nil next then mret next else seqLoop rec id rest (S k) next
  end.

(** The loop of [matchOnce] over the items of a choice. *)
Fixpoint altLoop (rec : XsdParticle -> NodeId -> nat -> M (list nat)) (id : NodeId)
    (pos : nat) (its : list XsdParticle) (k : nat) (out : list nat) : M (list nat) :=
  match its with
  | [] => mret out
  | it :: rest =>
      let* es := rec it (child id k) pos in
      altLoop rec id pos rest (S k) (adds out es)
  end.

Section Matcher.
Context (xsd : XsdIndex) (children : list str).

(** [matchOnce(node, children, pos, xsd, memo)], given [match] on the
    items of [node] ([rec]) and on a named group ([grp]). *)
Definition matchOnce
    (rec : XsdParticle -> NodeId -> nat -> M (list nat))
    (grp : XsdParticle -> NodeId -> nat -> M (list nat))
    (node : XsdParticle) (id : NodeId) (pos : nat) : M (list nat) :=
  match node with
  | PEmpty _ => mret [pos]
  | PElement name _ =>
      mret (match children !! pos with
            | Some c => if matchesElementName name c xsd then [pos + 1] else []
            | None => []
            end)
  | PAny _ => mret (if pos <? length children then [pos + 1] else [])
  | PGroupRef ref _ =>
      match groups xsd !! ref with
      | None => mret []
      | Some g => grp g (Some ref, []) pos
      end
  | PSequence items _ => seqLoop rec id items 0 [pos]
  | PChoice items _ => altLoop rec id pos items 0 []
  | PAll items _ =>
      mret (List.filter (fun e => allSatisfied items (slice children pos e))
              (seq pos (S (length children) - pos)))
  end.

(** The body of [match] once the memo table has no entry for the key. *)
Definition matchBody (once : nat -> M (list nat))
    (node : XsdParticle) (id : NodeId) (pos : nat) : M (list nat) :=
  let min := omin (p_occurs node) in
  let maxCount :=
    match omax (p_occurs node) with
    | Unbounded => (Z.of_nat (length children) - Z.of_nat pos)%Z
    | MaxN m => m
    end in
  let* cur := required (Z.to_nat min) once [pos] in
  match cur with
  | None => fun memo => Some ([], <[(id, pos) := []]> memo)
  | Some current =>
      let* results := extras (Z.to_nat (maxCount - min)) once current current in
      let out := merge_sort le results in
      fun memo => Some (out, <[(id, pos) := out]> memo)
  end.
End Matcher.

(** [match(node, children, pos, xsd, memo)]. The recursion through
    [xsd.groups] is bounded by [fuel]; the result is [None] when it runs
    out. *)
Fixpoint match_ (fuel : nat) (xsd : XsdIndex) (children : list str) {struct fuel}
  : XsdParticle -> NodeId -> nat -> M (list nat) :=
  fix go (node : XsdParticle) (id : NodeId) (pos : nat) {struct node} : M (list nat) :=
    fun memo =>
      match memo !! (id, pos) with
      | Some cached => Some (cached, memo)
      | None =>
          matchBody children
            (fun p => matchOnce xsd children go
                        (match fuel with
                         | O => fun _ _ _ => mfail
                         | S f => match_ f xsd children
                         end) node id p)
            node id pos memo
      end.

(** [matchesParticle(p, children, xsd)] *)
Definition matchesParticle (fuel : nat) (p : XsdParticle) (children : list str)
    (xsd : XsdIndex) : option bool :=
  match match_ fuel xsd children p (None, []) 0 ∅ with
  | None => None
  | Some (ends, _) => Some (has (length children) ends)
  end.

(** ** Formatting *)

(** [formatOccurs(o)] *)
Definition formatOccurs (o : Occurs) : str :=
  let max := match omax o with Unbounded => [8734%N] | MaxN m => showZ m end in
  match omin o, omax o with
  | 1%Z, MaxN 1%Z => []
  | _, _ => lit "{" ++ showZ (omin o) ++ lit ".." ++ max ++ lit "}"
  end.

(** [formatParticle(p)] *)
Fixpoint formatParticle (p : XsdParticle) : str :=
  let core :=
    match p with
    | PEmpty _ => [8709%N]
    | PAny _ => lit "<any>"
    | PElement nm _ => lit "<" ++ nm ++ lit ">"
    | PGroupRef r _ => lit "group(" ++ r ++ lit ")"
    | PSequence items _ => lit "seq(" ++ join (lit ", ") (map formatParticle items) ++ lit ")"
    | PChoice items _ => lit "choice(" ++ join (lit " | ") (map formatParticle items) ++ lit ")"
    | PAll items _ => lit "all(" ++ join (lit ", ") (map formatParticle items) ++ lit ")"
    end in
  core ++ formatOccurs (p_occurs p).

(** ** Walking the document *)

Definition ignoredAttr (a : str) : bool :=
  existsb (fun p => startsWith a p) IGNORED_ATTR_PREFIXES.

(** [validateAttrs(el, elementName, def, here, errors)]: the errors it
    pushes, in order. [a in attrsObj] also holds of the members the
    attribute object inherits ([attr_in]). *)
Definition validateAttrs (el : Node) (elementName : str) (def : XsdElementDef)
    (here : str) : list ValidationError :=
  let attrsObj := el_attributes el in
  let present := List.filter (fun a => negb (ignoredAttr a)) (map fst attrsObj) in
  let unknown :=
    if xe_allowAnyAttribute def then [] else
    omap (fun a =>
      if isSome (assoc a (xe_attributes def)) || isCompatAttrAllowed elementName a
      then None
      else Some {| path := here;
                   msg := lit "Unknown attribute " ++ dq ++ a ++ dq ++ lit " on <"
                          ++ elementName ++ lit ">" |}) present in
  let missing :=
    omap (fun '(a, decl) =>
      if str_eqb (use decl) (lit "required") && negb (attr_in attrsObj a)
      then Some {| path := here;
                   msg := lit "Missing required attribute " ++ dq ++ a ++ dq
                          ++ lit " on <" ++ elementName ++ lit ">" |}
      else None) (xe_attributes def) in
  let values :=
    flat_map (fun a =>
      match assoc a (xe_attributes def) with
      | None => []
      | Some decl =>
          let value := default [] (attr_get attrsObj a) in
          (match fixed decl with
           | Some f =>
               if str_eqb value f then [] else
               [{| path := here;
                   msg := lit "Attribute " ++ dq ++ a ++ dq ++ lit " is fixed to "
                          ++ dq ++ f ++ dq ++ lit ", got " ++ dq ++ value ++ dq |}]
           | None => []
           end) ++
          (match enum decl with
           | Some en =>
               if has value en then [] else
               [{| path := here;
                   msg := lit "Attribute " ++ dq ++ a ++ dq ++ lit " must be one of ("
                          ++ join (lit "|") en ++ lit "), got " ++ dq ++ value ++ dq |}]
           | None => []
           end)
      end) present in
  unknown ++ missing ++ values.

Definition kidNamesOf (el : Node) : list str :=
  map (fun k => localName (el_name k)) (childElements el).

Definition orElse (a : option bool) (b : option bool) : option bool :=
  match a with
  | None => None
  | Some true => Some true
  | Some false => b
  end.

(** [validateChildren(el, elementName, def, here, xsd, errors)]: the
    errors it pushes. *)
Definition validateChildren (fuel : nat) (el : Node) (elementName : str)
    (def : XsdElementDef) (here : str) (xsd : XsdIndex)
  : option (list ValidationError) :=
  let kidNames := kidNamesOf el in
  let '(compatKidNames, same) := filterCompatChildren kidNames in
  let textErr :=
    match nonWhitespaceText el with
    | Some _ =>
        if xe_mixed def then [] else
        [{| path := here;
            msg := lit "<" ++ elementName ++ lit "> does not allow character data" |}]
    | None => []
    end in
  match orElse (matchesParticle fuel (xe_content def) kidNames xsd)
               (if same then Some false
                else matchesParticle fuel (xe_content def) compatKidNames xsd) with
  | None => None
  | Some true => Some textErr
  | Some false =>
      let mismatch :=
        {| path := here;
           msg := lit "Child elements do not match XSD model: expected "
                  ++ formatParticle (xe_content def) ++ lit ", got ("
                  ++ join (lit ", ") kidNames ++ lit ")" |} in
      if has elementName RELAXED_CHILD_ORDER
         && childrenAllowedBySet (xe_allowedChildren def) compatKidNames
      then
        match requiredChildrenSatisfied fuel xsd compatKidNames (xe_content def) with
        | None => None
        | Some true => Some textErr
        | Some false => Some (textErr ++ [mismatch])
        end
      else Some (textErr ++ [mismatch])
  end.

(** [walk(el, path, expectedRoot, xsd, errors)]: the errors pushed for
    [el] and, after them, for its child elements in document order. *)
Fixpoint walk (fuel : nat) (expectedRoot : str) (xsd : XsdIndex)
    (el : Node) (path_ : str) {struct el} : option (list ValidationError) :=
  let name := localName (el_name el) in
  let here := match path_ with
              | [] => lit "/" ++ name
              | _ => path_ ++ lit "/" ++ name
              end in
  let rootErr :=
    if is_nil path_ && negb (str_eqb name expectedRoot)
    then [{| path := here; msg := lit "Root must be <" ++ expectedRoot ++ lit ">" |}]
    else [] in
  let own :=
    match resolveElementDef name xsd with
    | None =>
        Some [{| path := here;
                 msg := lit "Element <" ++ name ++ lit "> not declared in XSD" |}]
    | Some def =>
        match validateChildren fuel el name def here xsd with
        | None => None
        | Some ce => Some (validateAttrs el name def here ++ ce)
        end
    end in
  match own with
  | None => None
  | Some ownErrs =>
      match
        match el with
        | Element _ _ cs =>
            (fix kids (cs : list Node) : option (list ValidationError) :=
               match cs with
               | [] => Some []
               | (Element _ _ _ as k) :: rest =>
                   match walk fuel expectedRoot xsd k here with
                   | None => None
                   | Some e1 =>
                       match kids rest with
                       | None => None
                       | Some e2 => Some (e1 ++ e2)
                       end
                   end
               | _ :: rest => kids rest
               end) cs
        | _ => Some []
        end
      with
      | None => None
      | Some kidErrs => Some (rootErr ++ ownErrs ++ kidErrs)
      end
  end.

(** [validateAgainstXsd(root, expectedRoot, xsd)]; [None] when the
    validation does not come to an end within [fuel]. *)
Definition validateAgainstXsd (fuel : nat) (root : Node) (expectedRoot : str)
    (xsd : XsdIndex) : option outcome :=
  match walk fuel expectedRoot xsd root [] with
  | None => None
  | Some [] => Some Returns
  | Some errors =>
      Some (Throws (lit "XSD validation failed:" ++ nl
                    ++ join nl (map formatError errors)))
  end.

End Xsd.

(** * DTD index types ([dtd_index.ts]) *)

Inductive DtdOccurs : Type := One | Opt | Star | Plus.

Inductive DtdContentModel : Type :=
| NAME (name : str) (occurs : DtdOccurs)
| PCDATA (occurs : DtdOccurs)
| SEQ (items : list DtdContentModel) (occurs : DtdOccurs)
| CHOICE (items : list DtdContentModel) (occurs : DtdOccurs).

Definition d_occurs (m : DtdContentModel) : DtdOccurs :=
  match m with
  | NAME _ o | PCDATA o | SEQ _ o | CHOICE _ o => o
  end.

Definition d_items (m : DtdContentModel) : list DtdContentModel :=
  match m with
  | SEQ its _ | CHOICE its _ => its
  | _ => []
  end.

Inductive DtdAttrType : Type :=
| CDATA
| ENUM (values : list str)
| OTHER (name : str).

Inductive DtdAttrDefault : Type :=
| REQUIRED
| IMPLIED
| FIXED (value : str)
| DEFAULT (value : str).

Record DtdAttributeDecl := {
  da_name : str;
  da_type : DtdAttrType;
  da_defaultDecl : DtdAttrDefault;
}.

Inductive DtdContent : Type :=
| ContentANY
| ContentEMPTY
| ContentModel (m : DtdContentModel).

Record DtdElement := {
  de_name : str;
  de_content : DtdContent;
  de_allowedChildren : AllowedChildren;
  de_attrs : list (str * DtdAttributeDecl);
  de_declaredAttrs : list str;
  de_requiredAttrs : list str;
}.

Record DtdIndex := { dtd_elements : gmap str DtdElement }.

(** * DTD validator ([dtd_validator.ts]) *)

Module Dtd.

Definition IGNORE_ATTR_PREFIX : list str :=
  [lit "xmlns"; lit "xml:"; lit "xsi:"].

(** [isPcdataOnly(m)] *)
Definition isPcdataOnly (m : DtdContentModel) : bool :=
  match m with PCDATA _ => true | _ => false end.

(** [getMixedAllowedNames(m)] *)
Definition getMixedAllowedNames (m : DtdContentModel) : option (list str) :=
  match m with
  | CHOICE items Star =>
      (fix go (its : list DtdContentModel) (hasPcdata : bool) (names : list str)
         : option (list str) :=
         match its with
         | [] => if hasPcdata then Some names else None
         | PCDATA One :: rest => go rest true names
         | NAME nm One :: rest => go rest hasPcdata (set_add nm names)
         | _ => None
         end) items false []
  | _ => None
  end.

(** [occursToRange(o)]; [None] for ["unbounded"]. *)
Definition occursToRange (o : DtdOccurs) : nat * option nat :=
  match o with
  | Opt => (0, Some 1)
  | Star => (0, None)
  | Plus => (1, None)
  | One => (1, Some 1)
  end.

(** ** Content model matching *)

(** The identity of a content-model node ([idOf(node)]): its place in
    the model being matched. *)
Abbreviation NodeId := (list nat).

(** The memo table, keyed by [`${idOf(node)}@${pos}`]. *)
Abbreviation Memo := (gmap (NodeId * nat) (list nat)).

(** Computations that read and write the memo table. *)
Definition M (A : Type) : Type := Memo -> A * Memo.

Definition mret {A} (x : A) : M A := fun m => (x, m).
Definition mbind {A B} (c : M A) (k : A -> M B) : M B :=
  fun m => let '(x, m') := c m in k x m'.

Notation "'let*' x ':=' c 'in' k" := (mbind c (fun x => k))
  (at level 10, x name, c at level 100, k at level 200).

Definition adds (acc es : list nat) : list nat :=
  foldl (fun a e => set_add e a) acc es.

(** [for (const p of current) for (const e of onceEnds(p)) next.add(e)] *)
Fixpoint collect (once : nat -> M (list nat)) (current next : list nat) : M (list nat) :=
  match current with
  | [] => mret next
  | p :: rest => let* es := once p in collect once rest (adds next es)
  end.

(** The loop over the required occurrences; [None] is the early exit on
    an empty position set. *)
Fixpoint required (n : nat) (once : nat -> M (list nat)) (current : list nat)
  : M (option (list nat)) :=
  match n with
  | O => mret (Some current)
  | S n' =>
      let* next := collect once current [] in
      if is_nil next then mret None else required n' once next
  end.

(** The loop over the optional extra occurrences. *)
Fixpoint extras (n : nat) (once : nat -> M (list nat)) (prev results : list nat)
  : M (list nat) :=
  match n with
  | O => mret results
  | S n' =>
      let* next := collect once prev [] in
      let progressed := existsb (fun e => negb (has e prev)) next in
      let results' := adds results next in
      if is_nil next || negb progressed then mret results'
      else extras n' once next results'
  end.

(** The loop of [matchOnce] over the items of a [SEQ]; [k] is the
    place of the first of [its] among the items. *)
Fixpoint seqLoop (rec : DtdContentModel -> NodeId -> nat -> M (list nat)) (id : NodeId)
    (its : list DtdContentModel) (k : nat) (positions : list nat) : M (list nat) :=
  match its with
  | [] => mret positions
  | it :: rest =>
      let* next := collect (rec it (id ++ [k])) positions [] in
      if is_nil next then mret next else seqLoop rec id rest (S k) next
  end.

(** The loop of [matchOnce] over the items of a [CHOICE]. *)
Fixpoint altLoop (rec : DtdContentModel -> NodeId -> nat -> M (list nat)) (id : NodeId)
    (pos : nat) (its : list DtdContentModel) (k : nat) (out : list nat) : M (list nat) :=
  match its with
  | [] => mret out
  | it :: rest =>
      let* es := rec it (id ++ [k]) pos in
      altLoop rec id pos rest (S k) (adds out es)
  end.

Section Matcher.
Context (children : list str).

(** [matchOnce(node, children, pos, memo)], given [match] on the items
    of [node]. *)
Definition matchOnce (rec : DtdContentModel -> NodeId -> nat -> M (list nat))
    (node : DtdContentModel) (id : NodeId) (pos : nat) : M (list nat) :=
  match node with
  | NAME name _ =>
      mret (match children !! pos with
            | Some c => if str_eqb c name then [pos + 1] else []
            | None => []
            end)
  | PCDATA _ => mret [pos]
  | SEQ items _ => seqLoop rec id items 0 [pos]
  | CHOICE items _ => altLoop rec id pos items 0 []
  end.

(** The body of [match] once the memo table has no entry for the key. *)
Definition matchBody (once : nat -> M (list nat))
    (node : DtdContentModel) (id : NodeId) (pos : nat) : M (list nat) :=
  let '(min, max) := occursToRange (d_occurs node) in
  let* cur := required min once [pos] in
  match cur with
  | None => fun memo => ([], <[(id, pos) := []]> memo)
  | Some current =>
      let maxExtra :=
        match max with
        | None => length children - pos
        | Some mx => mx - min
        end in
      let* results := extras maxExtra once current current in
      let out := merge_sort le results in
      fun memo => (out, <[(id, pos) := out]> memo)
  end.

(** [match(node, children, pos, memo)] *)
Fixpoint match_ (node : DtdContentModel) (id : NodeId) (pos : nat) {struct node}
  : M (list nat) :=
  fun memo =>
    match memo !! (id, pos) with
    | Some cached => (cached, memo)
    | None =>
        matchBody (fun p => matchOnce match_ node id p) node id pos memo
    end.

(** [matchesDtdModel(model, children)] *)
Definition matchesDtdModel (model : DtdContentModel) : bool :=
  has (length children) (match_ model [] 0 ∅).1.
End Matcher.

(** ** Formatting *)

(** [applyOccurs(s, o)] *)
Definition applyOccurs (s : str) (o : DtdOccurs) : str :=
  match o with
  | One => s
  | Opt => s ++ lit "?"
  | Star => s ++ lit "*"
  | Plus => s ++ lit "+"
  end.

(** [formatDtdModel(m)] *)
Fixpoint formatDtdModel (m : DtdContentModel) : str :=
  let core :=
    match m with
    | NAME nm _ => nm
    | PCDATA _ => lit "(#PCDATA)"
    | SEQ items _ => lit "(" ++ join (lit ",") (map formatDtdModel items) ++ lit ")"
    | CHOICE items _ => lit "(" ++ join (lit "|") (map formatDtdModel items) ++ lit ")"
    end in
  applyOccurs core (d_occurs m).

(** ** Walking the document *)

Definition ignoredAttr (a : str) : bool :=
  existsb (fun p => startsWith a p) IGNORE_ATTR_PREFIX.

Fixpoint assoc {V} (k : str) (m : list (str * V)) : option V :=
  match m with
  | [] => None
  | (k', v) :: rest => if str_eqb k' k then Some v else assoc k rest
  end.

(** [validateAttrValue(decl, value, here, errors)] *)
Definition validateAttrValue (decl : DtdAttributeDecl) (value here : str)
  : list ValidationError :=
  (match da_type decl with
   | ENUM values =>
       if has value values then [] else
       [{| path := here;
           msg := lit "Attribute " ++ dq ++ da_name decl ++ dq ++ lit " must be one of ("
                  ++ join (lit "|") values ++ lit "), got " ++ dq ++ value ++ dq |}]
   | _ => []
   end) ++
  (match da_defaultDecl decl with
   | FIXED v =>
       if str_eqb value v then [] else
       [{| path := here;
           msg := lit "Attribute " ++ dq ++ da_name decl ++ dq ++ lit " is #FIXED to "
                  ++ dq ++ v ++ dq ++ lit ", got " ++ dq ++ value ++ dq |}]
   | _ => []
   end).

(** [validateAttrs(el, def, here, errors)]: the errors it pushes, in
    order. [req in attrsObj] also holds of the members the attribute
    object inherits ([attr_in]). *)
Definition validateAttrs (el : Node) (def : DtdElement) (here : str)
  : list ValidationError :=
  let attrsObj := el_attributes el in
  flat_map (fun '(a, v) =>
    if ignoredAttr a then [] else
    match assoc a (de_attrs def) with
    | None =>
        [{| path := here;
            msg := lit "Unknown attribute " ++ dq ++ a ++ dq ++ lit " on <"
                   ++ de_name def ++ lit ">" |}]
    | Some decl => validateAttrValue decl (default [] (attr_get attrsObj a)) here
    end) attrsObj
  ++
  omap (fun req =>
    if attr_in attrsObj req then None else
    Some {| path := here;
            msg := lit "Missing required attribute " ++ dq ++ req ++ dq ++ lit " on <"
                   ++ de_name def ++ lit ">" |}) (de_requiredAttrs def).

Definition kidNamesOf (el : Node) : list str :=
  map (fun k => localName (el_name k)) (childElements el).

(** [validateChildren(el, def, here, errors)]: the errors it pushes. *)
Definition validateChildren (el : Node) (def : DtdElement) (here : str)
  : list ValidationError :=
  let kidNames := kidNamesOf el in
  let nonWsText := nonWhitespaceText el in
  match de_content def with
  | ContentEMPTY =>
      (if is_nil kidNames then [] else
       [{| path := here;
           msg := lit "<" ++ de_name def ++ lit "> must be EMPTY (no child elements)" |}])
      ++
      (if isSome nonWsText then
       [{| path := here;
           msg := lit "<" ++ de_name def ++ lit "> must be EMPTY (no character data)" |}]
       else [])
  | ContentANY => []
  | ContentModel model =>
      if isPcdataOnly model then
        if is_nil kidNames then [] else
        [{| path := here;
            msg := lit "<" ++ de_name def ++ lit "> allows only #PCDATA (no child elements)" |}]
      else
      match getMixedAllowedNames model with
      | Some mixed =>
          omap (fun childName =>
            if has childName mixed then None else
            Some {| path := here ++ lit "/" ++ childName;
                    msg := lit "Child <" ++ childName
                           ++ lit "> not allowed in mixed content of <"
                           ++ de_name def ++ lit ">" |}) kidNames
      | None =>
          (if isSome nonWsText then
           [{| path := here;
               msg := lit "<" ++ de_name def ++ lit "> does not allow character data" |}]
           else [])
          ++
          (if matchesDtdModel kidNames model then [] else
           [{| path := here;
               msg := lit "Child elements do not match DTD content model: expected "
                      ++ formatDtdModel model ++ lit ", got ("
                      ++ join (lit ", ") kidNames ++ lit ")" |}])
      end
  end.

(** [walk(el, path, expectedRoot, dtd, errors)]: the errors pushed for
    [el] and, after them, for its child elements in document order. *)
Fixpoint walk (expectedRoot : str) (dtd : DtdIndex) (el : Node) (path_ : str)
    {struct el} : list ValidationError :=
  let name := localName (el_name el) in
  let here := match path_ with
              | [] => lit "/" ++ name
              | _ => path_ ++ lit "/" ++ name
              end in
  let rootErr :=
    if is_nil path_ && negb (str_eqb name expectedRoot)
    then [{| path := here; msg := lit "Root must be <" ++ expectedRoot ++ lit ">" |}]
    else [] in
  let own :=
    match dtd_elements dtd !! name with
    | None =>
        [{| path := here;
            msg := lit "Element <" ++ name ++ lit "> not declared in DTD" |}]
    | Some def => validateAttrs el def here ++ validateChildren el def here
    end in
  let kidErrs :=
    match el with
    | Element _ _ cs =>
        (fix kids (cs : list Node) : list ValidationError :=
           match cs with
           | [] => []
           | (Element _ _ _ as k) :: rest => walk expectedRoot dtd k here ++ kids rest
           | _ :: rest => kids rest
           end) cs
    | _ => []
    end in
  rootErr ++ own ++ kidErrs.

(** [validateAgainstDtd(root, expectedRoot, dtd)] *)
Definition validateAgainstDtd (root : Node) (expectedRoot : str) (dtd : DtdIndex)
  : outcome :=
  match walk expectedRoot dtd root [] with
  | [] => Returns
  | errors =>
      Throws (lit "DTD validation failed:" ++ nl ++ join nl (map formatError errors))
  end.

End Dtd.

(** * Sanitizer ([xast_xml.ts]) *)

(** A value or a thrown [Error]. *)
Inductive result (A : Type) : Type :=
| Ok (value : A)
| Throw (message : str).
Arguments Ok {A} _.
Arguments Throw {A} _.

Fixpoint takeWhile {A} (f : A -> bool) (l : list A) : list A :=
  match l with
  | [] => []
  | x :: r => if f x then x :: takeWhile f r else []
  end.

Fixpoint dropWhile {A} (f : A -> bool) (l : list A) : list A :=
  match l with
  | [] => []
  | x :: r => if f x then dropWhile f r else l
  end.

(** [s.indexOf(pat)] for the text [s] seen from index [i] on. *)
Fixpoint indexOf_aux (s pat : str) (i : nat) : option nat :=
  match s with
  | [] => if is_nil pat then Some i else None
  | _ :: r => if startsWith s pat then Some i else indexOf_aux r pat (S i)
  end.

(** [s.indexOf(pat, from)] *)
Definition indexOf (s pat : str) (from : nat) : option nat :=
  indexOf_aux (drop from s) pat (Nat.min from (length s)).

Definition isDigit (c : N) : bool := ((48 <=? c) && (c <=? 57))%N.
Definition isUpper (c : N) : bool := ((65 <=? c) && (c <=? 90))%N.
Definition isLower (c : N) : bool := ((97 <=? c) && (c <=? 122))%N.
Definition isLetter (c : N) : bool := isUpper c || isLower c.
Definition isHexDigit (c : N) : bool :=
  isDigit c || ((65 <=? c) && (c <=? 70))%N || ((97 <=? c) && (c <=? 102))%N.

(** [/\w/] *)
Definition isWord (c : N) : bool := isLetter c || isDigit c || (c =? 95)%N.

(** [toLowerCase()] on ASCII text: the tag names and entity names the
    sanitizer lower-cases are ASCII by the expressions that read them,
    and so are the container names of [DEFAULTS]. The lower-case
    mapping of other code units (a configured container name may hold
    them) is not modelled: they are kept. *)
Definition lowerChar (c : N) : N := if isUpper c then (c + 32)%N else c.
Definition toLowerCase (s : str) : str := map lowerChar s.

(** The value of a run of decimal digits ([Number(n)]). *)
Definition digitsValue (ds : str) : nat :=
  foldl (fun acc d => 10 * acc + N.to_nat (d - 48)) 0 ds.

(** ** Numbers as a template prints them *)

(** A JavaScript number by the decimal digits that print it: [NaN],
    an infinity, or [digits * 10 ^ exponent] with a sign. The values of
    a [Record<string, number>] are such numbers; [ofN] is the integer
    literal. *)
Module JsNumber.

Inductive t : Type :=
| NaN
| Infinity (negative : bool)
| Finite (negative : bool) (digits : N) (exponent : Z).

Definition ofN (n : N) : t := Finite false n 0.

Definition zeros (n : nat) : str := replicate n 48%N.

(** [Number::toString] for the positive number [s * 10 ^ e]: with [k]
    significant digits and the decimal point after the [n]-th, plain
    digits up to [n = 21], a fraction down to [n = -5], and the
    exponent form past either end. *)
Definition printFinite (s : N) (e : Z) : str :=
  let ds := lit (pretty s) in
  let z := length (takeWhile (N.eqb 48) (reverse ds)) in
  let sig := take (length ds - z) ds in
  let k := Z.of_nat (length sig) in
  let n := (k + Z.of_nat z + e)%Z in
  if (k <=? n)%Z && (n <=? 21)%Z then sig ++ zeros (Z.to_nat (n - k))
  else if (0 <? n)%Z && (n <=? 21)%Z then
    take (Z.to_nat n) sig ++ lit "." ++ drop (Z.to_nat n) sig
  else if (-6 <? n)%Z && (n <=? 0)%Z then
    lit "0." ++ zeros (Z.to_nat (- n)) ++ sig
  else
    let ex := lit (if (n - 1 <? 0)%Z then "-" else "+")
              ++ lit (pretty (Z.to_N (Z.abs (n - 1)))) in
    match sig with
    | [] => []
    | [d] => [d] ++ lit "e" ++ ex
    | d :: more => [d] ++ lit "." ++ more ++ lit "e" ++ ex
    end.

(** [`${x}`] for a number [x]. *)
Definition toString (x : t) : str :=
  match x with
  | NaN => lit "NaN"
  | Infinity negative => lit (if negative then "-Infinity" else "Infinity")
  | Finite negative s e =>
      if (s =? 0)%N then lit "0"
      else (if negative then lit "-" else []) ++ printFinite s e
  end.

(** A non-negative integer written with at most 21 digits: the numbers
    that print as their digits alone. *)
Definition isShortInteger (x : t) : Prop :=
  match x with
  | Finite false s e =>
      (0 <= e)%Z /\ (s = 0%N \/ (Z.of_nat (length (lit (pretty s))) + e <= 21)%Z)
  | _ => False
  end.

End JsNumber.

Module Sanitizer.

Inductive EntityPolicy : Type := convert | escape | error.

(** [XmlSanitizeOptions] with every key present (the audit hook
    [onChange] only observes the rewrites and is left out). *)
Record XmlSanitizeOptions := {
  stripProlog_ : bool;
  fixInvalidComments : bool;
  scrubInvalidXmlChars : bool;
  normalizeUnicodeSpacesInTags : bool;
  entityPolicy : EntityPolicy;
  namedEntities : list (str * JsNumber.t);
  richTextContainers : list str;
  inlineTextContainers : list str;
  forceTextInContainers : bool;
  escapeUnknownTagMentionsInText : bool;
  allowedInlineTags : list str;
  allowedRichTags : list str;
  escapeBareAnglesInText : bool;
}.

Definition ALLOW_INLINE_DEFAULT : list str :=
  map lit
    ["a"; "em"; "strong"; "b"; "i"; "u"; "s"; "code"; "kbd"; "var"; "samp";
     "sub"; "sup"; "span"; "small"; "abbr"; "cite"; "q"; "mark"; "del"; "ins";
     "br"; "img"; "tt";
     "emphasis"; "format"; "path"; "control"; "tooltip"; "math"; "icon";
     "ui-path"; "shortcut"]%string.

Definition ALLOW_RICH_DEFAULT : list str :=
  ALLOW_INLINE_DEFAULT ++
  map lit
    ["p"; "pre"; "ul"; "ol"; "li"; "table"; "thead"; "tbody"; "tfoot"; "tr";
     "td"; "th"; "dl"; "dt"; "dd"; "blockquote"; "figure"; "figcaption"; "hr";
     "h1"; "h2"; "h3"; "h4"; "h5"; "h6";
     "list"; "deflist"; "def"; "tabs"; "tab"; "compare"; "code-block"; "video";
     "inline-frame"; "resource"; "property"; "seealso"; "category"; "group";
     "links"; "cards"; "card"; "spotlight"; "description"; "tldr"; "primary";
     "secondary"; "misc"]%string.

Definition DEFAULTS : XmlSanitizeOptions := {|
  stripProlog_ := true;
  fixInvalidComments := true;
  scrubInvalidXmlChars := true;
  normalizeUnicodeSpacesInTags := true;
  entityPolicy := convert;
  namedEntities := [];
  richTextContainers :=
    map lit ["documentation"; "link-summary"; "card-summary"; "web-summary";
             "description"; "tldr"]%string;
  inlineTextContainers := [lit "p"];
  forceTextInContainers := false;
  escapeUnknownTagMentionsInText := true;
  allowedInlineTags := ALLOW_INLINE_DEFAULT;
  allowedRichTags := ALLOW_RICH_DEFAULT;
  escapeBareAnglesInText := true;
|}.

(** [isAlphaNum(ch)] *)
Definition isAlphaNum (c : N) : bool :=
  isDigit c || isUpper c || isLower c
  || (c =? 95)%N || (c =? 58)%N || (c =? 45)%N || (c =? 46)%N.

(** ** Code fences *)

(** The text after the first line feed. *)
Fixpoint afterNewline (s : str) : option str :=
  match s with
  | [] => None
  | c :: r => if (c =? 10)%N then Some r else afterNewline r
  end.

(** Removing the first match of a pattern that is a line feed followed
    by [tail] up to the end of the text: cut at the first line feed
    whose remainder satisfies [tail]. *)
Fixpoint cutAtNewline (tail : str -> bool) (s : str) : str :=
  match s with
  | [] => []
  | c :: r => if (c =? 10)%N && tail r then [] else c :: cutAtNewline tail r
  end.

(** A run of three or more [ch], then white space up to the end. *)
Definition fenceTail (ch : N) (r : str) : bool :=
  (3 <=? length (takeWhile (N.eqb ch) r)) && forallb isJsSpace (dropWhile (N.eqb ch) r).

(** [stripCodeFences(input)] *)
Definition stripCodeFences (input : str) : str :=
  let body := dropWhile isJsSpace input in
  let s :=
    if startsWith body (lit "``") || startsWith body (lit "~~~") then
      match afterNewline body with
      | Some rest => rest
      | None => input
      end
    else input in
  let s := cutAtNewline (fun r => fenceTail 96 r || fenceTail 126 r) s in
  cutAtNewline (fun r => startsWith r (lit "``") && forallb isJsSpace (drop 2 r)) s.

(** ** Prolog and structural scrubs *)

(** One turn of the scan loop of [stripProlog]: the shortened text and
    whether to go round again. *)
Definition stripPrologStep (s0 : str) : str * bool :=
  let s := dropWhile isJsSpace s0 in
  let advanced := negb (Nat.eqb (length s) (length s0)) in
  let xmlDecl :=
    if startsWith s (lit "<?xml") then
      match indexOf s (lit "?>") 0 with
      | Some e => Some (drop (e + 2) s)
      | None => None
      end
    else None in
  match xmlDecl with
  | Some s' => (s', true)
  | None =>
      let doctype :=
        if startsWith s (lit "<!DOCTYPE") then
          let gt := indexOf s (lit ">") 0 in
          let br := indexOf s (lit "[") 0 in
          match gt, br with
          | Some g, None => Some (drop (g + 1) s)
          | Some g, Some b =>
              if g <? b then Some (drop (g + 1) s) else
              match indexOf s (lit "]>") 0 with
              | Some e => Some (drop (e + 2) s)
              | None => None
              end
          | None, Some _ =>
              match indexOf s (lit "]>") 0 with
              | Some e => Some (drop (e + 2) s)
              | None => None
              end
          | None, None => None
          end
        else None in
      match doctype with
      | Some s' => (s', true)
      | None => (s, advanced)
      end
  end.

Fixpoint stripPrologLoop (fuel : nat) (s : str) : str :=
  match fuel with
  | O => s
  | S f =>
      let '(s', again) := stripPrologStep s in
      if again then stripPrologLoop f s' else s'
  end.

(** [stripProlog(input)]; the loop shortens the text on every turn but
    the last, so [length input + 2] turns are enough. *)
Definition stripProlog (input : str) : str :=
  let s := match input with
           | 65279%N :: r => r
           | _ => input
           end in
  stripPrologLoop (length s + 2) s.

(** [body.replace(/--/g, "- -")] *)
Fixpoint replaceDoubleDash (s : str) : str :=
  match s with
  | 45%N :: r =>
      match r with
      | 45%N :: r' => lit "- -" ++ replaceDoubleDash r'
      | _ => 45%N :: replaceDoubleDash r
      end
  | c :: r => c :: replaceDoubleDash r
  | [] => []
  end.

Fixpoint repairInvalidCommentsLoop (fuel : nat) (s : str) : str :=
  match fuel with
  | O => s
  | S f =>
      match indexOf s (lit "<!--") 0 with
      | None => s
      | Some open =>
          take open s ++
          match indexOf s (lit "-->") (open + 4) with
          | None => drop open s
          | Some close =>
              lit "<!--" ++ replaceDoubleDash (slice s (open + 4) close) ++ lit "-->"
              ++ repairInvalidCommentsLoop f (drop (close + 3) s)
          end
      end
  end.

(** [repairInvalidComments(s)] *)
Definition repairInvalidComments (s : str) : str :=
  repairInvalidCommentsLoop (length s) s.

(** [scrubInvalidXmlCharsInText(s)] *)
Definition scrubInvalidXmlCharsInText (s : str) : str :=
  List.filter (fun code =>
    negb ((code <=? 8) || (code =? 11) || (code =? 12)
          || (14 <=? code) && (code <=? 31)
          || (code =? 65534) || (code =? 65535))%N) s.

(** ** Protected-segment masking *)

(** [token(k)] *)
Definition token (k : nat) : str :=
  [0%N] ++ lit "__HOLE_" ++ showNat k ++ lit "__" ++ [0%N].

(** What [maskProtectedSegments] does at a ["<"] that opens a CDATA
    block, a processing instruction or a comment with its terminator
    present: the length of the segment. *)
Definition protectedSegment (r : str) : option nat :=
  let cdata :=
    if startsWith r (lit "<![CDATA[") then
      match indexOf r (lit "]]>") 9 with
      | Some e => Some (e + 3)
      | None => None
      end
    else None in
  match cdata with
  | Some n => Some n
  | None =>
      let pi :=
        if startsWith r (lit "<?") then
          match indexOf r (lit "?>") 2 with
          | Some e => Some (e + 2)
          | None => None
          end
        else None in
      match pi with
      | Some n => Some n
      | None =>
          if startsWith r (lit "<!--") then
            match indexOf r (lit "-->") 4 with
            | Some e => Some (e + 3)
            | None => None
            end
          else None
      end
  end.

(** The scan loop of [maskProtectedSegments]: the masked text and the
    holes. *)
Fixpoint maskLoop (fuel : nat) (s : str) (holes : list str) : str * list str :=
  match fuel with
  | O => (s, holes)
  | S f =>
      match indexOf s (lit "<") 0 with
      | None => (s, holes)
      | Some lt =>
          let r := drop lt s in
          match protectedSegment r with
          | Some n =>
              let '(out, holes') := maskLoop f (drop n r) (holes ++ [take n r]) in
              (take lt s ++ token (length holes) ++ out, holes')
          | None =>
              let '(out, holes') := maskLoop f (drop 1 r) holes in
              (take lt s ++ lit "<" ++ out, holes')
          end
      end
  end.

(** [maskProtectedSegments(s)]: [text] and the holes [restore] closes over. *)
Definition maskProtectedSegments (s : str) : str * list str :=
  maskLoop (length s) s [].

(** A hole token at the head of [t]: the index it names and the text
    after it ([/\u0000__HOLE_(\d+)__\u0000/]). *)
Definition tokenAt (t : str) : option (nat * str) :=
  if startsWith t ([0%N] ++ lit "__HOLE_") then
    let r := drop 8 t in
    let digits := takeWhile isDigit r in
    let r' := dropWhile isDigit r in
    if negb (is_nil digits) && startsWith r' (lit "__" ++ [0%N])
    then Some (digitsValue digits, drop 3 r')
    else None
  else None.

Fixpoint restoreLoop (fuel : nat) (holes : list str) (t : str) : str :=
  match fuel with
  | O => t
  | S f =>
      match t with
      | [] => []
      | c :: r =>
          match tokenAt t with
          | Some (n, rest) =>
              default (lit "undefined") (holes !! n) ++ restoreLoop f holes rest
          | None => c :: restoreLoop f holes r
          end
      end
  end.

(** [masked.restore(t)] *)
Definition restore (holes : list str) (t : str) : str :=
  restoreLoop (length t) holes t.

(** ** Unicode spaces inside tags *)

(** [UNICODE_SPACE_IN_TAG] *)
Definition isUnicodeSpaceInTag (c : N) : bool :=
  ((c =? 160) || (c =? 5760) || (8192 <=? c) && (c <=? 8202) || (c =? 8239)
   || (c =? 8287) || (c =? 12288) || (c =? 8232) || (c =? 8233))%N.

(** [ZERO_WIDTH_MARKS] *)
Definition isZeroWidthMark (c : N) : bool :=
  ((8203 <=? c) && (c <=? 8205) || (c =? 8288) || (c =? 65279))%N.

(** [isLikelyTagStart(s, i)], given the text after [s[i]]. *)
Definition isLikelyTagStart (after : str) : bool :=
  match after with
  | n :: _ => isLetter n || (n =? 95)%N || (n =? 47)%N || (n =? 63)%N
  | [] => false
  end.

(** The loop of [normalizeUnicodeSpacesInsideTags] in the state
    ([inTag], [quote]). *)
Fixpoint spacesLoop (inTag : bool) (quote : option N) (s : str) : str :=
  match s with
  | [] => []
  | ch :: r =>
      if negb inTag then
        ch :: spacesLoop ((ch =? 60)%N && isLikelyTagStart r) quote r
      else
        match quote with
        | Some q => ch :: spacesLoop true (if (ch =? q)%N then None else quote) r
        | None =>
            if (ch =? 34)%N || (ch =? 39)%N then ch :: spacesLoop true (Some ch) r
            else if (ch =? 62)%N then ch :: spacesLoop false None r
            else if isUnicodeSpaceInTag ch then 32%N :: spacesLoop true None r
            else if isZeroWidthMark ch then spacesLoop true None r
            else ch :: spacesLoop true None r
        end
  end.

(** [normalizeUnicodeSpacesInsideTags(s)] *)
Definition normalizeUnicodeSpacesInsideTags (s : str) : str :=
  spacesLoop false None s.

(** ** Entities and ampersands *)

Definition XML5 : list str := map lit ["lt"; "gt"; "amp"; "quot"; "apos"]%string.

Definition BUILTIN_ENTITIES : list (str * JsNumber.t) :=
  map (fun '(k, v) => (lit k, JsNumber.ofN v))
    [("nbsp", 160); ("thinsp", 8201); ("ensp", 8194); ("emsp", 8195);
     ("shy", 173); ("ndash", 8211); ("mdash", 8212); ("hellip", 8230);
     ("middot", 183); ("bull", 8226); ("copy", 169); ("reg", 174);
     ("trade", 8482); ("euro", 8364); ("pound", 163); ("yen", 165);
     ("sect", 167); ("para", 182); ("deg", 176); ("sup1", 185);
     ("sup2", 178); ("sup3", 179); ("laquo", 171); ("raquo", 187);
     ("lsquo", 8216); ("rsquo", 8217); ("ldquo", 8220); ("rdquo", 8221);
     ("larr", 8592); ("uarr", 8593); ("rarr", 8594); ("darr", 8595);
     ("harr", 8596); ("times", 215); ("divide", 247)]%string%N.

Fixpoint assoc {V} (k : str) (m : list (str * V)) : option V :=
  match m with
  | [] => None
  | (k', v) :: rest => if str_eqb k' k then Some v else assoc k rest
  end.

(** The text [`${Object}`] of the member every plain object inherits
    under the key [constructor], as V8 prints it. *)
Definition objectConstructorText : str := lit "function Object() { [native code] }".

(** [entityMap[lower]] for [entityMap = { ...BUILTIN_ENTITIES,
    ...namedEntities }], as the template [`${code}`] prints it; [None]
    when [entityMap[lower] != null] is false. The map is a plain object:
    besides its own keys it answers for the members of
    [Object.prototype], of which [constructor] is the only one a
    lower-cased entity name can spell. *)
Definition entityCode (namedEntities : list (str * JsNumber.t)) (lower : str)
  : option str :=
  match assoc lower namedEntities with
  | Some code => Some (JsNumber.toString code)
  | None =>
      match assoc lower BUILTIN_ENTITIES with
      | Some code => Some (JsNumber.toString code)
      | None =>
          if str_eqb lower (lit "constructor") then Some objectConstructorText
          else None
      end
  end.

(** What follows an ampersand. *)
Inductive AmpKind : Type :=
| NumericRef (text rest : str)
| NamedRef (name rest : str)
| BareAmp.

(** The scan that [normalizeEntitiesAndAmpersands] makes after an
    ["&"], on the text [r] that follows it. *)
Definition scanAmp (r : str) : AmpKind :=
  match r with
  | 35%N :: r1 =>
      let '(isHex, pre, r2) :=
        match r1 with
        | c :: r' => if (c =? 120)%N || (c =? 88)%N then (true, [c], r') else (false, [], r1)
        | [] => (false, [], r1)
        end in
      let isD := if isHex then isHexDigit else isDigit in
      let digits := takeWhile isD r2 in
      match digits, dropWhile isD r2 with
      | _ :: _, 59%N :: rest => NumericRef ([38%N; 35%N] ++ pre ++ digits ++ [59%N]) rest
      | _, _ => BareAmp
      end
  | c :: r1 =>
      if isLetter c then
        let name := c :: takeWhile isAlphaNum r1 in
        match dropWhile isAlphaNum r1 with
        | 59%N :: rest => NamedRef name rest
        | _ => BareAmp
        end
      else BareAmp
  | [] => BareAmp
  end.

(** [out += text] before the rest of the loop, which may throw. *)
Definition prepend (text : str) (rest : result str) : result str :=
  match rest with
  | Ok o => Ok (text ++ o)
  | Throw m => Throw m
  end.

Fixpoint entitiesLoop (fuel : nat) (policy : EntityPolicy)
    (namedEntities : list (str * JsNumber.t)) (s : str) : result str :=
  match fuel with
  | O => Ok s
  | S f =>
      match s with
      | [] => Ok []
      | ch :: r =>
          let continue_ := fun (out rest : str) =>
            prepend out (entitiesLoop f policy namedEntities rest) in
          if negb (ch =? 38)%N then continue_ [ch] r else
          match scanAmp r with
          | NumericRef text rest => continue_ text rest
          | NamedRef name rest =>
              let lower := toLowerCase name in
              if has lower XML5 then continue_ (lit "&" ++ lower ++ lit ";") rest
              else match entityCode namedEntities lower with
                   | Some code => continue_ (lit "&#" ++ code ++ lit ";") rest
                   | None =>
                       match policy with
                       | error =>
                           Throw (lit "[authord] Unknown named entity: &" ++ name ++ lit ";")
                       | _ => continue_ (lit "&amp;" ++ name ++ lit ";") rest
                       end
                   end
          | BareAmp => continue_ (lit "&amp;") r
          end
      end
  end.

(** [normalizeEntitiesAndAmpersands(s, entityPolicy, entityMap, onChange)] *)
Definition normalizeEntitiesAndAmpersands (s : str) (policy : EntityPolicy)
    (namedEntities : list (str * JsNumber.t)) : result str :=
  entitiesLoop (length s) policy namedEntities s.

(** ** Tag tokenizer *)

(** A well-formed tag ([DetailedTag] with [valid: true]); [tend] counts
    the code units of the tag from its ["<"]. *)
Record Tag := {
  tend : nat;
  qname : str;
  local : str;
  closing : bool;
  selfClosing : bool;
}.

(** The quote-aware scan for the closing [">"]: the number of code
    units up to and including it, and whether the last one outside
    quotes and white space before it was ["/"]. *)
Fixpoint scanTagEnd (s : str) (quote lastNonWs : option N) (n : nat)
  : option (nat * bool) :=
  match s with
  | [] => None
  | ch :: r =>
      match quote with
      | Some q => scanTagEnd r (if (ch =? q)%N then None else quote) lastNonWs (S n)
      | None =>
          if (ch =? 34)%N || (ch =? 39)%N then scanTagEnd r (Some ch) lastNonWs (S n)
          else if (ch =? 62)%N then
            Some (S n, match lastNonWs with
                       | Some c => (c =? 47)%N
                       | None => false
                       end)
          else if (ch =? 60)%N then None
          else scanTagEnd r None (if isJsSpace ch then lastNonWs else Some ch) (S n)
      end
  end.

Definition isTagNameChar (c : N) : bool :=
  isWord c || (c =? 58)%N || (c =? 46)%N || (c =? 45)%N.

(** [parseTagDetailed(s, lt)] on the text after [s[lt] = "<"]; [None]
    stands for [{ valid: false, end: lt + 1 }]. *)
Definition parseTagDetailed (after : str) : option Tag :=
  let '(closing_, r) :=
    match after with
    | 47%N :: r' => (true, r')
    | _ => (false, after)
    end in
  match r with
  | [] => None
  | c0 :: _ =>
      if negb (isLetter c0 || (c0 =? 95)%N) then None else
      let name := takeWhile isTagNameChar r in
      let r' := dropWhile isTagNameChar r in
      match scanTagEnd r' None None 0 with
      | None => None
      | Some (n, sc) =>
          Some {| tend := 1 + (if closing_ then 1 else 0) + length name + n;
                  qname := name;
                  local := toLowerCase (localName name);
                  closing := closing_;
                  selfClosing := sc |}
      end
  end.

(** ** Container policies *)

Inductive CtxKind : Type := rich | inline.

(** A container context; [innerStack] has its top first. *)
Record Ctx := {
  kind : CtxKind;
  nameLocal : str;
  innerStack : list str;
}.

Definition replaceAngles (s : str) : str :=
  flat_map (fun c => if (c =? 60)%N then lit "&lt;"
                     else if (c =? 62)%N then lit "&gt;" else [c]) s.

(** [tagText.slice(1, -1)] *)
Definition inner (tagText : str) : str :=
  take (length tagText - 2) (drop 1 tagText).

Definition hasColon (s : str) : bool := existsb (N.eqb 58) s.

(** One well-formed tag met by [applyContainerPoliciesStream] with the
    context stack [ctxStack] (top first): what is written and the
    stack afterwards. *)
Definition onTag (o : XmlSanitizeOptions) (tag : Tag) (tagText : str)
    (ctxStack : list Ctx) : str * list Ctx :=
  let richNames := map toLowerCase (richTextContainers o) in
  let inlineNames := map toLowerCase (inlineTextContainers o) in
  let allowInline := map toLowerCase (allowedInlineTags o) in
  let allowRich := map toLowerCase (allowedRichTags o) in
  let isContainerOpen := has (local tag) richNames || has (local tag) inlineNames in
  if negb (closing tag) && isContainerOpen then
    (tagText,
     if selfClosing tag then ctxStack
     else {| kind := if has (local tag) richNames then rich else inline;
             nameLocal := local tag; innerStack := [] |} :: ctxStack)
  else
  match ctxStack with
  | [] => (tagText, ctxStack)
  | current :: below =>
      if closing tag && str_eqb (local tag) (nameLocal current) then (tagText, below)
      else if forceTextInContainers o then
        (lit "&lt;" ++ replaceAngles (inner tagText) ++ lit "&gt;", ctxStack)
      else
      let allowSet := match kind current with rich => allowRich | inline => allowInline end in
      let withInner := fun st =>
        {| kind := kind current; nameLocal := nameLocal current; innerStack := st |}
        :: below in
      let topIsLocal :=
        match innerStack current with
        | t :: _ => str_eqb t (local tag)
        | [] => false
        end in
      if hasColon (qname tag) then
        (tagText,
         if negb (closing tag) && negb (selfClosing tag)
         then withInner (local tag :: innerStack current)
         else if closing tag && topIsLocal then withInner (tail (innerStack current))
         else ctxStack)
      else if has (local tag) allowSet then
        if closing tag then
          if topIsLocal then (tagText, withInner (tail (innerStack current)))
          else (lit "&lt;" ++ inner tagText ++ lit "&gt;", ctxStack)
        else
          (tagText,
           if selfClosing tag then ctxStack
           else withInner (local tag :: innerStack current))
      else if escapeUnknownTagMentionsInText o then
        (lit "&lt;" ++ replaceAngles (inner tagText) ++ lit "&gt;", ctxStack)
      else (tagText, ctxStack)
  end.

Fixpoint streamLoop (fuel : nat) (o : XmlSanitizeOptions) (ctxStack : list Ctx)
    (s : str) : str :=
  match fuel with
  | O => s
  | S f =>
      match s with
      | [] => []
      | ch :: r =>
          if negb (ch =? 60)%N then ch :: streamLoop f o ctxStack r else
          match parseTagDetailed r with
          | None =>
              (if negb (is_nil ctxStack) && escapeBareAnglesInText o
               then lit "&lt;" else lit "<")
              ++ streamLoop f o ctxStack r
          | Some tag =>
              let '(out, ctxStack') := onTag o tag (take (tend tag) s) ctxStack in
              out ++ streamLoop f o ctxStack' (drop (tend tag) s)
          end
      end
  end.

(** [applyContainerPoliciesStream(s, o)] *)
Definition applyContainerPoliciesStream (s : str) (o : XmlSanitizeOptions) : str :=
  streamLoop (length s) o [] s.

(** ** Public sanitize API *)

(** Steps 1 to 2a of [preSanitize]: the masked text [work] as the
    entity step receives it, and the holes. *)
Definition maskedWork (xml : str) (o : XmlSanitizeOptions) : str * list str :=
  let s0 := stripCodeFences xml in
  let s := if stripProlog_ o then stripProlog s0 else s0 in
  let s := if fixInvalidComments o then repairInvalidComments s else s in
  let s := if scrubInvalidXmlChars o then scrubInvalidXmlCharsInText s else s in
  let '(text, holes) := maskProtectedSegments s in
  (if normalizeUnicodeSpacesInTags o
   then normalizeUnicodeSpacesInsideTags text else text, holes).

(** [preSanitize(xml, opts)] for the merged options [o = { ...DEFAULTS,
    ...opts }]. *)
Definition preSanitize (xml : str) (o : XmlSanitizeOptions) : result str :=
  let '(work, holes) := maskedWork xml o in
  match normalizeEntitiesAndAmpersands work (entityPolicy o) (namedEntities o) with
  | Throw m => Throw m
  | Ok work =>
      let work := applyContainerPoliciesStream work o in
      Ok (restore holes work)
  end.

End Sanitizer.

(** * DTD index builder ([dtd_index.ts]) *)

Module DtdIndexBuilder.

(** A computation that returns, throws, or ([None]) does not come to an
    end within the fuel it was given. *)
Definition P (A : Type) : Type := option (result A).

Definition pret {A} (x : A) : P A := Some (Ok x).
Definition pthrow {A} (m : str) : P A := Some (Throw m).
Definition pbind {A B} (c : P A) (k : A -> P B) : P B :=
  match c with
  | None => None
  | Some (Throw m) => Some (Throw m)
  | Some (Ok x) => k x
  end.

Notation "'let*' x ':=' c 'in' k" := (pbind c (fun x => k))
  (at level 10, x pattern, c at level 100, k at level 200).

(** ** Content model parser ([DtdModelParser]) *)

Inductive Mode : Type := ModeCHOICE | ModeSEQ.

Definition mode_eqb (a b : Mode) : bool :=
  match a, b with
  | ModeCHOICE, ModeCHOICE | ModeSEQ, ModeSEQ => true
  | _, _ => false
  end.

(** [skipWs()] *)
Definition skipWs (rest : str) : str := dropWhile isJsSpace rest.

Definition isNameStop (c : N) : bool :=
  isJsSpace c || (c =? 40)%N || (c =? 41)%N || (c =? 124)%N || (c =? 44)%N
  || (c =? 63)%N || (c =? 42)%N || (c =? 43)%N.

(** [readName()]: the name and the input left after it. *)
Definition readName (rest : str) : str * str :=
  let r := skipWs rest in
  (takeWhile (fun c => negb (isNameStop c)) r,
   dropWhile (fun c => negb (isNameStop c)) r).

(** [{ ...node, occurs: q }] *)
Definition withOccurs (node : DtdContentModel) (q : DtdOccurs) : DtdContentModel :=
  match node with
  | NAME nm _ => NAME nm q
  | PCDATA _ => PCDATA q
  | SEQ its _ => SEQ its q
  | CHOICE its _ => CHOICE its q
  end.

Section Parser.
(** The whole input [this.s]; the parser's position [this.i] is what
    has been consumed of it. *)
Context (s : str).

Definition index (rest : str) : nat := length s - length rest.

(** [expect(ch)] *)
Definition expect (ch : N) (rest : str) : P str :=
  match rest with
  | c :: r =>
      if (c =? ch)%N then pret r
      else pthrow (lit "Expected '" ++ [ch] ++ lit "' at " ++ showNat (index rest))
  | [] => pthrow (lit "Expected '" ++ [ch] ++ lit "' at " ++ showNat (index rest))
  end.

(** The loop of [parseAtom] over the names of a mixed model. *)
Fixpoint mixedLoop (n : nat) (items : list DtdContentModel) (rest : str)
  : P (list DtdContentModel * str) :=
  match n with
  | O => None
  | S n' =>
      match skipWs rest with
      | 124%N :: r =>
          let '(nm, r') := readName r in
          if is_nil nm
          then pthrow (lit "Expected NAME in mixed model at index " ++ showNat (index r'))
          else mixedLoop n' (items ++ [NAME nm One]) r'
      | r => pret (items, r)
      end
  end.

(** [parseAtom()], given [parseExpr]. *)
Definition parseAtom (parseExpr : str -> P (DtdContentModel * str)) (rest : str)
  : P (DtdContentModel * str) :=
  match skipWs rest with
  | 40%N :: r =>
      let r := skipWs r in
      if startsWith r (lit "#PCDATA") then
        let r := skipWs (drop 7 r) in
        match r with
        | 41%N :: r' => pret (PCDATA One, r')
        | _ =>
            let* (items, r') := mixedLoop (S (length r)) [PCDATA One] r in
            let* r'' := expect 41 (skipWs r') in
            pret (CHOICE items One, r'')
        end
      else
        let* (inner, r') := parseExpr r in
        let* r'' := expect 41 (skipWs r') in
        pret (inner, r'')
  | r =>
      let '(name, r') := readName r in
      if is_nil name then pthrow (lit "Expected NAME at index " ++ showNat (index r'))
      else pret (NAME name One, r')
  end.

(** [parseTerm()], given [parseExpr]. *)
Definition parseTerm (parseExpr : str -> P (DtdContentModel * str)) (rest : str)
  : P (DtdContentModel * str) :=
  let* (node, r) := parseAtom parseExpr (skipWs rest) in
  match skipWs r with
  | q :: r' =>
      if (q =? 63)%N then pret (withOccurs node Opt, r')
      else if (q =? 42)%N then pret (withOccurs node Star, r')
      else if (q =? 43)%N then pret (withOccurs node Plus, r')
      else pret (node, skipWs r)
  | [] => pret (node, [])
  end.

(** The loop of [parseExpr] over the operators. *)
Fixpoint exprLoop (n : nat) (parseTerm_ : str -> P (DtdContentModel * str))
    (lhs : DtdContentModel) (items : list DtdContentModel) (mode : option Mode)
    (rest : str) : P (DtdContentModel * str) :=
  match n with
  | O => None
  | S n' =>
      let finish := fun r =>
        match mode with
        | None => pret (lhs, r)
        | Some ModeCHOICE => pret (CHOICE items One, r)
        | Some ModeSEQ => pret (SEQ items One, r)
        end in
      match skipWs rest with
      | op :: r =>
          if (op =? 124)%N || (op =? 44)%N then
            let nextMode := if (op =? 124)%N then ModeCHOICE else ModeSEQ in
            match mode with
            | Some m =>
                if negb (mode_eqb m nextMode) then
                  pthrow (lit "Mixed '|' and ',' without parentheses near index "
                          ++ showNat (index (op :: r)))
                else
                  let* (rhs, r') := parseTerm_ r in
                  exprLoop n' parseTerm_ lhs (items ++ [rhs]) (Some nextMode) r'
            | None =>
                let* (rhs, r') := parseTerm_ r in
                exprLoop n' parseTerm_ lhs (items ++ [rhs]) (Some nextMode) r'
            end
          else finish (op :: r)
      | [] => finish []
      end
  end.

(** [parseExpr()]; [fuel] bounds the nesting of parentheses. *)
Fixpoint parseExpr (fuel : nat) (rest : str) : P (DtdContentModel * str) :=
  match fuel with
  | O => None
  | S f =>
      let* (lhs, r) := parseTerm (parseExpr f) rest in
      exprLoop (S (length r)) (parseTerm (parseExpr f)) lhs [lhs] None (skipWs r)
  end.

(** [parse()] *)
Definition parse : P DtdContentModel :=
  let* (node, r) := parseExpr (S (length s)) s in
  match skipWs r with
  | [] => pret node
  | r' =>
      pthrow (lit "Trailing content-model input at " ++ showNat (index r') ++ lit ": "
              ++ dq ++ r' ++ dq)
  end.
End Parser.

(** [s.trim()] *)
Definition trim (s : str) : str :=
  rev (dropWhile isJsSpace (rev (dropWhile isJsSpace s))).

(** [parseElementModel(model)] *)
Definition parseElementModel (model : str) : P DtdContent :=
  let m := trim model in
  if str_eqb m (lit "ANY") then pret ContentANY
  else if str_eqb m (lit "EMPTY") then pret ContentEMPTY
  else let* node := parse m in pret (ContentModel node).

(** ** Declaration scanning *)

(** The quote-aware scan of [extractDeclarations] for the [">"] that
    ends a declaration: the number of code units before it. *)
Fixpoint scanDeclEnd (t : str) (quote : option N) (n : nat) : option nat :=
  match t with
  | [] => None
  | ch :: r =>
      match quote with
      | Some q => scanDeclEnd r (if (ch =? q)%N then None else quote) (S n)
      | None =>
          if (ch =? 34)%N || (ch =? 39)%N then scanDeclEnd r (Some ch) (S n)
          else if (ch =? 62)%N then Some n
          else scanDeclEnd r None (S n)
      end
  end.

Fixpoint extractDeclarationsLoop (fuel : nat) (dtd : str) : list str :=
  match fuel with
  | O => []
  | S f =>
      match indexOf dtd (lit "<!") 0 with
      | None => []
      | Some start =>
          let t := drop start dtd in
          match scanDeclEnd (drop 2 t) None 2 with
          | None => []
          | Some j => take (j + 1) t :: extractDeclarationsLoop f (drop (j + 1) t)
          end
      end
  end.

(** [extractDeclarations(dtd)] *)
Definition extractDeclarations (dtd : str) : list str :=
  extractDeclarationsLoop (length dtd) dtd.

(** [s.endsWith(p)] *)
Definition endsWith (s p : str) : bool := startsWith (rev s) (rev p).

(** [stripOuterDecl(decl)] *)
Definition stripOuterDecl (decl : str) : str :=
  let s := trim decl in
  if negb (startsWith s (lit "<!")) || negb (endsWith s (lit ">")) then s
  else trim (slice s 2 (length s - 1)).

(** The match of the declaration pattern: the keyword, white space, a
    name (a letter, then word characters and hyphens), white space, and
    the non-empty remainder; the name and the remainder. *)
Definition matchDecl (keyword : str) (inner : str) : option (str * str) :=
  if negb (startsWith inner keyword) then None else
  let r := drop (length keyword) inner in
  match takeWhile isJsSpace r, dropWhile isJsSpace r with
  | _ :: _, c :: r1 =>
      if negb (isLetter c) then None else
      let isNm := fun c => isWord c || (c =? 45)%N in
      let name := c :: takeWhile isNm r1 in
      let r2 := dropWhile isNm r1 in
      match takeWhile isJsSpace r2, dropWhile isJsSpace r2 with
      | _ :: _, c' :: r3 => Some (name, c' :: r3)
      | _ :: _ :: _ as ws, [] => Some (name, drop (length ws - 1) ws)
      | _, _ => None
      end
  | _, _ => None
  end.

(** [parseElementDecl(inner)] *)
Definition parseElementDecl (inner : str) : P (str * str) :=
  match matchDecl (lit "ELEMENT") inner with
  | None => pthrow (lit "Bad ELEMENT decl: " ++ inner)
  | Some (name, model) => pret (name, trim model)
  end.

(** [collectNames(cm, out)] *)
Fixpoint collectNames (cm : DtdContentModel) (out : list str) : list str :=
  match cm with
  | NAME nm _ => set_add nm out
  | PCDATA _ => out
  | SEQ items _ | CHOICE items _ =>
      (fix each (its : list DtdContentModel) (out : list str) : list str :=
         match its with
         | [] => out
         | it :: rest => each rest (collectNames it out)
         end) items out
  end.

(** [deriveAllowedChildren(content)] *)
Definition deriveAllowedChildren (content : DtdContent) : AllowedChildren :=
  match content with
  | ContentANY => AllowedANY
  | ContentEMPTY => AllowedEMPTY
  | ContentModel m => AllowedSet (collectNames m [])
  end.

(** ** ATTLIST *)

Definition isWs (c : N) : bool :=
  (c =? 32)%N || (c =? 10)%N || (c =? 13)%N || (c =? 9)%N.

(** The balanced scan of a parenthesized group: the group and the rest,
    or [None] when the input ends with the group still open. *)
Fixpoint scanGroup (t : str) (depth : nat) (val : str) : option (str * str) :=
  match t with
  | [] => None
  | c :: r =>
      if (c =? 40)%N then scanGroup r (S depth) (val ++ [c])
      else if (c =? 41)%N then
        match depth with
        | 1 => Some (val ++ [c], r)
        | _ => scanGroup r (depth - 1) (val ++ [c])
        end
      else scanGroup r depth (val ++ [c])
  end.

Fixpoint tokenizeLoop (fuel : nat) (t : str) : P (list str) :=
  match fuel with
  | O => None
  | S f =>
      match dropWhile isWs t with
      | [] => pret []
      | ch :: r =>
          if (ch =? 34)%N || (ch =? 39)%N then
            let val := takeWhile (fun c => negb (c =? ch)%N) r in
            match dropWhile (fun c => negb (c =? ch)%N) r with
            | [] => pthrow (lit "Unterminated string in DTD")
            | _ :: r' =>
                let* toks := tokenizeLoop f r' in
                pret (([ch] ++ val ++ [ch]) :: toks)
            end
          else if (ch =? 40)%N then
            match scanGroup (ch :: r) 0 [] with
            | None => pthrow (lit "Unbalanced parentheses in DTD")
            | Some (val, r') =>
                let* toks := tokenizeLoop f r' in
                pret (val :: toks)
            end
          else
            let val := takeWhile (fun c => negb (isWs c)) (ch :: r) in
            let* toks := tokenizeLoop f (dropWhile (fun c => negb (isWs c)) (ch :: r)) in
            pret (val :: toks)
      end
  end.

(** [tokenizeDtdRhs(s)] *)
Definition tokenizeDtdRhs (t : str) : P (list str) :=
  tokenizeLoop (S (length t)) t.

(** [unquote(s)] *)
Definition unquote (t : str) : str :=
  if (startsWith t dq && endsWith t dq)
     || (startsWith t (lit "'") && endsWith t (lit "'"))
  then slice t 1 (length t - 1) else t.

(** [s.split(sep)] on a one-unit separator. *)
Fixpoint split (sep : N) (t : str) : list str :=
  match t with
  | [] => [[]]
  | c :: r =>
      match split sep r with
      | cur :: more => if (c =? sep)%N then [] :: cur :: more else (c :: cur) :: more
      | [] => [[c]]
      end
  end.

(** [parseAttrType(tok)] *)
Definition parseAttrType (tok : str) : DtdAttrType :=
  if str_eqb tok (lit "CDATA") then CDATA
  else if startsWith tok (lit "(") && endsWith tok (lit ")") then
    let body := trim (slice tok 1 (length tok - 1)) in
    ENUM (set_of (List.filter (fun v => negb (is_nil v)) (map trim (split 124 body))))
  else OTHER tok.

(** [parseAttrDefault(firstTok, toks, idxAfterFirst)]: the default and
    the tokens left. *)
Definition parseAttrDefault (firstTok : str) (rest : list str)
  : P (DtdAttrDefault * list str) :=
  if str_eqb firstTok (lit "#REQUIRED") then pret (REQUIRED, rest)
  else if str_eqb firstTok (lit "#IMPLIED") then pret (IMPLIED, rest)
  else if str_eqb firstTok (lit "#FIXED") then
    match rest with
    | v :: rest' => pret (FIXED (unquote v), rest')
    | [] => pthrow (lit "Expected value after #FIXED")
    end
  else pret (DEFAULT (unquote firstTok), rest).

(** The loop of [parseAttlistDecl] over the tokens; [i] is the index of
    the first of [toks]. *)
Fixpoint attlistLoop (fuel : nat) (elementName : str) (toks : list str) (i : nat)
  : P (list DtdAttributeDecl) :=
  match fuel with
  | O => None
  | S f =>
      match toks with
      | [] => pret []
      | name :: typeTok :: defTok :: rest =>
          let* (defaultDecl, rest') := parseAttrDefault defTok rest in
          let* attrs := attlistLoop f elementName rest'
                          (i + 3 + (length rest - length rest')) in
          pret ({| da_name := name; da_type := parseAttrType typeTok;
                   da_defaultDecl := defaultDecl |} :: attrs)
      | _ =>
          pthrow (lit "Incomplete ATTLIST for <" ++ elementName ++ lit "> near token "
                  ++ showNat (i + 3))
      end
  end.

(** [parseAttlistDecl(inner)] *)
Definition parseAttlistDecl (inner : str) : P (str * list DtdAttributeDecl) :=
  match matchDecl (lit "ATTLIST") inner with
  | None => pthrow (lit "Bad ATTLIST decl: " ++ inner)
  | Some (elementName, rhs) =>
      let* toks := tokenizeDtdRhs rhs in
      let* attrs := attlistLoop (S (length toks)) elementName toks 0 in
      pret (elementName, attrs)
  end.

(** ** Public API *)

Fixpoint assocSet {V} (k : str) (v : V) (m : list (str * V)) : list (str * V) :=
  match m with
  | [] => [(k, v)]
  | (k', v') :: rest =>
      if str_eqb k' k then (k, v) :: rest else (k', v') :: assocSet k v rest
  end.

(** One declaration handled by the loop of [buildDtdIndex]. *)
Definition addDeclaration (elements : gmap str DtdElement) (decl : str)
  : P (gmap str DtdElement) :=
  let inner := stripOuterDecl decl in
  let* elements :=
    if startsWith inner (lit "ELEMENT ") then
      let* (name, model) := parseElementDecl inner in
      let* content := parseElementModel model in
      let allowedChildren := deriveAllowedChildren content in
      let base :=
        match elements !! name with
        | Some existing =>
            {| de_name := de_name existing; de_content := content;
               de_allowedChildren := allowedChildren;
               de_attrs := de_attrs existing;
               de_declaredAttrs := de_declaredAttrs existing;
               de_requiredAttrs := de_requiredAttrs existing |}
        | None =>
            {| de_name := name; de_content := content;
               de_allowedChildren := allowedChildren;
               de_attrs := []; de_declaredAttrs := []; de_requiredAttrs := [] |}
        end in
      pret (<[name := base]> elements)
    else pret elements in
  if startsWith inner (lit "ATTLIST ") then
    let* (elementName, attrs) := parseAttlistDecl inner in
    let base :=
      match elements !! elementName with
      | Some existing => existing
      | None =>
          {| de_name := elementName; de_content := ContentANY;
             de_allowedChildren := AllowedANY;
             de_attrs := []; de_declaredAttrs := []; de_requiredAttrs := [] |}
      end in
    let base :=
      foldl (fun b a =>
        {| de_name := de_name b; de_content := de_content b;
           de_allowedChildren := de_allowedChildren b;
           de_attrs := assocSet (da_name a) a (de_attrs b);
           de_declaredAttrs := set_add (da_name a) (de_declaredAttrs b);
           de_requiredAttrs :=
             match da_defaultDecl a with
             | REQUIRED => set_add (da_name a) (de_requiredAttrs b)
             | _ => de_requiredAttrs b
             end |}) base attrs in
    pret (<[elementName := base]> elements)
  else pret elements.

Fixpoint addDeclarations (elements : gmap str DtdElement) (decls : list str)
  : P (gmap str DtdElement) :=
  match decls with
  | [] => pret elements
  | decl :: rest =>
      let* elements := addDeclaration elements decl in
      addDeclarations elements rest
  end.

(** [buildDtdIndex(dtdText)] *)
Definition buildDtdIndex (dtdText : str) : P DtdIndex :=
  let* elements := addDeclarations ∅ (extractDeclarations dtdText) in
  pret {| dtd_elements := elements |}.

End DtdIndexBuilder.

(** * Notions the statements are written in *)

(** ** DTD content models as position relations *)

Module DtdSemantics.
Section Reach.
Context (children : list str).

(** [k] consecutive steps of [R]. *)
Fixpoint iter (R : nat -> nat -> Prop) (k : nat) (p e : nat) : Prop :=
  match k with
  | O => e = p
  | S k' => exists q, R p q /\ iter R k' q e
  end.

(** The items of a sequence, one after the other, lead from [p] to [e]. *)
Fixpoint chain (rec : DtdContentModel -> nat -> nat -> Prop)
    (its : list DtdContentModel) (p e : nat) : Prop :=
  match its with
  | [] => e = p
  | it :: r => exists m, rec it p m /\ chain rec r m e
  end.

(** One of the alternatives leads from [p] to [e]. *)
Fixpoint alt (rec : DtdContentModel -> nat -> nat -> Prop)
    (its : list DtdContentModel) (p e : nat) : Prop :=
  match its with
  | [] => False
  | it :: r => rec it p e \/ alt rec r p e
  end.

(** One occurrence of [node], ignoring its own occurrence indicator,
    leads from child position [p] to [e]. *)
Definition reachOnce (rec : DtdContentModel -> nat -> nat -> Prop)
    (node : DtdContentModel) (p e : nat) : Prop :=
  match node with
  | NAME n _ => children !! p = Some n /\ e = p + 1
  | PCDATA _ => e = p
  | SEQ items _ => chain rec items p e
  | CHOICE items _ => alt rec items p e
  end.

(** The numbers of occurrences an indicator admits. *)
Definition inRange (o : DtdOccurs) (k : nat) : Prop :=
  match o with
  | One => k = 1
  | Opt => k <= 1
  | Star => True
  | Plus => 1 <= k
  end.

(** [e] is an end position reachable from [p] under [node]. *)
Fixpoint reach (node : DtdContentModel) (p e : nat) {struct node} : Prop :=
  exists k, inRange (d_occurs node) k /\ iter (reachOnce reach node) k p e.
End Reach.

(** The node at a place of a model. *)
Fixpoint subnode (root : DtdContentModel) (id : list nat) : option DtdContentModel :=
  match id with
  | [] => Some root
  | k :: rest =>
      match d_items root !! k with
      | Some it => subnode it rest
      | None => None
      end
  end.
End DtdSemantics.

(** The content model [(a,b*,c?)]. *)
Definition model_abc : DtdContentModel :=
  SEQ [NAME (lit "a") One; NAME (lit "b") Star; NAME (lit "c") Opt] One.

(** ** The particle [all(element a {1,1}, element b {0,1})] *)

Definition occurs11 : Occurs := {| omin := 1; omax := MaxN 1 |}.
Definition occurs01 : Occurs := {| omin := 0; omax := MaxN 1 |}.

Definition particle_all_ab : XsdParticle :=
  PAll [PElement (lit "a") occurs11; PElement (lit "b") occurs01] occurs11.

Definition emptyXsdIndex : XsdIndex :=
  {| elements := ∅; groups := ∅; attributes := ∅;
     substitutionGroups := ∅; substitutionGroupFor := ∅ |}.

(** ** Operators of a content-model text, level by level *)

Module Operators.
Import DtdIndexBuilder.

(** The operators met so far at the current nesting level all agree
    with [cur]; [outer] holds the same for the enclosing levels. The
    scan answers [true] as soon as it meets both [","] and ["|"] at
    one level. *)
Fixpoint scanOps (s : str) (cur : option Mode) (outer : list (option Mode)) : bool :=
  match s with
  | [] => false
  | c :: r =>
      if (c =? 40)%N then scanOps r None (cur :: outer)
      else if (c =? 41)%N then
        match outer with
        | o :: outer' => scanOps r o outer'
        | [] => scanOps r cur []
        end
      else if (c =? 124)%N || (c =? 44)%N then
        let m := if (c =? 124)%N then ModeCHOICE else ModeSEQ in
        match cur with
        | Some m' => if mode_eqb m m' then scanOps r cur outer else true
        | None => scanOps r (Some m) outer
        end
      else scanOps r cur outer
  end.

(** [","] and ["|"] are combined at one parenthesis nesting level. *)
Definition mixesOperators (model : str) : bool := scanOps model None [].
End Operators.

(** ** Entity references in a text *)

Module Entities.
Import Sanitizer.

(** A name as the entity scan reads it: a letter, then name
    characters. *)
Definition validName (name : str) : bool :=
  match name with
  | c :: r => isLetter c && forallb isAlphaNum r
  | [] => false
  end.

(** The code the entity table holds under the key [lower]: an entry
    of [namedEntities], or else one of [BUILTIN_ENTITIES]. *)
Definition tableCode (namedEntities : list (str * JsNumber.t)) (lower : str)
  : option JsNumber.t :=
  match assoc lower namedEntities with
  | Some code => Some code
  | None => assoc lower BUILTIN_ENTITIES
  end.

(** Neither predefined by XML nor a key of the entity table. *)
Definition unknownName (namedEntities : list (str * JsNumber.t)) (name : str) : bool :=
  negb (has (toLowerCase name) XML5)
  && negb (isSome (tableCode namedEntities (toLowerCase name))).

(** The text holds a reference [&name;] to an unknown entity. *)
Definition hasUnknownEntity (namedEntities : list (str * JsNumber.t)) (s : str) : Prop :=
  exists pre name post,
    s = pre ++ [38%N] ++ name ++ [59%N] ++ post
    /\ validName name = true /\ unknownName namedEntities name = true.

Definition throws {A} (r : result A) : Prop := exists m, r = Throw m.
End Entities.

(** ** Container tags in a text *)

Module Containers.
Import Sanitizer.

(** The text after a ["<"] continues it to an opening, not
    self-closing tag of a configured container. *)
Definition opensContainer (o : XmlSanitizeOptions) (after : str) : bool :=
  match parseTagDetailed after with
  | Some tag =>
      negb (closing tag) && negb (selfClosing tag)
      && (has (local tag) (map toLowerCase (richTextContainers o))
          || has (local tag) (map toLowerCase (inlineTextContainers o)))
  | None => false
  end.

(** No ["<"] of the text opens a configured container. *)
Fixpoint noContainerOpen (o : XmlSanitizeOptions) (s : str) : bool :=
  match s with
  | [] => true
  | c :: r => negb ((c =? 60)%N && opensContainer o r) && noContainerOpen o r
  end.
End Containers.

(** ** A schema whose group refers to itself *)

Definition cyclicGroup : XsdParticle :=
  PSequence [PGroupRef (lit "g") occurs11] occurs11.

Definition cyclicIndex : XsdIndex :=
  {| elements :=
       {[ lit "e" := {| xe_name := lit "e";
                        xe_content := PGroupRef (lit "g") occurs11;
                        xe_attributes := [];
                        xe_mixed := false;
                        xe_allowAnyAttribute := false;
                        xe_allowedChildren := AllowedEMPTY |} ]};
     groups := {[ lit "g" := cyclicGroup ]};
     attributes := ∅;
     substitutionGroups := ∅;
     substitutionGroupFor := ∅ |}.

Definition cyclicDocument : Node := Element (lit "e") [] [].

(** ** Sample inputs *)

(** An attribute reference [<xs:attribute ref="tns:mode"/>] and the
    global attribute it refers to. *)
Definition sample_attrRef : Node :=
  Element (lit "xs:attribute") [(lit "ref", lit "tns:mode")] [].

Definition sample_globalAttr : XsdAttrDef :=
  {| use := lit "required"; enum := Some [lit "on"; lit "off"];
     fixed := Some (lit "on") |}.

(** An index in which [y] is a member of the substitution group headed
    by [x]. *)
Definition sample_substIndex : XsdIndex :=
  {| elements := ∅; groups := ∅; attributes := ∅;
     substitutionGroups := {[ lit "x" := [lit "y"] ]};
     substitutionGroupFor := {[ lit "y" := lit "x" ]} |}.

(** An element [<x>] whose content model is the single child [<a>],
    and a document element with an extra [<include>] child. *)
Definition sample_defX : XsdElementDef :=
  {| xe_name := lit "x";
     xe_content := PSequence [PElement (lit "a") occurs11] occurs11;
     xe_attributes := [];
     xe_mixed := false;
     xe_allowAnyAttribute := false;
     xe_allowedChildren := AllowedSet [lit "a"] |}.

Definition sample_elX : Node :=
  Element (lit "x") [] [Element (lit "include") [] []; Element (lit "a") [] []].

(** ** What the memo table of the DTD matcher holds *)

Module DtdMemo.
Import Dtd DtdSemantics.

(** Every entry of the memo table holds the end positions of the node
    at its key. *)
Definition memo_ok (children : list str) (root : DtdContentModel) (memo : Memo) : Prop :=
  forall id pos v, memo !! (id, pos) = Some v ->
    exists node, subnode root id = Some node
                 /\ forall e, e ∈ v <-> reach children node pos e.

(** A computation that keeps the memo table right and yields the set [S]. *)
Definition yields (children : list str) (root : DtdContentModel)
    (c : M (list nat)) (S : nat -> Prop) : Prop :=
  forall memo, memo_ok children root memo ->
    memo_ok children root (c memo).2 /\ forall e, e ∈ (c memo).1 <-> S e.

(** The matcher is right on the items of a node, wherever they stand. *)
Definition items_ok (children : list str) (root node : DtdContentModel) : Prop :=
  Forall (fun it => forall id pos, subnode root id = Some it ->
                      yields children root (match_ children it id pos)
                        (reach children it pos))
    (d_items node).
End DtdMemo.

(** ** How the scan of the operators passes over a text *)

Module OperatorScan.
Import DtdIndexBuilder Operators.

(** A code unit that is neither a parenthesis nor an operator. *)
Definition plain (c : N) : bool :=
  negb ((c =? 40)%N || (c =? 41)%N || (c =? 124)%N || (c =? 44)%N).

(** The scan passes over [u] without a finding and without a change of
    its state. *)
Definition transparent (u : str) : Prop :=
  forall v cur outer, scanOps (u ++ v) cur outer = scanOps v cur outer.

(** The scan passes over [u] without a finding, staying at the nesting
    level it started at and going from the operator [m] of that level
    to [m']. *)
Definition level (u : str) (m m' : option Mode) : Prop :=
  forall v outer, scanOps (u ++ v) m outer = scanOps v m' outer.

(** What a successful parse function has consumed. *)
Definition consumed (rest rest' u : str) : Prop := rest = u ++ rest'.
End OperatorScan.

(** ** One turn of the entity loop *)

Module EntityLoop.
Import Sanitizer.

(** What the loop of [normalizeEntitiesAndAmpersands] does with the
    text [r] after an ampersand, given its result [E_] on the text that
    is left. *)
Definition onAmp (policy : EntityPolicy) (named : list (str * JsNumber.t))
    (r : str) (E_ : str -> result str) : result str :=
  match scanAmp r with
  | NumericRef text rest => prepend text (E_ rest)
  | NamedRef name rest =>
      let lower := toLowerCase name in
      if has lower XML5 then prepend (lit "&" ++ lower ++ lit ";") (E_ rest)
      else match entityCode named lower with
           | Some code => prepend (lit "&#" ++ code ++ lit ";") (E_ rest)
           | None =>
               match policy with
               | error => Throw (lit "[authord] Unknown named entity: &" ++ name ++ lit ";")
               | _ => prepend (lit "&amp;" ++ name ++ lit ";") (E_ rest)
               end
           end
  | BareAmp => prepend (lit "&amp;") (E_ r)
  end.
End EntityLoop.

(** The default options with another entity policy. *)
Definition optionsWithPolicy (p : Sanitizer.EntityPolicy) : Sanitizer.XmlSanitizeOptions :=
  {| Sanitizer.stripProlog_ := true;
     Sanitizer.fixInvalidComments := true;
     Sanitizer.scrubInvalidXmlChars := true;
     Sanitizer.normalizeUnicodeSpacesInTags := true;
     Sanitizer.entityPolicy := p;
     Sanitizer.namedEntities := [];
     Sanitizer.richTextContainers := Sanitizer.richTextContainers Sanitizer.DEFAULTS;
     Sanitizer.inlineTextContainers := Sanitizer.inlineTextContainers Sanitizer.DEFAULTS;
     Sanitizer.forceTextInContainers := false;
     Sanitizer.escapeUnknownTagMentionsInText := true;
     Sanitizer.allowedInlineTags := Sanitizer.ALLOW_INLINE_DEFAULT;
     Sanitizer.allowedRichTags := Sanitizer.ALLOW_RICH_DEFAULT;
     Sanitizer.escapeBareAnglesInText := true |}.

(** ** References to a given entity name *)

Module EntityRefs.
(** The text holds a reference [&name;] whose lower-cased name is
    [target]. *)
Definition refersTo (target : str) (s : str) : Prop :=
  exists pre name post,
    s = pre ++ [38%N] ++ name ++ [59%N] ++ post
    /\ Entities.validName name = true /\ toLowerCase name = target.
End EntityRefs.

(** ** Well-formed inputs without container markup *)

(** A document with an XML declaration. *)
Definition sample_prolog : str := lit "<?xml version='1.0'?><r/>".

(** A document whose CDATA section holds the text of a comment. *)
Definition sample_cdataComment : str := lit "<a><![CDATA[<!-- a --- b -->]]></a>".

(** A document with an entity reference in its text. *)
Definition sample_entityText : str := lit "<r>a&nbsp;b</r>".

(** ** A DTD and a document with two violations *)

(** [<!ELEMENT r (a)>] and [<!ELEMENT a EMPTY>], no attributes. *)
Definition sample_dtd : DtdIndex :=
  {| dtd_elements :=
       {[ lit "r" := {| de_name := lit "r";
                        de_content := ContentModel (SEQ [NAME (lit "a") One] One);
                        de_allowedChildren := AllowedSet [lit "a"];
                        de_attrs := [];
                        de_declaredAttrs := [];
                        de_requiredAttrs := [] |};
          lit "a" := {| de_name := lit "a";
                        de_content := ContentEMPTY;
                        de_allowedChildren := AllowedEMPTY;
                        de_attrs := [];
                        de_declaredAttrs := [];
                        de_requiredAttrs := [] |} ]} |}.

(** [<r><a x='1'/><a/></r>] *)
Definition sample_twoViolations : Node :=
  Element (lit "r") []
    [Element (lit "a") [(lit "x", lit "1")] []; Element (lit "a") [] []].

(** ** The elements of a document *)

Module Document.
(** [el'] is [el] itself or an element below it. *)
Inductive subElement (el' : Node) : Node -> Prop :=
| sub_self : subElement el' el'
| sub_child nm a cs k :
    k ∈ cs -> is_element k = true -> subElement el' k ->
    subElement el' (Element nm a cs).

(** The element is declared in the DTD and its own attribute and
    children checks find nothing. *)
Definition dtdLocalOk (dtd : DtdIndex) (el : Node) : Prop :=
  exists def,
    dtd_elements dtd !! localName (el_name el) = Some def
    /\ Dtd.validateAttrs el def [] = [] /\ Dtd.validateChildren el def [] = [].

(** The element is declared in the XSD (or stands for a declared head)
    and its own attribute and children checks come to an end and find
    nothing. *)
Definition xsdLocalOk (fuel : nat) (xsd : XsdIndex) (el : Node) : Prop :=
  exists def,
    Xsd.resolveElementDef (localName (el_name el)) xsd = Some def
    /\ Xsd.validateAttrs el (localName (el_name el)) def [] = []
    /\ Xsd.validateChildren fuel el (localName (el_name el)) def [] xsd = Some [].
End Document.

(** ** Sample documents for the DTD validator *)

(** The items of the mixed model [(#PCDATA|b|i)*]. *)
Definition sample_mixedItems : list DtdContentModel :=
  [PCDATA One; NAME (lit "b") One; NAME (lit "i") One].

(** An element declared with that model. *)
Definition sample_mixedDef : DtdElement :=
  {| de_name := lit "p";
     de_content := ContentModel (CHOICE sample_mixedItems Star);
     de_allowedChildren := AllowedSet [lit "b"; lit "i"];
     de_attrs := []; de_declaredAttrs := []; de_requiredAttrs := [] |}.

(** [<p>x<i/><b/>y<i/></p>] *)
Definition sample_mixedEl : Node :=
  Element (lit "p") []
    [Text (lit "x"); Element (lit "i") [] []; Element (lit "b") [] [];
     Text (lit "y"); Element (lit "i") [] []].

(** ** Ampersands that start a reference *)

Module Ampersands.
(** The text after an ["&"] continues it to a character or entity
    reference, as the sanitizer's own scan sees it. *)
Definition startsReference (r : str) : bool :=
  match Sanitizer.scanAmp r with
  | Sanitizer.BareAmp => false
  | _ => true
  end.

(** Every ["&"] of the text starts a reference. *)
Definition allEscaped (w : str) : Prop :=
  forall pre r, w = pre ++ 38%N :: r -> startsReference r = true.
End Ampersands.

(** ** A fenced document *)

(** The body of the fenced sample. *)
Definition sample_fencedBody : str := lit "<r>" ++ [10%N] ++ lit "</r>".

(** The info string of its opening fence. *)
Definition sample_fenceInfo : str := lit "xml".

(** ** A DTD text *)

(** Two declarations for one element, the attribute list first. *)
Definition sample_dtdText : str :=
  lit "<!ATTLIST r x CDATA #REQUIRED y (a|b) 'a'><!ELEMENT r (a,b*)>".

(** ** Content models that are written as they are read *)

Module ModelShape.
(** A name the parser reads back whole: not empty, free of white space
    and of the characters of the model syntax, not starting with ["#"]. *)
Definition plainName (nm : str) : bool :=
  match nm with
  | [] => false
  | c :: _ =>
      negb (c =? 35)%N && forallb (fun c => negb (DtdIndexBuilder.isNameStop c)) nm
  end.

(** Names are plain and every group has two items or more. *)
Fixpoint canonical (m : DtdContentModel) : bool :=
  match m with
  | NAME nm _ => plainName nm
  | PCDATA _ => true
  | SEQ items _ | CHOICE items _ => (2 <=? length items) && forallb canonical items
  end.
End ModelShape.

(** The model that is written [(((#PCDATA)|a)*,(b?|c+))]. *)
Definition sample_nestedModel : DtdContentModel :=
  SEQ [CHOICE [PCDATA One; NAME (lit "a") One] Star;
       CHOICE [NAME (lit "b") Opt; NAME (lit "c") Plus] One] One.

(** ** Content models that accept no children *)

Module ModelEmptiness.
Definition optional (o : DtdOccurs) : bool :=
  match o with
  | Opt | Star => true
  | One | Plus => false
  end.

(** The model can be satisfied without any child element. *)
Fixpoint nullable (m : DtdContentModel) : bool :=
  match m with
  | NAME _ o => optional o
  | PCDATA _ => true
  | SEQ items o => optional o || forallb nullable items
  | CHOICE items o => optional o || existsb nullable items
  end.
End ModelEmptiness.

(** ** Group references that do not run in a circle *)

Module GroupRanks.
Section Ranked.
Context (xsd : XsdIndex) (rank : str -> nat).

(** Every group reference of [p] that the index resolves goes to a
    group of rank below [n]. *)
Fixpoint refsBelow (n : nat) (p : XsdParticle) : bool :=
  match p with
  | PGroupRef r _ =>
      match groups xsd !! r with
      | Some _ => rank r <? n
      | None => true
      end
  | PSequence items _ | PChoice items _ | PAll items _ => forallb (refsBelow n) items
  | PEmpty _ | PElement _ _ | PAny _ => true
  end.

(** The references inside every group go to groups of lower rank: no
    group refers to itself, directly or through others. *)
Definition acyclic : Prop :=
  forall g p, groups xsd !! g = Some p -> refsBelow (rank g) p = true.

(** The content of every element refers to groups of rank below [n]. *)
Definition contentsBelow (n : nat) : Prop :=
  forall name def, elements xsd !! name = Some def -> refsBelow n (xe_content def) = true.
End Ranked.
End GroupRanks.

(** An index with the group [g = sequence(a)] and the element [e] whose
    content is a reference to [g]. *)
Definition sample_groupIndex : XsdIndex :=
  {| elements :=
       {[ lit "e" := {| xe_name := lit "e";
                        xe_content := PGroupRef (lit "g") occurs11;
                        xe_attributes := [];
                        xe_mixed := false;
                        xe_allowAnyAttribute := false;
                        xe_allowedChildren := AllowedSet [lit "a"] |} ]};
     groups := {[ lit "g" := PSequence [PElement (lit "a") occurs11] occurs11 ]};
     attributes := ∅;
     substitutionGroups := ∅;
     substitutionGroupFor := ∅ |}.

(** [<e><a/></e>] *)
Definition sample_groupDocument : Node :=
  Element (lit "e") [] [Element (lit "a") [] []].

(** * XSD index builder, continued ([xsd_index.ts]) *)

Module XsdIndexBuilder.

(** [emptyParticle()] *)
Definition emptyParticle : XsdParticle := PEmpty occurs11.

(** [collectElementNamesFromParticle(p, groups, names, seenGroups)]:
    the set [names] afterwards. Every call on the particle of a group
    takes one of [fuel]; the result is [None] when it runs out. *)
Fixpoint collectElementNamesFromParticle (fuel : nat) (groups : gmap str XsdParticle)
  : XsdParticle -> list str -> list str -> option (list str) :=
  fix go (p : XsdParticle) (names seenGroups : list str) : option (list str) :=
    match p with
    | PElement name _ => Some (set_add name names)
    | PSequence items _ | PChoice items _ | PAll items _ =>
        (fix each (its : list XsdParticle) (names : list str) : option (list str) :=
           match its with
           | [] => Some names
           | it :: rest =>
               match go it names seenGroups with
               | None => None
               | Some names' => each rest names'
               end
           end) items names
    | PGroupRef ref _ =>
        if has ref seenGroups then Some names else
        let nextSeen := set_add ref seenGroups in
        match groups !! ref with
        | Some g =>
            match fuel with
            | O => None
            | S f => collectElementNamesFromParticle f groups g names nextSeen
            end
        | None => Some names
        end
    | PEmpty _ | PAny _ => Some names
    end.

(** [mergeExtensionContent(base, extra)] *)
Definition mergeExtensionContent (base extra : XsdParticle) : XsdParticle :=
  let isEmpty := fun p =>
    match p with
    | PEmpty {| omin := 1; omax := MaxN 1 |} => true
    | _ => false
    end in
  if isEmpty base then extra
  else if isEmpty extra then base
  else PSequence [base; extra] occurs11.

(** [expandAllowedChildrenForSubstitutions(index)] on one element
    definition: the names that are added are the members of the
    substitution groups of the names allowed so far. *)
Definition expandAllowedChildren (substitutionGroups : gmap str (list str))
    (def : XsdElementDef) : XsdElementDef :=
  match xe_allowedChildren def with
  | AllowedSet names =>
      let extra :=
        foldl (fun extra name =>
                 match substitutionGroups !! name with
                 | Some subs => foldl (fun e sub => set_add sub e) extra subs
                 | None => extra
                 end) [] names in
      {| xe_name := xe_name def; xe_content := xe_content def;
         xe_attributes := xe_attributes def; xe_mixed := xe_mixed def;
         xe_allowAnyAttribute := xe_allowAnyAttribute def;
         xe_allowedChildren :=
           AllowedSet (foldl (fun ns sub => set_add sub ns) names extra) |}
  | _ => def
  end.

(** [expandAllowedChildrenForSubstitutions(index)] *)
Definition expandAllowedChildrenForSubstitutions (index : XsdIndex) : XsdIndex :=
  if bool_decide (substitutionGroups index = ∅) then index else
  {| elements := expandAllowedChildren (substitutionGroups index) <$> elements index;
     groups := groups index;
     attributes := attributes index;
     substitutionGroups := substitutionGroups index;
     substitutionGroupFor := substitutionGroupFor index |}.

(** The inner [walk(n, stack)] of [deriveAllowedChildrenFromParticle]
    on the state [(hasAny, names, stack)]: [hasAny] and [names] are the
    variables of the enclosing call, [stack] is the one set that all
    the calls share. Every call on the particle of a group takes one of
    [fuel]. *)
Fixpoint deriveWalk (fuel : nat) (resolveGroup : str -> list str -> XsdParticle)
  : XsdParticle -> bool * list str * list str -> option (bool * list str * list str) :=
  fix walk (n : XsdParticle) (st : bool * list str * list str)
    : option (bool * list str * list str) :=
    let '(hasAny, names, stack) := st in
    match n with
    | PAny _ => Some (true, names, stack)
    | PElement name _ => Some (hasAny, set_add name names, stack)
    | PGroupRef ref _ =>
        if has ref stack then Some st else
        let stack := set_add ref stack in
        let g := resolveGroup ref stack in
        match fuel with
        | O => None
        | S f => deriveWalk f resolveGroup g (hasAny, names, stack)
        end
    | PSequence items _ | PChoice items _ | PAll items _ =>
        (fix each (its : list XsdParticle) (st : bool * list str * list str)
           : option (bool * list str * list str) :=
           match its with
           | [] => Some st
           | it :: rest =>
               match walk it st with
               | None => None
               | Some st' => each rest st'
               end
           end) items st
    | PEmpty _ => Some st
    end.

(** [deriveAllowedChildrenFromParticle(p, resolveGroup)] *)
Definition deriveAllowedChildrenFromParticle (fuel : nat) (p : XsdParticle)
    (resolveGroup : str -> list str -> XsdParticle) : option AllowedChildren :=
  match deriveWalk fuel resolveGroup p (false, [], []) with
  | None => None
  | Some (hasAny, names, _) =>
      Some (if hasAny then AllowedANY
            else if is_nil names then AllowedEMPTY
            else AllowedSet names)
  end.

(** The closure [resolveGroup(name, seen)] of [buildXsdIndex] once the
    loop over the [group] elements of the schema has filled [groups]:
    a name that [groups] lacks has no [group] element, so that the
    answer is [emptyParticle()] whatever [seen] holds. *)
Definition resolveGroup (groups : gmap str XsdParticle) (name : str) (seen : list str)
  : XsdParticle :=
  match groups !! name with
  | Some g => g
  | None =>
      if has name seen then emptyParticle
      else emptyParticle
  end.

End XsdIndexBuilder.

(** ** Element names under a particle *)

Module ParticleNames.
Section Names.
Context (groups : gmap str XsdParticle).

(** An element particle named [n] lies in [p] or in a group that is
    reached from [p] through group references. *)
Inductive occursIn (n : str) : XsdParticle -> Prop :=
| occ_element o : occursIn n (PElement n o)
| occ_sequence items o it : it ∈ items -> occursIn n it -> occursIn n (PSequence items o)
| occ_choice items o it : it ∈ items -> occursIn n it -> occursIn n (PChoice items o)
| occ_all items o it : it ∈ items -> occursIn n it -> occursIn n (PAll items o)
| occ_group r o g : groups !! r = Some g -> occursIn n g -> occursIn n (PGroupRef r o).

(** The same with the number of steps from [p] down to the element
    particle. *)
Inductive occursAt (n : str) : nat -> XsdParticle -> Prop :=
| oat_element o : occursAt n 0 (PElement n o)
| oat_sequence h items o it :
    it ∈ items -> occursAt n h it -> occursAt n (S h) (PSequence items o)
| oat_choice h items o it :
    it ∈ items -> occursAt n h it -> occursAt n (S h) (PChoice items o)
| oat_all h items o it :
    it ∈ items -> occursAt n h it -> occursAt n (S h) (PAll items o)
| oat_group h r o g :
    groups !! r = Some g -> occursAt n h g -> occursAt n (S h) (PGroupRef r o).

(** An [any] particle lies in [p] or in a group that is reached from
    [p]. *)
Inductive anyIn : XsdParticle -> Prop :=
| any_here o : anyIn (PAny o)
| any_sequence items o it : it ∈ items -> anyIn it -> anyIn (PSequence items o)
| any_choice items o it : it ∈ items -> anyIn it -> anyIn (PChoice items o)
| any_all items o it : it ∈ items -> anyIn it -> anyIn (PAll items o)
| any_group r o g : groups !! r = Some g -> anyIn g -> anyIn (PGroupRef r o).

(** What lies in [p] itself is recorded: the names of its element
    particles are in [names], the groups it refers to are in [stack],
    and [hasAny] is set when it has an [any] particle. *)
Fixpoint recorded (hasAny : bool) (names stack : list str) (p : XsdParticle) : Prop :=
  match p with
  | PElement n _ => n ∈ names
  | PGroupRef r _ => r ∈ stack
  | PAny _ => hasAny = true
  | PEmpty _ => True
  | PSequence items _ | PChoice items _ | PAll items _ =>
      (fix all (its : list XsdParticle) : Prop :=
         match its with
         | [] => True
         | it :: rest => recorded hasAny names stack it /\ all rest
         end) items
  end.
End Names.
End ParticleNames.

(** ** Sample inputs for the index builder *)

(** A particle that refers to the group [g] and has the element [a]. *)
Definition sample_groupAndElement : XsdParticle :=
  PSequence [PGroupRef (lit "g") occurs11; PElement (lit "a") occurs11] occurs11.

(** An index in which [p] allows the child [x], and [y] is a member of
    the substitution group headed by [x]. *)
Definition sample_substElements : XsdIndex :=
  {| elements :=
       {[ lit "p" := {| xe_name := lit "p";
                        xe_content := PElement (lit "x") occurs11;
                        xe_attributes := [];
                        xe_mixed := false;
                        xe_allowAnyAttribute := false;
                        xe_allowedChildren := AllowedSet [lit "x"] |} ]};
     groups := ∅;
     attributes := ∅;
     substitutionGroups := {[ lit "x" := [lit "y"] ]};
     substitutionGroupFor := {[ lit "y" := lit "x" ]} |}.

(** ** XSD particles as position relations *)

Module XsdSemantics.
Section Reach.
Context (xsd : XsdIndex) (children : list str).

(** The numbers of occurrences that the two loops of [match] go
    through for [{ min, max }]: the first runs [min] times, the second
    from [min] up to [max]. For [0 <= min <= max] these are the numbers
    from [min] to [max]. *)
Definition inRange (o : Occurs) (k : nat) : Prop :=
  Z.to_nat (omin o) <= k
  /\ match omax o with
     | Unbounded => True
     | MaxN m => k <= Z.to_nat (omin o) + Z.to_nat (m - omin o)
     end.

(** [reach node p e]: [e] is an end position reachable from the child
    position [p] under [node]; [times node k p e]: by [k] occurrences
    of [node] one after the other; [once node p e]: by one occurrence,
    its own [occurs] left aside; [chain items p e]: by the items of a
    sequence one after the other. *)
Inductive reach : XsdParticle -> nat -> nat -> Prop :=
| reach_times node k p e :
    inRange (p_occurs node) k -> times node k p e -> reach node p e
with times : XsdParticle -> nat -> nat -> nat -> Prop :=
| times_O node p : times node 0 p p
| times_S node k p q e : once node p q -> times node k q e -> times node (S k) p e
with once : XsdParticle -> nat -> nat -> Prop :=
| once_empty o p : once (PEmpty o) p p
| once_element name o p c :
    children !! p = Some c -> Xsd.matchesElementName name c xsd = true ->
    once (PElement name o) p (p + 1)
| once_any o p : p < length children -> once (PAny o) p (p + 1)
| once_group ref o g p e :
    groups xsd !! ref = Some g -> reach g p e -> once (PGroupRef ref o) p e
| once_sequence items o p e : chain items p e -> once (PSequence items o) p e
| once_choice items o it p e : it ∈ items -> reach it p e -> once (PChoice items o) p e
| once_all items o p e :
    p <= e <= length children ->
    Xsd.allSatisfied items (slice children p e) = true ->
    once (PAll items o) p e
with chain : list XsdParticle -> nat -> nat -> Prop :=
| chain_nil p : chain [] p p
| chain_cons it rest p q e : reach it p q -> chain rest q e -> chain (it :: rest) p e.

Scheme reach_mut := Minimality for reach Sort Prop
  with times_mut := Minimality for times Sort Prop
  with once_mut := Minimality for once Sort Prop
  with chain_mut := Minimality for chain Sort Prop.
End Reach.

(** The items of a group particle. *)
Definition p_items (p : XsdParticle) : list XsdParticle :=
  match p with
  | PSequence items _ | PChoice items _ | PAll items _ => items
  | _ => []
  end.

(** The particle at a place below [root]. *)
Fixpoint subnode (root : XsdParticle) (place : list nat) : option XsdParticle :=
  match place with
  | [] => Some root
  | k :: rest =>
      match p_items root !! k with
      | Some it => subnode it rest
      | None => None
      end
  end.

(** The particle that an identity stands for: a place below the root
    particle or below a named group. *)
Definition nodeAt (xsd : XsdIndex) (root : XsdParticle) (id : Xsd.NodeId)
  : option XsdParticle :=
  match id.1 with
  | None => subnode root id.2
  | Some ref =>
      match groups xsd !! ref with
      | Some g => subnode g id.2
      | None => None
      end
  end.
End XsdSemantics.

(** ** What the memo table of the XSD matcher holds *)

Module XsdMemo.
Import Xsd XsdSemantics.

(** Every entry of the memo table holds the end positions of the
    particle at its key. *)
Definition memo_ok (xsd : XsdIndex) (children : list str) (root : XsdParticle)
    (memo : Memo) : Prop :=
  forall id pos v, memo !! (id, pos) = Some v ->
    exists node, nodeAt xsd root id = Some node
                 /\ forall e, e ∈ v <-> reach xsd children node pos e.

(** A computation that comes to an end, keeps the memo table right and
    yields the set [S]. *)
Definition yields (xsd : XsdIndex) (children : list str) (root : XsdParticle)
    (c : M (list nat)) (S : nat -> Prop) : Prop :=
  forall memo, memo_ok xsd children root memo ->
    exists l memo', c memo = Some (l, memo')
                    /\ memo_ok xsd children root memo'
                    /\ forall e, e ∈ l <-> S e.
End XsdMemo.

(** The element [e] of [sample_groupIndex]. *)
Definition sample_groupElement : XsdElementDef :=
  {| xe_name := lit "e";
     xe_content := PGroupRef (lit "g") occurs11;
     xe_attributes := [];
     xe_mixed := false;
     xe_allowAnyAttribute := false;
     xe_allowedChildren := AllowedSet [lit "a"] |}.

(** ** Texts with some of their angle brackets escaped *)

Module AngleEscapes.
(** [out] is [s] with some of its ["<"] written as ["&lt;"] and some of
    its [">"] written as ["&gt;"]. *)
Inductive escapes : str -> str -> Prop :=
| esc_nil : escapes [] []
| esc_keep c out s : escapes out s -> escapes (c :: out) (c :: s)
| esc_lt out s : escapes out s -> escapes (lit "&lt;" ++ out) (60%N :: s)
| esc_gt out s : escapes out s -> escapes (lit "&gt;" ++ out) (62%N :: s).
End AngleEscapes.

(** ** Particles without negative [minOccurs] *)

Module ParticleShape.
(** No [occurs.min] in the particle is negative. *)
Fixpoint minsNonNegative (p : XsdParticle) : bool :=
  (0 <=? omin (p_occurs p))%Z
  && match p with
     | PSequence items _ | PChoice items _ | PAll items _ => forallb minsNonNegative items
     | _ => true
     end.
End ParticleShape.

(** The sequence of one [a] whose own [occurs] is [{ min: -1, max: 1 }]. *)
Definition sample_negativeMin : XsdParticle :=
  PSequence [PElement (lit "a") occurs11] {| omin := (-1)%Z; omax := MaxN 1 |}.

(** ** An [xs:all] group over the head of a substitution group *)

(** The index of a schema that declares [<r>] as an [xs:all] group of
    one [<x>], and [<y>] in the substitution group of [<x>]. *)
Definition sample_allSubstIndex : XsdIndex :=
  let leaf := fun n =>
    {| xe_name := n; xe_content := XsdIndexBuilder.emptyParticle;
       xe_attributes := []; xe_mixed := false; xe_allowAnyAttribute := false;
       xe_allowedChildren := AllowedEMPTY |} in
  {| elements :=
       {[ lit "r" :=
            {| xe_name := lit "r";
               xe_content := PAll [PElement (lit "x") occurs11] occurs11;
               xe_attributes := []; xe_mixed := false;
               xe_allowAnyAttribute := false;
               xe_allowedChildren := AllowedSet [lit "x"; lit "y"] |};
          lit "x" := leaf (lit "x");
          lit "y" := leaf (lit "y") ]};
     groups := ∅; attributes := ∅;
     substitutionGroups := {[ lit "x" := [lit "y"] ]};
     substitutionGroupFor := {[ lit "y" := lit "x" ]} |}.

(** The same schema with [<r>] declared as an [xs:sequence]. *)
Definition sample_seqSubstIndex : XsdIndex :=
  {| elements :=
       <[ lit "r" :=
            {| xe_name := lit "r";
               xe_content := PSequence [PElement (lit "x") occurs11] occurs11;
               xe_attributes := []; xe_mixed := false;
               xe_allowAnyAttribute := false;
               xe_allowedChildren := AllowedSet [lit "x"; lit "y"] |} ]>
         (elements sample_allSubstIndex);
     groups := ∅; attributes := ∅;
     substitutionGroups := {[ lit "x" := [lit "y"] ]};
     substitutionGroupFor := {[ lit "y" := lit "x" ]} |}.

(** The document [<r><y/></r>]. *)
Definition sample_substDoc : Node :=
  Element (lit "r") [] [Element (lit "y") [] []].

(** ** The grammar of content models *)

(** The texts of the content models and the nodes they stand for, as
    the parser reads them: white space may stand around every token. *)
Module ModelGrammar.
Import DtdIndexBuilder.

Definition ws (u : str) : Prop := forallb isJsSpace u = true.

Definition isName (n : str) : Prop :=
  n <> [] /\ forallb (fun c => negb (isNameStop c)) n = true.

(** The character that writes an occurrence indicator. *)
Definition indicator (q : DtdOccurs) : option N :=
  match q with
  | One => None
  | Opt => Some 63%N
  | Star => Some 42%N
  | Plus => Some 43%N
  end.

(** The operator of a mode, and the node the mode builds. *)
Definition separator (m : Mode) : N :=
  match m with ModeCHOICE => 124%N | ModeSEQ => 44%N end.

Definition group (m : Mode) (items : list DtdContentModel) : DtdContentModel :=
  match m with
  | ModeCHOICE => CHOICE items One
  | ModeSEQ => SEQ items One
  end.

(** The names of a mixed model after [#PCDATA], each one after a bar. *)
Inductive mixedNames : str -> list DtdContentModel -> Prop :=
| mixed_end w : ws w -> mixedNames w []
| mixed_next w w' n u its :
    ws w -> ws w' -> isName n -> mixedNames u its ->
    mixedNames (w ++ [124%N] ++ w' ++ n ++ u) (NAME n One :: its).

(** - [expr]: one term, or a chain of two terms or more that are all
      separated by the one operator of a mode: a [SEQ] node is built
      from a chain of commas, a [CHOICE] node from a chain of bars;
    - [separated m]: what follows the first term of such a chain;
    - [term]: an atom, with an occurrence indicator or without one;
    - [atom]: a name, an expression in parentheses, or a mixed model. *)
Inductive expr : str -> DtdContentModel -> Prop :=
| expr_single u t w : term u t -> ws w -> expr (u ++ w) t
| expr_chain m u t v ts :
    term u t -> separated m v ts -> ts <> [] ->
    expr (u ++ v) (group m (t :: ts))
with separated : Mode -> str -> list DtdContentModel -> Prop :=
| separated_end m w : ws w -> separated m w []
| separated_next m w u t v ts :
    ws w -> term u t -> separated m v ts ->
    separated m (w ++ [separator m] ++ u ++ v) (t :: ts)
with term : str -> DtdContentModel -> Prop :=
| term_plain w u a w' : ws w -> atom u a -> ws w' -> term (w ++ u ++ w') a
| term_occurs w u a w' q c :
    ws w -> atom u a -> ws w' -> indicator q = Some c ->
    term (w ++ u ++ w' ++ [c]) (withOccurs a q)
with atom : str -> DtdContentModel -> Prop :=
| atom_name n : isName n -> atom n (NAME n One)
| atom_group w u e w' :
    ws w -> expr u e -> ws w' -> atom ([40%N] ++ w ++ u ++ w' ++ [41%N]) e
| atom_pcdata w w' :
    ws w -> ws w' -> atom ([40%N] ++ w ++ lit "#PCDATA" ++ w' ++ [41%N]) (PCDATA One)
| atom_mixed w w' u its w'' :
    ws w -> ws w' -> mixedNames u its -> ws w'' ->
    atom ([40%N] ++ w ++ lit "#PCDATA" ++ w' ++ u ++ w'' ++ [41%N])
      (CHOICE (PCDATA One :: its) One).
End ModelGrammar.

(** ** Well-formed documents as the sanitizer reads them *)

(** A document after its prolog is a sequence of items: character
    data, tags, comments, CDATA sections and processing instructions. *)
Module XmlText.
Import Sanitizer.

Inductive Item : Type :=
| Chars (text : str)
| Tag (closing : bool) (name rest : str)
| Comment (body : str)
| CData (body : str)
| PI (body : str).

Definition isMarkup (it : Item) : bool :=
  match it with
  | Chars _ => false
  | _ => true
  end.

(** The text of an item: a tag is ["<"], ["/"] if it closes, its name,
    the rest (attributes, white space, the ["/"] of an empty element)
    and [">"]. *)
Definition render1 (it : Item) : str :=
  match it with
  | Chars t => t
  | Tag closing name rest =>
      lit "<" ++ (if closing then lit "/" else []) ++ name ++ rest ++ lit ">"
  | Comment b => lit "<!--" ++ b ++ lit "-->"
  | CData b => lit "<![CDATA[" ++ b ++ lit "]]>"
  | PI b => lit "<?" ++ b ++ lit "?>"
  end.

Definition render (items : list Item) : str := flat_map render1 items.

(** A character of XML text: one that [scrubInvalidXmlCharsInText] keeps. *)
Definition isXmlChar (code : N) : bool :=
  negb ((code <=? 8) || (code =? 11) || (code =? 12)
        || (14 <=? code) && (code <=? 31)
        || (code =? 65534) || (code =? 65535))%N.

(** [pat] occurs in [s]. *)
Fixpoint occurs (pat s : str) : bool :=
  startsWith s pat
  || match s with
     | [] => false
     | _ :: r => occurs pat r
     end.

(** The terminator [term] occurs in [body ++ term] at the end first. *)
Definition endsFirst (term body : str) : bool :=
  match indexOf (body ++ term) term 0 with
  | Some j => Nat.eqb j (length body)
  | None => false
  end.

(** Every quoted attribute value is closed, and no [">"] stands
    outside of one. *)
Fixpoint quotesClosed (quote : option N) (s : str) : bool :=
  match s with
  | [] => match quote with None => true | Some _ => false end
  | ch :: r =>
      match quote with
      | Some q => quotesClosed (if (ch =? q)%N then None else quote) r
      | None =>
          if (ch =? 34)%N || (ch =? 39)%N then quotesClosed (Some ch) r
          else if (ch =? 62)%N then false
          else quotesClosed None r
      end
  end.

(** The lower-cased names of the configured containers. *)
Definition containerNames (o : XmlSanitizeOptions) : list str :=
  map toLowerCase (richTextContainers o) ++ map toLowerCase (inlineTextContainers o).

(** An item is well formed and no container markup:
    - all its characters are XML characters;
    - character data holds no ["<"];
    - a tag has a name, after which comes nothing, or a character that
      neither continues the name nor is a zero-width mark; the rest
      holds no ["<"] and its quotes are closed; the name is not that of
      a configured container;
    - a comment holds no ["--"], and a CDATA section or a processing
      instruction does not hold its terminator, nor the opening of a
      comment. *)
Definition wfItem (containers : list str) (it : Item) : bool :=
  forallb isXmlChar (render1 it)
  && match it with
     | Chars t => forallb (fun c => negb (c =? 60)%N) t
     | Tag closing name rest =>
         match name with
         | c0 :: _ => isLetter c0 || (c0 =? 95)%N
         | [] => false
         end
         && forallb isTagNameChar name
         && match rest with
            | c :: _ => negb (isTagNameChar c || isZeroWidthMark c)
            | [] => true
            end
         && forallb (fun c => negb (c =? 60)%N) rest
         && quotesClosed None rest
         && negb (has (toLowerCase (localName name)) containers)
     | Comment b => negb (occurs (lit "--") b) && endsFirst (lit "-->") b
     | CData b => negb (occurs (lit "<!--") b) && endsFirst (lit "]]>") b
     | PI b => negb (occurs (lit "<!--") b) && endsFirst (lit "?>") b
     end.

(** Every run of character data is one item. *)
Fixpoint noAdjacentChars (items : list Item) : bool :=
  match items with
  | Chars _ :: ((Chars _ :: _) as r) => false
  | _ :: r => noAdjacentChars r
  | [] => true
  end.

(** The items begin with markup other than an XML declaration. *)
Definition startsDocument (items : list Item) : bool :=
  match items with
  | it :: _ => isMarkup it && negb (startsWith (render1 it) (lit "<?xml"))
  | [] => false
  end.

(** The items end with markup, after which only white space may come. *)
Definition endsDocument (items : list Item) : bool :=
  match rev items with
  | Chars w :: m :: _ => forallb isJsSpace w && isMarkup m
  | m :: _ => isMarkup m
  | [] => false
  end.

Definition wellFormed (o : XmlSanitizeOptions) (items : list Item) : bool :=
  forallb (wfItem (containerNames o)) items
  && noAdjacentChars items && startsDocument items && endsDocument items.

(** *** The prolog *)

Inductive Decl : Type :=
| XmlDecl (body : str)
| Doctype (body : str)
| DoctypeSubset (body subset : str).

Definition renderDecl (d : Decl) : str :=
  match d with
  | XmlDecl b => lit "<?xml" ++ b ++ lit "?>"
  | Doctype b => lit "<!DOCTYPE" ++ b ++ lit ">"
  | DoctypeSubset b s => lit "<!DOCTYPE" ++ b ++ lit "[" ++ s ++ lit "]>"
  end.

Definition wfDecl (d : Decl) : bool :=
  match d with
  | XmlDecl b => endsFirst (lit "?>") b
  | Doctype b => forallb (fun c => negb ((c =? 62)%N || (c =? 91)%N)) b
  | DoctypeSubset b s =>
      forallb (fun c => negb ((c =? 62)%N || (c =? 91)%N)) b
      && endsFirst (lit "]>") s
  end.

(** A prolog: declarations, each after white space, and white space. *)
Definition prologText (ds : list (str * Decl)) (w : str) : str :=
  flat_map (fun wd => wd.1 ++ renderDecl wd.2) ds ++ w.

Definition wfProlog (ds : list (str * Decl)) (w : str) : bool :=
  forallb (fun wd => forallb isJsSpace wd.1 && wfDecl wd.2) ds
  && forallb isJsSpace w.

(** *** What the sanitizer normalizes *)

(** The entity normalization under the default options. *)
Definition entities (s : str) : str :=
  match normalizeEntitiesAndAmpersands s (entityPolicy DEFAULTS) (namedEntities DEFAULTS) with
  | Ok w => w
  | Throw _ => s
  end.

(** An item after the whitespace-inside-tags normalization and the entity
    normalization: comments, CDATA sections and processing instructions
    stay as they are. *)
Definition normalize (it : Item) : Item :=
  match it with
  | Chars t => Chars (entities t)
  | Tag closing name rest => Tag closing name (entities (spacesLoop true None rest))
  | _ => it
  end.

(** No reference named [constructor] is met by the entity step. *)
Definition noConstructorRef (it : Item) : Prop :=
  match it with
  | Chars t => ~ EntityRefs.refersTo (lit "constructor") t
  | Tag _ _ rest =>
      ~ EntityRefs.refersTo (lit "constructor") (spacesLoop true None rest)
  | _ => True
  end.
(** *** The masked text *)

(** No occurrence of [pat] starts inside [u] when [z] follows it. *)
Definition firstAt (pat u z : str) : Prop :=
  forall k, k < length u -> startsWith (drop k (u ++ z)) pat = false.

(** No occurrence of [pat] starts inside [u], whatever follows. *)
Definition noStartIn (pat u : str) : Prop := forall z, firstAt pat u z.

(** The items with a token for every comment, CDATA section and
    processing instruction, numbered from [k] on. *)
Fixpoint masked (k : nat) (items : list Item) : str :=
  match items with
  | [] => []
  | it :: r =>
      if isMarkup it && negb (match it with Tag _ _ _ => true | _ => false end)
      then token k ++ masked (S k) r
      else render1 it ++ masked k r
  end.

(** The segments the tokens stand for. *)
Definition holesOf (items : list Item) : list str :=
  omap (fun it => match it with
                  | Chars _ | Tag _ _ _ => None
                  | _ => Some (render1 it)
                  end) items.

(** *** Characters and rewrites that the scans pass over *)

(** The text of a tag after its ["<"]. *)
Definition tagBody (closing : bool) (name rest : str) : str :=
  (if closing then lit "/" else []) ++ name ++ rest ++ lit ">".

(** A character the white-space step copies inside a tag without a
    change of its state. *)
Definition tagPlain (c : N) : bool :=
  negb ((c =? 34)%N || (c =? 39)%N || (c =? 62)%N
        || isUnicodeSpaceInTag c || isZeroWidthMark c).

(** A character of XML text that is no angle bracket and that no scan
    of a tag reacts to. *)
Definition inert (c : N) : bool :=
  isXmlChar c && negb (c =? 60)%N && tagPlain c.

(** [w] is [u] with some of its references, each an ampersand and an
    inert text, replaced by such references. *)
Inductive rewrites : str -> str -> Prop :=
| rewrites_nil : rewrites [] []
| rewrites_copy c u w : rewrites u w -> rewrites (c :: u) (c :: w)
| rewrites_ref a b u w :
    forallb inert a = true -> forallb inert b = true -> rewrites u w ->
    rewrites (38%N :: a ++ u) (38%N :: b ++ w).

(** The quote a scan may be inside of. *)
Definition quoteState (q : option N) : Prop :=
  q = None \/ q = Some 34%N \/ q = Some 39%N.

(** A character that ends every reference the entity step reads. *)
Definition stopChar (c : N) : bool :=
  negb (isAlphaNum c || isHexDigit c || (c =? 35)%N || (c =? 59)%N || (c =? 38)%N).
End XmlText.

(** A well-formed document: an XML declaration, a document type, a tag
    with a no-break space before its attribute, character data with a
    named reference and a bare ampersand, a comment and a CDATA section. *)
Definition sample_documentProlog : list (str * XmlText.Decl) :=
  [([], XmlText.XmlDecl (lit " version='1.0'")); (lit " ", XmlText.Doctype (lit " r"))].

Definition sample_documentItems : list XmlText.Item :=
  [XmlText.Tag false (lit "r") (160%N :: lit "a='1'");
   XmlText.Chars (lit "a&nbsp;b & c");
   XmlText.Comment (lit " x ");
   XmlText.CData (lit "1 < 2");
   XmlText.Tag true (lit "r") []].

(** * Properties *)

(** ** Sets as lists *)

Lemma has_true {A} `{EqDecision A} (x : A) (xs : list A) : has x xs = true <-> x ∈ xs.
Proof. unfold has. apply bool_decide_eq_true. Qed.

Lemma has_false {A} `{EqDecision A} (x : A) (xs : list A) : has x xs = false <-> x ∉ xs.
Proof. unfold has. apply bool_decide_eq_false. Qed.

Lemma has_iff {A} `{EqDecision A} (x : A) (l1 l2 : list A) :
  (x ∈ l1 <-> x ∈ l2) -> has x l1 = has x l2.
Proof. intros H. unfold has. by apply bool_decide_ext. Qed.

Lemma str_eqb_true (a b : str) : str_eqb a b = true <-> a = b.
Proof. unfold str_eqb. apply bool_decide_eq_true. Qed.

Lemma str_eqb_false (a b : str) : str_eqb a b = false <-> a <> b.
Proof. unfold str_eqb. apply bool_decide_eq_false. Qed.

Lemma str_eqb_refl (a : str) : str_eqb a a = true.
Proof. by apply str_eqb_true. Qed.

Lemma set_add_elem {A} `{EqDecision A} (x y : A) (xs : list A) :
  y ∈ set_add x xs <-> y = x \/ y ∈ xs.
Proof.
  unfold set_add. destruct (has x xs) eqn:E.
  - apply has_true in E. split; [auto | intros [-> | ?]; auto].
  - rewrite elem_of_app, list_elem_of_singleton. tauto.
Qed.

Lemma merge_sort_elem (l : list nat) x : x ∈ merge_sort le l <-> x ∈ l.
Proof. by rewrite merge_sort_Permutation. Qed.

Lemma bool_eq_iff (b1 b2 : bool) : (b1 = true <-> b2 = true) -> b1 = b2.
Proof. destruct b1, b2; intuition congruence. Qed.

(** ** Attribute references (C10) *)

(** C10. An [xs:attribute] with a non-empty [ref] takes the enumeration
    and the fixed value of the referenced global attribute unless it
    states its own, and never its [use]: without a local [use] the
    definition is ["optional"], whatever the global attribute declares. *)
Theorem C10_attribute_ref_inherits_enum_fixed_not_use :
  forall (attrEl : Node) (globals : gmap str XsdAttrDef) (c : N) (r : str)
         (base : XsdAttrDef),
    attr attrEl (lit "ref") = Some (c :: r) ->
    globals !! localName (c :: r) = Some base ->
    let def := parseAttributeDef attrEl globals in
    (attr attrEl (lit "use") = None -> use def = lit "optional")
    /\ (forall u, attr attrEl (lit "use") = Some u -> use def = u)
    /\ (attr attrEl (lit "fixed") = None -> fixed def = fixed base)
    /\ (forall f, attr attrEl (lit "fixed") = Some f -> fixed def = Some f)
    /\ (extractAttributeEnum attrEl = None -> enum def = enum base)
    /\ (forall e, extractAttributeEnum attrEl = Some e -> enum def = Some e).
Proof.
  intros attrEl globals c r base Href Hbase def.
  subst def. unfold parseAttributeDef. rewrite Href, Hbase. simpl.
  repeat split.
  - intros ->. reflexivity.
  - intros u ->. reflexivity.
  - intros ->. reflexivity.
  - intros f ->. reflexivity.
  - intros ->. reflexivity.
  - intros e ->. reflexivity.
Qed.

Lemma C10_witness :
  use sample_globalAttr = lit "required"
  /\ use (parseAttributeDef sample_attrRef {[ lit "mode" := sample_globalAttr ]})
     = lit "optional"
  /\ fixed (parseAttributeDef sample_attrRef {[ lit "mode" := sample_globalAttr ]})
     = Some (lit "on")
  /\ enum (parseAttributeDef sample_attrRef {[ lit "mode" := sample_globalAttr ]})
     = Some [lit "on"; lit "off"].
Proof.
  pose proof (C10_attribute_ref_inherits_enum_fixed_not_use sample_attrRef
                {[ lit "mode" := sample_globalAttr ]} 116%N (lit "ns:mode")
                sample_globalAttr eq_refl eq_refl) as (Huse & _ & Hfixed & _ & Henum & _).
  split; [reflexivity |].
  split; [exact (Huse eq_refl) |].
  split; [exact (Hfixed eq_refl) | exact (Henum eq_refl)].
Defined.

Module XsdFacts.
Import Xsd.


(** ** The XSD matcher on particular particles *)

Lemma xsd_match_unfold fuel xsd children node id pos memo :
  match_ fuel xsd children node id pos memo =
  match memo !! (id, pos) with
  | Some cached => Some (cached, memo)
  | None =>
      matchBody children
        (fun p => matchOnce xsd children (match_ fuel xsd children)
                    (match fuel with
                     | O => fun _ _ _ => mfail
                     | S f => match_ f xsd children
                     end) node id p)
        node id pos memo
  end.
Proof. destruct fuel; destruct node; reflexivity. Qed.

Lemma matchesElementName_spec expected actual xsd :
  matchesElementName expected actual xsd = true <->
  expected = actual \/
  exists subs, substitutionGroups xsd !! expected = Some subs /\ actual ∈ subs.
Proof.
  unfold matchesElementName.
  destruct (str_eqb expected actual) eqn:E.
  - apply str_eqb_true in E. split; auto.
  - apply str_eqb_false in E.
    destruct (substitutionGroups xsd !! expected) as [subs|] eqn:Hs.
    + rewrite has_true. split.
      * intros H. right. eauto.
      * intros [H | (subs' & Hs' & H)]; [done |]. by simplify_eq.
    + split; [done |]. intros [H | (subs' & Hs' & H)]; [done | congruence].
Qed.

(** ** Substitution groups (C3) *)

Lemma collectGlobal_keeps g n head subs x :
  g_substitutionGroups g !! head = Some subs -> x ∈ subs ->
  exists subs', g_substitutionGroups (collectGlobal g n) !! head = Some subs' /\ x ∈ subs'.
Proof.
  intros Hh Hx. unfold collectGlobal.
  destruct (negb (is_element n)); [eauto |].
  destruct (str_eqb (localName (el_name n)) (lit "element")).
  - destruct (truthy (attr n (lit "name"))) as [nm|]; [| eauto].
    destruct (truthy (attr n (lit "substitutionGroup"))) as [sg|]; [| simpl; eauto].
    destruct (localName sg) as [|c hd] eqn:Hl; [simpl; eauto |].
    simpl. destruct (decide (c :: hd = head)) as [->|Hne].
    + rewrite lookup_insert_eq. eexists; split; [done |].
      rewrite Hh. simpl. apply set_add_elem. auto.
    + rewrite lookup_insert_ne by done. eauto.
  - repeat (match goal with
            | |- context [if ?b then _ else _] => destruct b
            | |- context [match truthy ?v with _ => _ end] => destruct (truthy v)
            end; simpl; eauto).
Qed.

Lemma collectGlobal_records g n nm sg :
  is_element n = true ->
  localName (el_name n) = lit "element" ->
  truthy (attr n (lit "name")) = Some nm ->
  truthy (attr n (lit "substitutionGroup")) = Some sg ->
  localName sg <> [] ->
  exists subs,
    g_substitutionGroups (collectGlobal g n) !! localName sg = Some subs /\ nm ∈ subs.
Proof.
  intros He Hl Hn Hs Hne. unfold collectGlobal.
  rewrite He, Hl, Hn, Hs. simpl.
  destruct (localName sg) as [|c hd] eqn:E; [done |].
  simpl. rewrite lookup_insert_eq. eexists; split; [done |].
  apply set_add_elem. auto.
Qed.

Lemma foldl_collectGlobal_keeps ns g head subs x :
  g_substitutionGroups g !! head = Some subs -> x ∈ subs ->
  exists subs',
    g_substitutionGroups (foldl collectGlobal g ns) !! head = Some subs' /\ x ∈ subs'.
Proof.
  revert g subs. induction ns as [|n ns IH]; intros g subs Hh Hx; simpl; [eauto |].
  destruct (collectGlobal_keeps g n head subs x Hh Hx) as (subs' & H1 & H2).
  eauto.
Qed.

(** The pass of [buildXsdIndex] over the schema records every
    [<element name=y substitutionGroup=x>] as a member of the group
    headed by the local name of [x]. *)
Lemma collectGlobals_records_substitution ns n nm sg :
  n ∈ ns ->
  is_element n = true ->
  localName (el_name n) = lit "element" ->
  truthy (attr n (lit "name")) = Some nm ->
  truthy (attr n (lit "substitutionGroup")) = Some sg ->
  localName sg <> [] ->
  exists subs,
    g_substitutionGroups (collectGlobals ns) !! localName sg = Some subs /\ nm ∈ subs.
Proof.
  intros Hin He Hl Hn Hs Hne. unfold collectGlobals.
  generalize emptyGlobals as g.
  induction ns as [|n' ns IH]; intros g; [by apply elem_of_nil in Hin |].
  apply elem_of_cons in Hin as [<- | Hin]; simpl.
  - destruct (collectGlobal_records g n nm sg He Hl Hn Hs Hne) as (subs & H1 & H2).
    eapply foldl_collectGlobal_keeps; eauto.
  - by apply IH.
Qed.

(** An element particle that requires [x] is satisfied by a child named
    [y] of the substitution group headed by [x], at every child
    position. *)
Lemma element_particle_accepts_member :
  forall (xsd : XsdIndex) (x y : str) (subs : list str),
    substitutionGroups xsd !! x = Some subs ->
    y ∈ subs ->
    matchesElementName x y xsd = true
    /\ (forall children pos occurs rec grp id memo,
          children !! pos = Some y ->
          matchOnce xsd children rec grp (PElement x occurs) id pos memo
          = Some ([pos + 1], memo))
    /\ (forall fuel, matchesParticle fuel (PElement x occurs11) [y] xsd = Some true).
Proof.
  intros xsd x y subs Hs Hy.
  assert (Hm : matchesElementName x y xsd = true)
    by (apply matchesElementName_spec; eauto).
  split; [exact Hm |]. split.
  - intros children pos occurs rec grp id memo Hc.
    unfold matchOnce, mret. by rewrite Hc, Hm.
  - intros fuel. unfold matchesParticle. rewrite xsd_match_unfold.
    rewrite lookup_empty. unfold matchBody. simpl.
    unfold mbind, mret. simpl. rewrite Hm. reflexivity.
Qed.

(** ** Unordered groups (C2) *)

Lemma xsd_adds_elem acc es x : x ∈ adds acc es <-> x ∈ acc \/ x ∈ es.
Proof.
  unfold adds. revert acc. induction es as [|e es IH]; intros acc; simpl.
  - rewrite elem_of_nil. tauto.
  - rewrite IH, set_add_elem, elem_of_cons. tauto.
Qed.

Lemma slice_all {A} (l : list A) : slice l 0 (length l) = l.
Proof. unfold slice. rewrite drop_0, Nat.sub_0_r. apply firstn_all. Qed.

(** An [all] group that occurs exactly once accepts the children whose
    whole sequence satisfies the items. *)
Lemma matchesParticle_all fuel items children xsd :
  matchesParticle fuel (PAll items occurs11) children xsd
  = Some (allSatisfied items children).
Proof.
  unfold matchesParticle. rewrite xsd_match_unfold, lookup_empty.
  unfold matchBody, matchOnce. cbn [p_occurs occurs11 omin omax].
  change (Z.to_nat 1) with 1. change (Z.to_nat (1 - 1)) with 0.
  cbn [required extras collect]. unfold mbind, mret. cbn beta iota.
  rewrite Nat.sub_0_r.
  match goal with |- context [List.filter ?f ?l] => set (ends := List.filter f l) end.
  assert (Hends : forall e, e ∈ ends <->
            e <= length children /\ allSatisfied items (slice children 0 e) = true).
  { intros e. subst ends. rewrite list_elem_of_In, filter_In, <- list_elem_of_In, elem_of_seq.
    split; intros [? ?]; split; auto; lia. }
  assert (Hlen : has (length children) ends = allSatisfied items children).
  { destruct (allSatisfied items children) eqn:E.
    - apply has_true, Hends. rewrite slice_all. auto.
    - apply has_false. intros H. apply Hends in H as [_ H].
      rewrite slice_all in H. congruence. }
  assert (Hadds : forall e, e ∈ adds [] ends <-> e ∈ ends).
  { intros e. rewrite xsd_adds_elem, elem_of_nil. tauto. }
  destruct (adds [] ends) as [|a l] eqn:Ea; simpl.
  - f_equal. rewrite <- Hlen. symmetry. apply has_false.
    intros H. apply Hadds in H. by apply elem_of_nil in H.
  - f_equal. rewrite <- Hlen. apply has_iff.
    rewrite merge_sort_elem. apply Hadds.
Qed.

(** C3. The claim fails inside an [xs:all] group. When [y] is recorded
    in the substitution group headed by [x] and is another name, an
    element particle that requires [x] accepts the child [y] on its own
    (and in a sequence), but the [xs:all] group of that same particle
    refuses it: [allSatisfied] compares the names as they are and never
    looks at the substitution groups. The document [<r><y/></r>] is
    accepted when [<r>] is declared as a sequence of one [<x>] and
    rejected when it is declared as an [xs:all] group of one [<x>]. *)
Theorem C3_all_group_refuses_substitution_member :
  forall (xsd : XsdIndex) (x y : str) (subs : list str) (fuel : nat),
    substitutionGroups xsd !! x = Some subs ->
    y ∈ subs ->
    x <> y ->
    matchesElementName x y xsd = true
    /\ matchesParticle fuel (PElement x occurs11) [y] xsd = Some true
    /\ matchesParticle fuel (PAll [PElement x occurs11] occurs11) [y] xsd = Some false
    /\ validateAgainstXsd 1 sample_substDoc (lit "r") sample_seqSubstIndex = Some Returns
    /\ validateAgainstXsd 1 sample_substDoc (lit "r") sample_allSubstIndex
       = Some (Throws (lit "XSD validation failed:" ++ nl
                       ++ lit "- /r: Child elements do not match XSD model: expected all(<x>), got (y)")).
Proof.
  intros xsd x y subs fuel Hs Hy Hne.
  destruct (element_particle_accepts_member xsd x y subs Hs Hy) as (Hm & _ & Hp).
  split; [exact Hm |]. split; [apply Hp |]. split; [| split].
  - rewrite matchesParticle_all. f_equal. unfold allSatisfied. simpl.
    assert (has y [x] = false) as ->; [| reflexivity].
    apply has_false. intros H. apply list_elem_of_singleton in H. by subst.
  - vm_compute. reflexivity.
  - vm_compute. reflexivity.
Qed.

Lemma C3_witness :
  substitutionGroups sample_substIndex !! lit "x" = Some [lit "y"]
  /\ lit "y" ∈ [lit "y"]
  /\ lit "x" <> lit "y"
  /\ matchesParticle 0 (PElement (lit "x") occurs11) [lit "y"] sample_substIndex
     = Some true
  /\ matchesParticle 0 (PAll [PElement (lit "x") occurs11] occurs11) [lit "y"]
       sample_substIndex
     = Some false.
Proof.
  assert (H1 : substitutionGroups sample_substIndex !! lit "x" = Some [lit "y"])
    by reflexivity.
  assert (H2 : lit "y" ∈ [lit "y"]) by (apply list_elem_of_singleton; reflexivity).
  assert (H3 : lit "x" <> lit "y") by discriminate.
  pose proof (C3_all_group_refuses_substitution_member sample_substIndex
                (lit "x") (lit "y") [lit "y"] 0 H1 H2 H3) as (_ & Hp & Ha & _).
  split; [exact H1 |]. split; [exact H2 |]. split; [exact H3 |].
  split; [exact Hp | exact Ha].
Defined.

Lemma countOf_cons nm x r :
  countOf nm (x :: r) = (if str_eqb x nm then 1 else 0) + countOf nm r.
Proof. unfold countOf. simpl. by destruct (str_eqb x nm). Qed.

Lemma allSatisfied_ab_spec children :
  allSatisfied [PElement (lit "a") occurs11; PElement (lit "b") occurs01] children = true
  <-> (forall n, n ∈ children -> n = lit "a" \/ n = lit "b")
      /\ countOf (lit "a") children = 1
      /\ countOf (lit "b") children <= 1.
Proof.
  unfold allSatisfied. cbn [List.filter is_nil forallb omap occurs11 occurs01 omin omax].
  change (list_omap _ _ _ _) with [lit "a"; lit "b"].
  rewrite !andb_true_l, !andb_true_r.
  rewrite !andb_true_iff, !negb_true_iff, !orb_false_iff, !Z.ltb_ge.
  rewrite forallb_forall.
  split.
  - intros (Hn & (H1 & H2) & (H3 & H4)). split; [| lia].
    intros n Hin. apply list_elem_of_In, Hn, has_true in Hin.
    rewrite !elem_of_cons, elem_of_nil in Hin. tauto.
  - intros (Hn & H1 & H2). split; [| lia].
    intros n Hin. apply has_true. apply list_elem_of_In, Hn in Hin.
    rewrite !elem_of_cons. tauto.
Qed.

Lemma allSatisfied_ab children :
  allSatisfied [PElement (lit "a") occurs11; PElement (lit "b") occurs01] children
  = bool_decide (children ∈ [[lit "a"]; [lit "b"; lit "a"]; [lit "a"; lit "b"]]).
Proof.
  apply bool_eq_iff. rewrite allSatisfied_ab_spec, bool_decide_eq_true.
  rewrite !elem_of_cons, elem_of_nil.
  assert (Eaa : str_eqb (lit "a") (lit "a") = true) by reflexivity.
  assert (Eab : str_eqb (lit "a") (lit "b") = false) by reflexivity.
  assert (Eba : str_eqb (lit "b") (lit "a") = false) by reflexivity.
  assert (Ebb : str_eqb (lit "b") (lit "b") = true) by reflexivity.
  split.
  - intros (Hn & Ha & Hb).
    destruct children as [|x [|y [|z r]]].
    + discriminate Ha.
    + destruct (Hn x) as [-> | ->]; [by left | by left |].
      rewrite countOf_cons, Eba in Ha. discriminate Ha.
    + destruct (Hn x) as [-> | ->]; [by left | |];
        (destruct (Hn y) as [-> | ->]; [by right; left | |]);
        rewrite ?countOf_cons, ?Eaa, ?Eab, ?Eba, ?Ebb in Ha, Hb;
        simpl in Ha, Hb; try lia; try discriminate; auto.
    + destruct (Hn x) as [-> | ->]; [by left | |];
        (destruct (Hn y) as [-> | ->]; [by right; left | |]);
        (destruct (Hn z) as [-> | ->]; [by right; right; left | |]);
        rewrite ?countOf_cons, ?Eaa, ?Eab, ?Eba, ?Ebb in Ha, Hb;
        simpl in Ha, Hb; lia.
  - intros [-> | [-> | [-> | []]]]; (split; [| split; [reflexivity | vm_compute; lia]]);
      intros n; rewrite ?elem_of_cons, elem_of_nil; tauto.
Qed.

(** C2. The particle [all(element a {1,1}, element b {0,1})], itself
    occurring once, accepts exactly the child sequences [a], [b a] and
    [a b]; in particular it rejects [a a] and [c]. *)
Theorem C2_all_group_unordered :
  (forall fuel xsd (children : list str),
     matchesParticle fuel particle_all_ab children xsd
     = Some (bool_decide (children ∈ [[lit "a"]; [lit "b"; lit "a"]; [lit "a"; lit "b"]])))
  /\ matchesParticle 0 particle_all_ab [lit "a"] emptyXsdIndex = Some true
  /\ matchesParticle 0 particle_all_ab [lit "b"; lit "a"] emptyXsdIndex = Some true
  /\ matchesParticle 0 particle_all_ab [lit "a"; lit "b"] emptyXsdIndex = Some true
  /\ matchesParticle 0 particle_all_ab [lit "a"; lit "a"] emptyXsdIndex = Some false
  /\ matchesParticle 0 particle_all_ab [lit "c"] emptyXsdIndex = Some false.
Proof.
  split.
  - intros fuel xsd children. unfold particle_all_ab.
    rewrite matchesParticle_all. f_equal. apply allSatisfied_ab.
  - repeat split; vm_compute; reflexivity.
Qed.


(** ** Ignorable [include] children (C9) *)

Lemma filter_length_eq {A} (f : A -> bool) (l : list A) :
  length (List.filter f l) = length l -> List.filter f l = l.
Proof.
  induction l as [|x l IH]; simpl; [done |].
  destruct (f x); simpl; intros H.
  - f_equal. apply IH. lia.
  - pose proof (filter_length_le f l). lia.
Qed.

(** C9. At every element, whatever its name, a child sequence that
    fails the strict match is accepted by [validateChildren] when the
    sequence without the children named [include] matches the particle:
    no content-model error is pushed (only the character-data error, if
    the element has text it may not have), and the relaxed fallback is
    not consulted. *)
Theorem C9_include_children_ignorable :
  forall (fuel : nat) (el : Node) (elementName : str) (def : XsdElementDef)
         (here : str) (xsd : XsdIndex),
    matchesParticle fuel (xe_content def) (kidNamesOf el) xsd = Some false ->
    matchesParticle fuel (xe_content def)
      (List.filter (fun n => negb (str_eqb n (lit "include"))) (kidNamesOf el)) xsd
    = Some true ->
    validateChildren fuel el elementName def here xsd
    = Some (match nonWhitespaceText el with
            | Some _ =>
                if xe_mixed def then [] else
                [{| path := here;
                    msg := lit "<" ++ elementName
                           ++ lit "> does not allow character data" |}]
            | None => []
            end).
Proof.
  intros fuel el elementName def here xsd Hstrict Hcompat.
  unfold validateChildren, filterCompatChildren.
  destruct (Nat.eqb_spec
              (length (List.filter (fun n => negb (str_eqb n (lit "include")))
                         (kidNamesOf el)))
              (length (kidNamesOf el))) as [Heq | Hne].
  - apply filter_length_eq in Heq. rewrite Heq in Hcompat. congruence.
  - rewrite Hstrict, Hcompat. reflexivity.
Qed.

Lemma C9_witness :
  matchesParticle 0 (xe_content sample_defX) (kidNamesOf sample_elX) emptyXsdIndex
  = Some false
  /\ has (lit "x") RELAXED_CHILD_ORDER = false
  /\ validateChildren 0 sample_elX (lit "x") sample_defX (lit "/x") emptyXsdIndex
     = Some [].
Proof.
  split; [vm_compute; reflexivity |]. split; [vm_compute; reflexivity |].
  exact (C9_include_children_ignorable 0 sample_elX (lit "x") sample_defX (lit "/x")
           emptyXsdIndex eq_refl eq_refl).
Defined.


(** ** A group that refers to itself (C6) *)

Lemma matchBody_none children once node id pos memo :
  (0 < omin (p_occurs node))%Z ->
  once pos memo = None ->
  matchBody children once node id pos memo = None.
Proof.
  intros Hmin Honce. unfold matchBody.
  destruct (Z.to_nat (omin (p_occurs node))) as [|n] eqn:E; [lia |].
  cbn [required collect]. unfold mbind. by rewrite Honce.
Qed.

Lemma cyclic_group_diverges fuel :
  (forall id pos,
     match_ fuel cyclicIndex [] (PGroupRef (lit "g") occurs11) id pos ∅ = None)
  /\ (forall id pos, match_ fuel cyclicIndex [] cyclicGroup id pos ∅ = None).
Proof.
  induction fuel as [|f [IHref IHgrp]].
  - assert (Href : forall id pos,
              match_ 0 cyclicIndex [] (PGroupRef (lit "g") occurs11) id pos ∅ = None).
    { intros id pos. rewrite xsd_match_unfold, lookup_empty.
      apply matchBody_none; [done |]. reflexivity. }
    split; [exact Href |].
    intros id pos. rewrite xsd_match_unfold, lookup_empty.
    apply matchBody_none; [done |].
    unfold matchOnce, cyclicGroup. cbn [seqLoop collect]. unfold mbind. by rewrite Href.
  - assert (Href : forall id pos,
              match_ (S f) cyclicIndex [] (PGroupRef (lit "g") occurs11) id pos ∅ = None).
    { intros id pos. rewrite xsd_match_unfold, lookup_empty.
      apply matchBody_none; [done |].
      unfold matchOnce. change (groups cyclicIndex !! lit "g") with (Some cyclicGroup).
      apply IHgrp. }
    split; [exact Href |].
    intros id pos. rewrite xsd_match_unfold, lookup_empty.
    apply matchBody_none; [done |].
    unfold matchOnce, cyclicGroup. cbn [seqLoop collect]. unfold mbind. by rewrite Href.
Qed.

(** C6 (the XSD half on a schema with a self-referring group). The
    validation of [<e/>] against [cyclicIndex] never comes to an end: it
    neither returns nor throws the aggregated error, whatever the fuel. *)
Theorem C6_xsd_cyclic_group_never_returns :
  ~ exists fuel outcome,
      validateAgainstXsd fuel cyclicDocument (lit "e") cyclicIndex = Some outcome.
Proof.
  intros (fuel & out & H).
  unfold validateAgainstXsd in H.
  assert (Hw : walk fuel (lit "e") cyclicIndex cyclicDocument [] = None).
  { destruct (cyclic_group_diverges fuel) as [Href _].
    assert (Hm : matchesParticle fuel (PGroupRef (lit "g") occurs11) [] cyclicIndex = None).
    { unfold matchesParticle. by rewrite Href. }
    unfold cyclicDocument. cbn [walk].
    change (localName (el_name (Element (lit "e") [] []))) with (lit "e").
    change (resolveElementDef (lit "e") cyclicIndex)
      with (Some {| xe_name := lit "e";
                    xe_content := PGroupRef (lit "g") occurs11;
                    xe_attributes := [];
                    xe_mixed := false;
                    xe_allowAnyAttribute := false;
                    xe_allowedChildren := AllowedEMPTY |}).
    cbn beta iota.
    unfold validateChildren.
    change (kidNamesOf (Element (lit "e") [] [])) with (@nil str).
    change (filterCompatChildren []) with (@nil str, true).
    cbn beta iota. cbn [xe_content]. rewrite Hm. reflexivity. }
  rewrite Hw in H. discriminate.
Qed.

End XsdFacts.

(** ** Aggregation of the violations (C6) *)

Module AggregationFacts.

(** The DTD validator always comes to an end: it returns when the walk
    found nothing and otherwise throws one error that lists every
    violation of the walk on a line of its own. *)
Lemma validateAgainstDtd_aggregates root expectedRoot dtd :
  (Dtd.walk expectedRoot dtd root [] = []
   /\ Dtd.validateAgainstDtd root expectedRoot dtd = Returns)
  \/ (Dtd.walk expectedRoot dtd root [] <> []
      /\ Dtd.validateAgainstDtd root expectedRoot dtd
         = Throws (lit "DTD validation failed:" ++ nl
                   ++ join nl (map formatError
                                 (Dtd.walk expectedRoot dtd root [])))).
Proof.
  unfold Dtd.validateAgainstDtd.
  destruct (Dtd.walk expectedRoot dtd root []) as [|e errors]; [by left | by right].
Qed.

(** When the XSD validator comes to an end, it has returned or thrown
    one error that lists every violation of the walk. *)
Lemma validateAgainstXsd_aggregates fuel root expectedRoot xsd out :
  Xsd.validateAgainstXsd fuel root expectedRoot xsd = Some out ->
  exists errors,
    Xsd.walk fuel expectedRoot xsd root [] = Some errors
    /\ ((errors = [] /\ out = Returns)
        \/ (errors <> []
            /\ out = Throws (lit "XSD validation failed:" ++ nl
                             ++ join nl (map formatError errors)))).
Proof.
  unfold Xsd.validateAgainstXsd.
  destruct (Xsd.walk fuel expectedRoot xsd root []) as [[|e errors]|]; [| | done].
  - intros [= <-]. exists []. split; [done | by left].
  - intros [= <-]. exists (e :: errors). split; [done | by right].
Qed.

(** Two violations in different elements: one error with two lines. *)
Lemma validateAgainstDtd_two_violations :
  Dtd.validateAgainstDtd sample_twoViolations (lit "r") sample_dtd
  = Throws (lit "DTD validation failed:" ++ nl
            ++ lit "- /r: Child elements do not match DTD content model: expected (a), got (a, a)"
            ++ nl
            ++ lit "- /r/a: Unknown attribute " ++ dq ++ lit "x" ++ dq ++ lit " on <a>").
Proof. vm_compute. reflexivity. Qed.

End AggregationFacts.

(** ** The DTD matcher computes the reachable end positions (C1) *)

Module DtdMatcherFacts.
Import Dtd DtdSemantics.

Lemma DtdContentModel_rect' (P : DtdContentModel -> Prop) :
  (forall n o, P (NAME n o)) ->
  (forall o, P (PCDATA o)) ->
  (forall items o, Forall P items -> P (SEQ items o)) ->
  (forall items o, Forall P items -> P (CHOICE items o)) ->
  forall m, P m.
Proof.
  intros Hn Hp Hs Hc.
  fix IH 1. intros [n o | o | items o | items o].
  - apply Hn.
  - apply Hp.
  - apply Hs. induction items as [|it items IHi]; constructor; [apply IH | exact IHi].
  - apply Hc. induction items as [|it items IHi]; constructor; [apply IH | exact IHi].
Qed.

Lemma dtd_adds_elem acc es x : x ∈ adds acc es <-> x ∈ acc \/ x ∈ es.
Proof.
  unfold adds. revert acc. induction es as [|e es IH]; intros acc; simpl.
  - rewrite elem_of_nil. tauto.
  - rewrite IH, set_add_elem, elem_of_cons. tauto.
Qed.

Section Iter.
Context (R : nat -> nat -> Prop).

Lemma iter_split a b p e :
  iter R (a + b) p e <-> exists q, iter R a p q /\ iter R b q e.
Proof.
  revert p. induction a as [|a IH]; intros p; simpl.
  - split; [eauto | by intros (q & -> & H)].
  - split.
    + intros (q & Hq & H). apply IH in H as (q' & H1 & H2). eauto.
    + intros (q' & (q & Hq & H1) & H2). exists q. split; [done |]. apply IH. eauto.
Qed.

Lemma iter_snoc k p e : iter R (S k) p e <-> exists q, iter R k p q /\ R q e.
Proof.
  replace (S k) with (k + 1) by lia. rewrite iter_split. simpl.
  split; intros (q & H1 & H2); exists q; split; auto.
  - by destruct H2 as (q' & H & ->).
  - eauto.
Qed.

Context (len : nat).
Hypothesis Rbound : forall p e, R p e -> p <= e <= Nat.max p len.

Lemma iter_bound k p e : iter R k p e -> p <= e <= Nat.max p len.
Proof.
  revert p. induction k as [|k IH]; intros p; simpl.
  - intros ->. lia.
  - intros (q & Hq & H). apply Rbound in Hq. apply IH in H. lia.
Qed.

Lemma iter_shorten j p e : iter R (S j) p e -> e - p <= j -> iter R j p e.
Proof.
  revert p. induction j as [|j IH]; intros p (q & Hq & H) Hle.
  - simpl in H. subst q. apply Rbound in Hq. simpl. lia.
  - pose proof (Rbound _ _ Hq) as Hb.
    pose proof (iter_bound _ _ _ H) as Hb'.
    destruct (decide (q = p)) as [-> | Hne]; [exact H |].
    exists q. split; [done |]. apply IH; [exact H | lia].
Qed.

Lemma iter_compress m j p e :
  m <= j -> iter R j p e -> exists j', m <= j' <= m + (e - p) /\ iter R j' p e.
Proof.
  intros Hm. induction j as [|j IH].
  - intros H. exists 0. split; [lia | done].
  - intros H. destruct (decide (S j <= m + (e - p))) as [Hle | Hgt].
    + eauto.
    + destruct (decide (m = S j)) as [-> | Hne]; [lia |].
      apply IH; [lia |]. apply iter_shorten; [done | lia].
Qed.
End Iter.

Section Sound.
Context (children : list str) (root : DtdContentModel).

Abbreviation reach := (reach children).

Local Abbreviation memo_ok := (DtdMemo.memo_ok children root).
Local Abbreviation yields := (DtdMemo.yields children root).
Local Abbreviation items_ok := (DtdMemo.items_ok children root).

Lemma memo_ok_empty : memo_ok ∅.
Proof. intros id pos v H. by rewrite lookup_empty in H. Qed.

Lemma memo_ok_insert memo id pos v node :
  memo_ok memo -> subnode root id = Some node ->
  (forall e, e ∈ v <-> reach node pos e) ->
  memo_ok (<[(id, pos) := v]> memo).
Proof.
  intros Hok Hn Hv id' pos' v' H.
  destruct (decide ((id, pos) = (id', pos'))) as [E | E].
  - inversion E; subst. rewrite lookup_insert_eq in H. inversion H; subst. eauto.
  - rewrite lookup_insert_ne in H by done. eauto.
Qed.

Lemma yields_ret l (S : nat -> Prop) : (forall e, e ∈ l <-> S e) -> yields (mret l) S.
Proof. intros H memo Hok. simpl. auto. Qed.

Lemma yields_ext c (S S' : nat -> Prop) :
  (forall e, S e <-> S' e) -> yields c S -> yields c S'.
Proof.
  intros HS Hc memo Hok. destruct (Hc memo Hok) as [H1 H2].
  split; [done |]. intros e. by rewrite H2.
Qed.

Section Loops.
Context (once : nat -> M (list nat)) (R : nat -> nat -> Prop).
Hypothesis Honce : forall p, yields (once p) (R p).

Lemma collect_yields current next :
  yields (collect once current next)
    (fun e => e ∈ next \/ exists p, p ∈ current /\ R p e).
Proof.
  revert next. induction current as [|p rest IH]; intros next memo Hok.
  - simpl. split; [done |]. intros e. split; [auto |].
    intros [H | (p & Hp & _)]; [done | by apply elem_of_nil in Hp].
  - cbn [collect]. unfold mbind.
    destruct (once p memo) as [es memo1] eqn:E1.
    destruct (Honce p memo Hok) as [Hok1 Hes]. rewrite E1 in Hok1, Hes. simpl in *.
    destruct (IH (adds next es) memo1 Hok1) as [Hok2 Hres].
    split; [done |]. intros e. rewrite Hres, dtd_adds_elem, Hes.
    split.
    + intros [[H | H] | (q & Hq & H)]; eauto.
      * right. exists p. split; [by left | done].
      * right. exists q. split; [by right | done].
    + intros [H | (q & Hq & H)]; [auto |].
      apply elem_of_cons in Hq as [-> | Hq]; eauto.
Qed.

Lemma required_ok n current memo :
  memo_ok memo ->
  memo_ok (required n once current memo).2 /\
  match (required n once current memo).1 with
  | Some c => forall e, e ∈ c <-> exists p, p ∈ current /\ iter R n p e
  | None => forall e, ~ exists p, p ∈ current /\ iter R n p e
  end.
Proof.
  revert current memo. induction n as [|n IH]; intros current memo Hok.
  - simpl. split; [done |]. intros e. split.
    + intros H. eauto.
    + by intros (p & Hp & ->).
  - cbn [required]. unfold mbind.
    destruct (collect once current [] memo) as [next memo1] eqn:E1.
    destruct (collect_yields current [] memo Hok) as [Hok1 Hnext].
    rewrite E1 in Hok1, Hnext. simpl in Hok1, Hnext.
    assert (Hn : forall e, e ∈ next <-> exists p, p ∈ current /\ R p e).
    { intros e. rewrite Hnext, elem_of_nil. tauto. }
    destruct next as [|x next'] eqn:En; simpl.
    + split; [done |]. intros e (p & Hp & q & Hq & _).
      assert (q ∈ @nil nat) by (apply Hn; eauto). by apply elem_of_nil in H.
    + rewrite <- En in *. destruct (IH next memo1 Hok1) as [Hok2 Hres].
      split; [done |].
      destruct (required n once next memo1).1 as [c|].
      * intros e. rewrite Hres. split.
        -- intros (q & Hq & H). apply Hn in Hq as (p & Hp & Hpq). eauto 6.
        -- intros (p & Hp & q & Hpq & H). exists q. split; [| done]. apply Hn. eauto.
      * intros e (p & Hp & q & Hpq & H). apply (Hres e).
        exists q. split; [| done]. apply Hn. eauto.
Qed.

Lemma extras_yields n prev results :
  yields (extras n once prev results)
    (fun e => e ∈ results \/
              exists j, 1 <= j <= n /\ exists p, p ∈ prev /\ iter R j p e).
Proof.
  revert prev results. induction n as [|n IH]; intros prev results memo Hok.
  - simpl. split; [done |]. intros e. split; [auto |].
    intros [H | (j & Hj & _)]; [done | lia].
  - cbn [extras]. unfold mbind.
    destruct (collect once prev [] memo) as [next memo1] eqn:E1.
    destruct (collect_yields prev [] memo Hok) as [Hok1 Hnext].
    rewrite E1 in Hok1, Hnext. simpl in Hok1, Hnext.
    assert (Hn : forall e, e ∈ next <-> exists p, p ∈ prev /\ R p e).
    { intros e. rewrite Hnext, elem_of_nil. tauto. }
    assert (Hone : forall e, e ∈ next <-> exists p, p ∈ prev /\ iter R 1 p e).
    { intros e. rewrite Hn. simpl. split.
      - intros (p & Hp & H). eauto.
      - intros (p & Hp & q & H & ->). eauto. }
    assert (Hshift : forall j e,
              (exists p, p ∈ prev /\ iter R (S j) p e) <->
              (exists q, q ∈ next /\ iter R j q e)).
    { intros j e. split.
      - intros (p & Hp & q & Hpq & H). exists q. split; [| done]. apply Hn. eauto.
      - intros (q & Hq & H). apply Hn in Hq as (p & Hp & Hpq).
        exists p. split; [done |]. exists q. auto. }
    destruct (is_nil next || negb (existsb (fun e => negb (has e prev)) next)) eqn:Estop.
    + simpl. split; [done |]. intros e. rewrite dtd_adds_elem.
      assert (Hstay : forall j e, 1 <= j ->
                (exists p, p ∈ prev /\ iter R j p e) -> e ∈ next).
      { apply orb_true_iff in Estop as [Enil | Eprog].
        - destruct next; [| done]. intros j e' Hj (p & Hp & H).
          destruct j as [|j]; [lia |]. destruct H as (q & Hpq & _).
          assert (Hq : q ∈ @nil nat) by (apply Hn; eauto).
          by apply elem_of_nil in Hq.
        - apply negb_true_iff in Eprog.
          assert (Hsub : forall e, e ∈ next -> e ∈ prev).
          { intros e' He'. destruct (decide (e' ∈ prev)) as [|Hnot]; [done |].
            exfalso. assert (existsb (fun e => negb (has e prev)) next = true).
            { apply existsb_exists. exists e'. split; [by apply list_elem_of_In |].
              apply negb_true_iff. by apply has_false. }
            congruence. }
          intros j. induction j as [|j IHj]; [lia |].
          intros e' _ H. destruct j as [|j]; [by apply Hone |].
          apply Hshift in H as (q & Hq & H). apply IHj; [lia |].
          exists q. split; [by apply Hsub | done]. }
      split.
      * intros [H | H]; [auto |]. right. exists 1. split; [lia |]. by apply Hone.
      * intros [H | (j & Hj & H)]; [auto |]. right. apply (Hstay j); [lia | done].
    + destruct (IH next (adds results next) memo1 Hok1) as [Hok2 Hres].
      split; [done |]. intros e. rewrite Hres, dtd_adds_elem. split.
      * intros [[H | H] | (j & Hj & H)]; [auto | |].
        -- right. exists 1. split; [lia |]. by apply Hone.
        -- right. exists (S j). split; [lia |]. by apply Hshift.
      * intros [H | (j & Hj & H)]; [auto |].
        destruct j as [|[|j]]; [lia | |].
        -- left. right. by apply Hone.
        -- right. exists (S j). split; [lia |]. by apply Hshift.
Qed.
End Loops.

Lemma dtd_match_unfold node id pos memo :
  match_ children node id pos memo =
  match memo !! (id, pos) with
  | Some cached => (cached, memo)
  | None =>
      matchBody children (fun p => matchOnce children (match_ children) node id p)
        node id pos memo
  end.
Proof. destruct node; reflexivity. Qed.

Lemma reach_unfold node p e :
  reach node p e <->
  exists k, inRange (d_occurs node) k /\ iter (reachOnce children reach node) k p e.
Proof. destruct node; reflexivity. Qed.

Lemma subnode_snoc r id node k :
  subnode r id = Some node -> subnode r (id ++ [k]) = d_items node !! k.
Proof.
  revert r. induction id as [|k0 id IH]; intros r; simpl.
  - intros [= ->]. by destruct (d_items node !! k).
  - destruct (d_items r !! k0); [apply IH | done].
Qed.

Lemma seqLoop_yields id its k positions :
  (forall i it, its !! i = Some it ->
     forall pos, yields (match_ children it (id ++ [k + i]) pos) (reach it pos)) ->
  yields (seqLoop (match_ children) id its k positions)
    (fun e => exists p, p ∈ positions /\ chain reach its p e).
Proof.
  revert k positions. induction its as [|it rest IH]; intros k positions Hits memo Hok.
  - simpl. split; [done |]. intros e. split; [eauto |]. by intros (p & Hp & ->).
  - cbn [seqLoop]. unfold mbind.
    destruct (collect (match_ children it (id ++ [k])) positions [] memo)
      as [next memo1] eqn:E1.
    assert (Hit : forall p, yields (match_ children it (id ++ [k]) p) (reach it p)).
    { intros p. specialize (Hits 0 it eq_refl p). by rewrite Nat.add_0_r in Hits. }
    destruct (collect_yields _ _ Hit positions [] memo Hok) as [Hok1 Hnext].
    rewrite E1 in Hok1, Hnext. simpl in Hok1, Hnext.
    assert (Hn : forall e, e ∈ next <-> exists p, p ∈ positions /\ reach it p e).
    { intros e. rewrite Hnext, elem_of_nil. tauto. }
    destruct next as [|x next'] eqn:En; simpl.
    + split; [done |]. intros e. rewrite elem_of_nil. split; [done |].
      intros (p & Hp & m & Hm & _).
      assert (Hq : m ∈ @nil nat) by (apply Hn; eauto). by apply elem_of_nil in Hq.
    + rewrite <- En in *.
      assert (Hrest : forall i it', rest !! i = Some it' ->
                forall pos, yields (match_ children it' (id ++ [S k + i]) pos)
                              (reach it' pos)).
      { intros i it' Hi pos. specialize (Hits (S i) it' Hi pos).
        by replace (k + S i) with (S k + i) in Hits by lia. }
      destruct (IH (S k) next Hrest memo1 Hok1) as [Hok2 Hres].
      split; [done |]. intros e. rewrite Hres. split.
      * intros (m & Hm & H). apply Hn in Hm as (p & Hp & Hpm). simpl. eauto 6.
      * intros (p & Hp & m & Hpm & H). exists m. split; [| done]. apply Hn. eauto.
Qed.

Lemma altLoop_yields id pos its k out :
  (forall i it, its !! i = Some it ->
     forall pos, yields (match_ children it (id ++ [k + i]) pos) (reach it pos)) ->
  yields (altLoop (match_ children) id pos its k out)
    (fun e => e ∈ out \/ alt reach its pos e).
Proof.
  revert k out. induction its as [|it rest IH]; intros k out Hits memo Hok.
  - simpl. split; [done |]. intros e. tauto.
  - cbn [altLoop]. unfold mbind.
    destruct (match_ children it (id ++ [k]) pos memo) as [es memo1] eqn:E1.
    assert (Hit : yields (match_ children it (id ++ [k]) pos) (reach it pos)).
    { specialize (Hits 0 it eq_refl pos). by rewrite Nat.add_0_r in Hits. }
    destruct (Hit memo Hok) as [Hok1 Hes]. rewrite E1 in Hok1, Hes. simpl in Hok1, Hes.
    assert (Hrest : forall i it', rest !! i = Some it' ->
              forall pos, yields (match_ children it' (id ++ [S k + i]) pos)
                            (reach it' pos)).
    { intros i it' Hi pos'. specialize (Hits (S i) it' Hi pos').
      by replace (k + S i) with (S k + i) in Hits by lia. }
    destruct (IH (S k) (adds out es) Hrest memo1 Hok1) as [Hok2 Hres].
    split; [done |]. intros e. rewrite Hres, dtd_adds_elem, Hes. simpl. tauto.
Qed.

Lemma matchOnce_yields node id :
  subnode root id = Some node -> items_ok node ->
  forall p, yields (matchOnce children (match_ children) node id p)
              (reachOnce children reach node p).
Proof.
  intros Hnode Hitems p.
  assert (Hsub : forall i it, d_items node !! i = Some it ->
            forall pos, yields (match_ children it (id ++ [0 + i]) pos) (reach it pos)).
  { intros i it Hi pos. unfold DtdMemo.items_ok in Hitems.
    rewrite Forall_lookup in Hitems. apply (Hitems i it Hi).
    simpl. by rewrite (subnode_snoc _ _ _ _ Hnode). }
  destruct node as [name o | o | items o | items o]; simpl in *.
  - apply yields_ret. intros e. simpl.
    destruct (children !! p) as [c|] eqn:Ec.
    + destruct (str_eqb c name) eqn:E.
      * apply str_eqb_true in E as ->. rewrite list_elem_of_singleton.
        split; [intros ->; auto | intros [_ ->]; reflexivity].
      * apply str_eqb_false in E. rewrite elem_of_nil.
        split; [done |]. intros [[= ->] _]. done.
    + rewrite elem_of_nil. split; [done |]. intros [[=] _].
  - apply yields_ret. intros e. by rewrite list_elem_of_singleton.
  - eapply yields_ext; [| by apply seqLoop_yields].
    intros e. simpl. split.
    + intros (q & Hq & H). by apply list_elem_of_singleton in Hq as ->.
    + intros H. exists p. split; [by apply list_elem_of_singleton | done].
  - eapply yields_ext; [| by apply altLoop_yields].
    intros e. simpl. rewrite elem_of_nil. tauto.
Qed.

Lemma chain_bound (its : list DtdContentModel) p e :
  Forall (fun it => forall p e, reach it p e -> p <= e <= Nat.max p (length children)) its ->
  chain reach its p e -> p <= e <= Nat.max p (length children).
Proof.
  intros Hits. revert p. induction Hits as [|it rest Hit _ IH]; intros p; simpl.
  - intros ->. lia.
  - intros (m & Hm & H). apply Hit in Hm. apply IH in H. lia.
Qed.

Lemma alt_bound (its : list DtdContentModel) p e :
  Forall (fun it => forall p e, reach it p e -> p <= e <= Nat.max p (length children)) its ->
  alt reach its p e -> p <= e <= Nat.max p (length children).
Proof.
  intros Hits. induction Hits as [|it rest Hit _ IH]; simpl; [done |].
  intros [H | H]; [by apply Hit | by apply IH].
Qed.

Lemma reachOnce_bound node :
  Forall (fun it => forall p e, reach it p e -> p <= e <= Nat.max p (length children))
    (d_items node) ->
  forall p e, reachOnce children reach node p e -> p <= e <= Nat.max p (length children).
Proof.
  intros Hits p e. destruct node as [name o | o | items o | items o]; simpl in *.
  - intros [Hc ->]. apply lookup_lt_Some in Hc. lia.
  - intros ->. lia.
  - by apply chain_bound.
  - by apply alt_bound.
Qed.

Lemma reach_bound node p e :
  reach node p e -> p <= e <= Nat.max p (length children).
Proof.
  revert p e. induction node as [name o | o | items o IH | items o IH]
    using DtdContentModel_rect'; intros p e; rewrite reach_unfold;
    intros (k & _ & H); revert H; apply iter_bound; apply reachOnce_bound; simpl; auto.
Qed.

Lemma inRange_min o k : inRange o k -> (occursToRange o).1 <= k.
Proof. destruct o; simpl; lia. Qed.

Lemma range_equiv node pos e :
  let R := reachOnce children reach node in
  let min := (occursToRange (d_occurs node)).1 in
  let maxExtra := match (occursToRange (d_occurs node)).2 with
                  | None => length children - pos
                  | Some mx => mx - min
                  end in
  (exists k, min <= k <= min + maxExtra /\ iter R k pos e) <-> reach node pos e.
Proof.
  intros R min maxExtra. rewrite reach_unfold. fold R.
  assert (Rb : forall p e, R p e -> p <= e <= Nat.max p (length children)).
  { apply reachOnce_bound. apply Forall_forall. intros it _ p' e'. apply reach_bound. }
  subst min maxExtra. destruct (d_occurs node); simpl.
  - split; intros (k & Hk & H); exists k; (split; [lia | done]).
  - split; intros (k & Hk & H); exists k; (split; [lia | done]).
  - split.
    + intros (k & Hk & H). exists k. done.
    + intros (k & _ & H).
      destruct (iter_compress R _ Rb 0 k pos e ltac:(lia) H) as (j & Hj & Hjr).
      pose proof (iter_bound R _ Rb _ _ _ H). exists j. split; [lia | done].
  - split.
    + intros (k & Hk & H). exists k. split; [lia | done].
    + intros (k & Hk & H).
      destruct (iter_compress R _ Rb 1 k pos e Hk H) as (j & Hj & Hjr).
      pose proof (iter_bound R _ Rb _ _ _ H). exists j. split; [lia | done].
Qed.

Lemma matchBody_yields node id pos :
  subnode root id = Some node -> items_ok node ->
  yields (matchBody children
            (fun p => matchOnce children (match_ children) node id p) node id pos)
    (reach node pos).
Proof.
  intros Hnode Hitems memo Hok.
  pose proof (matchOnce_yields node id Hnode Hitems) as Honce.
  set (R := reachOnce children reach node) in *.
  set (once := fun p => matchOnce children (match_ children) node id p) in *.
  unfold matchBody.
  pose proof (range_equiv node pos) as Hrange. fold R in Hrange. simpl in Hrange.
  destruct (occursToRange (d_occurs node)) as [min max] eqn:Eo. simpl in Hrange.
  unfold mbind.
  destruct (required_ok once R Honce min [pos] memo Hok) as [Hok1 Hreq].
  destruct (required min once [pos] memo) as [cur memo1]. simpl in Hok1, Hreq.
  assert (Hmin : forall k, reach node pos k -> True) by done.
  destruct cur as [current|].
  - assert (Hcur : forall e, e ∈ current <-> iter R min pos e).
    { intros e. rewrite Hreq. split.
      - intros (p & Hp & H). by apply list_elem_of_singleton in Hp as ->.
      - intros H. exists pos. split; [by apply list_elem_of_singleton | done]. }
    set (maxExtra := match max with
                     | Some mx => mx - min
                     | None => length children - pos
                     end) in *.
    destruct (extras_yields once R Honce maxExtra current current memo1 Hok1)
      as [Hok2 Hres].
    destruct (extras maxExtra once current current memo1) as [results memo2].
    simpl in Hok2, Hres. simpl.
    assert (Hout : forall e, e ∈ merge_sort le results <-> reach node pos e).
    { intros e. rewrite merge_sort_elem, Hres, <- Hrange. split.
      - intros [H | (j & Hj & p & Hp & H)].
        + exists min. split; [lia |]. by apply Hcur.
        + exists (min + j). split; [lia |]. apply iter_split. exists p.
          split; [by apply Hcur | done].
      - intros (k & Hk & H).
        destruct (decide (k = min)) as [-> | Hne]; [left; by apply Hcur |].
        right. exists (k - min). split; [lia |].
        replace k with (min + (k - min)) in H by lia.
        apply iter_split in H as (q & Hq & H). exists q. split; [by apply Hcur | done]. }
    split; [| done]. by eapply memo_ok_insert.
  - simpl. assert (Hout : forall e, e ∈ @nil nat <-> reach node pos e).
    { intros e. rewrite elem_of_nil. split; [done |]. intros H.
      apply Hrange in H as (k & Hk & H).
      replace k with (min + (k - min)) in H by lia.
      apply iter_split in H as (q & Hq & _). apply (Hreq q).
      exists pos. split; [by apply list_elem_of_singleton | done]. }
    split; [| done]. by eapply memo_ok_insert.
Qed.

Lemma match_yields node :
  forall id pos, subnode root id = Some node ->
    yields (match_ children node id pos) (reach node pos).
Proof.
  induction node as [name o | o | items o IH | items o IH]
    using DtdContentModel_rect'; intros id pos Hnode memo Hok;
    rewrite dtd_match_unfold;
    (destruct (memo !! (id, pos)) as [cached|] eqn:Ememo;
     [ simpl; split; [done |];
       destruct (Hok id pos cached Ememo) as (node' & Hn' & Hv);
       rewrite Hnode in Hn'; by inversion Hn'; subst
     | apply matchBody_yields; [done | | done]; unfold DtdMemo.items_ok; simpl; auto ]).
Qed.
End Sound.

(** The matcher accepts the children exactly when their number is an end
    position reachable from position [0]. *)
Lemma matchesDtdModel_reach children model :
  matchesDtdModel children model = true <-> reach children model 0 (length children).
Proof.
  unfold matchesDtdModel. rewrite has_true.
  destruct (match_yields children model model [] 0 eq_refl ∅ (memo_ok_empty children model))
    as [_ H].
  apply H.
Qed.
End DtdMatcherFacts.

(** C1. For the content model [(a,b*,c?)] the matcher accepts [a] and
    [a b b c] and rejects [b a] and [a c b]; and for every content model
    and child sequence it accepts exactly when the number of children
    is an end position reachable from position 0 under the model. *)
Theorem C1_dtd_model_matching :
  Dtd.matchesDtdModel [lit "a"] model_abc = true
  /\ Dtd.matchesDtdModel [lit "a"; lit "b"; lit "b"; lit "c"] model_abc = true
  /\ Dtd.matchesDtdModel [lit "b"; lit "a"] model_abc = false
  /\ Dtd.matchesDtdModel [lit "a"; lit "c"; lit "b"] model_abc = false
  /\ (forall (model : DtdContentModel) (children : list str),
        Dtd.matchesDtdModel children model = true
        <-> DtdSemantics.reach children model 0 (length children)).
Proof.
  repeat split; try (vm_compute; reflexivity);
    apply DtdMatcherFacts.matchesDtdModel_reach.
Qed.

(** ** Container policy on a sample (C4) *)

(** C4. With the default options, inside the rich container
    [documentation] the unknown tags [<unknown>] and [</unknown>] come
    out as literal text, the allowed [<b>] and [</b>] pass through, and
    the container's own tags are kept. *)
Theorem C4_container_policy_sample :
  Sanitizer.preSanitize
    (lit "<documentation>Hello <b>world</b> <unknown>x</unknown></documentation>")
    Sanitizer.DEFAULTS
  = Ok (lit "<documentation>Hello <b>world</b> &lt;unknown&gt;x&lt;/unknown&gt;</documentation>").
Proof. vm_compute. reflexivity. Qed.

(** ** The content-model parser and the operators of its input (C7) *)

Module DtdParserFacts.
Import DtdIndexBuilder Operators OperatorScan.

Lemma takeWhile_dropWhile {A} (f : A -> bool) (l : list A) :
  takeWhile f l ++ dropWhile f l = l.
Proof.
  induction l as [|x l IH]; simpl; [done |].
  destruct (f x); simpl; [by rewrite IH | done].
Qed.

Lemma takeWhile_forall {A} (f : A -> bool) (l : list A) :
  forallb f (takeWhile f l) = true.
Proof.
  induction l as [|x l IH]; simpl; [done |].
  destruct (f x) eqn:E; simpl; [by rewrite E | done].
Qed.

Lemma dropWhile_length {A} (f : A -> bool) (l : list A) :
  length (dropWhile f l) <= length l.
Proof.
  induction l as [|x l IH]; simpl; [done |].
  destruct (f x); simpl; lia.
Qed.

Lemma plain_scan c v cur outer :
  plain c = true -> scanOps (c :: v) cur outer = scanOps v cur outer.
Proof.
  unfold plain. rewrite negb_true_iff, !orb_false_iff.
  intros (((H1 & H2) & H3) & H4). simpl. by rewrite H1, H2, H3, H4.
Qed.

Lemma plain_transparent u : forallb plain u = true -> transparent u.
Proof.
  intros Hu v cur outer. induction u as [|c u IH]; simpl in *; [done |].
  apply andb_true_iff in Hu as [Hc Hu].
  change (scanOps (c :: (u ++ v)) cur outer = scanOps v cur outer).
  rewrite plain_scan by done. by apply IH.
Qed.

Lemma transparent_nil : transparent [].
Proof. by intros v cur outer. Qed.

Lemma transparent_app u1 u2 : transparent u1 -> transparent u2 -> transparent (u1 ++ u2).
Proof. intros H1 H2 v cur outer. by rewrite <- app_assoc, H1, H2. Qed.

Lemma transparent_level u m : transparent u -> level u m m.
Proof. intros H v outer. apply H. Qed.

Lemma level_app u1 u2 m1 m2 m3 :
  level u1 m1 m2 -> level u2 m2 m3 -> level (u1 ++ u2) m1 m3.
Proof. intros H1 H2 v outer. by rewrite <- app_assoc, H1, H2. Qed.

(** A parenthesized group is transparent when its inside stays at one
    level. *)
Lemma group_transparent u m m' : level u m m' -> m = None ->
  transparent ([40%N] ++ u ++ [41%N]).
Proof.
  intros Hu -> v cur outer. simpl.
  rewrite <- app_assoc. rewrite Hu. reflexivity.
Qed.

Lemma space_plain c : isJsSpace c = true -> plain c = true.
Proof.
  unfold isJsSpace, plain. intros H.
  destruct (c =? 40)%N eqn:E1; [apply N.eqb_eq in E1; subst; discriminate |].
  destruct (c =? 41)%N eqn:E2; [apply N.eqb_eq in E2; subst; discriminate |].
  destruct (c =? 124)%N eqn:E3; [apply N.eqb_eq in E3; subst; discriminate |].
  destruct (c =? 44)%N eqn:E4; [apply N.eqb_eq in E4; subst; discriminate |].
  reflexivity.
Qed.

Lemma nameChar_plain c : negb (isNameStop c) = true -> plain c = true.
Proof.
  unfold isNameStop, plain. rewrite negb_true_iff, !orb_false_iff.
  intros (((((((_ & H1) & H2) & H3) & H4) & _) & _) & _).
  by rewrite H1, H2, H3, H4.
Qed.

Lemma forallb_impl {A} (f g : A -> bool) (l : list A) :
  (forall x, f x = true -> g x = true) -> forallb f l = true -> forallb g l = true.
Proof.
  intros Hfg. induction l as [|x l IH]; simpl; [done |].
  rewrite !andb_true_iff. intros [H1 H2]. auto.
Qed.

Lemma skipWs_consumed rest :
  exists u, consumed rest (skipWs rest) u /\ transparent u.
Proof.
  exists (takeWhile isJsSpace rest). split.
  - unfold consumed, skipWs. by rewrite takeWhile_dropWhile.
  - apply plain_transparent. eapply forallb_impl; [apply space_plain |].
    apply takeWhile_forall.
Qed.

Lemma readName_consumed rest name rest' :
  readName rest = (name, rest') ->
  exists u, consumed rest rest' u /\ transparent u.
Proof.
  unfold readName. intros [= <- <-].
  destruct (skipWs_consumed rest) as (u & Hu & Ht).
  exists (u ++ takeWhile (fun c => negb (isNameStop c)) (skipWs rest)). split.
  - unfold consumed in *. rewrite <- app_assoc, takeWhile_dropWhile. exact Hu.
  - apply transparent_app; [done |]. apply plain_transparent.
    eapply forallb_impl; [apply nameChar_plain |]. apply takeWhile_forall.
Qed.

Lemma consumed_trans r1 r2 r3 u1 u2 :
  consumed r1 r2 u1 -> consumed r2 r3 u2 -> consumed r1 r3 (u1 ++ u2).
Proof. unfold consumed. intros -> ->. by rewrite app_assoc. Qed.

Lemma consumed_length rest rest' u : consumed rest rest' u -> length rest' <= length rest.
Proof. unfold consumed. intros ->. rewrite length_app. lia. Qed.

Lemma startsWith_app (l p : str) :
  startsWith l p = true -> exists r, l = p ++ r.
Proof.
  revert l. induction p as [|c p IH]; intros l; [by eauto |].
  destruct l as [|d l]; simpl; [done |].
  destruct (N.eqb_spec c d) as [<- |]; [| done].
  intros H. apply IH in H as (r & ->). eauto.
Qed.

Lemma pbind_ok {A B} (c : P A) (k : A -> P B) y :
  pbind c k = Some (Ok y) -> exists x, c = Some (Ok x) /\ k x = Some (Ok y).
Proof. destruct c as [[x | m] |]; simpl; [eauto | done | done]. Qed.

Lemma expect_ok s ch rest r :
  expect s ch rest = Some (Ok r) -> rest = ch :: r.
Proof.
  unfold expect. destruct rest as [|c rest]; [done |].
  destruct (c =? ch)%N eqn:E; [| done].
  apply N.eqb_eq in E as ->. by intros [= ->].
Qed.

Lemma pipe_level m :
  m = None \/ m = Some ModeCHOICE -> level [124%N] m (Some ModeCHOICE).
Proof. intros [-> | ->] v outer; reflexivity. Qed.

Lemma op_level op mode :
  ((op =? 124)%N || (op =? 44)%N) = true ->
  match mode with
  | Some m => mode_eqb m (if (op =? 124)%N then ModeCHOICE else ModeSEQ) = true
  | None => True
  end ->
  level [op] mode (Some (if (op =? 124)%N then ModeCHOICE else ModeSEQ)).
Proof.
  intros Hop Hmode v outer.
  assert (H40 : (op =? 40)%N = false).
  { destruct (op =? 40)%N eqn:E; [| done]. apply N.eqb_eq in E. by subst. }
  assert (H41 : (op =? 41)%N = false).
  { destruct (op =? 41)%N eqn:E; [| done]. apply N.eqb_eq in E. by subst. }
  simpl. rewrite H40, H41, Hop.
  destruct mode as [m|]; [| done].
  destruct m, (op =? 124)%N; simpl in *; done.
Qed.

Section ParserSound.
Context (s : str).

Lemma mixedLoop_ok n items rest items' rest' m :
  mixedLoop s n items rest = Some (Ok (items', rest')) ->
  m = None \/ m = Some ModeCHOICE ->
  exists u m', consumed rest rest' u /\ level u m m'
               /\ (m' = None \/ m' = Some ModeCHOICE).
Proof.
  revert items rest m. induction n as [|n IH]; intros items rest m; [done |].
  cbn [mixedLoop]. destruct (skipWs_consumed rest) as (w & Hw & Htw).
  destruct (skipWs rest) as [|c r] eqn:Es.
  - intros [= <- <-] Hm. exists w, m. split; [done |]. split; [| done].
    by apply transparent_level.
  - destruct (c =? 124)%N eqn:Ec.
    + apply N.eqb_eq in Ec as ->.
      destruct (readName r) as [nm r'] eqn:En.
      destruct (readName_consumed _ _ _ En) as (un & Hun & Htn).
      destruct (is_nil nm); [done |]. intros H Hm.
      destruct (IH _ _ (Some ModeCHOICE) H ltac:(auto)) as (u & m' & Hu & Hl & Hm').
      exists (w ++ [124%N] ++ un ++ u), m'. split; [| split; [| done]].
      * unfold consumed in *. rewrite Hw, Hun, Hu. by rewrite <- !app_assoc.
      * eapply level_app; [by apply transparent_level |].
        eapply level_app; [by apply pipe_level |].
        eapply level_app; [by apply transparent_level | done].
    + replace (match c with 124%N => _ | _ => _ end)
        with (@pret (list DtdContentModel * str) (items, c :: r)).
      * intros [= <- <-] Hm. exists w, m. split; [done |]. split; [| done].
        by apply transparent_level.
      * apply N.eqb_neq in Ec. destruct c as [|p]; [done |].
        repeat (destruct p as [p | p |]; try done).
Qed.

Section WithExpr.
Context (parseExpr_ : str -> P (DtdContentModel * str)).
Hypothesis parseExpr_ok : forall r node r',
  parseExpr_ r = Some (Ok (node, r')) ->
  exists u m', consumed r r' u /\ level u None m'.

Lemma parseAtom_ok rest node rest' :
  parseAtom s parseExpr_ rest = Some (Ok (node, rest')) ->
  exists u, consumed rest rest' u /\ transparent u.
Proof.
  unfold parseAtom. destruct (skipWs_consumed rest) as (w & Hw & Htw).
  destruct (skipWs rest) as [|c r] eqn:Es.
  - destruct (readName []) as [nm r'] eqn:En.
    destruct (readName_consumed _ _ _ En) as (un & Hun & Htn).
    destruct (is_nil nm); [done |]. intros [= <- <-].
    exists (w ++ un). split; [by eapply consumed_trans | by apply transparent_app].
  - destruct (c =? 40)%N eqn:Ec.
    + apply N.eqb_eq in Ec as ->.
      destruct (skipWs_consumed r) as (w1 & Hw1 & Htw1).
      destruct (startsWith (skipWs r) (lit "#PCDATA")) eqn:Epc.
      * assert (Hpc : exists u, consumed (skipWs r) (drop 7 (skipWs r)) u /\ transparent u).
        { apply startsWith_app in Epc as (x & Hx). exists (lit "#PCDATA"). split.
          - unfold consumed. rewrite Hx. reflexivity.
          - apply plain_transparent. reflexivity. }
        destruct Hpc as (upc & Hupc & Htpc).
        destruct (skipWs_consumed (drop 7 (skipWs r))) as (w2 & Hw2 & Htw2).
        set (r2 := skipWs (drop 7 (skipWs r))) in *.
        assert (Hclose : forall x, r2 = 41%N :: x ->
                  consumed rest x (w ++ [40%N] ++ (w1 ++ upc ++ w2) ++ [41%N])
                  /\ transparent (w ++ [40%N] ++ (w1 ++ upc ++ w2) ++ [41%N])).
        { intros x Hx. split.
          - unfold consumed in *. rewrite Hw, Hw1, Hupc, Hw2, Hx.
            by rewrite <- !app_assoc.
          - apply transparent_app; [done |].
            eapply (group_transparent _ None None); [| done].
            apply transparent_level.
            apply transparent_app; [done |]. by apply transparent_app. }
        assert (Hmixed :
          (let* (items, r') := mixedLoop s (S (length r2)) [PCDATA One] r2 in
           let* r'' := expect s 41 (skipWs r') in
           pret (CHOICE items One, r'')) = Some (Ok (node, rest')) ->
          exists u, consumed rest rest' u /\ transparent u).
        { intros H. apply pbind_ok in H as ([items r'] & Hloop & H).
          apply pbind_ok in H as (r'' & Hexp & H). inversion H; subst; clear H.
          destruct (mixedLoop_ok _ _ _ _ _ None Hloop ltac:(auto))
            as (u & m' & Hu & Hl & _).
          destruct (skipWs_consumed r') as (w3 & Hw3 & Htw3).
          apply expect_ok in Hexp.
          exists (w ++ [40%N] ++ (w1 ++ upc ++ w2 ++ u ++ w3) ++ [41%N]). split.
          - unfold consumed in *. rewrite Hw, Hw1, Hupc, Hw2. fold r2.
            rewrite Hu, Hw3, Hexp. by rewrite <- !app_assoc.
          - apply transparent_app; [done |].
            eapply (group_transparent _ None m'); [| done].
            eapply level_app; [by apply transparent_level |].
            eapply level_app; [by apply transparent_level |].
            eapply level_app; [by apply transparent_level |].
            eapply level_app; [exact Hl | by apply transparent_level]. }
        destruct r2 as [|c2 x] eqn:Er2; [exact Hmixed |].
        destruct (c2 =? 41)%N eqn:Ec2.
        -- apply N.eqb_eq in Ec2 as ->. intros [= <- <-].
           destruct (Hclose x eq_refl). eauto.
        -- replace (match c2 with 41%N => _ | _ => _ end)
             with (let* (items, r') := mixedLoop s (S (length (c2 :: x))) [PCDATA One] (c2 :: x) in
                   let* r'' := expect s 41 (skipWs r') in
                   pret (CHOICE items One, r'')); [exact Hmixed |].
           apply N.eqb_neq in Ec2. destruct c2 as [|p]; [done |].
           repeat (destruct p as [p | p |]; try done).
      * intros H. apply pbind_ok in H as ([inner r'] & Hexpr & H).
        apply pbind_ok in H as (r'' & Hexp & H). inversion H; subst; clear H.
        destruct (parseExpr_ok _ _ _ Hexpr) as (u & m' & Hu & Hl).
        destruct (skipWs_consumed r') as (w3 & Hw3 & Htw3).
        apply expect_ok in Hexp.
        exists (w ++ [40%N] ++ (w1 ++ u ++ w3) ++ [41%N]). split.
        -- unfold consumed in *. rewrite Hw, Hw1, Hu, Hw3, Hexp.
           by rewrite <- !app_assoc.
        -- apply transparent_app; [done |].
           eapply (group_transparent _ None m'); [| done].
           eapply level_app; [by apply transparent_level |].
           eapply level_app; [exact Hl | by apply transparent_level].
    + replace (match c with 40%N => _ | _ => _ end)
        with (let '(name, r') := readName (c :: r) in
              if is_nil name
              then @pthrow (DtdContentModel * str)
                     (lit "Expected NAME at index " ++ showNat (index s r'))
              else pret (NAME name One, r')).
      * destruct (readName (c :: r)) as [nm r'] eqn:En.
        destruct (readName_consumed _ _ _ En) as (un & Hun & Htn).
        destruct (is_nil nm); [done |]. intros [= <- <-].
        exists (w ++ un). split; [by eapply consumed_trans | by apply transparent_app].
      * apply N.eqb_neq in Ec. destruct c as [|p]; [done |].
        repeat (destruct p as [p | p |]; try done).
Qed.

Lemma parseTerm_ok rest node rest' :
  parseTerm s parseExpr_ rest = Some (Ok (node, rest')) ->
  exists u, consumed rest rest' u /\ transparent u.
Proof.
  unfold parseTerm. intros H. apply pbind_ok in H as ([nd r] & Hatom & H).
  destruct (skipWs_consumed rest) as (w & Hw & Htw).
  destruct (parseAtom_ok _ _ _ Hatom) as (ua & Hua & Hta).
  destruct (skipWs_consumed r) as (w1 & Hw1 & Htw1).
  assert (Hpre : consumed rest (skipWs r) (w ++ ua ++ w1)
                 /\ transparent (w ++ ua ++ w1)).
  { split.
    - eapply consumed_trans; [done |]. by eapply consumed_trans.
    - apply transparent_app; [done |]. by apply transparent_app. }
  destruct Hpre as [Hc Ht].
  destruct (skipWs r) as [|q r'] eqn:Es.
  - inversion H; subst. eauto.
  - assert (Hq : plain q = true -> rest' = r' ->
              exists u, consumed rest rest' u /\ transparent u).
    { intros Hp ->. exists ((w ++ ua ++ w1) ++ [q]). split.
      - unfold consumed in *. rewrite Hc. by rewrite <- !app_assoc.
      - apply transparent_app; [done |]. apply plain_transparent. simpl. by rewrite Hp. }
    destruct (N.eqb_spec q 63) as [-> |]; [inversion H; subst; by apply Hq |].
    destruct (N.eqb_spec q 42) as [-> |]; [inversion H; subst; by apply Hq |].
    destruct (N.eqb_spec q 43) as [-> |]; [inversion H; subst; by apply Hq |].
    inversion H; subst. eauto.
Qed.
End WithExpr.

Lemma exprLoop_ok n pt lhs items mode rest node rest' :
  (forall r nd r', pt r = Some (Ok (nd, r')) ->
     exists u, consumed r r' u /\ transparent u) ->
  exprLoop s n pt lhs items mode rest = Some (Ok (node, rest')) ->
  exists u m', consumed rest rest' u /\ level u mode m'.
Proof.
  intros Hpt. revert items mode rest. induction n as [|n IH]; intros items mode rest; [done |].
  cbn [exprLoop]. destruct (skipWs_consumed rest) as (w & Hw & Htw).
  assert (Hfin : forall r,
            skipWs rest = r ->
            match mode with
            | Some ModeCHOICE => pret (CHOICE items One, r)
            | Some ModeSEQ => pret (SEQ items One, r)
            | None => pret (lhs, r)
            end = Some (Ok (node, rest')) ->
            exists u m', consumed rest rest' u /\ level u mode m').
  { intros r Hr H. exists w, mode. split; [| by apply transparent_level].
    destruct mode as [[|]|]; inversion H; subst; done. }
  destruct (skipWs rest) as [|op r] eqn:Es; [by apply Hfin |].
  destruct ((op =? 124)%N || (op =? 44)%N) eqn:Eop; [| by apply Hfin].
  set (nextMode := if (op =? 124)%N then ModeCHOICE else ModeSEQ).
  assert (Hstep : forall (Hm : match mode with
                               | Some m => mode_eqb m nextMode = true
                               | None => True
                               end),
            (let* (rhs, r') := pt r in
             exprLoop s n pt lhs (items ++ [rhs]) (Some nextMode) r')
            = Some (Ok (node, rest')) ->
            exists u m', consumed rest rest' u /\ level u mode m').
  { intros Hm H. apply pbind_ok in H as ([rhs r'] & Hterm & H).
    destruct (Hpt _ _ _ Hterm) as (ut & Hut & Htt).
    destruct (IH _ _ _ H) as (u & m' & Hu & Hl).
    exists (w ++ [op] ++ ut ++ u), m'. split.
    - unfold consumed in *. rewrite Hw, Hut, Hu. by rewrite <- !app_assoc.
    - eapply level_app; [by apply transparent_level |].
      eapply level_app; [by apply op_level |].
      eapply level_app; [by apply transparent_level | done]. }
  destruct mode as [m|].
  - destruct (mode_eqb m nextMode) eqn:Em; simpl; [| done]. by apply Hstep.
  - by apply Hstep.
Qed.

Lemma parseExpr_ok fuel rest node rest' :
  parseExpr s fuel rest = Some (Ok (node, rest')) ->
  exists u m', consumed rest rest' u /\ level u None m'.
Proof.
  revert rest node rest'. induction fuel as [|f IH]; intros rest node rest'; [done |].
  cbn [parseExpr]. intros H. apply pbind_ok in H as ([lhs r] & Hterm & H).
  destruct (parseTerm_ok _ IH _ _ _ Hterm) as (ut & Hut & Htt).
  destruct (skipWs_consumed r) as (w & Hw & Htw).
  destruct (exprLoop_ok _ _ _ _ _ _ _ _ (parseTerm_ok _ IH) H) as (u & m' & Hu & Hl).
  exists (ut ++ w ++ u), m'. split.
  - eapply consumed_trans; [done |]. by eapply consumed_trans.
  - eapply level_app; [by apply transparent_level |].
    eapply level_app; [by apply transparent_level | done].
Qed.

(** A content model that parses does not combine [","] and ["|"] at one
    nesting level. *)
Lemma parse_ok node :
  parse s = Some (Ok node) -> mixesOperators s = false.
Proof.
  unfold parse. intros H. apply pbind_ok in H as ([nd r] & Hexpr & H).
  destruct (parseExpr_ok _ _ _ _ Hexpr) as (u & m' & Hu & Hl).
  destruct (skipWs_consumed r) as (w & Hw & Htw).
  destruct (skipWs r) eqn:Es; [| done].
  unfold mixesOperators. unfold consumed in *. rewrite Hu, Hl, Hw.
  rewrite Htw. reflexivity.
Qed.

(** *** The parser comes to an end *)

Lemma pbind_some {A B} (c : P A) (k : A -> P B) :
  c <> None -> (forall x, c = Some (Ok x) -> k x <> None) -> pbind c k <> None.
Proof. destruct c as [[x | m] |]; simpl; [auto | done | done]. Qed.

Lemma skipWs_length rest : length (skipWs rest) <= length rest.
Proof. apply dropWhile_length. Qed.

Lemma readName_length rest name rest' :
  readName rest = (name, rest') -> length rest' <= length rest.
Proof.
  intros H. destruct (readName_consumed _ _ _ H) as (u & Hu & _).
  by eapply consumed_length.
Qed.

Lemma expect_some ch rest : expect s ch rest <> None.
Proof. unfold expect. destruct rest as [|c r]; [done |]. by destruct (c =? ch)%N. Qed.

Lemma mixedLoop_total n items rest :
  length rest < n -> mixedLoop s n items rest <> None.
Proof.
  revert items rest. induction n as [|n IH]; intros items rest Hn; [lia |].
  cbn [mixedLoop]. pose proof (skipWs_length rest) as Hs.
  destruct (skipWs rest) as [|c r] eqn:Es; [done |].
  destruct (N.eqb_spec c 124) as [-> | Hc].
  - destruct (readName r) as [nm r'] eqn:En.
    apply readName_length in En. destruct (is_nil nm); [done |].
    apply IH. simpl in Hs. lia.
  - destruct c as [|p]; [done |].
    repeat (destruct p as [p | p |]; try done).
Qed.

Lemma parseAtom_total pe rest :
  (forall r, length r < length rest -> pe r <> None) ->
  parseAtom s pe rest <> None.
Proof.
  intros Hpe. unfold parseAtom. pose proof (skipWs_length rest) as Hs.
  assert (Hname : forall l,
            (let '(name, r') := readName l in
             if is_nil name
             then @pthrow (DtdContentModel * str)
                    (lit "Expected NAME at index " ++ showNat (index s r'))
             else pret (NAME name One, r')) <> None).
  { intros l. destruct (readName l) as [nm r']. by destruct (is_nil nm). }
  destruct (skipWs rest) as [|c r] eqn:Es; [apply Hname |].
  destruct (N.eqb_spec c 40) as [-> | Hc].
  - destruct (startsWith (skipWs r) (lit "#PCDATA")).
    + assert (Hmixed : forall r2,
                (let* (items, r') := mixedLoop s (S (length r2)) [PCDATA One] r2 in
                 let* r'' := expect s 41 (skipWs r') in
                 pret (CHOICE items One, r'')) <> None).
      { intros r2. apply pbind_some; [apply mixedLoop_total; lia |].
        intros [items r'] _. apply pbind_some; [apply expect_some | done]. }
      destruct (skipWs (drop 7 (skipWs r))) as [|c2 x] eqn:E2; [apply Hmixed |].
      destruct (N.eqb_spec c2 41) as [-> | Hc2]; [done |].
      replace (match c2 with 41%N => _ | _ => _ end)
        with (let* (items, r') := mixedLoop s (S (length (c2 :: x))) [PCDATA One] (c2 :: x) in
              let* r'' := expect s 41 (skipWs r') in
              pret (CHOICE items One, r'')); [apply Hmixed |].
      destruct c2 as [|p]; [done |].
      repeat (destruct p as [p | p |]; try done).
    + apply pbind_some.
      * apply Hpe. pose proof (skipWs_length r). simpl in Hs. lia.
      * intros [inner r'] _. apply pbind_some; [apply expect_some | done].
  - replace (match c with 40%N => _ | _ => _ end)
      with (let '(name, r') := readName (c :: r) in
            if is_nil name
            then @pthrow (DtdContentModel * str)
                   (lit "Expected NAME at index " ++ showNat (index s r'))
            else pret (NAME name One, r')); [apply Hname |].
    destruct c as [|p]; [done |].
    repeat (destruct p as [p | p |]; try done).
Qed.

Lemma parseTerm_total pe rest :
  (forall r, length r < length rest -> pe r <> None) ->
  parseTerm s pe rest <> None.
Proof.
  intros Hpe. unfold parseTerm. apply pbind_some.
  - apply parseAtom_total. intros r Hr. apply Hpe.
    pose proof (skipWs_length rest). lia.
  - intros [nd r] _. destruct (skipWs r) as [|q r']; [done |].
    destruct (q =? 63)%N; [done |]. destruct (q =? 42)%N; [done |].
    by destruct (q =? 43)%N.
Qed.

Lemma exprLoop_total n pt lhs items mode rest :
  length rest < n ->
  (forall r, length r < length rest -> pt r <> None) ->
  (forall r nd r', pt r = Some (Ok (nd, r')) -> length r' <= length r) ->
  exprLoop s n pt lhs items mode rest <> None.
Proof.
  intros Hn Hpt Hlen. revert items mode rest Hn Hpt.
  induction n as [|n IH]; intros items mode rest Hn Hpt; [lia |].
  cbn [exprLoop]. pose proof (skipWs_length rest) as Hs.
  assert (Hfin : forall r : str,
            match mode with
            | Some ModeCHOICE => pret (CHOICE items One, r)
            | Some ModeSEQ => pret (SEQ items One, r)
            | None => pret (lhs, r)
            end <> None) by (intros r; by destruct mode as [[|]|]).
  destruct (skipWs rest) as [|op r] eqn:Es; [apply Hfin |].
  destruct ((op =? 124)%N || (op =? 44)%N); [| apply Hfin].
  simpl in Hs.
  assert (Hstep : forall m',
            (let* (rhs, r') := pt r in
             exprLoop s n pt lhs (items ++ [rhs]) m' r') <> None).
  { intros m'. apply pbind_some; [apply Hpt; lia |].
    intros [rhs r'] Hr. apply Hlen in Hr. apply IH; [lia |].
    intros r0 Hr0. apply Hpt. lia. }
  destruct mode as [m|]; [| apply Hstep].
  destruct (mode_eqb m _); simpl; [apply Hstep | done].
Qed.

Lemma parseExpr_total fuel rest :
  length rest < fuel -> parseExpr s fuel rest <> None.
Proof.
  revert rest. induction fuel as [|f IH]; intros rest Hf; [lia |].
  cbn [parseExpr].
  assert (Hterm_len : forall r nd r',
            parseTerm s (parseExpr s f) r = Some (Ok (nd, r')) -> length r' <= length r).
  { intros r nd r' H.
    destruct (parseTerm_ok _ (parseExpr_ok f) _ _ _ H) as (u & Hu & _).
    by eapply consumed_length. }
  apply pbind_some.
  - apply parseTerm_total. intros r Hr. apply IH. lia.
  - intros [lhs r] Hr. apply Hterm_len in Hr.
    pose proof (skipWs_length r) as Hs.
    apply exprLoop_total; [lia | | exact Hterm_len].
    intros r0 Hr0. apply parseTerm_total. intros r1 Hr1. apply IH. lia.
Qed.

Lemma parse_total : parse s <> None.
Proof.
  unfold parse. apply pbind_some; [apply parseExpr_total; lia |].
  intros [nd r] _. by destruct (skipWs r).
Qed.

(** A content model that combines [","] and ["|"] at one nesting level
    makes the parser throw. *)
Lemma parse_mixed_throws :
  mixesOperators s = true -> exists m, parse s = Some (Throw m).
Proof.
  intros Hmix. pose proof parse_total as Ht.
  destruct (parse s) as [[node | m] |] eqn:E; [| eauto | done].
  apply parse_ok in E. congruence.
Qed.
End ParserSound.

Lemma parseElementModel_mixed_throws model :
  mixesOperators (trim model) = true ->
  exists m, parseElementModel model = Some (Throw m).
Proof.
  intros Hmix. unfold parseElementModel.
  destruct (str_eqb (trim model) (lit "ANY")) eqn:Eany.
  { apply str_eqb_true in Eany. rewrite Eany in Hmix. discriminate Hmix. }
  destruct (str_eqb (trim model) (lit "EMPTY")) eqn:Eempty.
  { apply str_eqb_true in Eempty. rewrite Eempty in Hmix. discriminate Hmix. }
  destruct (parse_mixed_throws _ Hmix) as (m & ->). simpl. eauto.
Qed.

Lemma parseElementModel_ok model node :
  parseElementModel model = Some (Ok (ContentModel node)) ->
  mixesOperators (trim model) = false.
Proof.
  unfold parseElementModel.
  destruct (str_eqb (trim model) (lit "ANY")); [done |].
  destruct (str_eqb (trim model) (lit "EMPTY")); [done |].
  intros H. apply pbind_ok in H as (nd & Hp & _). by eapply parse_ok.
Qed.

(** *** The index builder *)

Lemma dropWhile_head {A} (f : A -> bool) (l : list A) x r :
  dropWhile f l = x :: r -> f x = false.
Proof.
  induction l as [|y l IH]; simpl; [done |].
  destruct (f y) eqn:E; [done |]. by intros [= <- <-].
Qed.

Lemma scanGroup_length t depth val v r :
  scanGroup t depth val = Some (v, r) -> length r < length t.
Proof.
  revert depth val. induction t as [|c t IH]; intros depth val; simpl; [done |].
  destruct (c =? 40)%N.
  - intros H. apply IH in H. lia.
  - destruct (c =? 41)%N.
    + destruct depth as [|[|d]].
      * intros H. apply IH in H. lia.
      * intros [= <- <-]. lia.
      * intros H. apply IH in H. lia.
    + intros H. apply IH in H. lia.
Qed.

Lemma tokenizeLoop_total fuel t :
  length t < fuel -> tokenizeLoop fuel t <> None.
Proof.
  revert t. induction fuel as [|f IH]; intros t Hf; [lia |].
  cbn [tokenizeLoop]. pose proof (dropWhile_length isWs t) as Hd.
  destruct (dropWhile isWs t) as [|ch r] eqn:Ed; [done |].
  simpl in Hd.
  destruct ((ch =? 34)%N || (ch =? 39)%N).
  - pose proof (dropWhile_length (fun c => negb (c =? ch)%N) r) as Hq.
    destruct (dropWhile (fun c => negb (c =? ch)%N) r) as [|q r']; [done |].
    simpl in Hq. apply pbind_some; [apply IH; lia | done].
  - destruct (ch =? 40)%N.
    + destruct (scanGroup (ch :: r) 0 []) as [[val r'] |] eqn:Eg; [| done].
      apply scanGroup_length in Eg. simpl in Eg.
      apply pbind_some; [apply IH; lia | done].
    + apply pbind_some; [| done]. apply IH.
      pose proof (dropWhile_length (fun c => negb (isWs c)) (ch :: r)) as Hb.
      apply dropWhile_head in Ed.
      assert (Hb' : length (dropWhile (fun c => negb (isWs c)) (ch :: r)) <= length r).
      { simpl. rewrite Ed. simpl. apply dropWhile_length. }
      lia.
Qed.

Lemma parseAttrDefault_length tok rest d rest' :
  parseAttrDefault tok rest = Some (Ok (d, rest')) -> length rest' <= length rest.
Proof.
  unfold parseAttrDefault.
  destruct (str_eqb tok (lit "#REQUIRED")); [by intros [= <- <-] |].
  destruct (str_eqb tok (lit "#IMPLIED")); [by intros [= <- <-] |].
  destruct (str_eqb tok (lit "#FIXED")); [| by intros [= <- <-]].
  destruct rest as [|v rest0]; [done |]. intros [= <- <-]. simpl. lia.
Qed.

Lemma parseAttrDefault_some tok rest : parseAttrDefault tok rest <> None.
Proof.
  unfold parseAttrDefault.
  destruct (str_eqb tok (lit "#REQUIRED")); [done |].
  destruct (str_eqb tok (lit "#IMPLIED")); [done |].
  destruct (str_eqb tok (lit "#FIXED")); [| done].
  by destruct rest.
Qed.

Lemma attlistLoop_total fuel elementName toks i :
  length toks < fuel -> attlistLoop fuel elementName toks i <> None.
Proof.
  revert toks i. induction fuel as [|f IH]; intros toks i Hf; [lia |].
  cbn [attlistLoop].
  destruct toks as [|name [|typeTok [|defTok rest]]]; [done | done | done |].
  apply pbind_some; [apply parseAttrDefault_some |].
  intros [d rest'] Hd. apply parseAttrDefault_length in Hd.
  apply pbind_some; [| done]. apply IH. simpl in Hf. lia.
Qed.

Lemma parseAttlistDecl_total inner : parseAttlistDecl inner <> None.
Proof.
  unfold parseAttlistDecl. destruct (matchDecl _ inner) as [[nm rhs] |]; [| done].
  apply pbind_some; [apply tokenizeLoop_total; lia |].
  intros toks _. apply pbind_some; [apply attlistLoop_total; lia | done].
Qed.

Lemma parseElementModel_total model : parseElementModel model <> None.
Proof.
  unfold parseElementModel.
  destruct (str_eqb (trim model) (lit "ANY")); [done |].
  destruct (str_eqb (trim model) (lit "EMPTY")); [done |].
  apply pbind_some; [apply parse_total | done].
Qed.

Lemma parseElementDecl_total inner : parseElementDecl inner <> None.
Proof. unfold parseElementDecl. by destruct (matchDecl _ inner) as [[? ?] |]. Qed.

Lemma addDeclaration_total elements decl : addDeclaration elements decl <> None.
Proof.
  unfold addDeclaration. apply pbind_some.
  - destruct (startsWith _ (lit "ELEMENT ")); [| done].
    apply pbind_some; [apply parseElementDecl_total |].
    intros [name model] _. apply pbind_some; [apply parseElementModel_total | done].
  - intros els _. destruct (startsWith _ (lit "ATTLIST ")); [| done].
    apply pbind_some; [apply parseAttlistDecl_total |]. by intros [nm attrs] _.
Qed.

Lemma addDeclaration_mixed_throws elements decl name model :
  startsWith (stripOuterDecl decl) (lit "ELEMENT ") = true ->
  parseElementDecl (stripOuterDecl decl) = Some (Ok (name, model)) ->
  mixesOperators (trim model) = true ->
  exists m, addDeclaration elements decl = Some (Throw m).
Proof.
  intros Hstart Hdecl Hmix. unfold addDeclaration. rewrite Hstart, Hdecl.
  destruct (parseElementModel_mixed_throws _ Hmix) as (m & Hm).
  cbn [pbind]. rewrite Hm. simpl. eauto.
Qed.

Lemma addDeclarations_throws decls decl elements :
  decl ∈ decls ->
  (forall els, exists m, addDeclaration els decl = Some (Throw m)) ->
  exists m, addDeclarations elements decls = Some (Throw m).
Proof.
  intros Hin Hthrow. revert elements.
  induction decls as [|d decls IH]; intros elements; [by apply elem_of_nil in Hin |].
  cbn [addDeclarations].
  apply elem_of_cons in Hin as [<- | Hin].
  - destruct (Hthrow elements) as (m & ->). simpl. eauto.
  - pose proof (addDeclaration_total elements d) as Ht.
    destruct (addDeclaration elements d) as [[els | m] |]; [| simpl; eauto | done].
    simpl. by apply IH.
Qed.
End DtdParserFacts.

(** ** What the content-model parser builds from what text (C7) *)

Module ModelGrammarFacts.
Import DtdIndexBuilder ModelGrammar DtdParserFacts.

Lemma ws_nil : ws [].
Proof. reflexivity. Qed.

Lemma ws_app u v : ws u -> ws v -> ws (u ++ v).
Proof. unfold ws. intros Hu Hv. rewrite forallb_app. by rewrite Hu, Hv. Qed.

Lemma skipWs_ws rest : exists w, rest = w ++ skipWs rest /\ ws w.
Proof.
  exists (takeWhile isJsSpace rest). split.
  - unfold skipWs. by rewrite takeWhile_dropWhile.
  - apply takeWhile_forall.
Qed.

Lemma readName_name rest nm rest' :
  readName rest = (nm, rest') -> is_nil nm = false ->
  exists w, rest = w ++ nm ++ rest' /\ ws w /\ isName nm.
Proof.
  unfold readName. intros [= <- <-] Hn.
  destruct (skipWs_ws rest) as (w & Hw & Hws). exists w.
  split; [by rewrite takeWhile_dropWhile |]. split; [done |]. split.
  - intros H. by rewrite H in Hn.
  - apply takeWhile_forall.
Qed.

Lemma separated_lead m w v ts : ws w -> separated m v ts -> separated m (w ++ v) ts.
Proof.
  intros Hw H. destruct H as [m w0 H0 | m w0 u t v ts H0 Ht Hs].
  - apply separated_end. by apply ws_app.
  - rewrite app_assoc. apply separated_next; [by apply ws_app | done | done].
Qed.

Lemma separated_pad m v ts w : separated m v ts -> ws w -> separated m (v ++ w) ts.
Proof.
  intros H Hw. induction H as [m w0 H0 | m w0 u t v ts H0 Ht Hs IH].
  - apply separated_end. by apply ws_app.
  - rewrite <- ?app_assoc. by apply separated_next.
Qed.

Lemma expr_pad u e w : expr u e -> ws w -> expr (u ++ w) e.
Proof.
  intros H Hw. destruct H as [u t w0 Ht H0 | m u t v ts Ht Hs Hne].
  - rewrite <- app_assoc. apply expr_single; [done | by apply ws_app].
  - rewrite <- app_assoc. apply expr_chain; [done | by apply separated_pad | done].
Qed.

Section Sound.
Context (s : str).

Lemma mixedLoop_sound n items rest items' rest' :
  mixedLoop s n items rest = Some (Ok (items', rest')) ->
  exists u more, rest = u ++ rest' /\ items' = items ++ more /\ mixedNames u more.
Proof.
  revert items rest. induction n as [|n IH]; intros items rest; [done |].
  cbn [mixedLoop]. destruct (skipWs_ws rest) as (w & Hw & Hws).
  destruct (skipWs rest) as [|c r] eqn:Es.
  - intros [= <- <-]. exists w, [].
    split; [done |]. split; [by rewrite app_nil_r | by apply mixed_end].
  - destruct (c =? 124)%N eqn:Ec.
    + apply N.eqb_eq in Ec as ->.
      destruct (readName r) as [nm r'] eqn:En.
      destruct (is_nil nm) eqn:Enil; [done |]. intros H.
      destruct (readName_name _ _ _ En Enil) as (w' & Hr & Hw' & Hnm).
      destruct (IH _ _ H) as (u & more & Hu & Hi & Hm).
      exists (w ++ [124%N] ++ w' ++ nm ++ u), (NAME nm One :: more).
      split; [| split].
      * rewrite Hw, Hr, Hu. by rewrite <- ?app_assoc.
      * rewrite Hi. by rewrite <- app_assoc.
      * by apply mixed_next.
    + replace (match c with 124%N => _ | _ => _ end)
        with (@pret (list DtdContentModel * str) (items, c :: r)).
      * intros [= <- <-]. exists w, [].
        split; [done |]. split; [by rewrite app_nil_r | by apply mixed_end].
      * apply N.eqb_neq in Ec. destruct c as [|p]; [done |].
        repeat (destruct p as [p | p |]; try done).
Qed.

Section WithExpr.
Context (parseExpr_ : str -> P (DtdContentModel * str)).
Hypothesis parseExpr_sound : forall r node r',
  parseExpr_ r = Some (Ok (node, r')) -> exists u, r = u ++ r' /\ expr u node.

Lemma parseAtom_sound rest node rest' :
  parseAtom s parseExpr_ rest = Some (Ok (node, rest')) ->
  exists w u, rest = w ++ u ++ rest' /\ ws w /\ atom u node.
Proof.
  unfold parseAtom. destruct (skipWs_ws rest) as (w & Hw & Hws).
  destruct (skipWs rest) as [|c r] eqn:Es; [done |].
  destruct (c =? 40)%N eqn:Ec.
  - apply N.eqb_eq in Ec as ->.
    destruct (skipWs_ws r) as (w1 & Hw1 & Hws1).
    destruct (startsWith (skipWs r) (lit "#PCDATA")) eqn:Epc.
    + apply startsWith_app in Epc as (x & Hx).
      assert (Hd : drop 7 (skipWs r) = x) by (by rewrite Hx).
      rewrite Hd. destruct (skipWs_ws x) as (w2 & Hw2 & Hws2).
      set (r2 := skipWs x) in *.
      assert (Hrest : forall y, r2 = y ->
                rest = w ++ [40%N] ++ w1 ++ lit "#PCDATA" ++ w2 ++ y).
      { intros y <-. rewrite Hw, Hw1, Hx, Hw2. by rewrite <- ?app_assoc. }
      assert (Hmixed :
        (let* (items, r') := mixedLoop s (S (length r2)) [PCDATA One] r2 in
         let* r'' := expect s 41 (skipWs r') in
         pret (CHOICE items One, r'')) = Some (Ok (node, rest')) ->
        exists w u, rest = w ++ u ++ rest' /\ ws w /\ atom u node).
      { intros H. apply pbind_ok in H as ([items r'] & Hloop & H).
        apply pbind_ok in H as (r'' & Hexp & H). inversion H; subst node r''; clear H.
        destruct (mixedLoop_sound _ _ _ _ _ Hloop) as (u & more & Hu & Hi & Hm).
        destruct (skipWs_ws r') as (w3 & Hw3 & Hws3).
        apply expect_ok in Hexp.
        exists w, ([40%N] ++ w1 ++ lit "#PCDATA" ++ w2 ++ u ++ w3 ++ [41%N]).
        split; [| split; [done |]].
        - rewrite (Hrest r2 eq_refl), Hu, Hw3, Hexp. by rewrite <- ?app_assoc.
        - rewrite Hi. by apply atom_mixed. }
      destruct r2 as [|c2 y] eqn:Er2; [exact Hmixed |].
      destruct (c2 =? 41)%N eqn:Ec2.
      * apply N.eqb_eq in Ec2 as ->. intros [= <- <-].
        exists w, ([40%N] ++ w1 ++ lit "#PCDATA" ++ w2 ++ [41%N]).
        split; [| split; [done | by apply atom_pcdata]].
        rewrite (Hrest _ eq_refl). by rewrite <- ?app_assoc.
      * replace (match c2 with 41%N => _ | _ => _ end)
          with (let* (items, r') := mixedLoop s (S (length (c2 :: y))) [PCDATA One] (c2 :: y) in
                let* r'' := expect s 41 (skipWs r') in
                pret (CHOICE items One, r'')); [exact Hmixed |].
        apply N.eqb_neq in Ec2. destruct c2 as [|p]; [done |].
        repeat (destruct p as [p | p |]; try done).
    + intros H. apply pbind_ok in H as ([inner r'] & Hexpr & H).
      apply pbind_ok in H as (r'' & Hexp & H). inversion H; subst inner r''; clear H.
      destruct (parseExpr_sound _ _ _ Hexpr) as (u & Hu & He).
      destruct (skipWs_ws r') as (w3 & Hw3 & Hws3).
      apply expect_ok in Hexp.
      exists w, ([40%N] ++ w1 ++ u ++ w3 ++ [41%N]).
      split; [| split; [done | by apply atom_group]].
      rewrite Hw, Hw1, Hu, Hw3, Hexp. by rewrite <- ?app_assoc.
  - replace (match c with 40%N => _ | _ => _ end)
      with (let '(name, r') := readName (c :: r) in
            if is_nil name
            then @pthrow (DtdContentModel * str)
                   (lit "Expected NAME at index " ++ showNat (index s r'))
            else pret (NAME name One, r')).
    + destruct (readName (c :: r)) as [nm r'] eqn:En.
      destruct (is_nil nm) eqn:Enil; [done |]. intros [= <- <-].
      destruct (readName_name _ _ _ En Enil) as (w' & Hr & Hw' & Hnm).
      exists (w ++ w'), nm. split; [| split; [by apply ws_app | by apply atom_name]].
      rewrite Hw, Hr. by rewrite <- ?app_assoc.
    + apply N.eqb_neq in Ec. destruct c as [|p]; [done |].
      repeat (destruct p as [p | p |]; try done).
Qed.

Lemma parseTerm_sound rest node rest' :
  parseTerm s parseExpr_ rest = Some (Ok (node, rest')) ->
  exists u, rest = u ++ rest' /\ term u node.
Proof.
  unfold parseTerm. intros H. apply pbind_ok in H as ([nd r] & Hatom & H).
  destruct (skipWs_ws rest) as (w0 & Hw0 & Hws0).
  destruct (parseAtom_sound _ _ _ Hatom) as (wa & ua & Hua & Hwa & Ha).
  destruct (skipWs_ws r) as (w1 & Hw1 & Hws1).
  assert (Hrest : rest = (w0 ++ wa) ++ ua ++ w1 ++ skipWs r).
  { rewrite Hw0, Hua. rewrite <- ?app_assoc. by rewrite <- Hw1. }
  assert (Hplain : (nd, skipWs r) = (node, rest') ->
            exists u, rest = u ++ rest' /\ term u node).
  { intros [= <- <-]. exists ((w0 ++ wa) ++ ua ++ w1). split.
    - rewrite Hrest. by rewrite <- ?app_assoc.
    - apply term_plain; [by apply ws_app | done | done]. }
  assert (Hocc : forall q c r', skipWs r = c :: r' -> indicator q = Some c ->
            (withOccurs nd q, r') = (node, rest') ->
            exists u, rest = u ++ rest' /\ term u node).
  { intros q c r' Hs Hq [= <- <-]. exists ((w0 ++ wa) ++ ua ++ w1 ++ [c]). split.
    - rewrite Hrest, Hs. by rewrite <- ?app_assoc.
    - apply term_occurs; [by apply ws_app | done | done | done]. }
  destruct (skipWs r) as [|q r'] eqn:Es.
  - inversion H; subst. by apply Hplain.
  - destruct (N.eqb_spec q 63) as [-> |];
      [apply (Hocc Opt 63%N r'); [done | done | by inversion H] |].
    destruct (N.eqb_spec q 42) as [-> |];
      [apply (Hocc Star 42%N r'); [done | done | by inversion H] |].
    destruct (N.eqb_spec q 43) as [-> |];
      [apply (Hocc Plus 43%N r'); [done | done | by inversion H] |].
    inversion H; subst. by apply Hplain.
Qed.
End WithExpr.

Section Loop.
Context (pt : str -> P (DtdContentModel * str)).
Hypothesis pt_sound : forall r nd r',
  pt r = Some (Ok (nd, r')) -> exists u, r = u ++ r' /\ term u nd.

(** Once the loop has its mode, the operators that follow are the one
    of that mode. *)
Lemma exprLoop_chain n lhs items m rest node rest' :
  exprLoop s n pt lhs items (Some m) rest = Some (Ok (node, rest')) ->
  exists u ts, rest = u ++ rest' /\ separated m u ts /\ node = group m (items ++ ts).
Proof.
  revert items rest. induction n as [|n IH]; intros items rest; [done |].
  cbn [exprLoop]. destruct (skipWs_ws rest) as (w & Hw & Hws).
  assert (Hfin : forall r,
            skipWs rest = r ->
            match m with
            | ModeCHOICE => pret (CHOICE items One, r)
            | ModeSEQ => pret (SEQ items One, r)
            end = Some (Ok (node, rest')) ->
            exists u ts, rest = u ++ rest' /\ separated m u ts
                         /\ node = group m (items ++ ts)).
  { intros r Hr H. exists w, [].
    split; [| split; [by apply separated_end |]].
    - rewrite Hw at 1. rewrite Hr. by destruct m; inversion H.
    - rewrite app_nil_r. by destruct m; inversion H. }
  destruct (skipWs rest) as [|op r] eqn:Es; [by apply Hfin |].
  destruct ((op =? 124)%N || (op =? 44)%N) eqn:Eop; [| by apply Hfin].
  set (nextMode := if (op =? 124)%N then ModeCHOICE else ModeSEQ).
  destruct (mode_eqb m nextMode) eqn:Em; simpl; [| done].
  assert (Hop : nextMode = m /\ op = separator m).
  { subst nextMode. destruct (N.eqb_spec op 124) as [-> | Hne].
    - by destruct m.
    - simpl in Eop. apply N.eqb_eq in Eop as ->. by destruct m. }
  destruct Hop as [Hnm Hop]. rewrite Hnm.
  intros H. apply pbind_ok in H as ([rhs r'] & Hterm & H).
  destruct (pt_sound _ _ _ Hterm) as (ut & Hut & Ht).
  destruct (IH _ _ H) as (u & ts & Hu & Hs & Hnode).
  exists (w ++ [separator m] ++ ut ++ u), (rhs :: ts). split; [| split].
  - rewrite Hw, Hut, Hu, Hop. by rewrite <- ?app_assoc.
  - by apply separated_next.
  - rewrite Hnode. by rewrite <- app_assoc.
Qed.

Lemma exprLoop_start n lhs rest node rest' :
  exprLoop s n pt lhs [lhs] None rest = Some (Ok (node, rest')) ->
  (exists w, rest = w ++ rest' /\ ws w /\ node = lhs)
  \/ (exists m u ts, rest = u ++ rest' /\ separated m u ts /\ ts <> []
                     /\ node = group m (lhs :: ts)).
Proof.
  destruct n as [|n]; [done |].
  cbn [exprLoop]. destruct (skipWs_ws rest) as (w & Hw & Hws).
  assert (Hfin : forall r,
            skipWs rest = r ->
            @pret (DtdContentModel * str) (lhs, r) = Some (Ok (node, rest')) ->
            exists w, rest = w ++ rest' /\ ws w /\ node = lhs).
  { intros r Hr [= <- <-]. exists w. by rewrite <- Hr. }
  destruct (skipWs rest) as [|op r] eqn:Es; [left; by apply (Hfin []) |].
  destruct ((op =? 124)%N || (op =? 44)%N) eqn:Eop; [| left; by apply (Hfin (op :: r))].
  set (nextMode := if (op =? 124)%N then ModeCHOICE else ModeSEQ).
  assert (Hop : op = separator nextMode).
  { subst nextMode. destruct (N.eqb_spec op 124) as [-> | Hne]; [done |].
    simpl in Eop. by apply N.eqb_eq in Eop as ->. }
  intros H. apply pbind_ok in H as ([rhs r'] & Hterm & H).
  destruct (pt_sound _ _ _ Hterm) as (ut & Hut & Ht).
  destruct (exprLoop_chain _ _ _ _ _ _ _ H) as (u & ts & Hu & Hs & Hnode).
  right. exists nextMode, (w ++ [separator nextMode] ++ ut ++ u), (rhs :: ts).
  split; [| split; [| split]].
  - rewrite Hw, Hut, Hu, Hop. by rewrite <- ?app_assoc.
  - by apply separated_next.
  - done.
  - exact Hnode.
Qed.
End Loop.

Lemma parseExpr_sound fuel rest node rest' :
  parseExpr s fuel rest = Some (Ok (node, rest')) ->
  exists u, rest = u ++ rest' /\ expr u node.
Proof.
  revert rest node rest'. induction fuel as [|f IH]; intros rest node rest'; [done |].
  cbn [parseExpr]. intros H. apply pbind_ok in H as ([lhs r] & Hterm & H).
  destruct (parseTerm_sound _ IH _ _ _ Hterm) as (ut & Hut & Ht).
  destruct (skipWs_ws r) as (w & Hw & Hws).
  destruct (exprLoop_start _ (parseTerm_sound _ IH) _ _ _ _ _ H)
    as [(w' & Hr & Hw' & ->) | (m & u & ts & Hr & Hs & Hne & ->)].
  - exists (ut ++ (w ++ w')). split.
    + rewrite Hut, Hw, Hr. by rewrite <- ?app_assoc.
    + apply expr_single; [done | by apply ws_app].
  - exists (ut ++ (w ++ u)). split.
    + rewrite Hut, Hw, Hr. by rewrite <- ?app_assoc.
    + apply expr_chain; [done | by apply separated_lead | done].
Qed.

(** The node the parser returns is one the grammar gives to the text. *)
Lemma parse_sound node : parse s = Some (Ok node) -> expr s node.
Proof.
  unfold parse. intros H. apply pbind_ok in H as ([nd r] & Hexpr & H).
  destruct (parseExpr_sound _ _ _ _ Hexpr) as (u & Hu & He).
  destruct (skipWs_ws r) as (w & Hw & Hws).
  destruct (skipWs r) eqn:Es; [| done]. inversion H; subst nd.
  rewrite Hu, Hw, app_nil_r. by apply expr_pad.
Qed.
End Sound.

Lemma parseElementModel_sound model node :
  parseElementModel model = Some (Ok (ContentModel node)) -> expr (trim model) node.
Proof.
  unfold parseElementModel.
  destruct (str_eqb (trim model) (lit "ANY")); [done |].
  destruct (str_eqb (trim model) (lit "EMPTY")); [done |].
  intros H. apply pbind_ok in H as (nd & Hp & H). inversion H; subst nd.
  by apply parse_sound.
Qed.
End ModelGrammarFacts.

(** C7. A content model that combines [","] and ["|"] at one
    parenthesis nesting level makes the parser, and with it
    [parseElementModel] and [buildDtdIndex] on a DTD text with such an
    [<!ELEMENT>] declaration, throw; hence a content-model AST that was
    built comes from a text whose every level has one operator only.
    Moreover the AST is the one the grammar of content models gives to
    the text: each of its [SEQ] nodes is built from a chain of terms
    that commas alone separate, and each of its [CHOICE] nodes from a
    chain that bars alone separate (or from a mixed model, whose names
    follow [#PCDATA] after a bar each). *)
Theorem C7_mixed_operators_are_fatal :
  (forall model : str,
     Operators.mixesOperators (DtdIndexBuilder.trim model) = true ->
     exists m, DtdIndexBuilder.parseElementModel model = Some (Throw m))
  /\ (forall (dtdText decl name model : str),
        decl ∈ DtdIndexBuilder.extractDeclarations dtdText ->
        startsWith (DtdIndexBuilder.stripOuterDecl decl) (lit "ELEMENT ") = true ->
        DtdIndexBuilder.parseElementDecl (DtdIndexBuilder.stripOuterDecl decl)
        = Some (Ok (name, model)) ->
        Operators.mixesOperators (DtdIndexBuilder.trim model) = true ->
        exists m, DtdIndexBuilder.buildDtdIndex dtdText = Some (Throw m))
  /\ (forall (model : str) (node : DtdContentModel),
        DtdIndexBuilder.parseElementModel model = Some (Ok (ContentModel node)) ->
        Operators.mixesOperators (DtdIndexBuilder.trim model) = false
        /\ ModelGrammar.expr (DtdIndexBuilder.trim model) node)
  /\ (exists m, DtdIndexBuilder.parseElementModel (lit "(a,b|c)") = Some (Throw m)).
Proof.
  split; [apply DtdParserFacts.parseElementModel_mixed_throws |].
  split; [| split].
  - intros dtdText decl name model Hin Hstart Hdecl Hmix.
    unfold DtdIndexBuilder.buildDtdIndex.
    destruct (DtdParserFacts.addDeclarations_throws _ decl ∅ Hin) as (m & ->).
    + intros els. by eapply DtdParserFacts.addDeclaration_mixed_throws.
    + simpl. eauto.
  - intros model node H. split.
    + by apply (DtdParserFacts.parseElementModel_ok model node).
    + by apply ModelGrammarFacts.parseElementModel_sound.
  - apply DtdParserFacts.parseElementModel_mixed_throws. reflexivity.
Qed.

Lemma C7_witness :
  Operators.mixesOperators (DtdIndexBuilder.trim (lit "(a,b|c)")) = true
  /\ (exists m, DtdIndexBuilder.parseElementModel (lit "(a,b|c)") = Some (Throw m))
  /\ (exists m, DtdIndexBuilder.buildDtdIndex (lit "<!ELEMENT doc (a,b|c)>")
                 = Some (Throw m))
  /\ DtdIndexBuilder.parseElementModel (lit "(a, b)*")
     = Some (Ok (ContentModel (SEQ [NAME (lit "a") One; NAME (lit "b") One] Star)))
  /\ ModelGrammar.expr (lit "(a, b)*")
       (SEQ [NAME (lit "a") One; NAME (lit "b") One] Star).
Proof.
  assert (Hp : DtdIndexBuilder.parseElementModel (lit "(a, b)*")
               = Some (Ok (ContentModel
                             (SEQ [NAME (lit "a") One; NAME (lit "b") One] Star))))
    by (vm_compute; reflexivity).
  split; [reflexivity |]. split; [| split; [| split; [exact Hp |]]].
  - exact (proj1 C7_mixed_operators_are_fatal (lit "(a,b|c)") eq_refl).
  - exact (proj1 (proj2 C7_mixed_operators_are_fatal)
             (lit "<!ELEMENT doc (a,b|c)>") (lit "<!ELEMENT doc (a,b|c)>")
             (lit "doc") (lit "(a,b|c)")
             ltac:(vm_compute; apply list_elem_of_singleton; reflexivity)
             eq_refl eq_refl eq_refl).
  - exact (proj2 (proj1 (proj2 (proj2 C7_mixed_operators_are_fatal))
                    (lit "(a, b)*") _ Hp)).
Defined.

(** ** How numbers print *)

Module JsNumberFacts.
Import JsNumber.

Lemma pretty_N_char_digit x : isDigit (N_of_ascii (pretty_N_char x)) = true.
Proof. unfold pretty_N_char. by repeat case_match. Qed.

Lemma pretty_N_go_digits x (t : string) :
  forallb isDigit (lit t) = true ->
  forallb isDigit (lit (pretty_N_go x t)) = true
  /\ String.length t <= String.length (pretty_N_go x t)
  /\ ((0 < x)%N -> String.length t < String.length (pretty_N_go x t)).
Proof.
  revert t. induction (N.lt_wf_0 x) as [x _ IH]; intros t Ht.
  assert (x = 0 \/ 0 < x)%N as [-> | Hx] by lia.
  - rewrite pretty_N_go_0. split; [done |]. split; [lia | lia].
  - rewrite pretty_N_go_step by done.
    destruct (IH (x `div` 10)%N ltac:(by apply N.div_lt)
                (String (pretty_N_char (x `mod` 10)) t)) as (H1 & H2 & _).
    { unfold lit in *. simpl. by rewrite pretty_N_char_digit, Ht. }
    split; [done |]. simpl in H2. split; [lia | intros _; lia].
Qed.

Lemma lit_length t : length (lit t) = String.length t.
Proof.
  unfold lit. rewrite length_map. induction t as [|a t IH]; simpl; [done | by rewrite IH].
Qed.

Lemma pretty_N_digits (n : N) :
  lit (pretty n) <> [] /\ forallb isDigit (lit (pretty n)) = true.
Proof.
  unfold pretty, pretty_N. destruct (decide (n = 0%N)) as [-> | Hn]; [done |].
  destruct (pretty_N_go_digits n "" eq_refl) as (H1 & _ & H3).
  split; [| done]. intros Hnil.
  assert (Hl : length (lit (pretty_N_go n "")) = 0) by (by rewrite Hnil).
  rewrite lit_length in Hl. specialize (H3 ltac:(lia)). simpl in H3. lia.
Qed.

Lemma forallb_take_digits (f : N -> bool) n (l : str) :
  forallb f l = true -> forallb f (take n l) = true.
Proof.
  rewrite !forallb_forall. intros H x Hx. apply H.
  apply list_elem_of_In in Hx. apply list_elem_of_In.
  by apply (subseteq_take n l).
Qed.

Lemma forallb_zeros n : forallb isDigit (zeros n) = true.
Proof. induction n as [|n IH]; [done |]. simpl. exact IH. Qed.

(** A non-negative integer of at most 21 digits prints as digits. *)
Lemma toString_short x :
  isShortInteger x -> toString x <> [] /\ forallb isDigit (toString x) = true.
Proof.
  destruct x as [| neg | neg s e]; [done | done |].
  destruct neg; [done |]. intros [He Hs]. unfold toString.
  destruct (N.eqb_spec s 0) as [-> | Hne]; [done |].
  destruct Hs as [Hs | Hs]; [done |].
  destruct (pretty_N_digits s) as [Hnil Hd].
  unfold printFinite.
  set (ds := lit (pretty s)) in *.
  set (z := length (takeWhile (N.eqb 48) (reverse ds))).
  set (sig := take (length ds - z) ds).
  assert (Hz : z <= length ds).
  { subst z.
    pose proof (DtdParserFacts.takeWhile_dropWhile (N.eqb 48) (reverse ds)) as H.
    apply (f_equal length) in H. rewrite length_app, length_reverse in H. lia. }
  assert (Hk : length sig = length ds - z).
  { subst sig. rewrite length_take. lia. }
  assert (Hlen : 0 < length ds) by (destruct ds; [done | simpl; lia]).
  rewrite Hk.
  assert (Hb : ((Z.of_nat (length ds - z) <=? Z.of_nat (length ds - z) + Z.of_nat z + e)%Z
                && (Z.of_nat (length ds - z) + Z.of_nat z + e <=? 21)%Z) = true).
  { apply andb_true_iff. split; apply Z.leb_le; lia. }
  rewrite Hb. split.
  - intros H. apply (f_equal length) in H. rewrite app_nil_l in H.
    rewrite length_app, Hk in H. unfold zeros in H. rewrite length_replicate in H.
    simpl in H. lia.
  - rewrite app_nil_l, forallb_app. apply andb_true_iff. split.
    + by apply forallb_take_digits.
    + apply forallb_zeros.
Qed.

Lemma assoc_Forall {V} (P : V -> Prop) (m : list (str * V)) k v :
  Forall (fun kv => P kv.2) m -> Sanitizer.assoc k m = Some v -> P v.
Proof.
  induction 1 as [|[k' v'] m Hx _ IH]; [done |]. simpl.
  destruct (str_eqb k' k); [by intros [= <-] | exact IH].
Qed.

(** The codes of the built-in table are such integers. *)
Lemma builtin_short :
  Forall (fun kv => isShortInteger kv.2) Sanitizer.BUILTIN_ENTITIES.
Proof.
  cbv [Sanitizer.BUILTIN_ENTITIES map].
  repeat (apply Forall_cons; split; [split; [done | right; vm_compute; discriminate] |]).
  constructor.
Qed.
End JsNumberFacts.

(** ** The entity step (C5) *)

Module EntityFacts.
Import Sanitizer Entities DtdParserFacts.

Lemma takeWhile_app_stop {A} (f : A -> bool) (u : list A) c r :
  forallb f u = true -> f c = false ->
  takeWhile f (u ++ c :: r) = u /\ dropWhile f (u ++ c :: r) = c :: r.
Proof.
  intros Hu Hc. induction u as [|x u IH]; simpl in *.
  - by rewrite Hc.
  - apply andb_true_iff in Hu as [Hx Hu]. rewrite Hx.
    destruct (IH Hu) as [-> ->]. done.
Qed.

Lemma dropWhile_suffix_length {A} (f : A -> bool) (l : list A) c r :
  dropWhile f l = c :: r -> length r < length l.
Proof.
  intros H. pose proof (dropWhile_length f l) as Hl. rewrite H in Hl. simpl in Hl. lia.
Qed.

Lemma not_amp_forall (f : N -> bool) (u : str) :
  f 38%N = false -> forallb f u = true -> 38%N ∉ u.
Proof.
  intros Hf Hu Hin. apply list_elem_of_In in Hin.
  rewrite forallb_forall in Hu. apply Hu in Hin. congruence.
Qed.

(** What the scan after an ampersand has read. *)
Lemma scanAmp_numeric r text rest :
  scanAmp r = NumericRef text rest ->
  exists u, text = 38%N :: u /\ r = u ++ rest /\ 38%N ∉ u.
Proof.
  unfold scanAmp. destruct r as [|c r1]; [done |].
  destruct (N.eqb_spec c 35) as [-> | Hc].
  - set (hx := match r1 with
               | c :: r' => if (c =? 120)%N || (c =? 88)%N then (true, [c], r') else (false, [], r1)
               | [] => (false, [], r1)
               end).
    assert (Hhx : r1 = hx.1.2 ++ hx.2 /\ 38%N ∉ hx.1.2).
    { subst hx. destruct r1 as [|x r']; [simpl; split; [done | apply not_elem_of_nil] |].
      destruct ((x =? 120)%N || (x =? 88)%N) eqn:Ex; simpl.
      - split; [done |]. intros Hin. apply list_elem_of_singleton in Hin. by subst.
      - split; [done | apply not_elem_of_nil]. }
    destruct hx as [[isHex pre] r2]. simpl in Hhx. destruct Hhx as [-> Hpre].
    set (isD := if isHex then isHexDigit else isDigit).
    assert (HisD : isD 38%N = false) by (subst isD; by destruct isHex).
    pose proof (takeWhile_dropWhile isD r2) as Htd.
    pose proof (takeWhile_forall isD r2) as Htf.
    destruct (takeWhile isD r2) as [|d ds] eqn:Et; [done |].
    destruct (dropWhile isD r2) as [|x rest0] eqn:Ed; [done |].
    destruct (N.eqb_spec x 59) as [-> | Hx].
    + intros [= <- <-]. exists ([35%N] ++ pre ++ (d :: ds) ++ [59%N]). split; [done |].
      split; [by rewrite <- Htd, <- !app_assoc |].
      rewrite !elem_of_app. intros [H | [H | [H | H]]].
      * apply list_elem_of_singleton in H. done.
      * done.
      * by apply (not_amp_forall isD (d :: ds)).
      * apply list_elem_of_singleton in H. done.
    + destruct x as [|p]; [done |]. repeat (destruct p as [p | p |]; try done).
  - replace (match c with 35%N => _ | _ => _ end)
      with (if isLetter c
            then match dropWhile isAlphaNum r1 with
                 | 59%N :: rest => NamedRef (c :: takeWhile isAlphaNum r1) rest
                 | _ => BareAmp
                 end
            else BareAmp).
    + destruct (isLetter c); [| done].
      destruct (dropWhile isAlphaNum r1) as [|x rest0]; [done |].
      destruct x as [|p]; [done |]. repeat (destruct p as [p | p |]; try done).
    + destruct c as [|p]; [done |]. repeat (destruct p as [p | p |]; try done).
Qed.

Lemma scanAmp_numeric_shape r1 name rest :
  scanAmp (35%N :: r1) = NamedRef name rest -> False.
Proof.
  unfold scanAmp.
  destruct (match r1 with
            | c :: r' => if (c =? 120)%N || (c =? 88)%N then (true, [c], r') else (false, [], r1)
            | [] => (false, [], r1)
            end) as [[isHex pre] r2].
  destruct (takeWhile _ r2); [done |].
  destruct (dropWhile _ r2) as [|x rest0]; [done |].
  destruct x as [|p]; [done |]. repeat (destruct p as [p | p |]; try done).
Qed.

Lemma scanAmp_letter c r1 :
  isLetter c = true ->
  scanAmp (c :: r1) =
  match dropWhile isAlphaNum r1 with
  | 59%N :: rest => NamedRef (c :: takeWhile isAlphaNum r1) rest
  | _ => BareAmp
  end.
Proof.
  intros Hc. unfold scanAmp.
  destruct (N.eqb_spec c 35) as [-> | Hne]; [done |].
  transitivity (if isLetter c
                then match dropWhile isAlphaNum r1 with
                     | 59%N :: rest => NamedRef (c :: takeWhile isAlphaNum r1) rest
                     | _ => BareAmp
                     end
                else BareAmp); [| by rewrite Hc].
  destruct c as [|p]; [done |]. repeat (destruct p as [p | p |]; try done).
Qed.

Lemma scanAmp_named r name rest :
  scanAmp r = NamedRef name rest ->
  r = name ++ 59%N :: rest /\ validName name = true /\ 38%N ∉ name ++ [59%N].
Proof.
  destruct r as [|c r1]; [done |].
  destruct (isLetter c) eqn:Hc.
  - rewrite scanAmp_letter by done.
    pose proof (takeWhile_dropWhile isAlphaNum r1) as Htd.
    pose proof (takeWhile_forall isAlphaNum r1) as Htf.
    destruct (dropWhile isAlphaNum r1) as [|x rest0] eqn:Ed; [done |].
    destruct (N.eqb_spec x 59) as [-> | Hx].
    + intros [= <- <-]. split; [simpl; f_equal; symmetry; exact Htd |]. split.
      * simpl. by rewrite Hc, Htf.
      * rewrite elem_of_app, elem_of_cons. intros [[H | H] | H].
        -- by subst.
        -- by apply (not_amp_forall isAlphaNum) in H.
        -- apply list_elem_of_singleton in H. done.
    + destruct x as [|p]; [done |]. repeat (destruct p as [p | p |]; try done).
  - unfold scanAmp. destruct (N.eqb_spec c 35) as [-> | Hne].
    + intros H. apply scanAmp_numeric_shape in H. done.
    + replace (match c with 35%N => _ | _ => _ end) with BareAmp; [done |].
      transitivity (if isLetter c
                    then match dropWhile isAlphaNum r1 with
                         | 59%N :: rest => NamedRef (c :: takeWhile isAlphaNum r1) rest
                         | _ => BareAmp
                         end
                    else BareAmp); [by rewrite Hc |].
      destruct c as [|p]; [done |]. repeat (destruct p as [p | p |]; try done).
Qed.

Lemma scanAmp_rest_length r :
  match scanAmp r with
  | NumericRef _ rest | NamedRef _ rest => length rest <= length r
  | BareAmp => True
  end.
Proof.
  destruct (scanAmp r) as [text rest | name rest |] eqn:E; [| | done].
  - apply scanAmp_numeric in E as (u & _ & -> & _). rewrite length_app. lia.
  - apply scanAmp_named in E as (-> & _). rewrite length_app. simpl. lia.
Qed.

(** What the lookup [entityMap[lower]] answers, by the keys of the table. *)
Lemma entityCode_known named lower code :
  tableCode named lower = Some code ->
  entityCode named lower = Some (JsNumber.toString code).
Proof.
  unfold tableCode, entityCode.
  destruct (Sanitizer.assoc lower named); [by intros [= ->] |].
  by intros ->.
Qed.

Lemma entityCode_unknown named lower :
  tableCode named lower = None -> lower <> lit "constructor" ->
  entityCode named lower = None.
Proof.
  unfold tableCode, entityCode.
  destruct (Sanitizer.assoc lower named); [done |]. intros -> Hne.
  destruct (str_eqb lower (lit "constructor")) eqn:E; [| done].
  by apply str_eqb_true in E.
Qed.

Lemma entityCode_none named lower :
  entityCode named lower = None -> tableCode named lower = None.
Proof.
  unfold tableCode, entityCode.
  destruct (Sanitizer.assoc lower named); [done |].
  by destruct (Sanitizer.assoc lower BUILTIN_ENTITIES).
Qed.

Section Loop.
Context (policy : EntityPolicy) (named : list (str * JsNumber.t)).

Local Abbreviation E := (fun s => normalizeEntitiesAndAmpersands s policy named).

Local Abbreviation onAmp := (EntityLoop.onAmp policy named).

Lemma entitiesLoop_fuel f1 f2 s :
  length s <= f1 -> length s <= f2 ->
  entitiesLoop f1 policy named s = entitiesLoop f2 policy named s.
Proof.
  revert f2 s. induction f1 as [|f1 IH]; intros f2 s H1 H2.
  - destruct s; [| simpl in H1; lia]. by destruct f2.
  - destruct f2 as [|f2]; [destruct s; [done | simpl in H2; lia] |].
    destruct s as [|ch r]; [done |]. simpl in H1, H2. cbn [entitiesLoop].
    destruct (negb (ch =? 38)%N); [f_equal; apply IH; lia |].
    pose proof (scanAmp_rest_length r) as Hr.
    destruct (scanAmp r) as [text rest | name rest |].
    + f_equal. apply IH; lia.
    + destruct (has (toLowerCase name) XML5); [f_equal; apply IH; lia |].
      destruct (entityCode named (toLowerCase name)); [f_equal; apply IH; lia |].
      destruct policy; [f_equal; apply IH; lia | f_equal; apply IH; lia | done].
    + f_equal. apply IH; lia.
Qed.

Lemma E_nil : E [] = Ok [].
Proof. reflexivity. Qed.

Lemma E_cons ch r :
  E (ch :: r) = if negb (ch =? 38)%N then prepend [ch] (E r) else onAmp r E.
Proof.
  unfold normalizeEntitiesAndAmpersands, EntityLoop.onAmp. cbn [length entitiesLoop].
  destruct (negb (ch =? 38)%N); [reflexivity |].
  pose proof (scanAmp_rest_length r) as Hr.
  destruct (scanAmp r) as [text rest | name rest |]; [| | reflexivity];
    by rewrite (entitiesLoop_fuel (length r) (length rest) rest) by lia.
Qed.
End Loop.

Lemma scanAmp_valid name rest :
  validName name = true -> scanAmp (name ++ 59%N :: rest) = NamedRef name rest.
Proof.
  destruct name as [|c name]; [done |]. simpl.
  intros H. apply andb_true_iff in H as [Hc Hn].
  change (scanAmp (c :: (name ++ 59%N :: rest)) = NamedRef (c :: name) rest).
  rewrite scanAmp_letter by done.
  destruct (takeWhile_app_stop isAlphaNum name 59%N rest Hn eq_refl) as [-> ->].
  reflexivity.
Qed.

Lemma scanAmp_decimal digits rest :
  digits <> [] -> forallb isDigit digits = true ->
  scanAmp (35%N :: digits ++ 59%N :: rest)
  = NumericRef (lit "&#" ++ digits ++ lit ";") rest.
Proof.
  intros Hne Hd. destruct digits as [|d ds]; [done |].
  simpl in Hd. apply andb_true_iff in Hd as [Hd Hds].
  unfold scanAmp.
  change ((d :: ds) ++ 59%N :: rest) with (d :: (ds ++ 59%N :: rest)).
  assert (Hx : ((d =? 120)%N || (d =? 88)%N) = false).
  { unfold isDigit in Hd. apply andb_true_iff in Hd as [H1 H2].
    apply N.leb_le in H1, H2. apply orb_false_iff.
    split; apply N.eqb_neq; lia. }
  cbn iota beta. rewrite Hx. cbn iota beta.
  assert (Hall : forallb isDigit (d :: ds) = true) by (simpl; by rewrite Hd, Hds).
  destruct (takeWhile_app_stop isDigit (d :: ds) 59%N rest Hall eq_refl) as [Ht Hdr].
  change (d :: (ds ++ 59%N :: rest)) with ((d :: ds) ++ 59%N :: rest).
  rewrite Ht, Hdr. reflexivity.
Qed.

Lemma scanAmp_hex x digits rest :
  x = 120%N \/ x = 88%N ->
  digits <> [] -> forallb isHexDigit digits = true ->
  scanAmp (35%N :: x :: digits ++ 59%N :: rest)
  = NumericRef (lit "&#" ++ [x] ++ digits ++ lit ";") rest.
Proof.
  intros Hx Hne Hd. unfold scanAmp.
  assert (Ex : ((x =? 120)%N || (x =? 88)%N) = true) by (destruct Hx; by subst).
  cbn iota beta. rewrite Ex. cbn iota beta.
  destruct (takeWhile_app_stop isHexDigit digits 59%N rest Hd eq_refl) as [Ht Hdr].
  rewrite Ht, Hdr. destruct digits; [done | reflexivity].
Qed.

Lemma throws_prepend t (r : result str) : throws (prepend t r) <-> throws r.
Proof.
  unfold throws. destruct r as [o | m]; simpl.
  - split; intros (m & H); discriminate H.
  - split; eauto.
Qed.

Lemma split_before_amp (u rest0 pre w : str) :
  38%N ∉ u -> u ++ rest0 = pre ++ 38%N :: w ->
  exists pre', pre = u ++ pre' /\ rest0 = pre' ++ 38%N :: w.
Proof.
  revert pre. induction u as [|c u IH]; intros pre Hu H; simpl in *; [eauto |].
  destruct pre as [|p pre]; simpl in H.
  - inversion H; subst. exfalso. apply Hu. by left.
  - inversion H; subst. destruct (IH pre) as (pre' & -> & ->); [| done | eauto].
    intros Hin. apply Hu. by right.
Qed.

Lemma hasUnknownEntity_app named u s :
  hasUnknownEntity named s -> hasUnknownEntity named (u ++ s).
Proof.
  intros (pre & name & post & -> & Hv & Hu).
  exists (u ++ pre), name, post. by rewrite <- app_assoc.
Qed.

Section Throws.
Context (policy : EntityPolicy) (named : list (str * JsNumber.t)).

Local Abbreviation E := (fun s => normalizeEntitiesAndAmpersands s policy named).

Lemma E_throws_unknown s :
  throws (E s) -> policy = error /\ hasUnknownEntity named s.
Proof.
  remember (length s) as n eqn:Hn. revert s Hn.
  induction n as [n IH] using lt_wf_ind. intros s Hn Hthrow.
  destruct s as [|ch r]; [by destruct Hthrow |].
  rewrite E_cons in Hthrow. simpl in Hn.
  destruct (negb (ch =? 38)%N) eqn:Ech.
  - apply throws_prepend in Hthrow.
    destruct (IH (length r) ltac:(lia) r eq_refl Hthrow) as [Hp Hu].
    split; [done |]. by apply (hasUnknownEntity_app named [ch]).
  - apply negb_false_iff, N.eqb_eq in Ech as ->.
    unfold EntityLoop.onAmp in Hthrow.
    destruct (scanAmp r) as [text rest | name rest |] eqn:Es.
    + apply throws_prepend in Hthrow.
      apply scanAmp_numeric in Es as (u & -> & -> & _).
      assert (Hl : length rest < n) by (subst n; rewrite length_app; lia).
      destruct (IH _ Hl rest eq_refl Hthrow) as [Hp Hu].
      split; [done |]. by apply (hasUnknownEntity_app named (38%N :: u)).
    + apply scanAmp_named in Es as (-> & Hv & _).
      assert (Hl : length rest < n) by (subst n; rewrite length_app; simpl; lia).
      assert (Hrest : throws (E rest) -> policy = error /\
                hasUnknownEntity named (38%N :: name ++ 59%N :: rest)).
      { intros Ht. destruct (IH _ Hl rest eq_refl Ht) as [Hp Hu].
        split; [done |].
        replace (38%N :: name ++ 59%N :: rest)
          with ((38%N :: name ++ [59%N]) ++ rest)
          by (simpl; by rewrite <- app_assoc).
        by apply hasUnknownEntity_app. }
      destruct (has (toLowerCase name) XML5) eqn:Ex;
        [apply throws_prepend in Hthrow; auto |].
      destruct (entityCode named (toLowerCase name)) eqn:Ec;
        [apply throws_prepend in Hthrow; auto |].
      destruct policy; [apply throws_prepend in Hthrow; auto
                       | apply throws_prepend in Hthrow; auto |].
      split; [done |]. exists [], name, rest. split; [done |]. split; [done |].
      unfold unknownName. by rewrite Ex, (entityCode_none _ _ Ec).
    + apply throws_prepend in Hthrow.
      destruct (IH (length r) ltac:(lia) r eq_refl Hthrow) as [Hp Hu].
      split; [done |]. by apply (hasUnknownEntity_app named [38%N]).
Qed.

Lemma E_unknown_throws pre name post :
  policy = error -> validName name = true -> unknownName named name = true ->
  toLowerCase name <> lit "constructor" ->
  throws (E (pre ++ [38%N] ++ name ++ [59%N] ++ post)).
Proof.
  intros Hpol Hv Hu Hne.
  remember (length pre) as n eqn:Hn. revert pre Hn.
  induction n as [n IH] using lt_wf_ind. intros pre Hn.
  unfold unknownName in Hu. apply andb_true_iff in Hu as [Hx Hc].
  apply negb_true_iff in Hx.
  assert (Ec : entityCode named (toLowerCase name) = None).
  { apply entityCode_unknown; [| done].
    by destruct (tableCode named (toLowerCase name)). }
  destruct pre as [|ch pre].
  - simpl. rewrite E_cons. simpl. unfold EntityLoop.onAmp.
    rewrite scanAmp_valid by done. cbn zeta. rewrite Hx, Ec, Hpol.
    eexists; reflexivity.
  - simpl in Hn. change ((ch :: pre) ++ [38%N] ++ name ++ [59%N] ++ post)
      with (ch :: (pre ++ [38%N] ++ name ++ [59%N] ++ post)).
    rewrite E_cons.
    destruct (negb (ch =? 38)%N) eqn:Ech.
    + apply throws_prepend. apply (IH (length pre)); [lia | done].
    + unfold EntityLoop.onAmp.
      destruct (scanAmp (pre ++ [38%N] ++ name ++ [59%N] ++ post))
        as [text rest | nm rest |] eqn:Es.
      * apply throws_prepend.
        apply scanAmp_numeric in Es as (u & -> & Hr & Hamp).
        symmetry in Hr.
        apply split_before_amp in Hr as (pre' & -> & ->); [| done].
        apply (IH (length pre')); [rewrite length_app in Hn; lia | done].
      * apply scanAmp_named in Es as (Hr & Hvn & Hamp).
        assert (Hrest : throws (E rest)).
        { replace (nm ++ 59%N :: rest) with ((nm ++ [59%N]) ++ rest) in Hr
            by (by rewrite <- app_assoc).
          symmetry in Hr.
          apply split_before_amp in Hr as (pre' & -> & ->); [| done].
          apply (IH (length pre')); [rewrite !length_app in Hn; simpl in Hn; lia | done]. }
        destruct (has (toLowerCase nm) XML5); [by apply throws_prepend |].
        destruct (entityCode named (toLowerCase nm)); [by apply throws_prepend |].
        rewrite Hpol. eexists; reflexivity.
      * apply throws_prepend. apply (IH (length pre)); [lia | done].
Qed.

Lemma E_total s : policy <> error -> exists out, E s = Ok out.
Proof.
  intros Hp. destruct (E s) as [out | m] eqn:Es; [eauto |].
  destruct (E_throws_unknown s) as [H _]; [| done]. rewrite Es. by exists m.
Qed.
End Throws.
End EntityFacts.





(** The entity table is an object literal, so a lookup also answers for
    the members it inherits: the name [constructor] counts as known, and
    its reference is rewritten with the text of the function. *)
Lemma inherited_member_counts_as_entity :
  Sanitizer.normalizeEntitiesAndAmpersands (lit "&constructor;") Sanitizer.error []
  = Ok (lit "&#function Object() { [native code] };").
Proof. vm_compute. reflexivity. Qed.

(** ** Texts without container markup (C8) *)

Module ContainerFacts.
Import Sanitizer Containers.

Lemma noContainerOpen_drop o n s :
  noContainerOpen o s = true -> noContainerOpen o (drop n s) = true.
Proof.
  revert s. induction n as [|n IH]; intros s; [by rewrite drop_0 |].
  destruct s as [|c r]; [done |]. simpl.
  intros H. apply andb_true_iff in H as [_ H]. by apply IH.
Qed.

Lemma parseTagDetailed_tend after tag :
  parseTagDetailed after = Some tag -> 1 <= tend tag.
Proof.
  unfold parseTagDetailed.
  destruct (match after with 47%N :: r' => (true, r') | _ => (false, after) end)
    as [cl r].
  destruct r as [|c0 r0]; [done |].
  destruct (negb _); [done |].
  destruct (scanTagEnd _ _ _ _) as [[n sc] |]; [| done].
  intros [= <-]. simpl. lia.
Qed.

(** Outside every container a tag that opens none is copied. *)
Lemma onTag_outside o tag tagText :
  (negb (closing tag) && negb (selfClosing tag)
   && (has (local tag) (map toLowerCase (richTextContainers o))
       || has (local tag) (map toLowerCase (inlineTextContainers o)))) = false ->
  onTag o tag tagText [] = (tagText, []).
Proof.
  intros H. unfold onTag.
  destruct (closing tag), (selfClosing tag); simpl in *; try done;
    by destruct (has _ _ || has _ _).
Qed.

Lemma streamLoop_identity o fuel s :
  length s <= fuel -> noContainerOpen o s = true -> streamLoop fuel o [] s = s.
Proof.
  revert s. induction fuel as [|f IH]; intros s Hf Hs.
  - by destruct s.
  - destruct s as [|ch r]; [done |]. pose proof Hs as Hall. simpl in Hf, Hs.
    apply andb_true_iff in Hs as [Hch Hr]. cbn [streamLoop].
    destruct (ch =? 60)%N eqn:Ech; simpl.
    + apply N.eqb_eq in Ech as ->. simpl in Hch.
      unfold opensContainer in Hch.
      destruct (parseTagDetailed r) as [tag|] eqn:Et.
      * apply negb_true_iff in Hch.
        rewrite (onTag_outside _ _ _ Hch).
        pose proof (parseTagDetailed_tend _ _ Et) as Hte.
        rewrite IH.
        -- apply take_drop.
        -- rewrite length_drop. simpl. lia.
        -- by apply noContainerOpen_drop.
      * simpl. f_equal. apply IH; [lia | done].
    + f_equal. apply IH; [lia | done].
Qed.

(** The container step leaves a text without an opening container tag
    as it is. *)
Lemma applyContainerPoliciesStream_identity o s :
  noContainerOpen o s = true -> applyContainerPoliciesStream s o = s.
Proof. intros H. by apply streamLoop_identity. Qed.

(** *** The white-space step is idempotent *)

Lemma spacesLoop_tagStart c r :
  isLikelyTagStart (c :: r) = true ->
  spacesLoop true None (c :: r) = c :: spacesLoop true None r.
Proof.
  simpl. intros H. unfold isLetter, isUpper, isLower in H.
  assert (Hc : (65 <= c <= 90 \/ 97 <= c <= 122 \/ c = 95 \/ c = 47 \/ c = 63)%N).
  { rewrite !orb_true_iff, !andb_true_iff, !N.leb_le, !N.eqb_eq in H. lia. }
  assert (H34 : (c =? 34)%N = false) by (apply N.eqb_neq; lia).
  assert (H39 : (c =? 39)%N = false) by (apply N.eqb_neq; lia).
  assert (H62 : (c =? 62)%N = false) by (apply N.eqb_neq; lia).
  rewrite H34, H39, H62. simpl.
  assert (Hu : isUnicodeSpaceInTag c = false).
  { unfold isUnicodeSpaceInTag.
    rewrite !orb_false_iff, !andb_false_iff, !N.leb_gt, !N.eqb_neq. lia. }
  assert (Hz : isZeroWidthMark c = false).
  { unfold isZeroWidthMark.
    rewrite !orb_false_iff, !andb_false_iff, !N.leb_gt, !N.eqb_neq. lia. }
  by rewrite Hu, Hz.
Qed.

Lemma spacesLoop_head inTag q r :
  (inTag = true -> isLikelyTagStart r = true) ->
  isLikelyTagStart (spacesLoop inTag q r) = isLikelyTagStart r.
Proof.
  intros H. destruct r as [|c r']; [done |].
  destruct inTag; [| done]. specialize (H eq_refl).
  destruct q as [q|]; [done |]. by rewrite spacesLoop_tagStart.
Qed.

Lemma spacesLoop_idem inTag quote s :
  spacesLoop inTag quote (spacesLoop inTag quote s) = spacesLoop inTag quote s.
Proof.
  revert inTag quote. induction s as [|ch r IH]; intros inTag quote; [done |].
  destruct inTag; cbn [spacesLoop negb].
  - destruct quote as [q|].
    + cbn [spacesLoop negb]. by rewrite IH.
    + destruct ((ch =? 34)%N || (ch =? 39)%N) eqn:Eq.
      { cbn [spacesLoop negb]. by rewrite Eq, IH. }
      destruct (ch =? 62)%N eqn:Eg.
      { cbn [spacesLoop negb]. by rewrite Eq, Eg, IH. }
      destruct (isUnicodeSpaceInTag ch) eqn:Eu.
      { cbn [spacesLoop negb]. simpl. by rewrite IH. }
      destruct (isZeroWidthMark ch) eqn:Ez; [apply IH |].
      cbn [spacesLoop negb]. by rewrite Eq, Eg, Eu, Ez, IH.
  - set (T := (ch =? 60)%N && isLikelyTagStart r).
    assert (HT : (ch =? 60)%N && isLikelyTagStart (spacesLoop T quote r) = T).
    { subst T. destruct (ch =? 60)%N; [| done]. simpl.
      apply spacesLoop_head. by intros ->. }
    cbn [spacesLoop negb]. by rewrite HT, IH.
Qed.

(** [normalizeUnicodeSpacesInsideTags] is idempotent. *)
Lemma normalizeUnicodeSpacesInsideTags_idem s :
  normalizeUnicodeSpacesInsideTags (normalizeUnicodeSpacesInsideTags s)
  = normalizeUnicodeSpacesInsideTags s.
Proof. apply spacesLoop_idem. Qed.
End ContainerFacts.

(** *** The entity step is idempotent *)

Module EntityIdem.
Import Sanitizer Entities EntityFacts EntityRefs.

Section Codes.
Context (named : list (str * JsNumber.t)).
Hypothesis Hcodes : Forall (fun kv => JsNumber.isShortInteger kv.2) named.

(** With integer codes in the table, what it answers for a name other
    than [constructor] is printed as digits. *)
Lemma entityCode_digits lower code :
  entityCode named lower = Some code -> lower <> lit "constructor" ->
  code <> [] /\ forallb isDigit code = true.
Proof.
  unfold entityCode. intros H Hne.
  destruct (Sanitizer.assoc lower named) as [n|] eqn:En.
  { inversion H; subst. apply JsNumberFacts.toString_short.
    apply (JsNumberFacts.assoc_Forall _ _ _ _ Hcodes En). }
  destruct (Sanitizer.assoc lower BUILTIN_ENTITIES) as [n|] eqn:Eb.
  { inversion H; subst. apply JsNumberFacts.toString_short.
    apply (JsNumberFacts.assoc_Forall _ _ _ _ JsNumberFacts.builtin_short Eb). }
  destruct (str_eqb lower (lit "constructor")) eqn:E; [| done].
  by apply str_eqb_true in E.
Qed.
End Codes.

Lemma lowerChar_idem c : lowerChar (lowerChar c) = lowerChar c.
Proof.
  unfold lowerChar, isUpper.
  destruct ((65 <=? c)%N && (c <=? 90)%N) eqn:E; [| by rewrite E].
  apply andb_true_iff in E as [H1 H2]. apply N.leb_le in H1, H2.
  assert (H : ((65 <=? c + 32)%N && (c + 32 <=? 90)%N) = false).
  { apply andb_false_iff. right. apply N.leb_gt. lia. }
  by rewrite H.
Qed.

Lemma toLowerCase_idem s : toLowerCase (toLowerCase s) = toLowerCase s.
Proof.
  unfold toLowerCase. rewrite map_map. apply map_ext. intros c. apply lowerChar_idem.
Qed.

Lemma lowerChar_letter c : isLetter c = true -> isLetter (lowerChar c) = true.
Proof.
  unfold lowerChar. destruct (isUpper c) eqn:E; [| done]. intros _.
  unfold isUpper in E. apply andb_true_iff in E as [H1 H2]. apply N.leb_le in H1, H2.
  unfold isLetter, isLower.
  apply orb_true_iff. right. apply andb_true_iff. split; apply N.leb_le; lia.
Qed.

Lemma lowerChar_alphaNum c : isAlphaNum c = true -> isAlphaNum (lowerChar c) = true.
Proof.
  unfold lowerChar. destruct (isUpper c) eqn:E; [| done]. intros _.
  unfold isUpper in E. apply andb_true_iff in E as [H1 H2]. apply N.leb_le in H1, H2.
  unfold isAlphaNum, isLower.
  assert (H : ((97 <=? c + 32)%N && (c + 32 <=? 122)%N) = true).
  { apply andb_true_iff. split; apply N.leb_le; lia. }
  rewrite H. by rewrite !orb_true_r.
Qed.

Lemma validName_lower name : validName name = true -> validName (toLowerCase name) = true.
Proof.
  destruct name as [|c name]; [done |]. simpl.
  rewrite !andb_true_iff. intros [Hc Hn]. split; [by apply lowerChar_letter |].
  rewrite forallb_forall in *. intros x Hx. apply in_map_iff in Hx as (y & <- & Hy).
  apply lowerChar_alphaNum. by apply Hn.
Qed.

Lemma prepend_prepend a b (r : result str) :
  prepend a (prepend b r) = prepend (a ++ b) r.
Proof. destruct r; simpl; [by rewrite app_assoc | done]. Qed.

Lemma refersTo_app target u s : refersTo target s -> refersTo target (u ++ s).
Proof.
  intros (pre & name & post & -> & Hv & Hl).
  exists (u ++ pre), name, post. by rewrite <- app_assoc.
Qed.

Section Idem.
Context (policy : EntityPolicy) (named : list (str * JsNumber.t)).
Hypothesis Hcodes : Forall (fun kv => JsNumber.isShortInteger kv.2) named.

Local Abbreviation E s := (normalizeEntitiesAndAmpersands s policy named).

Local Abbreviation loop := (fun s => normalizeEntitiesAndAmpersands s policy named).

Lemma E_plain u w : 38%N ∉ u -> E (u ++ w) = prepend u (E w).
Proof.
  induction u as [|c u IH]; intros Hu; simpl.
  - by destruct (E w).
  - change (E (c :: (u ++ w)) = prepend (c :: u) (E w)).
    rewrite E_cons.
    assert (Hc : (c =? 38)%N = false).
    { apply N.eqb_neq. intros ->. apply Hu. by left. }
    rewrite Hc. simpl. rewrite IH.
    + by rewrite (prepend_prepend [c] u).
    + intros Hin. apply Hu. by right.
Qed.

Lemma E_named name rest :
  validName name = true ->
  E (38%N :: name ++ 59%N :: rest) = EntityLoop.onAmp policy named (name ++ 59%N :: rest) loop.
Proof. intros Hv. by rewrite E_cons. Qed.

Lemma E_amp w : E (lit "&amp;" ++ w) = prepend (lit "&amp;") (E w).
Proof.
  change (lit "&amp;" ++ w) with (38%N :: lit "amp" ++ 59%N :: w).
  rewrite E_named by reflexivity. unfold EntityLoop.onAmp.
  rewrite scanAmp_valid by reflexivity. reflexivity.
Qed.

Lemma E_decimal digits w :
  digits <> [] -> forallb isDigit digits = true ->
  E (lit "&#" ++ digits ++ lit ";" ++ w) = prepend (lit "&#" ++ digits ++ lit ";") (E w).
Proof.
  intros Hne Hd.
  change (lit "&#" ++ digits ++ lit ";" ++ w) with (38%N :: (35%N :: digits ++ 59%N :: w)).
  rewrite E_cons. unfold EntityLoop.onAmp. by rewrite scanAmp_decimal.
Qed.

Lemma scanAmp_numeric_again r text rest w :
  scanAmp r = NumericRef text rest ->
  exists u, text = 38%N :: u /\ scanAmp (u ++ w) = NumericRef text w.
Proof.
  unfold scanAmp. destruct r as [|c r1]; [done |].
  destruct (N.eqb_spec c 35) as [-> | Hc].
  - destruct r1 as [|x r2].
    { simpl. done. }
    destruct ((x =? 120)%N || (x =? 88)%N) eqn:Ex; cbn iota beta.
    + pose proof (DtdParserFacts.takeWhile_dropWhile isHexDigit r2) as Htd.
      pose proof (DtdParserFacts.takeWhile_forall isHexDigit r2) as Htf.
      destruct (takeWhile isHexDigit r2) as [|d ds] eqn:Et; [done |].
      destruct (dropWhile isHexDigit r2) as [|y rest0] eqn:Ed; [done |].
      destruct (N.eqb_spec y 59) as [-> | Hy].
      * intros [= <- <-]. exists (35%N :: x :: (d :: ds) ++ [59%N]).
        split; [reflexivity |].
        replace ((35%N :: x :: (d :: ds) ++ [59%N]) ++ w)
          with (35%N :: x :: (d :: ds) ++ 59%N :: w)
          by (simpl; by rewrite <- app_assoc).
        apply scanAmp_hex; [| done | done].
        apply orb_true_iff in Ex as [Ex | Ex]; apply N.eqb_eq in Ex; auto.
      * destruct y as [|p]; [done |]. repeat (destruct p as [p | p |]; try done).
    + pose proof (DtdParserFacts.takeWhile_dropWhile isDigit (x :: r2)) as Htd.
      pose proof (DtdParserFacts.takeWhile_forall isDigit (x :: r2)) as Htf.
      destruct (takeWhile isDigit (x :: r2)) as [|d ds] eqn:Et; [done |].
      destruct (dropWhile isDigit (x :: r2)) as [|y rest0] eqn:Ed; [done |].
      destruct (N.eqb_spec y 59) as [-> | Hy].
      * intros [= <- <-]. exists (35%N :: (d :: ds) ++ [59%N]).
        split; [reflexivity |].
        replace ((35%N :: (d :: ds) ++ [59%N]) ++ w)
          with (35%N :: (d :: ds) ++ 59%N :: w)
          by (simpl; by rewrite <- app_assoc).
        by apply scanAmp_decimal.
      * destruct y as [|p]; [done |]. repeat (destruct p as [p | p |]; try done).
  - replace (match c with 35%N => _ | _ => _ end)
      with (if isLetter c
            then match dropWhile isAlphaNum r1 with
                 | 59%N :: rest => NamedRef (c :: takeWhile isAlphaNum r1) rest
                 | _ => BareAmp
                 end
            else BareAmp).
    + destruct (isLetter c); [| done].
      destruct (dropWhile isAlphaNum r1) as [|x rest0]; [done |].
      destruct x as [|p]; [done |]. repeat (destruct p as [p | p |]; try done).
    + destruct c as [|p]; [done |]. repeat (destruct p as [p | p |]; try done).
Qed.

(** Running the entity step on its own output changes nothing, when
    no reference resolves through an inherited member of the table. *)
Lemma E_idem s w :
  ~ refersTo (lit "constructor") s -> E s = Ok w -> E w = Ok w.
Proof.
  remember (length s) as n eqn:Hn. revert s w Hn.
  induction n as [n IH] using lt_wf_ind. intros s w Hn Hno Hs.
  destruct s as [|ch r]; [by inversion Hs |].
  simpl in Hn. rewrite E_cons in Hs.
  assert (Hstep : forall out rest,
            length rest < n ->
            ~ refersTo (lit "constructor") rest ->
            prepend out (E rest) = Ok w ->
            (forall w', E (out ++ w') = prepend out (E w')) ->
            E w = Ok w).
  { intros out rest Hl Hnr Hout Hagain.
    destruct (E rest) as [w' |] eqn:Er; [| done]. simpl in Hout.
    inversion Hout; subst w. rewrite Hagain.
    by rewrite (IH (length rest) Hl rest w' eq_refl Hnr Er). }
  destruct (negb (ch =? 38)%N) eqn:Ech.
  - apply (Hstep [ch] r); [lia | | done |].
    + intros H. apply Hno. by apply (refersTo_app _ [ch]).
    + intros w'. change ([ch] ++ w') with (ch :: w'). rewrite E_cons. by rewrite Ech.
  - apply negb_false_iff, N.eqb_eq in Ech as ->.
    unfold EntityLoop.onAmp in Hs.
    destruct (scanAmp r) as [text rest | name rest |] eqn:Es.
    + destruct (scanAmp_numeric _ _ _ Es) as (u & Ht & Hr & _).
      apply (Hstep text rest); [subst; rewrite length_app; lia | | done |].
      * intros H. apply Hno. subst r. by apply (refersTo_app _ (38%N :: u)).
      * intros w'. destruct (scanAmp_numeric_again _ _ _ w' Es) as (u' & Hu' & Hsc).
        rewrite Hu'. change ((38%N :: u') ++ w') with (38%N :: (u' ++ w')).
        rewrite E_cons. simpl. unfold EntityLoop.onAmp. by rewrite Hsc, <- Hu'.
    + destruct (scanAmp_named _ _ _ Es) as (Hr & Hv & Hamp).
      assert (Hl : length rest < n) by (subst; rewrite length_app; simpl; lia).
      assert (Hnr : ~ refersTo (lit "constructor") rest).
      { intros H. apply Hno. subst r.
        replace (38%N :: name ++ 59%N :: rest) with ((38%N :: name ++ [59%N]) ++ rest)
          by (simpl; by rewrite <- app_assoc).
        by apply refersTo_app. }
      assert (Hlower : toLowerCase name <> lit "constructor").
      { intros Hc. apply Hno. exists [], name, rest. subst r. done. }
      destruct (has (toLowerCase name) XML5) eqn:Ex.
      * apply (Hstep _ rest Hl Hnr Hs). intros w'.
        change ((lit "&" ++ toLowerCase name ++ lit ";") ++ w')
          with (38%N :: (toLowerCase name ++ lit ";") ++ w').
        rewrite <- app_assoc. simpl.
        rewrite E_named by (by apply validName_lower).
        unfold EntityLoop.onAmp. rewrite scanAmp_valid by (by apply validName_lower).
        cbn zeta. by rewrite toLowerCase_idem, Ex.
      * destruct (entityCode named (toLowerCase name)) as [code|] eqn:Ec.
        -- destruct (entityCode_digits named Hcodes _ _ Ec Hlower) as [Hne Hd].
           apply (Hstep _ rest Hl Hnr Hs). intros w'.
           rewrite <- (E_decimal code w' Hne Hd). by rewrite <- !app_assoc.
        -- assert (Hs' : prepend (lit "&amp;" ++ name ++ lit ";") (E rest) = Ok w)
             by (by destruct policy).
           apply (Hstep _ rest Hl Hnr Hs'). intros w'.
           replace ((lit "&amp;" ++ name ++ lit ";") ++ w')
             with (lit "&amp;" ++ (name ++ [59%N]) ++ w')
             by (by rewrite <- !app_assoc).
           rewrite E_amp, E_plain by done.
           by rewrite prepend_prepend.
    + apply (Hstep (lit "&amp;") r); [lia | | done | apply E_amp].
      intros H. apply Hno. by apply (refersTo_app _ [38%N]).
Qed.
End Idem.
End EntityIdem.


(** A reference named [constructor] is rewritten with the text of the
    inherited member, and a second pass escapes the ampersand of that
    text: on such a document sanitizing twice is not sanitizing once. *)
Lemma constructor_reference_is_rewritten_twice :
  Sanitizer.preSanitize (lit "<r>&constructor;</r>") Sanitizer.DEFAULTS
  = Ok (lit "<r>&#function Object() { [native code] };</r>")
  /\ Sanitizer.preSanitize (lit "<r>&#function Object() { [native code] };</r>")
       Sanitizer.DEFAULTS
     = Ok (lit "<r>&amp;#function Object() { [native code] };</r>").
Proof. split; vm_compute; reflexivity. Qed.

(** * Further properties of the code *)

(** ** The DTD validator on whole documents *)

Module DtdWalkFacts.
Import Dtd Document.

Lemma Node_ind' (P : Node -> Prop) :
  (forall nm a cs, Forall P cs -> P (Element nm a cs)) ->
  (forall v, P (Text v)) -> P Other ->
  forall n, P n.
Proof.
  intros He Ht Ho. fix IH 1. intros [nm a cs | v |].
  - apply He. induction cs as [|c cs IHc]; constructor; [apply IH | exact IHc].
  - apply Ht.
  - apply Ho.
Qed.

(** What [walk] pushes for the element itself. *)
Local Abbreviation own dtd el here :=
  (match dtd_elements dtd !! localName (el_name el) with
   | None =>
       [{| path := here;
           msg := lit "Element <" ++ localName (el_name el) ++ lit "> not declared in DTD" |}]
   | Some def => validateAttrs el def here ++ validateChildren el def here
   end).

Local Abbreviation hereOf el path_ :=
  (match path_ with
   | [] => lit "/" ++ localName (el_name el)
   | _ => path_ ++ lit "/" ++ localName (el_name el)
   end)%list.

Lemma walk_eq r dtd el path_ :
  walk r dtd el path_
  = (if is_nil path_ && negb (str_eqb (localName (el_name el)) r)
     then [{| path := hereOf el path_; msg := lit "Root must be <" ++ r ++ lit ">" |}]
     else [])
    ++ own dtd el (hereOf el path_)
    ++ flat_map (fun k => walk r dtd k (hereOf el path_)) (childElements el).
Proof.
  destruct el as [nm a cs | v |]; [| reflexivity | reflexivity].
  cbn [walk]. do 2 f_equal.
  unfold childElements. cbn [el_children].
  induction cs as [|c cs IH]; [reflexivity |].
  destruct c as [nm' a' cs' | v |].
  - rewrite filter_cons_True by done. cbn [flat_map]. exact (f_equal (app _) IH).
  - rewrite filter_cons_False by done. exact IH.
  - rewrite filter_cons_False by done. exact IH.
Qed.

Lemma hereOf_nonempty el path_ : hereOf el path_ <> [].
Proof. destruct path_; simpl; discriminate. Qed.

Lemma flat_map_nil {A B} (f : A -> list B) (l : list A) :
  flat_map f l = [] <-> forall x, x ∈ l -> f x = [].
Proof.
  induction l as [|x l IH]; simpl.
  - split; [intros _ x Hx; by apply elem_of_nil in Hx | done].
  - split.
    + intros H. apply app_eq_nil in H as [H1 H2]. intros y Hy.
      apply elem_of_cons in Hy as [-> | Hy]; [done | by apply IH].
    + intros H. rewrite (H x) by left. simpl. apply IH. intros y Hy. apply H. by right.
Qed.

Lemma omap_nil {A B} (g : A -> option B) (l : list A) :
  omap g l = [] <-> forall x, x ∈ l -> g x = None.
Proof.
  split.
  - intros H x Hx. destruct (g x) as [y|] eqn:E; [| done].
    assert (Hy : y ∈ omap g l) by (apply list_elem_of_omap; eauto).
    rewrite H in Hy. by apply elem_of_nil in Hy.
  - intros H. destruct (omap g l) as [|y ys] eqn:E; [done |].
    assert (Hy : y ∈ omap g l) by (rewrite E; left).
    apply list_elem_of_omap in Hy as (x0 & Hx & Hg). by rewrite H in Hg.
Qed.

(** Whether a check finds something does not depend on the path. *)
Lemma validateAttrs_nil_path el def h h' :
  validateAttrs el def h = [] -> validateAttrs el def h' = [].
Proof.
  unfold validateAttrs. intros H. apply app_eq_nil in H as [H1 H2].
  apply app_nil. split.
  - rewrite flat_map_nil in H1 |- *. intros [a v] Hin. specialize (H1 _ Hin).
    cbn beta iota in H1 |- *.
    destruct (ignoredAttr a); [done |].
    destruct (assoc a (de_attrs def)) as [decl|]; [| done].
    unfold validateAttrValue in *. apply app_eq_nil in H1 as [Ht Hd].
    apply app_nil. split.
    + destruct (da_type decl); try done. by destruct (has _ _).
    + destruct (da_defaultDecl decl); try done. by destruct (str_eqb _ _).
  - rewrite omap_nil in H2 |- *. intros req Hin. specialize (H2 _ Hin).
    cbn beta in H2 |- *. by destruct (attr_in _ _).
Qed.

Lemma validateChildren_nil_path el def h h' :
  validateChildren el def h = [] -> validateChildren el def h' = [].
Proof.
  unfold validateChildren.
  destruct (de_content def) as [| | model].
  - done.
  - intros H. apply app_eq_nil in H as [H1 H2]. apply app_nil.
    split; [by destruct (is_nil _) | by destruct (isSome _)].
  - destruct (isPcdataOnly model); [by destruct (is_nil _) |].
    destruct (getMixedAllowedNames model) as [mixed|].
    + rewrite !omap_nil. intros H c Hc. specialize (H c Hc). cbn beta in H |- *.
      by destruct (has c mixed).
    + intros H. apply app_eq_nil in H as [H1 H2]. apply app_nil.
      split; [by destruct (isSome _) | by destruct (matchesDtdModel _ _)].
Qed.

Lemma own_nil dtd el here : own dtd el here = [] <-> dtdLocalOk dtd el.
Proof.
  unfold dtdLocalOk. destruct (dtd_elements dtd !! localName (el_name el)) as [def|].
  - split.
    + intros H. apply app_eq_nil in H as [Ha Hc]. exists def. split; [done |].
      split.
      * by apply (validateAttrs_nil_path el def here).
      * by apply (validateChildren_nil_path el def here).
    + intros (def' & [= <-] & Ha & Hc).
      rewrite (validateAttrs_nil_path el def [] here Ha).
      by rewrite (validateChildren_nil_path el def [] here Hc).
  - split; [done | intros (def & H & _); done].
Qed.

Lemma childElements_elem k el :
  k ∈ childElements el <-> k ∈ el_children el /\ is_element k = true.
Proof. unfold childElements. rewrite list_elem_of_filter. tauto. Qed.

Lemma subElement_inv el' el :
  subElement el' el <->
  el' = el \/ exists k, k ∈ childElements el /\ subElement el' k.
Proof.
  split.
  - intros H. destruct H as [| nm a cs k Hk He Hs]; [by left |].
    right. exists k. split; [| done]. apply childElements_elem. by split.
  - intros [-> | (k & Hk & Hs)]; [constructor |].
    apply childElements_elem in Hk as [Hk He].
    destruct el as [nm a cs | v |]; simpl in Hk; try by apply elem_of_nil in Hk.
    by apply (sub_child _ nm a cs k).
Qed.

Lemma walk_below_nil r dtd el path_ :
  path_ <> [] ->
  walk r dtd el path_ = [] <-> forall el', subElement el' el -> dtdLocalOk dtd el'.
Proof.
  revert path_. induction el as [nm a cs IH | v |] using Node_ind'; intros path_ Hp.
  - rewrite walk_eq.
    assert (Hroot : is_nil path_ = false) by (by destruct path_).
    rewrite Hroot. cbn [andb app].
    split.
    + intros H. apply app_eq_nil in H as [Hown Hkids].
      apply own_nil in Hown. rewrite flat_map_nil in Hkids.
      intros el' Hs. apply subElement_inv in Hs as [-> | (k & Hk & Hs)]; [done |].
      specialize (Hkids k Hk).
      apply childElements_elem in Hk as [Hin _]. cbn [el_children] in Hin.
      rewrite Forall_forall in IH.
      by apply (IH k Hin _ (hereOf_nonempty (Element nm a cs) path_)).
    + intros H. apply app_nil. split.
      * apply own_nil. apply H. constructor.
      * apply flat_map_nil. intros k Hk.
        pose proof Hk as Hk'.
        apply childElements_elem in Hk' as [Hin _]. cbn [el_children] in Hin.
        rewrite Forall_forall in IH.
        apply (IH k Hin _ (hereOf_nonempty (Element nm a cs) path_)).
        intros el' Hs. apply H. apply subElement_inv. right. by exists k.
  - rewrite walk_eq. assert (Hroot : is_nil path_ = false) by (by destruct path_).
    rewrite Hroot. cbn [andb app].
    change (childElements (Text v)) with (@nil Node). cbn [flat_map].
    rewrite app_nil_r. rewrite own_nil. split.
    + intros H el' Hs. apply subElement_inv in Hs as [-> | (k & Hk & _)]; [done |].
      by apply elem_of_nil in Hk.
    + intros H. apply H. constructor.
  - rewrite walk_eq. assert (Hroot : is_nil path_ = false) by (by destruct path_).
    rewrite Hroot. cbn [andb app].
    change (childElements Other) with (@nil Node). cbn [flat_map].
    rewrite app_nil_r. rewrite own_nil. split.
    + intros H el' Hs. apply subElement_inv in Hs as [-> | (k & Hk & _)]; [done |].
      by apply elem_of_nil in Hk.
    + intros H. apply H. constructor.
Qed.

Lemma walk_root_nil r dtd root :
  walk r dtd root [] = [] <->
  localName (el_name root) = r /\ forall el', subElement el' root -> dtdLocalOk dtd el'.
Proof.
  rewrite walk_eq. cbn [is_nil andb].
  split.
  - intros H. apply app_eq_nil in H as [Hr H]. apply app_eq_nil in H as [Hown Hkids].
    split.
    + destruct (str_eqb (localName (el_name root)) r) eqn:E; [by apply str_eqb_true | done].
    + apply own_nil in Hown. rewrite flat_map_nil in Hkids.
      intros el' Hs. apply subElement_inv in Hs as [-> | (k & Hk & Hs)]; [done |].
      by apply (walk_below_nil r dtd k _ (hereOf_nonempty root [])); [apply Hkids |].
  - intros [Hr H]. apply str_eqb_true in Hr. rewrite Hr. cbn [negb app].
    apply app_nil. split.
    + apply own_nil. apply H. constructor.
    + apply flat_map_nil. intros k Hk.
      apply (walk_below_nil r dtd k _ (hereOf_nonempty root [])).
      intros el' Hs. apply H. apply subElement_inv. right. by exists k.
Qed.

End DtdWalkFacts.

(** ** Content models and the names in them *)

Module DtdModelFacts.
Import Dtd DtdSemantics DtdMatcherFacts.

Local Abbreviation collectNames := DtdIndexBuilder.collectNames.

Local Abbreviation mixedGo :=
  (fix go (its : list DtdContentModel) (hasPcdata : bool) (names : list str)
     : option (list str) :=
     match its with
     | [] => if hasPcdata then Some names else None
     | PCDATA One :: rest => go rest true names
     | NAME nm One :: rest => go rest hasPcdata (set_add nm names)
     | _ => None
     end).

Lemma mixedGo_spec items hasPcdata names :
  Forall (fun it => it = PCDATA One \/ exists n, it = NAME n One) items ->
  (hasPcdata = true \/ PCDATA One ∈ items) ->
  exists ns,
    mixedGo items hasPcdata names = Some ns
    /\ forall c, c ∈ ns <-> c ∈ names \/ NAME c One ∈ items.
Proof.
  intros Hshape. revert hasPcdata names.
  induction Hshape as [|it items Hit _ IH]; intros hasPcdata names Hp.
  - destruct Hp as [-> | Hp]; [| by apply elem_of_nil in Hp].
    exists names. split; [done |]. intros c. rewrite elem_of_nil. tauto.
  - destruct Hit as [-> | [n ->]].
    + destruct (IH true names (or_introl eq_refl)) as (ns & Hgo & Hns).
      exists ns. split; [exact Hgo |]. intros c. rewrite Hns, elem_of_cons.
      split; [tauto | intros [? | [? | ?]]; [tauto | done | tauto]].
    + destruct (IH hasPcdata (set_add n names)) as (ns & Hgo & Hns).
      { destruct Hp as [? | Hp]; [by left |]. right.
        apply elem_of_cons in Hp as [? | ?]; [done | done]. }
      exists ns. split; [exact Hgo |]. intros c.
      rewrite Hns, set_add_elem, elem_of_cons.
      split.
      * intros [[-> | ?] | ?]; [right; by left | by left | right; by right].
      * intros [? | [[= ->] | ?]]; [left; by right | left; by left | by right].
Qed.

Lemma validateChildren_mixed el def here items :
  de_content def = ContentModel (CHOICE items Star) ->
  Forall (fun it => it = PCDATA One \/ exists n, it = NAME n One) items ->
  PCDATA One ∈ items ->
  validateChildren el def here = [] <->
  forall c, c ∈ kidNamesOf el -> NAME c One ∈ items.
Proof.
  intros Hc Hshape Hp. unfold validateChildren. rewrite Hc.
  cbn [isPcdataOnly].
  destruct (mixedGo_spec items false [] Hshape (or_intror Hp)) as (ns & Hgo & Hns).
  change (getMixedAllowedNames (CHOICE items Star)) with (mixedGo items false []).
  rewrite Hgo. rewrite DtdWalkFacts.omap_nil.
  split.
  - intros H c Hin. specialize (H c Hin). cbn beta in H.
    destruct (has c ns) eqn:E; [| done].
    apply has_true, Hns in E as [E | E]; [by apply elem_of_nil in E | done].
  - intros H c Hin. cbn beta.
    assert (E : has c ns = true) by (apply has_true, Hns; right; by apply H).
    by rewrite E.
Qed.

Local Abbreviation eachNames :=
  (fix each (its : list DtdContentModel) (out : list str) : list str :=
     match its with
     | [] => out
     | it :: rest => each rest (collectNames it out)
     end).

Lemma eachNames_elem its :
  Forall (fun it => forall out x,
            x ∈ collectNames it out <-> x ∈ out \/ x ∈ collectNames it []) its ->
  forall out x,
    x ∈ eachNames its out <->
    x ∈ out \/ exists it, it ∈ its /\ x ∈ collectNames it [].
Proof.
  induction 1 as [|it its Hit _ IH]; intros out x.
  - split; [by left | intros [? | (it & Hin & _)]; [done | by apply elem_of_nil in Hin]].
  - change (eachNames (it :: its) out) with (eachNames its (collectNames it out)).
    rewrite IH, Hit. split.
    + intros [[? | ?] | (it' & Hin & Hx)].
      * by left.
      * right. exists it. split; [left | done].
      * right. exists it'. split; [by right | done].
    + intros [? | (it' & Hin & Hx)]; [left; by left |].
      apply elem_of_cons in Hin as [-> | Hin]; [left; by right |].
      right. by exists it'.
Qed.

Lemma collectNames_elem m :
  forall out x, x ∈ collectNames m out <-> x ∈ out \/ x ∈ collectNames m [].
Proof.
  induction m as [n o | o | items o IH | items o IH] using DtdContentModel_rect';
    intros out x.
  - cbn [collectNames]. rewrite !set_add_elem, elem_of_nil. tauto.
  - cbn [collectNames]. rewrite elem_of_nil. tauto.
  - change (collectNames (SEQ items o) out) with (eachNames items out).
    change (collectNames (SEQ items o) []) with (eachNames items []).
    rewrite !(eachNames_elem items IH), elem_of_nil. tauto.
  - change (collectNames (CHOICE items o) out) with (eachNames items out).
    change (collectNames (CHOICE items o) []) with (eachNames items []).
    rewrite !(eachNames_elem items IH), elem_of_nil. tauto.
Qed.

Lemma collectNames_items items o x :
  (x ∈ collectNames (SEQ items o) [] <->
   exists it, it ∈ items /\ x ∈ collectNames it [])
  /\ (x ∈ collectNames (CHOICE items o) [] <->
      exists it, it ∈ items /\ x ∈ collectNames it []).
Proof.
  assert (H : Forall (fun it => forall out x,
                x ∈ collectNames it out <-> x ∈ out \/ x ∈ collectNames it []) items).
  { apply Forall_forall. intros it _. apply collectNames_elem. }
  split.
  - change (collectNames (SEQ items o) []) with (eachNames items []).
    rewrite (eachNames_elem items H), elem_of_nil. tauto.
  - change (collectNames (CHOICE items o) []) with (eachNames items []).
    rewrite (eachNames_elem items H), elem_of_nil. tauto.
Qed.

Section Covered.
Context (children : list str).

(** Every child from position [p] up to [e] has one of the names [S]. *)
Local Abbreviation covered S p e :=
  (p <= e /\ forall i, p <= i < e -> exists c, children !! i = Some c /\ c ∈ S).

Lemma iter_covered (R : nat -> nat -> Prop) (S : list str) :
  (forall p e, R p e -> covered S p e) ->
  forall k p e, iter R k p e -> covered S p e.
Proof.
  intros HR. induction k as [|k IH]; intros p e; simpl.
  - intros ->. split; [lia | intros i Hi; lia].
  - intros (q & Hq & H). apply HR in Hq as [Hq1 Hq2]. apply IH in H as [H1 H2].
    split; [lia |]. intros i Hi.
    destruct (decide (i < q)); [apply Hq2 | apply H2]; lia.
Qed.

Lemma chain_covered (rec : DtdContentModel -> nat -> nat -> Prop) (S : list str) its :
  Forall (fun it => forall p e, rec it p e -> covered S p e) its ->
  forall p e, chain rec its p e -> covered S p e.
Proof.
  induction 1 as [|it its Hit _ IH]; intros p e; simpl.
  - intros ->. split; [lia | intros i Hi; lia].
  - intros (q & Hq & H). apply Hit in Hq as [Hq1 Hq2]. apply IH in H as [H1 H2].
    split; [lia |]. intros i Hi.
    destruct (decide (i < q)); [apply Hq2 | apply H2]; lia.
Qed.

Lemma alt_covered (rec : DtdContentModel -> nat -> nat -> Prop) (S : list str) its :
  Forall (fun it => forall p e, rec it p e -> covered S p e) its ->
  forall p e, alt rec its p e -> covered S p e.
Proof.
  induction 1 as [|it its Hit _ IH]; intros p e; simpl; [done |].
  intros [H | H]; [by apply Hit | by apply IH].
Qed.

Lemma reach_covered m p e :
  reach children m p e -> covered (collectNames m []) p e.
Proof.
  revert p e.
  induction m as [n o | o | items o IH | items o IH] using DtdContentModel_rect';
    intros p e; rewrite reach_unfold; intros (k & _ & H); revert k p e H;
    apply iter_covered; intros p e; cbn [reachOnce].
  - intros [Hc ->]. split; [lia |]. intros i Hi. exists n.
    replace i with p by lia. split; [done |]. cbn [collectNames].
    apply set_add_elem. by left.
  - intros ->. split; [lia | intros i Hi; lia].
  - apply chain_covered. apply Forall_forall. intros it Hin p' e' Hr.
    rewrite Forall_forall in IH. destruct (IH it Hin p' e' Hr) as [H1 H2].
    split; [done |]. intros i Hi. destruct (H2 i Hi) as (c & Hc & Hn).
    exists c. split; [done |]. apply (collectNames_items items o c). by exists it.
  - apply alt_covered. apply Forall_forall. intros it Hin p' e' Hr.
    rewrite Forall_forall in IH. destruct (IH it Hin p' e' Hr) as [H1 H2].
    split; [done |]. intros i Hi. destruct (H2 i Hi) as (c & Hc & Hn).
    exists c. split; [done |]. apply (collectNames_items items o c). by exists it.
Qed.
End Covered.

Lemma matchesDtdModel_names children model :
  matchesDtdModel children model = true ->
  forall c, c ∈ children -> c ∈ collectNames model [].
Proof.
  intros H c Hc. apply matchesDtdModel_reach in H.
  apply reach_covered in H as [_ H].
  apply list_elem_of_lookup in Hc as [i Hi].
  destruct (H i) as (c' & Hc' & Hn).
  { split; [lia |]. by apply lookup_lt_Some in Hi. }
  congruence.
Qed.

End DtdModelFacts.

(** X1. [validateAgainstDtd] returns exactly when the root element has
    the expected local name and every element of the tree is declared
    in the DTD and passes its own attribute and children checks: no
    element is skipped, and a violation anywhere makes it throw. *)
Theorem X1_dtd_returns_iff_every_element_ok root expectedRoot dtd :
  Dtd.validateAgainstDtd root expectedRoot dtd = Returns <->
  localName (el_name root) = expectedRoot
  /\ forall el, Document.subElement el root -> Document.dtdLocalOk dtd el.
Proof.
  rewrite <- DtdWalkFacts.walk_root_nil. unfold Dtd.validateAgainstDtd.
  by destruct (Dtd.walk expectedRoot dtd root []).
Qed.

(** X2. For an element declared with a mixed model, a starred choice of
    [#PCDATA] and names, the children check finds nothing exactly when
    every child element bears one of the names; their order and number
    and any text between them do not matter. *)
Theorem X2_dtd_mixed_content_children el def here items :
  de_content def = ContentModel (CHOICE items Star) ->
  Forall (fun it => it = PCDATA One \/ exists n, it = NAME n One) items ->
  PCDATA One ∈ items ->
  Dtd.validateChildren el def here = [] <->
  forall c, c ∈ Dtd.kidNamesOf el -> NAME c One ∈ items.
Proof. apply DtdModelFacts.validateChildren_mixed. Qed.

Lemma X2_witness :
  Dtd.validateChildren sample_mixedEl sample_mixedDef [] = [] <->
  forall c, c ∈ Dtd.kidNamesOf sample_mixedEl -> NAME c One ∈ sample_mixedItems.
Proof.
  apply (X2_dtd_mixed_content_children sample_mixedEl sample_mixedDef []
           sample_mixedItems).
  - reflexivity.
  - constructor; [by left |].
    constructor; [right; by eexists |].
    constructor; [right; by eexists |]. constructor.
  - left.
Defined.

(** X3. Children that match a content model bear only names that occur
    in the model: they are all in the set of allowed children that the
    index builder derives from it. *)
Theorem X3_dtd_matched_children_are_allowed children model :
  Dtd.matchesDtdModel children model = true ->
  exists names,
    DtdIndexBuilder.deriveAllowedChildren (ContentModel model) = AllowedSet names
    /\ forall c, c ∈ children -> c ∈ names.
Proof.
  intros H. exists (DtdIndexBuilder.collectNames model []). split; [reflexivity |].
  by apply DtdModelFacts.matchesDtdModel_names.
Qed.

Lemma X3_witness :
  Dtd.matchesDtdModel [lit "a"; lit "b"; lit "b"] model_abc = true
  /\ exists names,
       DtdIndexBuilder.deriveAllowedChildren (ContentModel model_abc) = AllowedSet names
       /\ forall c, c ∈ [lit "a"; lit "b"; lit "b"] -> c ∈ names.
Proof.
  split; [reflexivity |].
  apply (X3_dtd_matched_children_are_allowed [lit "a"; lit "b"; lit "b"] model_abc).
  reflexivity.
Defined.

(** ** Masking and restoring protected segments *)

Module MaskFacts.
Import Sanitizer.

Lemma indexOf_aux_spec s pat i j :
  indexOf_aux s pat i = Some j ->
  exists k, j = i + k /\ k <= length s /\ startsWith (drop k s) pat = true
            /\ forall k', k' < k -> startsWith (drop k' s) pat = false.
Proof.
  revert i. induction s as [|c s IH]; intros i; cbn [indexOf_aux].
  - destruct pat; simpl; [| done]. intros H. inversion H; subst. exists 0.
    split; [lia |]. split; [simpl; lia |]. split; [done |]. intros k' Hk; lia.
  - destruct (startsWith (c :: s) pat) eqn:E.
    + intros H. inversion H; subst. exists 0.
      split; [lia |]. split; [simpl; lia |]. split; [done |]. intros k' Hk; lia.
    + intros H. apply IH in H as (k & -> & Hk & Hs & Hmin).
      exists (S k). split; [lia |]. split; [simpl; lia |]. split; [done |].
      intros [|k'] Hk'; [done | apply Hmin; lia].
Qed.

Lemma indexOf_zero s pat j :
  indexOf s pat 0 = Some j ->
  j <= length s /\ startsWith (drop j s) pat = true
  /\ forall k', k' < j -> startsWith (drop k' s) pat = false.
Proof.
  unfold indexOf. rewrite drop_0. simpl. intros H.
  apply indexOf_aux_spec in H as (k & -> & H). exact H.
Qed.

Lemma indexOf_from s pat from j :
  indexOf s pat from = Some j -> Nat.min from (length s) <= j.
Proof.
  unfold indexOf. intros H. apply indexOf_aux_spec in H as (k & -> & _). lia.
Qed.

Lemma indexOf_lt s j :
  indexOf s (lit "<") 0 = Some j -> exists r, drop j s = 60%N :: r.
Proof.
  intros H. apply indexOf_zero in H as (_ & Hs & _).
  destruct (drop j s) as [|c r]; [done |].
  change (lit "<") with [60%N] in Hs. cbn [startsWith] in Hs.
  destruct (N.eqb_spec 60 c) as [<- | ?]; [by exists r | done].
Qed.

Lemma protectedSegment_pos r n : protectedSegment r = Some n -> 1 <= n.
Proof.
  unfold protectedSegment.
  destruct (startsWith r (lit "<![CDATA[")).
  { destruct (indexOf r (lit "]]>") 9) as [e|]; [intros [= <-]; lia |].
    destruct (startsWith r (lit "<?")).
    { destruct (indexOf r (lit "?>") 2) as [e|]; [intros [= <-]; lia |].
      destruct (startsWith r (lit "<!--")); [| done].
      destruct (indexOf r (lit "-->") 4) as [e|]; [intros [= <-]; lia | done]. }
    destruct (startsWith r (lit "<!--")); [| done].
    destruct (indexOf r (lit "-->") 4) as [e|]; [intros [= <-]; lia | done]. }
  destruct (startsWith r (lit "<?")).
  { destruct (indexOf r (lit "?>") 2) as [e|]; [intros [= <-]; lia |].
    destruct (startsWith r (lit "<!--")); [| done].
    destruct (indexOf r (lit "-->") 4) as [e|]; [intros [= <-]; lia | done]. }
  destruct (startsWith r (lit "<!--")); [| done].
  destruct (indexOf r (lit "-->") 4) as [e|]; [intros [= <-]; lia | done].
Qed.

(** *** Decimal numerals *)

Lemma foldl_digits v b :
  foldl (fun acc d => 10 * acc + N.to_nat (d - 48)) v b
  = v * 10 ^ length b + foldl (fun acc d => 10 * acc + N.to_nat (d - 48)) 0 b.
Proof.
  revert v. induction b as [|d b IH]; intros v; cbn [foldl length].
  - simpl. lia.
  - rewrite (IH (10 * v + _)), (IH (10 * 0 + _)), Nat.pow_succ_r'. nia.
Qed.

Lemma digitsValue_app a b :
  digitsValue (a ++ b) = digitsValue a * 10 ^ length b + digitsValue b.
Proof. unfold digitsValue. rewrite foldl_app. apply foldl_digits. Qed.

Lemma pretty_N_char_value x :
  (x < 10)%N -> (N_of_ascii (pretty_N_char x) - 48)%N = x.
Proof.
  intros H.
  assert (x = 0 \/ x = 1 \/ x = 2 \/ x = 3 \/ x = 4 \/ x = 5 \/ x = 6 \/ x = 7
          \/ x = 8 \/ x = 9)%N as Hx by lia.
  repeat (destruct Hx as [-> | Hx]; [reflexivity |]). by subst.
Qed.

Lemma digitsValue_cons d l :
  digitsValue (d :: l) = N.to_nat (d - 48) * 10 ^ length l + digitsValue l.
Proof.
  change (d :: l) with ([d] ++ l). rewrite digitsValue_app.
  unfold digitsValue at 1. simpl. lia.
Qed.

Lemma digitsValue_pretty_go x (t : string) :
  digitsValue (lit (pretty_N_go x t))
  = N.to_nat x * 10 ^ length (lit t) + digitsValue (lit t).
Proof.
  revert t. induction (N.lt_wf_0 x) as [x _ IH]; intros t.
  assert (x = 0 \/ 0 < x)%N as [-> | Hx] by lia.
  - rewrite pretty_N_go_0. simpl. lia.
  - rewrite pretty_N_go_step by done.
    rewrite IH by (by apply N.div_lt).
    change (lit (String (pretty_N_char (x `mod` 10)) t))
      with (N_of_ascii (pretty_N_char (x `mod` 10)) :: lit t).
    rewrite digitsValue_cons, pretty_N_char_value by (by apply N.mod_lt).
    cbn [length]. rewrite Nat.pow_succ_r'.
    pose proof (N.div_mod x 10 ltac:(done)) as Hdm.
    assert (Hn : N.to_nat x = 10 * N.to_nat (x `div` 10) + N.to_nat (x `mod` 10)) by lia.
    rewrite Hn. generalize (10 ^ length (lit t)). intros P. nia.
Qed.

Lemma digitsValue_showNat k : digitsValue (showNat k) = k.
Proof.
  unfold showNat, pretty, pretty_nat, pretty, pretty_N.
  destruct (decide (N.of_nat k = 0%N)) as [H | H].
  - assert (k = 0) as -> by lia. reflexivity.
  - rewrite digitsValue_pretty_go. change (lit "") with (@nil N).
    rewrite Nat2N.id. unfold digitsValue. cbn [length foldl Nat.pow]. lia.
Qed.

Lemma showNat_digits k : showNat k <> [] /\ forallb isDigit (showNat k) = true.
Proof. apply JsNumberFacts.pretty_N_digits. Qed.

(** *** Tokens *)

Lemma startsWith_nil s : startsWith s [] = true.
Proof. by destruct s. Qed.

Lemma startsWith_prefix p r : startsWith (p ++ r) p = true.
Proof.
  induction p as [|c p IH]; [apply startsWith_nil |].
  simpl. by rewrite N.eqb_refl.
Qed.

Lemma tokenAt_token k out : tokenAt (token k ++ out) = Some (k, out).
Proof.
  destruct (showNat_digits k) as [Hne Hd].
  unfold tokenAt, token.
  replace (([0%N] ++ lit "__HOLE_" ++ showNat k ++ lit "__" ++ [0%N]) ++ out)
    with (([0%N] ++ lit "__HOLE_") ++ showNat k ++ 95%N :: (lit "_" ++ [0%N]) ++ out)
    by (by rewrite <- !app_assoc).
  rewrite startsWith_prefix.
  change (drop 8 (([0%N] ++ lit "__HOLE_") ++ showNat k ++ 95%N :: (lit "_" ++ [0%N]) ++ out))
    with (showNat k ++ 95%N :: (lit "_" ++ [0%N]) ++ out).
  destruct (EntityFacts.takeWhile_app_stop isDigit (showNat k) 95%N
              ((lit "_" ++ [0%N]) ++ out) Hd eq_refl) as [-> ->].
  change (95%N :: (lit "_" ++ [0%N]) ++ out) with ((lit "__" ++ [0%N]) ++ out).
  rewrite startsWith_prefix.
  change (drop 3 ((lit "__" ++ [0%N]) ++ out)) with out.
  rewrite digitsValue_showNat.
  by destruct (showNat k).
Qed.

Lemma tokenAt_none c r : c <> 0%N -> tokenAt (c :: r) = None.
Proof.
  intros Hc. unfold tokenAt.
  change ([0%N] ++ lit "__HOLE_") with (0%N :: lit "__HOLE_").
  cbn [startsWith]. destruct (N.eqb_spec 0 c) as [<- | _]; [done | done].
Qed.

Lemma tokenAt_length t n rest : tokenAt t = Some (n, rest) -> length rest < length t.
Proof.
  unfold tokenAt. destruct (startsWith t _) eqn:Es; [| done].
  destruct (negb _ && startsWith _ _) eqn:E; [| done].
  intros [= _ <-]. rewrite length_drop.
  pose proof (DtdParserFacts.dropWhile_length isDigit (drop 8 t)) as Hl.
  rewrite length_drop in Hl.
  assert (1 <= length t) by (destruct t; [done | simpl; lia]).
  lia.
Qed.

Section Restore.
Context (holes : list str).

Lemma restoreLoop_plain f s :
  0%N ∉ s -> length s <= f -> restoreLoop f holes s = s.
Proof.
  revert s. induction f as [|f IH]; intros s Hs Hl.
  - by destruct s; [| simpl in Hl; lia].
  - destruct s as [|c r]; [done |]. cbn [restoreLoop].
    rewrite tokenAt_none by (intros ->; apply Hs; left).
    rewrite IH; [done | | simpl in Hl; lia].
    intros H. apply Hs. by right.
Qed.

Lemma restoreLoop_app_plain f u t :
  0%N ∉ u -> length (u ++ t) <= f ->
  restoreLoop f holes (u ++ t) = u ++ restoreLoop (f - length u) holes t.
Proof.
  revert f. induction u as [|c u IH]; intros f Hu Hl.
  - simpl. by rewrite Nat.sub_0_r.
  - destruct f as [|f]; [simpl in Hl; lia |].
    cbn [app restoreLoop]. rewrite tokenAt_none by (intros ->; apply Hu; left).
    rewrite IH; [done | | simpl in Hl; lia].
    intros H. apply Hu. by right.
Qed.

Lemma restoreLoop_fuel f1 f2 t :
  length t <= f1 -> length t <= f2 -> restoreLoop f1 holes t = restoreLoop f2 holes t.
Proof.
  revert f2 t. induction f1 as [|f1 IH]; intros f2 t H1 H2.
  - destruct t; [| simpl in H1; lia]. by destruct f2.
  - destruct f2 as [|f2]; [destruct t; [done | simpl in H2; lia] |].
    destruct t as [|c r]; [done |]. cbn [restoreLoop].
    destruct (tokenAt (c :: r)) as [[n rest]|] eqn:E.
    + apply tokenAt_length in E. simpl in *. f_equal. apply IH; lia.
    + simpl in *. f_equal. apply IH; lia.
Qed.

Lemma restoreLoop_token f k out seg :
  holes !! k = Some seg -> length (token k ++ out) <= f ->
  restoreLoop f holes (token k ++ out) = seg ++ restoreLoop (length out) holes out.
Proof.
  intros Hk Hl. destruct f as [|f].
  { unfold token in Hl. simpl in Hl. lia. }
  pose proof (tokenAt_token k out) as Ht.
  pose proof (tokenAt_length _ _ _ Ht) as Hlt.
  destruct (token k ++ out) as [|c r] eqn:E.
  { unfold token in E. simpl in E. done. }
  cbn [restoreLoop]. rewrite Ht, Hk. simpl. f_equal.
  apply restoreLoop_fuel; [simpl in *; lia | lia].
Qed.
End Restore.

Lemma not_elem_of_take {A} (x : A) n l : x ∉ l -> x ∉ take n l.
Proof.
  intros H Hin. apply H. rewrite <- (take_drop n l). apply elem_of_app. by left.
Qed.

Lemma not_elem_of_drop {A} (x : A) n l : x ∉ l -> x ∉ drop n l.
Proof.
  intros H Hin. apply H. rewrite <- (take_drop n l). apply elem_of_app. by right.
Qed.

Lemma length_app_sub {A} (u t : list A) : length t <= length (u ++ t) - length u.
Proof. rewrite length_app. lia. Qed.

Lemma maskLoop_S f s holes :
  maskLoop (S f) s holes
  = match indexOf s (lit "<") 0 with
    | None => (s, holes)
    | Some lt =>
        let r := drop lt s in
        match protectedSegment r with
        | Some n =>
            let '(out, holes') := maskLoop f (drop n r) (holes ++ [take n r]) in
            (take lt s ++ token (length holes) ++ out, holes')
        | None =>
            let '(out, holes') := maskLoop f (drop 1 r) holes in
            (take lt s ++ lit "<" ++ out, holes')
        end
    end.
Proof. reflexivity. Qed.

Lemma maskLoop_restore fuel s holes text holes' :
  0%N ∉ s -> length s <= fuel ->
  maskLoop fuel s holes = (text, holes') ->
  (exists more, holes' = holes ++ more)
  /\ forall more, restoreLoop (length text) (holes' ++ more) text = s.
Proof.
  revert s holes text holes'.
  induction fuel as [|f IH]; intros s holes text holes' Hs Hl.
  - destruct s; [| simpl in Hl; lia]. intros [= <- <-].
    split; [exists []; by rewrite app_nil_r | done].
  - rewrite maskLoop_S. cbn zeta.
    destruct (indexOf s (lit "<") 0) as [lt|] eqn:Elt.
    2:{ intros [= <- <-]. split; [exists []; by rewrite app_nil_r |].
        intros more. by apply restoreLoop_plain. }
    destruct (indexOf_lt _ _ Elt) as [r0 Hr].
    pose proof (take_drop lt s) as Htd.
    assert (Hlr : length (drop lt s) <= S f) by (rewrite length_drop; lia).
    destruct (protectedSegment (drop lt s)) as [n|] eqn:Ep.
    + apply protectedSegment_pos in Ep.
      destruct (maskLoop f (drop n (drop lt s)) (holes ++ [take n (drop lt s)]))
        as [out h'] eqn:Em.
      intros [= <- <-].
      destruct (IH _ _ _ _ (not_elem_of_drop _ n _ (not_elem_of_drop _ lt _ Hs))
                  ltac:(rewrite length_drop; rewrite Hr in Hlr |- *; simpl in *; lia) Em)
        as [[more0 Hh] Hrest].
      split; [exists (take n (drop lt s) :: more0); by rewrite Hh, <- app_assoc |].
      intros more.
      rewrite restoreLoop_app_plain by (by apply not_elem_of_take || lia).
      rewrite (restoreLoop_token _ _ (length holes) out (take n (drop lt s))).
      * rewrite Hrest. by rewrite take_drop.
      * rewrite Hh, <- !app_assoc. rewrite lookup_app_r by lia.
        by rewrite Nat.sub_diag.
      * apply length_app_sub.
    + destruct (maskLoop f (drop 1 (drop lt s)) holes) as [out h'] eqn:Em.
      intros [= <- <-].
      destruct (IH _ _ _ _ (not_elem_of_drop _ 1 _ (not_elem_of_drop _ lt _ Hs))
                  ltac:(rewrite length_drop; rewrite Hr in Hlr |- *; simpl in *; lia) Em)
        as [Hh Hrest].
      split; [exact Hh |]. intros more.
      rewrite restoreLoop_app_plain by (by apply not_elem_of_take || lia).
      rewrite (restoreLoop_app_plain _ _ [60%N] out).
      * rewrite (restoreLoop_fuel _ _ (length out)).
        -- rewrite Hrest. rewrite <- Htd at 3. rewrite Hr. done.
        -- etransitivity; [apply (length_app_sub [60%N] out) |].
           apply Nat.sub_le_mono_r. apply length_app_sub.
        -- done.
      * intros H. apply list_elem_of_singleton in H. done.
      * apply length_app_sub.
Qed.

(** Restoring the masked text gives the text back, when the text holds
    no NUL. *)
Lemma mask_restore s :
  0%N ∉ s ->
  restore (maskProtectedSegments s).2 (maskProtectedSegments s).1 = s.
Proof.
  intros Hs. unfold maskProtectedSegments, restore.
  destruct (maskLoop (length s) s []) as [text holes] eqn:E.
  destruct (maskLoop_restore _ _ _ _ _ Hs (le_n _) E) as [_ H].
  specialize (H []). by rewrite app_nil_r in H.
Qed.

Lemma scrub_no_nul s : 0%N ∉ scrubInvalidXmlCharsInText s.
Proof.
  unfold scrubInvalidXmlCharsInText. intros H.
  apply list_elem_of_In, filter_In in H as [_ H]. done.
Qed.

End MaskFacts.

(** X4. Restoring the masked text gives back the text that was masked,
    provided it holds no NUL; the scrub that [preSanitize] runs before
    the masking removes every NUL, so there the round trip always
    holds. *)
Theorem X4_mask_restore_round_trip :
  (forall s,
      0%N ∉ s ->
      Sanitizer.restore (Sanitizer.maskProtectedSegments s).2
        (Sanitizer.maskProtectedSegments s).1 = s)
  /\ (forall s,
        Sanitizer.restore
          (Sanitizer.maskProtectedSegments (Sanitizer.scrubInvalidXmlCharsInText s)).2
          (Sanitizer.maskProtectedSegments (Sanitizer.scrubInvalidXmlCharsInText s)).1
        = Sanitizer.scrubInvalidXmlCharsInText s).
Proof.
  split; [apply MaskFacts.mask_restore |].
  intros s. apply MaskFacts.mask_restore, MaskFacts.scrub_no_nul.
Qed.

Lemma X4_witness :
  (0%N ∉ sample_cdataComment)
  /\ Sanitizer.restore (Sanitizer.maskProtectedSegments sample_cdataComment).2
       (Sanitizer.maskProtectedSegments sample_cdataComment).1 = sample_cdataComment.
Proof.
  assert (H : 0%N ∉ sample_cdataComment).
  { intros H. apply list_elem_of_In in H. vm_compute in H. intuition discriminate. }
  split; [exact H |].
  destruct X4_mask_restore_round_trip as [Hm _]. by apply Hm.
Defined.

(** ** The steps before masking *)

Module PrologFacts.
Import Sanitizer.

Lemma dropWhile_suffix {A} (f : A -> bool) (l : list A) :
  exists pre, l = pre ++ dropWhile f l.
Proof.
  induction l as [|x l [pre IH]]; [by exists [] |]. simpl.
  destruct (f x); [| by exists []].
  exists (x :: pre). simpl. by rewrite <- IH.
Qed.

Lemma dropWhile_same_length {A} (f : A -> bool) (l : list A) :
  length (dropWhile f l) = length l -> dropWhile f l = l.
Proof.
  destruct l as [|x l]; [done |]. simpl. destruct (f x); [| done].
  pose proof (DtdParserFacts.dropWhile_length f l) as Hd. intros H. lia.
Qed.

Lemma drop_suffix {A} n (l : list A) : exists pre, l = pre ++ drop n l.
Proof. exists (take n l). by rewrite take_drop. Qed.

Lemma startsWith_nonempty s p : p <> [] -> startsWith s p = true -> 1 <= length s.
Proof. destruct p; [done |]. destruct s; [done | simpl; lia]. Qed.

(** A turn of the loop that asks for another one has shortened the
    text; the last turn leaves it as it is; every turn cuts at the front. *)
Lemma stripPrologStep_spec s0 s' again :
  stripPrologStep s0 = (s', again) ->
  (exists pre, s0 = pre ++ s')
  /\ (if again then length s' < length s0 else s' = s0).
Proof.
  unfold stripPrologStep.
  set (s := dropWhile isJsSpace s0).
  destruct (dropWhile_suffix isJsSpace s0) as [ws Hws]. fold s in Hws.
  assert (Hlen : length s <= length s0) by apply DtdParserFacts.dropWhile_length.
  assert (Hcut : forall k, 1 <= k -> 1 <= length s ->
            (exists pre, s0 = pre ++ drop k s) /\ length (drop k s) < length s0).
  { intros k Hk Hn. split.
    - exists (ws ++ take k s). by rewrite <- app_assoc, take_drop.
    - rewrite length_drop. lia. }
  destruct (startsWith s (lit "<?xml")) eqn:Ex.
  - pose proof (startsWith_nonempty s (lit "<?xml") ltac:(by vm_compute) Ex) as Hn.
    destruct (indexOf s (lit "?>") 0) as [e|].
    { intros [= <- <-]. apply Hcut; lia. }
    destruct (startsWith s (lit "<!DOCTYPE")) eqn:Ed.
    { apply DtdParserFacts.startsWith_app in Ex as [? Hx], Ed as [? Hd].
      rewrite Hx in Hd. done. }
    intros [= <- <-]. split; [by exists ws |].
    destruct (Nat.eqb_spec (length s) (length s0)) as [He | He]; simpl; [| lia].
    by apply dropWhile_same_length.
  - destruct (startsWith s (lit "<!DOCTYPE")) eqn:Ed.
    + pose proof (startsWith_nonempty s (lit "<!DOCTYPE") ltac:(by vm_compute) Ed) as Hn.
      assert (Hlast : forall s1 again1,
                (s, negb (length s =? length s0)) = (s1, again1) ->
                (exists pre, s0 = pre ++ s1)
                /\ (if again1 then length s1 < length s0 else s1 = s0)).
      { intros s1 again1 [= <- <-]. split; [by exists ws |].
        destruct (Nat.eqb_spec (length s) (length s0)) as [He | He]; simpl; [| lia].
        by apply dropWhile_same_length. }
      destruct (indexOf s (lit ">") 0) as [g|], (indexOf s (lit "[") 0) as [b|].
      * destruct (g <? b).
        { intros [= <- <-]. apply Hcut; lia. }
        destruct (indexOf s (lit "]>") 0) as [e|]; [| apply Hlast].
        intros [= <- <-]. apply Hcut; lia.
      * intros [= <- <-]. apply Hcut; lia.
      * destruct (indexOf s (lit "]>") 0) as [e|]; [| apply Hlast].
        intros [= <- <-]. apply Hcut; lia.
      * apply Hlast.
    + intros [= <- <-]. split; [by exists ws |].
      destruct (Nat.eqb_spec (length s) (length s0)) as [He | He]; simpl; [| lia].
      by apply dropWhile_same_length.
Qed.

Lemma stripPrologLoop_spec fuel s :
  length s < fuel ->
  (exists pre, s = pre ++ stripPrologLoop fuel s)
  /\ stripPrologStep (stripPrologLoop fuel s) = (stripPrologLoop fuel s, false).
Proof.
  revert s. induction fuel as [|f IH]; intros s Hl; [lia |].
  cbn [stripPrologLoop].
  destruct (stripPrologStep s) as [s' again] eqn:E.
  destruct (stripPrologStep_spec _ _ _ E) as [[pre Hpre] Hc].
  destruct again.
  - destruct (IH s' ltac:(lia)) as [[pre' Hpre'] Hfix].
    split; [| exact Hfix]. exists (pre ++ pre'). by rewrite <- app_assoc, <- Hpre'.
  - subst s'. split; [by exists [] | exact E].
Qed.

Lemma stripPrologLoop_fixed fuel s :
  stripPrologStep s = (s, false) -> stripPrologLoop (S fuel) s = s.
Proof. intros H. cbn [stripPrologLoop]. by rewrite H. Qed.

Lemma stripPrologStep_fixed_head s :
  stripPrologStep s = (s, false) ->
  match s with c :: _ => isJsSpace c = false | [] => True end.
Proof.
  intros H. destruct s as [|c r]; [done |].
  destruct (isJsSpace c) eqn:Ec; [| done].
  apply stripPrologStep_spec in H as H'.
  unfold stripPrologStep in H. simpl in H. rewrite Ec in H.
  exfalso.
  assert (Hfin : forall (t : str) (b : bool), length t <= length r ->
                   (t, b) = (c :: r, false) -> False).
  { intros t b Hl [= -> _]. simpl in Hl. lia. }
  pose proof (DtdParserFacts.dropWhile_length isJsSpace r) as Hl.
  set (s := dropWhile isJsSpace r) in *.
  destruct (startsWith s (lit "<?xml")).
  - destruct (indexOf s (lit "?>") 0).
    { revert H. apply Hfin. rewrite length_drop. lia. }
    destruct (startsWith s (lit "<!DOCTYPE")).
    + destruct (indexOf s (lit ">") 0), (indexOf s (lit "[") 0);
        repeat match goal with
               | H : context [if ?b then _ else _] |- _ => destruct b
               | H : context [match indexOf ?a ?b ?c with _ => _ end] |- _ =>
                   destruct (indexOf a b c)
               end;
        revert H; apply Hfin; rewrite ?length_drop; lia.
    + revert H. apply Hfin. lia.
  - destruct (startsWith s (lit "<!DOCTYPE")).
    + destruct (indexOf s (lit ">") 0), (indexOf s (lit "[") 0);
        repeat match goal with
               | H : context [if ?b then _ else _] |- _ => destruct b
               | H : context [match indexOf ?a ?b ?c with _ => _ end] |- _ =>
                   destruct (indexOf a b c)
               end;
        revert H; apply Hfin; rewrite ?length_drop; lia.
    + revert H. apply Hfin. lia.
Qed.

Lemma stripProlog_spec input :
  (exists pre, input = pre ++ stripProlog input)
  /\ stripPrologStep (stripProlog input) = (stripProlog input, false).
Proof.
  unfold stripProlog.
  set (s := match input with 65279%N :: r => r | _ => input end).
  destruct (stripPrologLoop_spec (length s + 2) s ltac:(lia)) as [[pre Hpre] Hfix].
  split; [| exact Hfix].
  assert (Hs : exists b, input = b ++ s).
  { subst s. destruct input as [|c r]; [by exists [] |].
    destruct (N.eqb_spec c 65279) as [-> | Hc]; [by exists [65279%N] |].
    exists []. simpl. destruct c as [|p]; [done |].
    repeat (destruct p as [p | p |]; try done). }
  destruct Hs as [b Hb]. exists (b ++ pre). by rewrite <- app_assoc, <- Hpre.
Qed.

Lemma stripProlog_idem input : stripProlog (stripProlog input) = stripProlog input.
Proof.
  destruct (stripProlog_spec input) as [_ Hfix].
  pose proof (stripPrologStep_fixed_head _ Hfix) as Hhead.
  set (r := stripProlog input) in *.
  unfold stripProlog at 1.
  assert (Hr : match r with 65279%N :: r' => r' | _ => r end = r).
  { destruct r as [|c r']; [done |].
    destruct (N.eqb_spec c 65279) as [-> | Hc]; [done |].
    destruct c as [|p]; [done |]. repeat (destruct p as [p | p |]; try done). }
  rewrite Hr. replace (length r + 2) with (S (length r + 1)) by lia.
  by apply stripPrologLoop_fixed.
Qed.

End PrologFacts.

(** X5. [stripProlog] only cuts at the front of the text, and what it
    returns it would return unchanged: stripping twice is stripping
    once. *)
Theorem X5_stripProlog_idempotent input :
  (exists pre, input = pre ++ Sanitizer.stripProlog input)
  /\ Sanitizer.stripProlog (Sanitizer.stripProlog input) = Sanitizer.stripProlog input.
Proof.
  split; [apply PrologFacts.stripProlog_spec | apply PrologFacts.stripProlog_idem].
Qed.

(** ** Code fences, comments and spaces *)

Module ScrubFacts.
Import Sanitizer.

(** *** Code fences *)

Lemma afterNewline_none s : 10%N ∉ s -> afterNewline s = None.
Proof.
  induction s as [|c s IH]; [done |]. intros H. simpl.
  destruct (N.eqb_spec c 10) as [-> | _]; [exfalso; apply H; left |].
  apply IH. intros Hin. apply H. by right.
Qed.

Lemma afterNewline_first info rest :
  10%N ∉ info -> afterNewline (info ++ 10%N :: rest) = Some rest.
Proof.
  induction info as [|c s IH]; [done |]. intros H. simpl.
  destruct (N.eqb_spec c 10) as [-> | _]; [exfalso; apply H; left |].
  apply IH. intros Hin. apply H. by right.
Qed.

Lemma cutAtNewline_none tail s : 10%N ∉ s -> cutAtNewline tail s = s.
Proof.
  induction s as [|c s IH]; [done |]. intros H. simpl.
  destruct (N.eqb_spec c 10) as [-> | _]; [exfalso; apply H; left |].
  simpl. f_equal. apply IH. intros Hin. apply H. by right.
Qed.

Lemma dropWhile_elem {A} (f : A -> bool) (l : list A) x :
  x ∈ dropWhile f l -> x ∈ l.
Proof.
  destruct (PrologFacts.dropWhile_suffix f l) as [pre Hpre]. intros H.
  rewrite Hpre. apply elem_of_app. by right.
Qed.

Lemma stripCodeFences_single_line input :
  10%N ∉ input -> stripCodeFences input = input.
Proof.
  intros H. unfold stripCodeFences.
  rewrite afterNewline_none by (intros Hin; apply H; by apply dropWhile_elem in Hin).
  assert (Hs : (if startsWith (dropWhile isJsSpace input) (lit "``")
                   || startsWith (dropWhile isJsSpace input) (lit "~~~")
                then input else input) = input) by (by destruct (_ || _)).
  rewrite Hs. rewrite (cutAtNewline_none _ input) by done. by apply cutAtNewline_none.
Qed.

Lemma takeWhile_absent ch body rest :
  ch ∉ body -> ch <> 10%N -> takeWhile (N.eqb ch) (body ++ 10%N :: rest) = [].
Proof.
  intros Hb Hc. destruct body as [|d body]; simpl.
  - by destruct (N.eqb_spec ch 10).
  - destruct (N.eqb_spec ch d) as [-> | _]; [exfalso; apply Hb; left | done].
Qed.

Lemma cutAtNewline_closing body :
  96%N ∉ body -> 126%N ∉ body ->
  cutAtNewline (fun r => fenceTail 96 r || fenceTail 126 r) (body ++ 10%N :: lit "```")
  = body.
Proof.
  induction body as [|c body IH]; intros H1 H2; [reflexivity |].
  cbn [app cutAtNewline].
  assert (Ht : fenceTail 96 (body ++ 10%N :: lit "```")
               || fenceTail 126 (body ++ 10%N :: lit "```") = false).
  { unfold fenceTail. rewrite !takeWhile_absent; [done | | done | | done].
    - intros Hin. apply H2. by right.
    - intros Hin. apply H1. by right. }
  rewrite Ht, andb_false_r. f_equal. apply IH.
  - intros Hin. apply H1. by right.
  - intros Hin. apply H2. by right.
Qed.

Lemma cutAtNewline_no_backtick body :
  96%N ∉ body ->
  cutAtNewline (fun r => startsWith r (lit "``") && forallb isJsSpace (drop 2 r)) body
  = body.
Proof.
  induction body as [|c body IH]; intros H1; [reflexivity |].
  cbn [cutAtNewline].
  assert (Ht : startsWith body (lit "``") = false).
  { destruct body as [|d body]; [done |].
    change (lit "``") with [96%N; 96%N]. cbn [startsWith].
    destruct (N.eqb_spec 96 d) as [<- | _]; [| done].
    exfalso. apply H1. right. left. }
  rewrite Ht. cbn [andb]. rewrite andb_false_r. f_equal. apply IH.
  intros Hin. apply H1. by right.
Qed.

Lemma stripCodeFences_unwrap info body :
  10%N ∉ info -> 96%N ∉ body -> 126%N ∉ body ->
  stripCodeFences (lit "```" ++ info ++ 10%N :: body ++ 10%N :: lit "```") = body.
Proof.
  intros Hi H1 H2. unfold stripCodeFences.
  change (dropWhile isJsSpace (lit "```" ++ info ++ 10%N :: body ++ 10%N :: lit "```"))
    with (lit "```" ++ info ++ 10%N :: body ++ 10%N :: lit "```").
  change (startsWith (lit "```" ++ info ++ 10%N :: body ++ 10%N :: lit "```") (lit "``"))
    with (startsWith (lit "`" ++ info ++ 10%N :: body ++ 10%N :: lit "```") []).
  rewrite MaskFacts.startsWith_nil. cbn [orb].
  change (afterNewline (lit "```" ++ info ++ 10%N :: body ++ 10%N :: lit "```"))
    with (afterNewline (info ++ 10%N :: body ++ 10%N :: lit "```")).
  rewrite afterNewline_first by done.
  rewrite cutAtNewline_closing by done.
  by apply cutAtNewline_no_backtick.
Qed.

(** *** Comment repair *)

Local Abbreviation noSpace := (fun c : N => negb (c =? 32)%N).

Lemma replaceDoubleDash_spaces s :
  List.filter noSpace (replaceDoubleDash s) = List.filter noSpace s.
Proof.
  remember (length s) as n eqn:Hn. revert s Hn.
  induction n as [n IH] using lt_wf_ind. intros s Hn.
  destruct s as [|c r]; [done |].
  destruct (N.eqb_spec c 45) as [-> | Hc].
  - destruct r as [|d r'].
    + reflexivity.
    + destruct (N.eqb_spec d 45) as [-> | Hd].
      * change (replaceDoubleDash (45%N :: 45%N :: r'))
          with (lit "- -" ++ replaceDoubleDash r').
        change (lit "- -" ++ replaceDoubleDash r')
          with (45%N :: 32%N :: 45%N :: replaceDoubleDash r').
        cbn [List.filter N.eqb Pos.eqb negb].
        do 2 f_equal. apply (IH (length r')); [simpl in Hn; lia | done].
      * replace (replaceDoubleDash (45%N :: d :: r'))
          with (45%N :: replaceDoubleDash (d :: r')).
        2:{ cbn [replaceDoubleDash]. destruct d as [|p]; [done |].
            repeat (destruct p as [p | p |]; try done). }
        cbn [List.filter N.eqb Pos.eqb negb]. f_equal.
        apply (IH (length (d :: r'))); [simpl in *; lia | done].
  - replace (replaceDoubleDash (c :: r)) with (c :: replaceDoubleDash r).
    2:{ cbn [replaceDoubleDash]. destruct c as [|p]; [done |].
        repeat (destruct p as [p | p |]; try done). }
    cbn [List.filter]. rewrite (IH (length r)); [done | simpl in Hn; lia | done].
Qed.

Lemma indexOf_spec s pat from j :
  pat <> [] -> indexOf s pat from = Some j ->
  from <= j /\ exists r, drop j s = pat ++ r.
Proof.
  intros Hp. unfold indexOf. intros H.
  apply MaskFacts.indexOf_aux_spec in H as (k & -> & Hk & Hs & _).
  rewrite drop_drop in Hs.
  apply DtdParserFacts.startsWith_app in Hs as [r Hr].
  destruct (decide (from <= length s)) as [Hle | Hgt].
  - rewrite Nat.min_l by lia. split; [lia | by exists r].
  - rewrite drop_ge in Hr by lia. destruct pat; [done | done].
Qed.

Lemma drop_app_prefix {A} (l p r : list A) n :
  drop n l = p ++ r -> drop (n + length p) l = r.
Proof.
  intros H. rewrite <- drop_drop, H. by rewrite drop_app_length.
Qed.

Lemma repairInvalidCommentsLoop_spaces fuel s :
  List.filter noSpace (repairInvalidCommentsLoop fuel s) = List.filter noSpace s.
Proof.
  revert s. induction fuel as [|f IH]; intros s; [done |].
  cbn [repairInvalidCommentsLoop].
  destruct (indexOf s (lit "<!--") 0) as [open|] eqn:Eo; [| done].
  destruct (indexOf s (lit "-->") (open + 4)) as [close|] eqn:Ec.
  2:{ by rewrite take_drop. }
  apply indexOf_spec in Eo as [_ [r1 Hr1]]; [| by vm_compute].
  apply indexOf_spec in Ec as [Hle [r2 Hr2]]; [| by vm_compute].
  pose proof (drop_app_prefix _ _ _ _ Hr1) as Hd1.
  pose proof (drop_app_prefix _ _ _ _ Hr2) as Hd2.
  change (length (lit "<!--")) with 4 in Hd1.
  change (length (lit "-->")) with 3 in Hd2.
  rewrite Hd2.
  rewrite !List.filter_app, IH, replaceDoubleDash_spaces, <- !List.filter_app. f_equal.
  rewrite <- (take_drop open s) at 3. f_equal. rewrite Hr1. f_equal.
  unfold slice. rewrite Hd1.
  rewrite <- (take_drop (close - (open + 4)) r1) at 2. f_equal.
  rewrite <- Hr2, <- Hd1, drop_drop. f_equal. lia.
Qed.

Lemma repairInvalidComments_spaces s :
  List.filter noSpace (repairInvalidComments s) = List.filter noSpace s.
Proof. apply repairInvalidCommentsLoop_spaces. Qed.

(** *** Unicode spaces *)

Lemma spacesLoop_plain inTag quote s :
  forallb (fun c => negb (isUnicodeSpaceInTag c || isZeroWidthMark c)) s = true ->
  spacesLoop inTag quote s = s.
Proof.
  revert inTag quote. induction s as [|c s IH]; intros inTag quote H; [done |].
  cbn [forallb] in H. apply andb_true_iff in H as [Hc Hs].
  apply negb_true_iff, orb_false_iff in Hc as [Hu Hz].
  cbn [spacesLoop]. destruct inTag; cbn [negb].
  - destruct quote as [q|]; [by rewrite IH |].
    destruct ((c =? 34)%N || (c =? 39)%N); [by rewrite IH |].
    destruct (c =? 62)%N; [by rewrite IH |].
    rewrite Hu, Hz. by rewrite IH.
  - by rewrite IH.
Qed.

End ScrubFacts.

(** X6. [stripCodeFences] unwraps a fenced block: of an opening fence
    line, a body without backticks and tildes, and a closing fence it
    returns the body. A text without a line feed is returned as it
    is. *)
Theorem X6_stripCodeFences_unwraps :
  (forall info body,
      10%N ∉ info -> 96%N ∉ body -> 126%N ∉ body ->
      Sanitizer.stripCodeFences
        (lit "```" ++ info ++ 10%N :: body ++ 10%N :: lit "```") = body)
  /\ (forall input, 10%N ∉ input -> Sanitizer.stripCodeFences input = input).
Proof.
  split; [apply ScrubFacts.stripCodeFences_unwrap
         | apply ScrubFacts.stripCodeFences_single_line].
Qed.

Lemma X6_witness :
  Sanitizer.stripCodeFences
    (lit "```" ++ sample_fenceInfo ++ 10%N :: sample_fencedBody ++ 10%N :: lit "```")
  = sample_fencedBody
  /\ Sanitizer.stripCodeFences (lit "<r/>") = lit "<r/>".
Proof.
  destruct X6_stripCodeFences_unwraps as [Hu Hs].
  assert (Hno : forall c (l : str), negb (existsb (N.eqb c) l) = true -> c ∉ l).
  { intros c l H Hin. apply negb_true_iff in H.
    assert (Ht : existsb (N.eqb c) l = true).
    { apply existsb_exists. exists c. split; [by apply list_elem_of_In | apply N.eqb_refl]. }
    congruence. }
  split.
  - apply Hu; apply Hno; reflexivity.
  - apply Hs. apply Hno. reflexivity.
Defined.

(** X7. [repairInvalidComments] changes a text by nothing but inserted
    spaces: with the spaces taken out, the repaired text and the
    original are the same. *)
Theorem X7_repairInvalidComments_only_inserts_spaces s :
  List.filter (fun c => negb (c =? 32)%N) (Sanitizer.repairInvalidComments s)
  = List.filter (fun c => negb (c =? 32)%N) s.
Proof. apply ScrubFacts.repairInvalidComments_spaces. Qed.

(** X8. [normalizeUnicodeSpacesInsideTags] returns a text unchanged when
    it holds none of the Unicode spaces and zero-width marks the
    function looks for; ASCII markup is never touched. *)
Theorem X8_unicode_spaces_identity s :
  forallb (fun c => negb (Sanitizer.isUnicodeSpaceInTag c || Sanitizer.isZeroWidthMark c)) s
  = true ->
  Sanitizer.normalizeUnicodeSpacesInsideTags s = s.
Proof. apply ScrubFacts.spacesLoop_plain. Qed.

Lemma X8_witness :
  Sanitizer.normalizeUnicodeSpacesInsideTags sample_entityText = sample_entityText.
Proof. apply (X8_unicode_spaces_identity sample_entityText). reflexivity. Defined.

(** ** No ampersand is left bare *)

Module AmpersandFacts.
Import Sanitizer Entities EntityFacts EntityRefs EntityIdem Ampersands.

Lemma allEscaped_nil : allEscaped [].
Proof. intros pre r H. by destruct pre. Qed.

Lemma allEscaped_plain c w : c <> 38%N -> allEscaped w -> allEscaped (c :: w).
Proof.
  intros Hc Hw pre r H. destruct pre as [|d pre]; simpl in H.
  - by inversion H.
  - inversion H; subst. by apply (Hw pre r).
Qed.

(** A block that starts with the only ["&"] it holds, and that reads as
    a reference whatever follows it. *)
Lemma allEscaped_block body w :
  38%N ∉ body ->
  startsReference (body ++ w) = true ->
  allEscaped w -> allEscaped ((38%N :: body) ++ w).
Proof.
  intros Hb Hs Hw pre r H. destruct pre as [|d pre]; simpl in H.
  - inversion H; subst. exact Hs.
  - inversion H as [[Hd Hrest]]. clear H.
    revert pre Hrest. clear Hs. induction body as [|b body IH]; intros pre Hrest.
    + simpl in Hrest. by apply (Hw pre r).
    + destruct pre as [|p pre]; simpl in Hrest.
      * inversion Hrest; subst. exfalso. apply Hb. left.
      * inversion Hrest; subst. apply (IH ltac:(intros Hin; apply Hb; by right) pre).
        done.
Qed.

Lemma digits_no_amp ds : forallb isDigit ds = true -> 38%N ∉ ds.
Proof.
  intros H Hin. rewrite forallb_forall in H. apply list_elem_of_In in Hin.
  by apply H in Hin.
Qed.

Lemma validName_no_amp name : validName name = true -> 38%N ∉ name ++ [59%N].
Proof.
  intros Hv Hin. apply elem_of_app in Hin as [Hin | Hin].
  - destruct name as [|c name]; [done |]. simpl in Hv.
    apply andb_true_iff in Hv as [Hc Hn].
    apply elem_of_cons in Hin as [<- | Hin]; [done |].
    rewrite forallb_forall in Hn. apply list_elem_of_In in Hin. by apply Hn in Hin.
  - by apply list_elem_of_singleton in Hin.
Qed.

Section Escaped.
Context (policy : EntityPolicy) (named : list (str * JsNumber.t)).
Hypothesis Hcodes : Forall (fun kv => JsNumber.isShortInteger kv.2) named.

Local Abbreviation E s := (normalizeEntitiesAndAmpersands s policy named).

Lemma startsReference_named name rest :
  validName name = true -> startsReference (name ++ 59%N :: rest) = true.
Proof. intros Hv. unfold startsReference. by rewrite scanAmp_valid. Qed.

(** After the entity step every ampersand starts a reference, when no
    reference of the input resolves through an inherited member of the
    entity table. *)
Lemma E_allEscaped s w :
  ~ refersTo (lit "constructor") s -> E s = Ok w -> allEscaped w.
Proof.
  remember (length s) as n eqn:Hn. revert s w Hn.
  induction n as [n IH] using lt_wf_ind. intros s w Hn Hno Hs.
  destruct s as [|ch r].
  { inversion Hs. apply allEscaped_nil. }
  simpl in Hn. rewrite E_cons in Hs.
  assert (Hstep : forall body rest,
            length rest < n ->
            ~ refersTo (lit "constructor") rest ->
            prepend (38%N :: body) (E rest) = Ok w ->
            38%N ∉ body ->
            (forall w', startsReference (body ++ w') = true) ->
            allEscaped w).
  { intros body rest Hl Hnr Hout Hb Hsr.
    destruct (E rest) as [w' |] eqn:Er; [| done]. simpl in Hout.
    inversion Hout; subst w.
    apply (allEscaped_block body w' Hb (Hsr w')).
    by apply (IH (length rest) Hl rest w' eq_refl Hnr Er). }
  destruct (negb (ch =? 38)%N) eqn:Ech.
  - destruct (E r) as [w' |] eqn:Er; [| done]. simpl in Hs. inversion Hs; subst w.
    apply allEscaped_plain.
    + apply negb_true_iff, N.eqb_neq in Ech. exact Ech.
    + apply (IH (length r) ltac:(lia) r w' eq_refl); [| done].
      intros H. apply Hno. by apply (refersTo_app _ [ch]).
  - apply negb_false_iff, N.eqb_eq in Ech as ->.
    unfold EntityLoop.onAmp in Hs.
    destruct (scanAmp r) as [text rest | name rest |] eqn:Es.
    + destruct (scanAmp_numeric _ _ _ Es) as (u & Ht & Hr & Hu).
      subst text. apply (Hstep u rest); [subst; rewrite length_app; lia | | done | done |].
      * intros H. apply Hno. subst r. by apply (refersTo_app _ (38%N :: u)).
      * intros w'. destruct (scanAmp_numeric_again _ _ _ w' Es) as (u' & Hu' & Hsc).
        inversion Hu'; subst u'. unfold startsReference. by rewrite Hsc.
    + destruct (scanAmp_named _ _ _ Es) as (Hr & Hv & Hamp).
      assert (Hl : length rest < n) by (subst; rewrite length_app; simpl; lia).
      assert (Hnr : ~ refersTo (lit "constructor") rest).
      { intros H. apply Hno. subst r.
        replace (38%N :: name ++ 59%N :: rest) with ((38%N :: name ++ [59%N]) ++ rest)
          by (simpl; by rewrite <- app_assoc).
        by apply refersTo_app. }
      assert (Hlower : toLowerCase name <> lit "constructor").
      { intros Hc. apply Hno. exists [], name, rest. subst r. done. }
      destruct (has (toLowerCase name) XML5) eqn:Ex.
      * apply (Hstep (toLowerCase name ++ [59%N]) rest Hl Hnr Hs).
        -- by apply validName_no_amp, validName_lower.
        -- intros w'. rewrite <- app_assoc.
           by apply startsReference_named, validName_lower.
      * destruct (entityCode named (toLowerCase name)) as [code|] eqn:Ec.
        -- destruct (entityCode_digits named Hcodes _ _ Ec Hlower) as [Hne Hd].
           apply (Hstep (35%N :: code ++ [59%N]) rest Hl Hnr).
           ++ exact Hs.
           ++ intros Hin. apply elem_of_cons in Hin as [? | Hin]; [done |].
              apply elem_of_app in Hin as [Hin | Hin]; [by apply digits_no_amp in Hin |].
              by apply list_elem_of_singleton in Hin.
           ++ intros w'. unfold startsReference.
              replace ((35%N :: code ++ [59%N]) ++ w') with (35%N :: code ++ 59%N :: w')
                by (simpl; by rewrite <- app_assoc).
              by rewrite scanAmp_decimal.
        -- assert (Hs' : prepend (lit "&amp;" ++ name ++ lit ";") (E rest) = Ok w)
             by (by destruct policy).
           apply (Hstep (lit "amp;" ++ name ++ [59%N]) rest Hl Hnr Hs').
           ++ intros Hin. apply elem_of_app in Hin as [Hin | Hin].
              ** apply list_elem_of_In in Hin. vm_compute in Hin. intuition discriminate.
              ** by apply Hamp.
           ++ intros w'.
              change ((lit "amp;" ++ name ++ [59%N]) ++ w')
                with (lit "amp" ++ 59%N :: (name ++ [59%N]) ++ w').
              by apply startsReference_named.
    + apply (Hstep (lit "amp;") r); [lia | | done | | ].
      * intros H. apply Hno. by apply (refersTo_app _ [38%N]).
      * intros Hin. apply list_elem_of_In in Hin. vm_compute in Hin. intuition discriminate.
      * intros w'. change (lit "amp;" ++ w') with (lit "amp" ++ 59%N :: w').
        by apply startsReference_named.
Qed.
End Escaped.

End AmpersandFacts.

(** X9. In the text the entity step returns, every ampersand starts a
    character or entity reference: none is left bare, when the codes of
    the configured table are non-negative integers of at most 21 digits
    (which print as digits). The input must hold no reference named
    [constructor], which the entity table answers with a text that is
    no number. *)
Theorem X9_entity_step_leaves_no_bare_ampersand policy named s w :
  Forall (fun kv => JsNumber.isShortInteger kv.2) named ->
  ~ EntityRefs.refersTo (lit "constructor") s ->
  Sanitizer.normalizeEntitiesAndAmpersands s policy named = Ok w ->
  Ampersands.allEscaped w.
Proof. intros Hcodes. by apply AmpersandFacts.E_allEscaped. Qed.

Lemma X9_witness :
  Forall (fun kv => JsNumber.isShortInteger kv.2) [(lit "eacute", JsNumber.ofN 233)]
  /\ Ampersands.allEscaped (lit "<r>a&#160;b</r>").
Proof.
  assert (Hcodes : Forall (fun kv => JsNumber.isShortInteger kv.2)
                     [(lit "eacute", JsNumber.ofN 233)]).
  { apply Forall_cons. split; [| constructor].
    split; [done | right; vm_compute; discriminate]. }
  split; [exact Hcodes |].
  apply (X9_entity_step_leaves_no_bare_ampersand Sanitizer.convert
           [(lit "eacute", JsNumber.ofN 233)] sample_entityText).
  - exact Hcodes.
  - intros (pre & name & post & Hs & _ & Hl).
    destruct pre as [|c0 [|c1 [|c2 pre]]];
      [vm_compute in Hs; congruence .. |].
    apply (f_equal length) in Hs, Hl.
    unfold toLowerCase in Hl. rewrite length_map in Hl.
    rewrite !length_app in Hs.
    change (length sample_entityText) with 15 in Hs.
    change (length (lit "constructor")) with 11 in Hl.
    simpl in Hs. lia.
  - reflexivity.
Defined.

(** ** The index that [buildDtdIndex] builds *)

Module DtdIndexFacts.
Import DtdIndexBuilder DtdParserFacts.

(** What holds of every entry of the index. *)
Local Abbreviation coherent name def :=
  (de_name def = name
   /\ de_allowedChildren def = deriveAllowedChildren (de_content def)
   /\ (forall a, a ∈ de_declaredAttrs def <-> isSome (Dtd.assoc a (de_attrs def)) = true)
   /\ (forall a, a ∈ de_requiredAttrs def -> a ∈ de_declaredAttrs def)
   /\ (forall a decl, Dtd.assoc a (de_attrs def) = Some decl -> da_name decl = a)
   /\ (forall a decl, Dtd.assoc a (de_attrs def) = Some decl ->
                      da_defaultDecl decl = REQUIRED -> a ∈ de_requiredAttrs def)).

Lemma assoc_assocSet {V} k k' (v : V) m :
  Dtd.assoc k (assocSet k' v m) = if str_eqb k' k then Some v else Dtd.assoc k m.
Proof.
  induction m as [|[k0 v0] m IH]; simpl.
  - done.
  - destruct (str_eqb k0 k') eqn:E0; simpl.
    + apply str_eqb_true in E0 as ->. by destruct (str_eqb k' k).
    + destruct (str_eqb k0 k) eqn:E1; [| exact IH].
      apply str_eqb_true in E1 as ->. apply str_eqb_false in E0.
      destruct (str_eqb k' k) eqn:E2; [| done].
      apply str_eqb_true in E2. congruence.
Qed.

Lemma coherent_attr name b a :
  coherent name b ->
  coherent name
    {| de_name := de_name b; de_content := de_content b;
       de_allowedChildren := de_allowedChildren b;
       de_attrs := assocSet (da_name a) a (de_attrs b);
       de_declaredAttrs := set_add (da_name a) (de_declaredAttrs b);
       de_requiredAttrs :=
         match da_defaultDecl a with
         | REQUIRED => set_add (da_name a) (de_requiredAttrs b)
         | _ => de_requiredAttrs b
         end |}.
Proof.
  intros (H1 & H2 & H3 & H4 & H5 & H6). cbn [de_name de_content de_allowedChildren
    de_attrs de_declaredAttrs de_requiredAttrs].
  split; [done |]. split; [done |]. split; [| split; [| split]].
  - intros x. rewrite set_add_elem, assoc_assocSet, H3.
    destruct (str_eqb (da_name a) x) eqn:E.
    + apply str_eqb_true in E. split; [done | by left].
    + apply str_eqb_false in E. split; [intros [-> | ?]; done | by right].
  - intros x Hx. apply set_add_elem.
    assert (Hr : x = da_name a \/ x ∈ de_requiredAttrs b).
    { destruct (da_defaultDecl a); try (by right).
      apply set_add_elem in Hx. exact Hx. }
    destruct Hr as [? | Hr]; [by left | right; by apply H4].
  - intros x decl. rewrite assoc_assocSet.
    destruct (str_eqb (da_name a) x) eqn:E.
    + apply str_eqb_true in E. by intros [= <-].
    + apply H5.
  - intros x decl. rewrite assoc_assocSet.
    destruct (str_eqb (da_name a) x) eqn:E.
    + apply str_eqb_true in E. intros [= <-] Hreq. rewrite Hreq.
      apply set_add_elem. by left.
    + intros Hd Hreq. specialize (H6 x decl Hd Hreq).
      destruct (da_defaultDecl a); try done. apply set_add_elem. by right.
Qed.

Lemma coherent_attrs name attrs b :
  coherent name b ->
  coherent name
    (foldl (fun b a =>
       {| de_name := de_name b; de_content := de_content b;
          de_allowedChildren := de_allowedChildren b;
          de_attrs := assocSet (da_name a) a (de_attrs b);
          de_declaredAttrs := set_add (da_name a) (de_declaredAttrs b);
          de_requiredAttrs :=
            match da_defaultDecl a with
            | REQUIRED => set_add (da_name a) (de_requiredAttrs b)
            | _ => de_requiredAttrs b
            end |}) b attrs).
Proof.
  revert b. induction attrs as [|a attrs IH]; intros b Hb; [exact Hb |].
  cbn [foldl]. apply IH. by apply coherent_attr.
Qed.

Local Abbreviation allCoherent :=
  (fun elements : gmap str DtdElement =>
     forall name def, elements !! name = Some def -> coherent name def).

Lemma allCoherent_insert elements name def :
  allCoherent elements -> coherent name def -> allCoherent (<[name := def]> elements).
Proof.
  intros Hall Hdef k d. destruct (decide (k = name)) as [-> | Hne].
  - rewrite lookup_insert_eq. by intros [= <-].
  - rewrite lookup_insert_ne by done. apply Hall.
Qed.

Lemma addDeclaration_coherent elements decl elements' :
  allCoherent elements ->
  addDeclaration elements decl = Some (Ok elements') -> allCoherent elements'.
Proof.
  intros Hall. unfold addDeclaration. intros H.
  apply pbind_ok in H as (els1 & H1 & H2).
  assert (Hall1 : allCoherent els1).
  { destruct (startsWith (stripOuterDecl decl) (lit "ELEMENT ")).
    2:{ by inversion H1; subst. }
    apply pbind_ok in H1 as ([name model] & _ & H1).
    apply pbind_ok in H1 as (content & _ & H1).
    inversion H1; subst els1; clear H1.
    apply allCoherent_insert; [done |].
    destruct (elements !! name) as [existing|] eqn:Ee.
    - destruct (Hall _ _ Ee) as (E1 & _ & E3 & E4 & E5 & E6).
      cbn [de_name de_content de_allowedChildren de_attrs de_declaredAttrs
             de_requiredAttrs].
      repeat split; try done; apply E3.
    - cbn [de_name de_content de_allowedChildren de_attrs de_declaredAttrs
             de_requiredAttrs].
      split; [done |]. split; [done |]. split; [| split; [| split]].
      + intros a. simpl. split; [by intros ?%elem_of_nil | done].
      + by intros a ?%elem_of_nil.
      + done.
      + done. }
  destruct (startsWith (stripOuterDecl decl) (lit "ATTLIST ")).
  2:{ by inversion H2; subst. }
  apply pbind_ok in H2 as ([elementName attrs] & _ & H2).
  inversion H2; subst elements'; clear H2.
  apply allCoherent_insert; [done |].
  apply coherent_attrs.
  destruct (els1 !! elementName) as [existing|] eqn:Ee; [by apply Hall1 |].
  cbn [de_name de_content de_allowedChildren de_attrs de_declaredAttrs de_requiredAttrs].
  split; [done |]. split; [done |]. split; [| split; [| split]].
  - intros a. simpl. split; [by intros ?%elem_of_nil | done].
  - by intros a ?%elem_of_nil.
  - done.
  - done.
Qed.

Lemma addDeclarations_coherent decls elements elements' :
  allCoherent elements ->
  addDeclarations elements decls = Some (Ok elements') -> allCoherent elements'.
Proof.
  revert elements. induction decls as [|d decls IH]; intros elements Hall.
  - by intros [= <-].
  - cbn [addDeclarations]. intros H. apply pbind_ok in H as (els & H1 & H2).
    apply (IH els); [| done]. by apply (addDeclaration_coherent elements d).
Qed.

Lemma buildDtdIndex_coherent dtdText idx :
  buildDtdIndex dtdText = Some (Ok idx) -> allCoherent (dtd_elements idx).
Proof.
  unfold buildDtdIndex. intros H. apply pbind_ok in H as (els & H1 & H2).
  inversion H2; subst idx. cbn [dtd_elements].
  apply (addDeclarations_coherent (extractDeclarations dtdText) ∅ els); [| done].
  intros name def Hl. by rewrite lookup_empty in Hl.
Qed.

Lemma addDeclarations_total decls elements : addDeclarations elements decls <> None.
Proof.
  revert elements. induction decls as [|d decls IH]; intros elements; [done |].
  cbn [addDeclarations]. apply pbind_some; [apply addDeclaration_total |].
  intros els _. apply IH.
Qed.

Lemma buildDtdIndex_total dtdText : buildDtdIndex dtdText <> None.
Proof.
  unfold buildDtdIndex. apply pbind_some; [apply addDeclarations_total | done].
Qed.

End DtdIndexFacts.

(** X10. Every entry of an index that [buildDtdIndex] returns is
    coherent: it is filed under its own name, its allowed children are
    the ones derived from its content, its declared attributes are the
    keys of its attribute declarations, each declaration is filed under
    its own name, and required attributes are declared, among them every
    attribute whose declaration says [#REQUIRED]. *)
Theorem X10_dtd_index_entries_coherent dtdText idx name def :
  DtdIndexBuilder.buildDtdIndex dtdText = Some (Ok idx) ->
  dtd_elements idx !! name = Some def ->
  de_name def = name
  /\ de_allowedChildren def = DtdIndexBuilder.deriveAllowedChildren (de_content def)
  /\ (forall a, a ∈ de_declaredAttrs def <-> isSome (Dtd.assoc a (de_attrs def)) = true)
  /\ (forall a, a ∈ de_requiredAttrs def -> a ∈ de_declaredAttrs def)
  /\ (forall a decl, Dtd.assoc a (de_attrs def) = Some decl -> da_name decl = a)
  /\ (forall a decl, Dtd.assoc a (de_attrs def) = Some decl ->
                     da_defaultDecl decl = REQUIRED -> a ∈ de_requiredAttrs def).
Proof. intros H. by apply (DtdIndexFacts.buildDtdIndex_coherent dtdText idx H). Qed.

Lemma X10_witness :
  exists idx def,
    DtdIndexBuilder.buildDtdIndex sample_dtdText = Some (Ok idx)
    /\ dtd_elements idx !! lit "r" = Some def
    /\ de_name def = lit "r"
    /\ (forall a, a ∈ de_requiredAttrs def -> a ∈ de_declaredAttrs def).
Proof.
  destruct (DtdIndexBuilder.buildDtdIndex sample_dtdText) as [[idx | m] |] eqn:E;
    [| by vm_compute in E ..].
  destruct (dtd_elements idx !! lit "r") as [def|] eqn:Ed.
  2:{ vm_compute in E. inversion E; subst idx. by vm_compute in Ed. }
  exists idx, def. split; [done |]. split; [done |].
  destruct (X10_dtd_index_entries_coherent sample_dtdText idx (lit "r") def E Ed)
    as (H1 & _ & _ & H4 & _).
  by split.
Defined.

(** X11. [buildDtdIndex] comes to an end on every text: it returns an
    index or throws. *)
Theorem X11_buildDtdIndex_terminates dtdText :
  exists r, DtdIndexBuilder.buildDtdIndex dtdText = Some r.
Proof.
  destruct (DtdIndexBuilder.buildDtdIndex dtdText) as [r|] eqn:E; [by exists r |].
  by apply DtdIndexFacts.buildDtdIndex_total in E.
Qed.

(** ** Reading back a formatted content model *)

Module DtdRoundTripFacts.
Import DtdIndexBuilder DtdParserFacts ModelShape DtdMatcherFacts.

Local Abbreviation formatDtdModel := Dtd.formatDtdModel.

(** What [applyOccurs] appends. *)
Local Abbreviation occS o :=
  (match o with One => [] | Opt => lit "?" | Star => lit "*" | Plus => lit "+" end).

(** What may follow a term: the end, an operator or a closing
    parenthesis. *)
Local Abbreviation tailOk tail :=
  (match tail with
   | [] => True
   | c :: _ => c = 44%N \/ c = 124%N \/ c = 41%N
   end).

Lemma applyOccurs_app core o : Dtd.applyOccurs core o = core ++ occS o.
Proof. destruct o; simpl; [by rewrite app_nil_r | done | done | done]. Qed.

Lemma skipWs_head c r : isJsSpace c = false -> skipWs (c :: r) = c :: r.
Proof. intros H. unfold skipWs. simpl. by rewrite H. Qed.

Lemma skipWs_tail tail : tailOk tail -> skipWs tail = tail.
Proof.
  destruct tail as [|c r]; [done |].
  intros [-> | [-> | ->]]; reflexivity.
Qed.

Lemma occ_tail_stop o tail :
  tailOk tail ->
  match occS o ++ tail with
  | [] => True
  | c :: _ => isNameStop c = true
  end.
Proof.
  intros Ht. destruct o; simpl; try done.
  destruct tail as [|c r]; [done |]. by destruct Ht as [-> | [-> | ->]].
Qed.

Section Parser.
Context (s : str).

(** The quantifier step of [parseTerm]. *)
Lemma parseTerm_of_atom pe rest node o tail :
  parseAtom s pe (skipWs rest) = pret (node, occS o ++ tail) ->
  d_occurs node = One -> tailOk tail ->
  parseTerm s pe rest = pret (withOccurs node o, tail).
Proof.
  intros Ha Hn Ht. unfold parseTerm. rewrite Ha. cbn [pbind pret].
  destruct o; cbn [app].
  - destruct tail as [|c r].
    + simpl. destruct node; simpl in Hn; by subst.
    + destruct node; simpl in Hn; subst;
        destruct Ht as [-> | [-> | ->]]; reflexivity.
  - reflexivity.
  - reflexivity.
  - reflexivity.
Qed.

Lemma parseAtom_name pe c r :
  isNameStop c = false ->
  parseAtom s pe (c :: r)
  = let '(name, r') := readName (c :: r) in
    if is_nil name then pthrow (lit "Expected NAME at index " ++ showNat (index s r'))
    else pret (NAME name One, r').
Proof.
  intros Hc. unfold parseAtom.
  assert (Hw : isJsSpace c = false).
  { unfold isNameStop in Hc. by destruct (isJsSpace c). }
  rewrite skipWs_head by done.
  destruct (N.eqb_spec c 40) as [-> | Hne]; [done |].
  destruct c as [|p]; [done |].
  repeat (destruct p as [p | p |]; try done).
Qed.

Lemma readName_plain nm rest :
  forallb (fun c => negb (isNameStop c)) nm = true ->
  match rest with [] => True | c :: _ => isNameStop c = true end ->
  nm <> [] ->
  readName (nm ++ rest) = (nm, rest).
Proof.
  intros Hn Hr Hne. unfold readName.
  assert (Hw : skipWs (nm ++ rest) = nm ++ rest).
  { destruct nm as [|c nm]; [done |]. simpl in Hn.
    apply andb_true_iff in Hn as [Hc _]. apply negb_true_iff in Hc.
    apply skipWs_head. unfold isNameStop in Hc. by destruct (isJsSpace c). }
  rewrite Hw. destruct rest as [|c rest].
  - rewrite app_nil_r. f_equal.
    + clear Hw Hne. induction nm as [|d nm IH]; [done |]. simpl in *.
      apply andb_true_iff in Hn as [-> Hn]. by rewrite IH.
    + clear Hw Hne. induction nm as [|d nm IH]; [done |]. simpl in *.
      apply andb_true_iff in Hn as [-> Hn]. by rewrite IH.
  - destruct (EntityFacts.takeWhile_app_stop (fun c => negb (isNameStop c)) nm c rest Hn)
      as [-> ->]; [by rewrite Hr | done].
Qed.

Lemma parseAtom_group pe r :
  parseAtom s pe (40%N :: r)
  = let r := skipWs r in
    if startsWith r (lit "#PCDATA") then
      let r := skipWs (drop 7 r) in
      match r with
      | 41%N :: r' => pret (PCDATA One, r')
      | _ =>
          pbind (mixedLoop s (S (length r)) [PCDATA One] r) (fun '(items, r') =>
          pbind (expect s 41 (skipWs r')) (fun r'' =>
          pret (CHOICE items One, r'')))
      end
    else
      pbind (pe r) (fun '(inner, r') =>
      pbind (expect s 41 (skipWs r')) (fun r'' =>
      pret (inner, r''))).
Proof. reflexivity. Qed.

(** The text of the items after the first, each behind its operator. *)
Local Abbreviation seps sep rest :=
  (concat (map (fun it => sep :: formatDtdModel it) rest)).

Lemma join_seps sep it rest :
  join [sep] (map formatDtdModel (it :: rest)) = formatDtdModel it ++ seps sep rest.
Proof.
  revert it. induction rest as [|it' rest IH]; intros it.
  - simpl. by rewrite app_nil_r.
  - change (join [sep] (map formatDtdModel (it :: it' :: rest)))
      with (formatDtdModel it ++ [sep] ++ join [sep] (map formatDtdModel (it' :: rest))).
    rewrite IH. reflexivity.
Qed.

Lemma seps_tail sep rest tl :
  sep = 44%N \/ sep = 124%N -> tailOk (seps sep rest ++ 41%N :: tl).
Proof.
  intros Hs. destruct rest as [|it rest]; simpl; [by right; right |].
  destruct Hs as [-> | ->]; [by left | right; by left].
Qed.

Section Loop.
Context (pt : str -> P (DtdContentModel * str)) (lhs : DtdContentModel).
Context (sep : N) (M : Mode) (mk : list DtdContentModel -> DtdOccurs -> DtdContentModel).
Hypothesis Hsep : (sep = 44%N /\ M = ModeSEQ /\ mk = SEQ)
                  \/ (sep = 124%N /\ M = ModeCHOICE /\ mk = CHOICE).

Lemma exprLoop_items rest acc mode n tl :
  Forall (fun it => forall tail, tailOk tail ->
            pt (formatDtdModel it ++ tail) = pret (it, tail)) rest ->
  (mode = Some M \/ (mode = None /\ rest <> [])) ->
  length rest < n ->
  exprLoop s n pt lhs acc mode (seps sep rest ++ 41%N :: tl)
  = pret (mk (acc ++ rest) One, 41%N :: tl).
Proof.
  intros Hall. revert acc mode n.
  induction Hall as [|it rest Hit _ IH]; intros acc mode n Hmode Hn.
  - destruct Hmode as [-> | [_ ?]]; [| done].
    destruct n as [|n]; [simpl in Hn; lia |].
    rewrite app_nil_r. simpl.
    destruct Hsep as [(-> & -> & ->) | (-> & -> & ->)]; reflexivity.
  - destruct n as [|n]; [simpl in Hn; lia |].
    replace (seps sep (it :: rest) ++ 41%N :: tl)
      with (sep :: formatDtdModel it ++ (seps sep rest ++ 41%N :: tl))
      by (simpl; by rewrite <- app_assoc).
    assert (Htail : tailOk (seps sep rest ++ 41%N :: tl)).
    { apply seps_tail. destruct Hsep as [(-> & _) | (-> & _)]; auto. }
    specialize (Hit _ Htail).
    assert (Hrec : exprLoop s n pt lhs (acc ++ [it]) (Some M) (seps sep rest ++ 41%N :: tl)
                   = pret (mk (acc ++ it :: rest) One, 41%N :: tl)).
    { rewrite IH; [| by left | simpl in Hn; lia].
      by rewrite <- app_assoc. }
    cbn [exprLoop].
    assert (Hw : skipWs (sep :: formatDtdModel it ++ seps sep rest ++ 41%N :: tl)
                 = sep :: formatDtdModel it ++ seps sep rest ++ 41%N :: tl).
    { apply skipWs_head. destruct Hsep as [(-> & _) | (-> & _)]; reflexivity. }
    rewrite Hw.
    destruct Hsep as [(-> & -> & ->) | (-> & -> & ->)]; cbn [N.eqb Pos.eqb orb];
      destruct Hmode as [-> | [-> _]]; cbn [mode_eqb negb];
      rewrite Hit; cbn [pbind pret]; exact Hrec.
Qed.
End Loop.

Lemma format_head m :
  canonical m = true ->
  exists c r, formatDtdModel m = c :: r
              /\ c <> 35%N /\ (c = 40%N \/ isNameStop c = false).
Proof.
  destruct m as [nm o | o | items o | items o]; intros Hc.
  - simpl in Hc. unfold plainName in Hc. destruct nm as [|c nm]; [done |].
    apply andb_true_iff in Hc as [H35 Hn]. simpl in Hn.
    apply andb_true_iff in Hn as [Hs _].
    exists c, (nm ++ occS o). split; [| split].
    + cbn [Dtd.formatDtdModel d_occurs]. by rewrite applyOccurs_app.
    + apply negb_true_iff, N.eqb_neq in H35. exact H35.
    + right. by apply negb_true_iff in Hs.
  - exists 40%N, (lit "#PCDATA)" ++ occS o). split; [| split; [done | by left]].
    cbn [Dtd.formatDtdModel d_occurs]. by rewrite applyOccurs_app.
  - eexists 40%N, _. split; [| split; [done | by left]].
    cbn [Dtd.formatDtdModel d_occurs]. rewrite applyOccurs_app. reflexivity.
  - eexists 40%N, _. split; [| split; [done | by left]].
    cbn [Dtd.formatDtdModel d_occurs]. rewrite applyOccurs_app. reflexivity.
Qed.

Lemma format_not_pcdata m rest :
  canonical m = true ->
  skipWs (formatDtdModel m ++ rest) = formatDtdModel m ++ rest
  /\ startsWith (formatDtdModel m ++ rest) (lit "#PCDATA") = false.
Proof.
  intros Hc. destruct (format_head m Hc) as (c & r & -> & H35 & Hk).
  assert (Hw : isJsSpace c = false).
  { destruct Hk as [-> | Hk]; [done |]. unfold isNameStop in Hk. by destruct (isJsSpace c). }
  split; [by apply skipWs_head |].
  change (lit "#PCDATA") with (35%N :: lit "PCDATA"). cbn [app startsWith].
  destruct (N.eqb_spec 35 c); [congruence | done].
Qed.

Lemma format_length_item (items : list DtdContentModel) sep it :
  it ∈ items -> length (formatDtdModel it) <= length (join [sep] (map formatDtdModel items)).
Proof.
  induction items as [|x items IH]; [by intros ?%elem_of_nil |].
  intros Hin. destruct items as [|y items].
  - apply list_elem_of_singleton in Hin as ->. done.
  - change (join [sep] (map formatDtdModel (x :: y :: items)))
      with (formatDtdModel x ++ [sep] ++ join [sep] (map formatDtdModel (y :: items))).
    rewrite !length_app.
    apply elem_of_cons in Hin as [-> | Hin]; [lia |].
    specialize (IH Hin). lia.
Qed.

Lemma group_shape (a b tl : str) :
  (lit "(" ++ (a ++ b) ++ lit ")") ++ tl = 40%N :: a ++ (b ++ 41%N :: tl).
Proof. simpl. by rewrite <- !app_assoc. Qed.

(** A group: its items, parsed one after the other, give the node. *)
Lemma parseTerm_group f sep M mk items o tail :
  (sep = 44%N /\ M = ModeSEQ /\ mk = SEQ) \/ (sep = 124%N /\ M = ModeCHOICE /\ mk = CHOICE) ->
  (2 <=? length items) = true ->
  forallb canonical items = true ->
  Forall (fun it => forall tail, tailOk tail ->
            parseTerm s (parseExpr s f) (formatDtdModel it ++ tail) = pret (it, tail)) items ->
  tailOk tail ->
  parseTerm s (parseExpr s (S f))
    ((lit "(" ++ join [sep] (map formatDtdModel items) ++ lit ")") ++ occS o ++ tail)
  = pret (mk items o, tail).
Proof.
  intros Hsep Hlen Hcan Hall Ht.
  destruct items as [|i1 rest]; [done |].
  destruct rest as [|i2 rest']; [done |].
  set (rest := i2 :: rest') in *.
  assert (Hmk : withOccurs (mk (i1 :: rest) One) o = mk (i1 :: rest) o
                /\ d_occurs (mk (i1 :: rest) One) = One).
  { destruct Hsep as [(_ & _ & ->) | (_ & _ & ->)]; by split. }
  destruct Hmk as [Hmk1 Hmk2]. rewrite <- Hmk1.
  apply parseTerm_of_atom; [| done | done].
  rewrite join_seps.
  rewrite group_shape.
  rewrite skipWs_head by done. rewrite parseAtom_group. cbn zeta.
  cbn [forallb] in Hcan. apply andb_true_iff in Hcan as [Hc1 Hcr].
  destruct (format_not_pcdata i1 (seps sep rest ++ 41%N :: (occS o ++ tail)) Hc1)
    as [Hw Hp].
  rewrite Hw, Hp.
  inversion Hall as [|? ? H1 Hrest]; subst.
  cbn [parseExpr].
  rewrite H1 by (apply seps_tail; destruct Hsep as [(-> & _) | (-> & _)]; auto).
  cbn [pbind pret].
  rewrite skipWs_tail by (apply seps_tail; destruct Hsep as [(-> & _) | (-> & _)]; auto).
  rewrite (exprLoop_items (parseTerm s (parseExpr s f)) i1 sep M mk Hsep rest [i1] None
             _ (occS o ++ tail) Hrest).
  - cbn [pbind pret app]. rewrite skipWs_head by done.
    simpl. reflexivity.
  - right. by split.
  - rewrite length_app. unfold rest. simpl.
    rewrite length_app. simpl.
    assert (Hl : length rest' <= length (seps sep rest')).
    { clear. induction rest' as [|x r IH]; simpl; [lia |]. rewrite length_app. lia. }
    lia.
Qed.

Lemma parseTerm_format m :
  canonical m = true ->
  forall f tail,
    length (formatDtdModel m) <= f -> tailOk tail ->
    parseTerm s (parseExpr s f) (formatDtdModel m ++ tail) = pret (m, tail).
Proof.
  induction m as [nm o | o | items o IH | items o IH] using DtdContentModel_rect';
    intros Hc f tail Hf Ht.
  - cbn [Dtd.formatDtdModel d_occurs]. rewrite applyOccurs_app, <- app_assoc.
    simpl in Hc. unfold plainName in Hc. destruct nm as [|c nm]; [done |].
    apply andb_true_iff in Hc as [_ Hn].
    change (NAME (c :: nm) o) with (withOccurs (NAME (c :: nm) One) o).
    apply parseTerm_of_atom; [| done | done].
    assert (Hstop : isNameStop c = false).
    { simpl in Hn. apply andb_true_iff in Hn as [Hs _]. by apply negb_true_iff in Hs. }
    assert (Hw : isJsSpace c = false).
    { unfold isNameStop in Hstop. by destruct (isJsSpace c). }
    change ((c :: nm) ++ occS o ++ tail) with (c :: (nm ++ occS o ++ tail)).
    rewrite skipWs_head by done. rewrite parseAtom_name by done.
    change (c :: nm ++ occS o ++ tail) with ((c :: nm) ++ occS o ++ tail).
    rewrite (readName_plain (c :: nm) (occS o ++ tail) Hn (occ_tail_stop o tail Ht))
      by done.
    reflexivity.
  - cbn [Dtd.formatDtdModel d_occurs]. rewrite applyOccurs_app, <- app_assoc.
    change (PCDATA o) with (withOccurs (PCDATA One) o).
    apply parseTerm_of_atom; [| done | done]. reflexivity.
  - cbn [canonical] in Hc. apply andb_true_iff in Hc as [Hlen Hcan].
    cbn [Dtd.formatDtdModel d_occurs] in Hf |- *. rewrite applyOccurs_app in Hf |- *.
    rewrite <- app_assoc.
    destruct f as [|f]; [rewrite !length_app in Hf; simpl in Hf; lia |].
    rewrite (app_assoc _ (occS o) tail).
    replace ((lit "(" ++ join (lit ",") (map formatDtdModel items) ++ lit ")") ++ occS o)
      with ((lit "(" ++ join [44%N] (map formatDtdModel items) ++ lit ")") ++ occS o)
      by reflexivity.
    rewrite <- app_assoc.
    apply (parseTerm_group f 44%N ModeSEQ SEQ); [by left | done | done | | done].
    apply Forall_forall. intros it Hin tl Htl.
    rewrite Forall_forall in IH. apply (IH it Hin); [| | done].
    + rewrite forallb_forall in Hcan. apply Hcan. by apply list_elem_of_In.
    + pose proof (format_length_item items 44%N it Hin) as Hl.
      rewrite !length_app in Hf. simpl in Hf.
      change (lit ",") with [44%N] in Hf. lia.
  - cbn [canonical] in Hc. apply andb_true_iff in Hc as [Hlen Hcan].
    cbn [Dtd.formatDtdModel d_occurs] in Hf |- *. rewrite applyOccurs_app in Hf |- *.
    rewrite <- app_assoc.
    destruct f as [|f]; [rewrite !length_app in Hf; simpl in Hf; lia |].
    rewrite (app_assoc _ (occS o) tail).
    replace ((lit "(" ++ join (lit "|") (map formatDtdModel items) ++ lit ")") ++ occS o)
      with ((lit "(" ++ join [124%N] (map formatDtdModel items) ++ lit ")") ++ occS o)
      by reflexivity.
    rewrite <- app_assoc.
    apply (parseTerm_group f 124%N ModeCHOICE CHOICE); [by right | done | done | | done].
    apply Forall_forall. intros it Hin tl Htl.
    rewrite Forall_forall in IH. apply (IH it Hin); [| | done].
    + rewrite forallb_forall in Hcan. apply Hcan. by apply list_elem_of_In.
    + pose proof (format_length_item items 124%N it Hin) as Hl.
      rewrite !length_app in Hf. simpl in Hf.
      change (lit "|") with [124%N] in Hf. lia.
Qed.
End Parser.

Lemma parse_format m :
  canonical m = true -> parse (formatDtdModel m) = Some (Ok m).
Proof.
  intros Hc. unfold parse. cbn [parseExpr].
  pose proof (parseTerm_format (formatDtdModel m) m Hc (length (formatDtdModel m)) []
                (le_n _) I) as H.
  rewrite app_nil_r in H. rewrite H. cbn [pbind pret].
  reflexivity.
Qed.

End DtdRoundTripFacts.

(** X12. The content-model parser reads back what [formatDtdModel]
    writes: for a model whose names are plain and whose groups have two
    items or more, parsing the formatted text returns the model. *)
Theorem X12_dtd_parse_format_round_trip m :
  ModelShape.canonical m = true ->
  DtdIndexBuilder.parse (Dtd.formatDtdModel m) = Some (Ok m).
Proof. apply DtdRoundTripFacts.parse_format. Qed.

Lemma X12_witness :
  DtdIndexBuilder.parse (Dtd.formatDtdModel sample_nestedModel)
  = Some (Ok sample_nestedModel).
Proof. apply (X12_dtd_parse_format_round_trip sample_nestedModel). reflexivity. Defined.

(** ** Models that accept an element without children *)

Module DtdNullableFacts.
Import Dtd DtdSemantics DtdMatcherFacts ModelEmptiness.

Section Same.
Context (children : list str).

Local Abbreviation reach := (DtdSemantics.reach children).
Local Abbreviation once := (reachOnce children reach).

Lemma once_mono node p e : once node p e -> p <= e.
Proof.
  intros H. eapply (reachOnce_bound children); [| exact H].
  apply Forall_forall. intros it _ p' e'. apply reach_bound.
Qed.

Lemma iter_mono node k p e : iter (once node) k p e -> p <= e.
Proof.
  revert p. induction k as [|k IH]; intros p; simpl; [intros ->; lia |].
  intros (q & Hq & H). apply once_mono in Hq. apply IH in H. lia.
Qed.

Lemma iter_same node k p : iter (once node) (S k) p p -> once node p p.
Proof.
  simpl. intros (q & Hq & H).
  pose proof (once_mono _ _ _ Hq). pose proof (iter_mono _ _ _ _ H).
  by replace q with p in Hq by lia.
Qed.

Lemma reach_same_once node p :
  reach node p p <-> optional (d_occurs node) = true \/ once node p p.
Proof.
  rewrite reach_unfold. split.
  - intros (k & Hr & H). destruct k as [|k].
    + destruct (d_occurs node); simpl in Hr; [lia | by left | by left | lia].
    + right. by apply iter_same in H.
  - intros [Ho | H].
    + exists 0. split; [| done]. destruct (d_occurs node); simpl in *; [done | lia | done | done].
    + exists 1. split; [destruct (d_occurs node); simpl; lia |].
      simpl. by exists p.
Qed.

Lemma chain_same (its : list DtdContentModel) p :
  chain reach its p p <-> Forall (fun it => reach it p p) its.
Proof.
  induction its as [|it its IH]; simpl.
  - split; [intros _; constructor | done].
  - split.
    + intros (m & Hm & H).
      assert (Hle : m <= p).
      { clear IH Hm. revert m H. induction its as [|x its IHi]; simpl; intros m.
        - intros ->. lia.
        - intros (q & Hq & H). apply reach_bound in Hq. apply IHi in H. lia. }
      assert (Hge : p <= m) by (apply reach_bound in Hm; lia).
      assert (m = p) as -> by lia. constructor; [done | by apply IH].
    + intros H. inversion H; subst. exists p. split; [done | by apply IH].
Qed.

Lemma alt_same (its : list DtdContentModel) p e :
  alt reach its p e <-> Exists (fun it => reach it p e) its.
Proof.
  induction its as [|it its IH]; simpl.
  - split; [done | by intros ?%Exists_nil].
  - rewrite Exists_cons, IH. tauto.
Qed.

Lemma reach_same node p : reach node p p <-> nullable node = true.
Proof.
  induction node as [nm o | o | items o IH | items o IH] using DtdContentModel_rect';
    rewrite reach_same_once; cbn [d_occurs nullable reachOnce].
  - split; [intros [? | [_ ?]]; [done | lia] | by left].
  - split; [done | by right].
  - rewrite chain_same, orb_true_iff, forallb_forall, !Forall_forall.
    rewrite Forall_forall in IH.
    split; (intros [? | H]; [by left | right]); intros it Hin.
    + apply IH; [by apply list_elem_of_In | apply H; by apply list_elem_of_In].
    + apply IH; [done | apply H; by apply list_elem_of_In].
  - rewrite alt_same, orb_true_iff, existsb_exists, Exists_exists.
    rewrite Forall_forall in IH.
    split; (intros [? | (it & Hin & H)]; [by left | right]); exists it.
    + split; [by apply list_elem_of_In | by apply IH].
    + apply list_elem_of_In in Hin. split; [done | by apply IH].
Qed.
End Same.

Lemma matchesDtdModel_empty model :
  matchesDtdModel [] model = true <-> nullable model = true.
Proof. rewrite matchesDtdModel_reach. apply (reach_same [] model 0). Qed.

End DtdNullableFacts.

(** X13. An element without child elements matches a content model
    exactly when the model is nullable: it is optional or starred, or
    it is [#PCDATA], a sequence of nullable items, or a choice with a
    nullable item. *)
Theorem X13_dtd_empty_children_iff_nullable model :
  Dtd.matchesDtdModel [] model = true <-> ModelEmptiness.nullable model = true.
Proof. apply DtdNullableFacts.matchesDtdModel_empty. Qed.

(** ** The XSD validator comes to an end when no group refers to itself *)

Module XsdTerminationFacts.
Import Xsd GroupRanks XsdFacts.

Lemma XsdParticle_ind' (P : XsdParticle -> Prop) :
  (forall o, P (PEmpty o)) ->
  (forall n o, P (PElement n o)) ->
  (forall items o, Forall P items -> P (PSequence items o)) ->
  (forall items o, Forall P items -> P (PChoice items o)) ->
  (forall items o, Forall P items -> P (PAll items o)) ->
  (forall r o, P (PGroupRef r o)) ->
  (forall o, P (PAny o)) ->
  forall p, P p.
Proof.
  intros He Hn Hs Hc Ha Hg Hy. fix IH 1.
  intros [o | n o | items o | items o | items o | r o | o].
  - apply He.
  - apply Hn.
  - apply Hs. induction items as [|it items IHi]; constructor; [apply IH | exact IHi].
  - apply Hc. induction items as [|it items IHi]; constructor; [apply IH | exact IHi].
  - apply Ha. induction items as [|it items IHi]; constructor; [apply IH | exact IHi].
  - apply Hg.
  - apply Hy.
Qed.

(** The computation returns whatever the memo table holds. *)
Local Abbreviation total c := (forall memo : Memo, exists r, c memo = Some r).

Lemma mbind_total {A B} (c : M A) (k : A -> M B) :
  total c -> (forall x, total (k x)) -> total (mbind c k).
Proof.
  intros Hc Hk memo. unfold mbind. destruct (Hc memo) as [[x m'] ->]. apply Hk.
Qed.

Lemma mret_total {A} (x : A) : total (mret x).
Proof. intros memo. by eexists. Qed.

Section Loops.
Context (once : nat -> M (list nat)).
Hypothesis Honce : forall p, total (once p).

Lemma xsd_collect_total current next : total (collect once current next).
Proof.
  revert next. induction current as [|p rest IH]; intros next; cbn [collect].
  - apply mret_total.
  - apply mbind_total; [apply Honce | intros es; apply IH].
Qed.

Lemma xsd_required_total n current : total (required n once current).
Proof.
  revert current. induction n as [|n IH]; intros current; cbn [required].
  - apply mret_total.
  - apply mbind_total; [apply xsd_collect_total |].
    intros next. destruct (is_nil next); [apply mret_total | apply IH].
Qed.

Lemma xsd_extras_total n prev results : total (extras n once prev results).
Proof.
  revert prev results. induction n as [|n IH]; intros prev results; cbn [extras].
  - apply mret_total.
  - apply mbind_total; [apply xsd_collect_total |].
    intros next. destruct (is_nil next || _); [apply mret_total | apply IH].
Qed.

Lemma xsd_matchBody_total children node id pos :
  total (matchBody children once node id pos).
Proof.
  unfold matchBody. apply mbind_total; [apply xsd_required_total |].
  intros [current |].
  - apply mbind_total; [apply xsd_extras_total |]. intros results memo. by eexists.
  - intros memo. by eexists.
Qed.
End Loops.

Lemma xsd_seqLoop_total rec id its k positions :
  Forall (fun it => forall id pos, total (rec it id pos)) its ->
  total (seqLoop rec id its k positions).
Proof.
  intros Hall. revert k positions.
  induction Hall as [|it its Hit _ IH]; intros k positions; cbn [seqLoop].
  - apply mret_total.
  - apply mbind_total; [apply xsd_collect_total; intros p; apply Hit |].
    intros next. destruct (is_nil next); [apply mret_total | apply IH].
Qed.

Lemma xsd_altLoop_total rec id pos its k out :
  Forall (fun it => forall id pos, total (rec it id pos)) its ->
  total (altLoop rec id pos its k out).
Proof.
  intros Hall. revert k out.
  induction Hall as [|it its Hit _ IH]; intros k out; cbn [altLoop].
  - apply mret_total.
  - apply mbind_total; [apply Hit | intros es; apply IH].
Qed.

Section Ranked.
Context (xsd : XsdIndex) (rank : str -> nat).
Hypothesis Hacyclic : acyclic xsd rank.

Lemma refsBelow_mono n m p :
  n <= m -> refsBelow xsd rank n p = true -> refsBelow xsd rank m p = true.
Proof.
  intros Hnm. induction p as [o | nm o | items o IH | items o IH | items o IH | r o | o]
    using XsdParticle_ind'; cbn [refsBelow]; try done.
  - rewrite !forallb_forall. intros H it Hin. rewrite Forall_forall in IH.
    apply IH; [by apply list_elem_of_In | by apply H].
  - rewrite !forallb_forall. intros H it Hin. rewrite Forall_forall in IH.
    apply IH; [by apply list_elem_of_In | by apply H].
  - rewrite !forallb_forall. intros H it Hin. rewrite Forall_forall in IH.
    apply IH; [by apply list_elem_of_In | by apply H].
  - destruct (groups xsd !! r); [| done].
    intros H. apply Nat.ltb_lt in H. apply Nat.ltb_lt. lia.
Qed.

Lemma match_total children fuel :
  forall p, refsBelow xsd rank fuel p = true ->
            forall id pos, total (match_ fuel xsd children p id pos).
Proof.
  induction fuel as [|f IHf].
  - induction p as [o | nm o | items o IH | items o IH | items o IH | r o | o]
      using XsdParticle_ind'; intros Hr id pos memo; rewrite xsd_match_unfold;
      (destruct (memo !! (id, pos)); [by eexists |]);
      apply xsd_matchBody_total; intros q; cbn [matchOnce]; try apply mret_total.
    + apply xsd_seqLoop_total. cbn [refsBelow] in Hr. rewrite forallb_forall in Hr.
      rewrite Forall_forall in IH |- *. intros it Hin. apply IH; [done |].
      apply Hr. by apply list_elem_of_In.
    + apply xsd_altLoop_total. cbn [refsBelow] in Hr. rewrite forallb_forall in Hr.
      rewrite Forall_forall in IH |- *. intros it Hin. apply IH; [done |].
      apply Hr. by apply list_elem_of_In.
    + cbn [refsBelow] in Hr. destruct (groups xsd !! r); [| apply mret_total].
      apply Nat.ltb_lt in Hr. lia.
  - induction p as [o | nm o | items o IH | items o IH | items o IH | r o | o]
      using XsdParticle_ind'; intros Hr id pos memo; rewrite xsd_match_unfold;
      (destruct (memo !! (id, pos)); [by eexists |]);
      apply xsd_matchBody_total; intros q; cbn [matchOnce]; try apply mret_total.
    + apply xsd_seqLoop_total. cbn [refsBelow] in Hr. rewrite forallb_forall in Hr.
      rewrite Forall_forall in IH |- *. intros it Hin. apply IH; [done |].
      apply Hr. by apply list_elem_of_In.
    + apply xsd_altLoop_total. cbn [refsBelow] in Hr. rewrite forallb_forall in Hr.
      rewrite Forall_forall in IH |- *. intros it Hin. apply IH; [done |].
      apply Hr. by apply list_elem_of_In.
    + cbn [refsBelow] in Hr. destruct (groups xsd !! r) as [g|] eqn:Eg; [| apply mret_total].
      apply Nat.ltb_lt in Hr. apply IHf.
      apply (refsBelow_mono (rank r)); [lia | by apply Hacyclic].
Qed.

Lemma matchesParticle_total fuel p kids :
  refsBelow xsd rank fuel p = true -> exists b, matchesParticle fuel p kids xsd = Some b.
Proof.
  intros Hr. unfold matchesParticle.
  destruct (match_total kids fuel p Hr (None, []) 0 ∅) as [[ends m] ->]. by eexists.
Qed.

Local Abbreviation eachReq go :=
  (fix each (its : list XsdParticle) : option bool :=
     match its with
     | [] => Some true
     | it :: rest =>
         match go it with
         | None => None
         | Some false => Some false
         | Some true => each rest
         end
     end).

Local Abbreviation someReq go :=
  (fix some (its : list XsdParticle) : option bool :=
     match its with
     | [] => Some false
     | it :: rest =>
         match go it with
         | None => None
         | Some true => Some true
         | Some false => some rest
         end
     end).

Lemma eachReq_total (go : XsdParticle -> option bool) items :
  Forall (fun it => exists b, go it = Some b) items -> exists b, eachReq go items = Some b.
Proof.
  induction 1 as [|it items [b Hb] _ IH]; [by eexists |].
  cbn. rewrite Hb. destruct b; [exact IH | by eexists].
Qed.

Lemma someReq_total (go : XsdParticle -> option bool) items :
  Forall (fun it => exists b, go it = Some b) items -> exists b, someReq go items = Some b.
Proof.
  induction 1 as [|it items [b Hb] _ IH]; [by eexists |].
  cbn. rewrite Hb. destruct b; [by eexists | exact IH].
Qed.

Lemma required_unfold fuel kids p :
  requiredChildrenSatisfied fuel xsd kids p
  = match p with
    | PEmpty _ | PAny _ => Some true
    | PElement name o => Some (omin o <=? Z.of_nat (countForName name kids xsd))%Z
    | PSequence items o | PAll items o =>
        if (omin o =? 0)%Z then Some true
        else eachReq (requiredChildrenSatisfied fuel xsd kids) items
    | PChoice items o =>
        if (omin o =? 0)%Z then Some true
        else someReq (requiredChildrenSatisfied fuel xsd kids) items
    | PGroupRef ref o =>
        if (omin o =? 0)%Z then Some true else
        match groups xsd !! ref with
        | None => Some true
        | Some group =>
            match fuel with
            | O => None
            | S f => requiredChildrenSatisfied f xsd kids group
            end
        end
    end.
Proof. destruct fuel; destruct p; reflexivity. Qed.

Lemma requiredChildrenSatisfied_total kids fuel :
  forall p, refsBelow xsd rank fuel p = true ->
            exists b, requiredChildrenSatisfied fuel xsd kids p = Some b.
Proof.
  induction fuel as [|f IHf];
    induction p as [o | nm o | items o IH | items o IH | items o IH | r o | o]
      using XsdParticle_ind'; intros Hr; rewrite required_unfold; try (by eexists);
    try (destruct (omin o =? 0)%Z; [by eexists |]);
    cbn [refsBelow] in Hr.
  - apply eachReq_total. rewrite forallb_forall in Hr. rewrite Forall_forall in IH |- *.
    intros it Hin. apply IH; [done | apply Hr; by apply list_elem_of_In].
  - apply someReq_total. rewrite forallb_forall in Hr. rewrite Forall_forall in IH |- *.
    intros it Hin. apply IH; [done | apply Hr; by apply list_elem_of_In].
  - apply eachReq_total. rewrite forallb_forall in Hr. rewrite Forall_forall in IH |- *.
    intros it Hin. apply IH; [done | apply Hr; by apply list_elem_of_In].
  - destruct (groups xsd !! r); [| by eexists]. apply Nat.ltb_lt in Hr. lia.
  - apply eachReq_total. rewrite forallb_forall in Hr. rewrite Forall_forall in IH |- *.
    intros it Hin. apply IH; [done | apply Hr; by apply list_elem_of_In].
  - apply someReq_total. rewrite forallb_forall in Hr. rewrite Forall_forall in IH |- *.
    intros it Hin. apply IH; [done | apply Hr; by apply list_elem_of_In].
  - apply eachReq_total. rewrite forallb_forall in Hr. rewrite Forall_forall in IH |- *.
    intros it Hin. apply IH; [done | apply Hr; by apply list_elem_of_In].
  - destruct (groups xsd !! r) as [g|] eqn:Eg; [| by eexists].
    apply Nat.ltb_lt in Hr. apply IHf.
    apply (refsBelow_mono (rank r)); [lia | by apply Hacyclic].
Qed.

Lemma validateChildren_total fuel el elementName def here :
  refsBelow xsd rank fuel (xe_content def) = true ->
  exists errs, validateChildren fuel el elementName def here xsd = Some errs.
Proof.
  intros Hr. unfold validateChildren.
  destruct (filterCompatChildren (kidNamesOf el)) as [compat same].
  destruct (matchesParticle_total fuel _ (kidNamesOf el) Hr) as [b1 ->].
  destruct (matchesParticle_total fuel _ compat Hr) as [b2 H2].
  destruct (requiredChildrenSatisfied_total compat fuel _ Hr) as [b3 ->].
  destruct b1; cbn [orElse]; [by eexists |].
  destruct same.
  - destruct (has elementName RELAXED_CHILD_ORDER && _); [destruct b3 |]; by eexists.
  - rewrite H2. destruct b2; [by eexists |].
    destruct (has elementName RELAXED_CHILD_ORDER && _); [destruct b3 |]; by eexists.
Qed.

Section Walk.
Context (fuel : nat) (expectedRoot : str).
Hypothesis Hcontents : contentsBelow xsd rank fuel.

Lemma resolveElementDef_content name def :
  resolveElementDef name xsd = Some def ->
  refsBelow xsd rank fuel (xe_content def) = true.
Proof.
  unfold resolveElementDef.
  destruct (elements xsd !! name) as [d|] eqn:E; [| done].
  destruct (truthy (substitutionGroupFor xsd !! name)) as [head|].
  - destruct (elements xsd !! head) as [d'|] eqn:E'; intros [= <-]; by eapply Hcontents.
  - intros [= <-]. by eapply Hcontents.
Qed.

Local Abbreviation hereOf el path_ :=
  (match path_ with
   | [] => lit "/" ++ localName (el_name el)
   | _ => path_ ++ lit "/" ++ localName (el_name el)
   end)%list.

Local Abbreviation kidsWalk here ks :=
  (foldr (fun k acc =>
            match walk fuel expectedRoot xsd k here with
            | None => None
            | Some e1 =>
                match acc with
                | None => None
                | Some e2 => Some (e1 ++ e2)
                end
            end) (Some []) ks).

Lemma xsd_walk_eq el path_ :
  walk fuel expectedRoot xsd el path_
  = match
      match resolveElementDef (localName (el_name el)) xsd with
      | None =>
          Some [{| path := hereOf el path_;
                   msg := lit "Element <" ++ localName (el_name el)
                          ++ lit "> not declared in XSD" |}]
      | Some def =>
          match validateChildren fuel el (localName (el_name el)) def
                  (hereOf el path_) xsd with
          | None => None
          | Some ce =>
              Some (validateAttrs el (localName (el_name el)) def (hereOf el path_) ++ ce)
          end
      end
    with
    | None => None
    | Some ownErrs =>
        match kidsWalk (hereOf el path_) (childElements el) with
        | None => None
        | Some kidErrs =>
            Some ((if is_nil path_ && negb (str_eqb (localName (el_name el)) expectedRoot)
                   then [{| path := hereOf el path_;
                            msg := lit "Root must be <" ++ expectedRoot ++ lit ">" |}]
                   else []) ++ ownErrs ++ kidErrs)
        end
    end.
Proof.
  destruct el as [nm a cs | v |]; [| reflexivity | reflexivity].
  cbn [walk el_name].
  match goal with
  | |- match ?o with _ => _ end = match ?o' with _ => _ end =>
      change o' with o; destruct o as [ownErrs|]; [| reflexivity]
  end.
  match goal with
  | |- match ?k with _ => _ end = match ?k' with _ => _ end =>
      assert (Hk : k = k'); [| by rewrite Hk]
  end.
  unfold childElements. cbn [el_children].
  generalize (match path_ with
              | [] => lit "/" ++ localName nm
              | _ => path_ ++ lit "/" ++ localName nm
              end). intros here.
  induction cs as [|c cs IH]; [reflexivity |].
  destruct c as [nm' a' cs' | v |].
  - rewrite filter_cons_True by done. cbn [foldr].
    destruct (walk fuel expectedRoot xsd (Element nm' a' cs') here); [| reflexivity].
    by rewrite IH.
  - rewrite filter_cons_False by done. exact IH.
  - rewrite filter_cons_False by done. exact IH.
Qed.

Lemma walk_total el path_ :
  exists errs, walk fuel expectedRoot xsd el path_ = Some errs.
Proof.
  revert path_. induction el as [nm a cs IH | v |] using DtdWalkFacts.Node_ind';
    intros path_; rewrite xsd_walk_eq.
  - assert (Hown : exists e,
      match resolveElementDef (localName (el_name (Element nm a cs))) xsd with
      | None =>
          Some [{| path := hereOf (Element nm a cs) path_;
                   msg := lit "Element <" ++ localName (el_name (Element nm a cs))
                          ++ lit "> not declared in XSD" |}]
      | Some def =>
          match validateChildren fuel (Element nm a cs)
                  (localName (el_name (Element nm a cs))) def
                  (hereOf (Element nm a cs) path_) xsd with
          | None => None
          | Some ce =>
              Some (validateAttrs (Element nm a cs)
                      (localName (el_name (Element nm a cs))) def
                      (hereOf (Element nm a cs) path_) ++ ce)
          end
      end = Some e).
    { destruct (resolveElementDef _ xsd) as [def|] eqn:Ed; [| by eexists].
      destruct (validateChildren_total fuel (Element nm a cs)
                  (localName (el_name (Element nm a cs))) def
                  (hereOf (Element nm a cs) path_)
                  (resolveElementDef_content _ _ Ed)) as [ce ->]. by eexists. }
    destruct Hown as [e ->].
    assert (Hkids : exists ks,
              kidsWalk (hereOf (Element nm a cs) path_)
                (childElements (Element nm a cs)) = Some ks).
    { unfold childElements. cbn [el_children].
      generalize (hereOf (Element nm a cs) path_). intros here. clear e.
      induction IH as [|c cs' Hc _ IHcs]; [by eexists |].
      destruct IHcs as [ks Hks].
      destruct (decide (is_element c = true)) as [He | He].
      - rewrite filter_cons_True by done. cbn [foldr].
        destruct (Hc here) as [e1 ->]. rewrite Hks. by eexists.
      - rewrite filter_cons_False by done. by eexists. }
    destruct Hkids as [ks ->]. by eexists.
  - change (childElements (Text v)) with (@nil Node). cbn [foldr].
    destruct (resolveElementDef _ xsd) as [def|] eqn:Ed; [| by eexists].
    destruct (validateChildren_total fuel (Text v) (localName (el_name (Text v))) def
                (hereOf (Text v) path_) (resolveElementDef_content _ _ Ed)) as [ce ->].
    by eexists.
  - change (childElements Other) with (@nil Node). cbn [foldr].
    destruct (resolveElementDef _ xsd) as [def|] eqn:Ed; [| by eexists].
    destruct (validateChildren_total fuel Other (localName (el_name Other)) def
                (hereOf Other path_) (resolveElementDef_content _ _ Ed)) as [ce ->].
    by eexists.
Qed.

Lemma validateAgainstXsd_total root :
  exists out, validateAgainstXsd fuel root expectedRoot xsd = Some out.
Proof.
  unfold validateAgainstXsd. destruct (walk_total root []) as [errs ->].
  destruct errs; by eexists.
Qed.
End Walk.
End Ranked.

End XsdTerminationFacts.

(** X14. When no group of the index refers to itself, directly or
    through other groups (the references inside every group go to groups
    of lower rank), [validateAgainstXsd] comes to an end on every
    document: it returns or throws its one error. The fuel only has to
    exceed the ranks of the groups the element contents refer to. *)
Theorem X14_xsd_validation_ends_without_cyclic_groups
    xsd rank fuel root expectedRoot :
  GroupRanks.acyclic xsd rank ->
  GroupRanks.contentsBelow xsd rank fuel ->
  exists out, Xsd.validateAgainstXsd fuel root expectedRoot xsd = Some out.
Proof.
  intros Ha Hc. by apply (XsdTerminationFacts.validateAgainstXsd_total xsd rank Ha).
Qed.

Lemma X14_witness :
  exists out,
    Xsd.validateAgainstXsd 1 sample_groupDocument (lit "e") sample_groupIndex = Some out.
Proof.
  apply (X14_xsd_validation_ends_without_cyclic_groups sample_groupIndex (fun _ => 0)).
  - intros g p Hg. cbn [groups sample_groupIndex] in Hg.
    apply lookup_singleton_Some in Hg as [_ <-]. reflexivity.
  - intros name def Hd. cbn [elements sample_groupIndex] in Hd.
    apply lookup_singleton_Some in Hd as [_ <-]. reflexivity.
Defined.

(** ** The element names under a particle *)

Module CollectNamesFacts.
Import XsdIndexBuilder ParticleNames.

Local Abbreviation collect := collectElementNamesFromParticle.

Local Abbreviation eachOf fuel groups seen :=
  (fix each (its : list XsdParticle) (names : list str) : option (list str) :=
     match its with
     | [] => Some names
     | it :: rest =>
         match collect fuel groups it names seen with
         | None => None
         | Some names' => each rest names'
         end
     end).

Lemma collect_items fuel groups items o names seen :
  collect fuel groups (PSequence items o) names seen = eachOf fuel groups seen items names
  /\ collect fuel groups (PChoice items o) names seen = eachOf fuel groups seen items names
  /\ collect fuel groups (PAll items o) names seen = eachOf fuel groups seen items names.
Proof. destruct fuel; repeat split; reflexivity. Qed.

Lemma collect_element fuel groups n o names seen :
  collect fuel groups (PElement n o) names seen = Some (set_add n names).
Proof. destruct fuel; reflexivity. Qed.

Lemma collect_leaf fuel groups o names seen :
  collect fuel groups (PEmpty o) names seen = Some names
  /\ collect fuel groups (PAny o) names seen = Some names.
Proof. destruct fuel; split; reflexivity. Qed.

Lemma collect_group fuel groups r o names seen :
  collect fuel groups (PGroupRef r o) names seen =
  if has r seen then Some names else
  match groups !! r with
  | Some g =>
      match fuel with
      | O => None
      | S f => collect f groups g names (set_add r seen)
      end
  | None => Some names
  end.
Proof. destruct fuel; reflexivity. Qed.

Section Facts.
Context (groups : gmap str XsdParticle).

(** The groups that have not been entered. *)
Local Abbreviation unseen seen := (size (dom groups ∖ list_to_set seen : gset str)).

Lemma unseen_pos r g seen :
  groups !! r = Some g -> has r seen = false -> 0 < unseen seen.
Proof.
  intros Hg Hs.
  assert (r ∈ (dom groups ∖ list_to_set seen : gset str)) as Hin.
  { apply elem_of_difference. split; [by apply elem_of_dom|].
    rewrite elem_of_list_to_set. by apply has_false. }
  destruct (decide (unseen seen = 0)) as [E|]; [|lia].
  apply size_empty_inv in E. set_solver.
Qed.

Lemma unseen_add r g seen :
  groups !! r = Some g -> has r seen = false -> unseen (set_add r seen) < unseen seen.
Proof.
  intros Hg Hs. apply subset_size. 
  assert (r ∉ seen) as Hn by (by apply has_false).
  split.
  - intros x. rewrite !elem_of_difference, !elem_of_list_to_set, set_add_elem. tauto.
  - intros Hsub. specialize (Hsub r).
    rewrite !elem_of_difference, !elem_of_list_to_set, set_add_elem in Hsub.
    apply Hsub; [|by left]. split; [by apply elem_of_dom | done].
Qed.

Lemma collect_total fuel : forall p names seen,
  unseen seen <= fuel -> exists out, collect fuel groups p names seen = Some out.
Proof.
  induction fuel as [|f IHf].
  - intros p. induction p as [o|n o|items o IH|items o IH|items o IH|r o|o]
      using XsdTerminationFacts.XsdParticle_ind'; intros names seen Hu.
    1,7: eexists; apply collect_leaf.
    1: eexists; apply collect_element.
    1-3: (destruct (collect_items 0 groups items o names seen) as (E1 & E2 & E3);
          rewrite ?E1, ?E2, ?E3; clear E1 E2 E3 o; revert names; induction IH as [|it items Hit _ IHi]; intros names;
          [by eexists|]; destruct (Hit names seen Hu) as (n1 & ->); apply IHi).
    rewrite collect_group. destruct (has r seen) eqn:Hs; [by eexists|].
    destruct (groups !! r) as [g|] eqn:Hg; [|by eexists].
    pose proof (unseen_pos r g seen Hg Hs). lia.
  - intros p. induction p as [o|n o|items o IH|items o IH|items o IH|r o|o]
      using XsdTerminationFacts.XsdParticle_ind'; intros names seen Hu.
    1,7: eexists; apply collect_leaf.
    1: eexists; apply collect_element.
    1-3: (destruct (collect_items (S f) groups items o names seen) as (E1 & E2 & E3);
          rewrite ?E1, ?E2, ?E3; clear E1 E2 E3 o; revert names; induction IH as [|it items Hit _ IHi]; intros names;
          [by eexists|]; destruct (Hit names seen Hu) as (n1 & ->); apply IHi).
    rewrite collect_group. destruct (has r seen) eqn:Hs; [by eexists|].
    destruct (groups !! r) as [g|] eqn:Hg; [|by eexists].
    apply IHf. pose proof (unseen_add r g seen Hg Hs). lia.
Qed.

Lemma collect_bounds fuel : forall p names seen out,
  collect fuel groups p names seen = Some out ->
  (forall n, n ∈ names -> n ∈ out)
  /\ (forall n, n ∈ out -> n ∈ names \/ occursIn groups n p).
Proof.
  induction fuel as [fuel IHf] using lt_wf_ind.
  intros p. induction p as [o|n o|items o IH|items o IH|items o IH|r o|o]
    using XsdTerminationFacts.XsdParticle_ind'; intros names seen out Hc.
  1,7: (destruct (collect_leaf fuel groups o names seen) as (E1 & E2);
        rewrite ?E1, ?E2 in Hc; inversion Hc; subst; split; auto).
  1: { rewrite collect_element in Hc. inversion Hc; subst. split; intros x.
       - rewrite set_add_elem. auto.
       - rewrite set_add_elem. intros [-> | ?]; [right; constructor | by left]. }
  4: { rewrite collect_group in Hc. destruct (has r seen); [inversion Hc; subst; by split; auto|].
       destruct (groups !! r) as [g|] eqn:Hg; [|inversion Hc; subst; by split; auto].
       destruct fuel as [|f]; [done|].
       apply IHf in Hc as [Hm Hs]; [|lia]. split; [done|].
       intros x Hx. destruct (Hs x Hx) as [?|?]; [by left | right; by econstructor]. }
  all: destruct (collect_items fuel groups items o names seen) as (E1 & E2 & E3);
    rewrite ?E1, ?E2, ?E3 in Hc; clear E1 E2 E3;
    assert ((forall n, n ∈ names -> n ∈ out)
            /\ (forall n, n ∈ out -> n ∈ names \/ exists it, it ∈ items /\ occursIn groups n it))
      as [Hm Hs];
    [ revert names Hc; induction IH as [|it items Hit _ IHi]; intros names Hc;
      [ inversion Hc; subst; split; auto
      | destruct (collect fuel groups it names seen) as [n1|] eqn:E1; [|done];
        destruct (Hit _ _ _ E1) as [Hm1 Hs1]; destruct (IHi _ Hc) as [Hm2 Hs2];
        split; [auto|];
        intros x Hx; destruct (Hs2 x Hx) as [Hx1 | (it' & Hin & Ho)];
        [ destruct (Hs1 x Hx1) as [?|?]; [by left | right; exists it; split; [left | done]]
        | right; exists it'; split; [by right | done] ] ]
    | split; [done|]; intros x Hx; destruct (Hs x Hx) as [? | (it & Hin & Ho)];
      [by left | right; by econstructor] ].
Qed.

Lemma each_item fuel seen it : forall items names out,
  it ∈ items -> eachOf fuel groups seen items names = Some out ->
  exists names1 out1,
    collect fuel groups it names1 seen = Some out1 /\ forall n, n ∈ out1 -> n ∈ out.
Proof.
  induction items as [|i items IHi]; intros names out Hin He.
  - by apply elem_of_nil in Hin.
  - destruct (collect fuel groups i names seen) as [n1|] eqn:E1; [|done].
    apply elem_of_cons in Hin as [-> | Hin].
    + exists names, n1. split; [done|].
      assert (forall its ns o, eachOf fuel groups seen its ns = Some o ->
                forall n, n ∈ ns -> n ∈ o) as Hmono.
      { clear. induction its as [|j its IHj]; intros ns o Ho n Hn.
        - inversion Ho; by subst.
        - destruct (collect fuel groups j ns seen) as [n2|] eqn:E2; [|done].
          eapply IHj; [exact Ho|]. eapply collect_bounds; eauto. }
      intros n Hn. eapply Hmono; eauto.
    + eapply IHi; eauto.
Qed.

Lemma collect_complete : forall h n p,
  occursAt groups n h p ->
  forall fuel names seen out,
    collect fuel groups p names seen = Some out ->
    n ∈ out
    \/ exists r g h', r ∈ seen /\ groups !! r = Some g /\ h' < h /\ occursAt groups n h' g.
Proof.
  induction h as [h IHh] using lt_wf_ind.
  intros n p Hocc fuel names seen out Hc.
  inversion Hocc as [o | h0 items o it Hin Hit | h0 items o it Hin Hit
                    | h0 items o it Hin Hit | h0 r o g Hg Hog]; subst.
  - rewrite collect_element in Hc. inversion Hc; subst. left. apply set_add_elem. by left.
  - destruct (collect_items fuel groups items o names seen) as (E1 & _ & _).
    rewrite E1 in Hc.
    destruct (each_item _ _ _ _ _ _ Hin Hc) as (names1 & out1 & Hc1 & Hsub).
    destruct (IHh h0 ltac:(lia) _ _ Hit _ _ _ _ Hc1) as [? | (r & g & h' & ? & ? & ? & ?)];
      [left; auto | right; exists r, g, h'; repeat split; auto; lia].
  - destruct (collect_items fuel groups items o names seen) as (_ & E1 & _).
    rewrite E1 in Hc.
    destruct (each_item _ _ _ _ _ _ Hin Hc) as (names1 & out1 & Hc1 & Hsub).
    destruct (IHh h0 ltac:(lia) _ _ Hit _ _ _ _ Hc1) as [? | (r & g & h' & ? & ? & ? & ?)];
      [left; auto | right; exists r, g, h'; repeat split; auto; lia].
  - destruct (collect_items fuel groups items o names seen) as (_ & _ & E1).
    rewrite E1 in Hc.
    destruct (each_item _ _ _ _ _ _ Hin Hc) as (names1 & out1 & Hc1 & Hsub).
    destruct (IHh h0 ltac:(lia) _ _ Hit _ _ _ _ Hc1) as [? | (r & g & h' & ? & ? & ? & ?)];
      [left; auto | right; exists r, g, h'; repeat split; auto; lia].
  - pose proof Hc as Hc0. rewrite collect_group in Hc.
    destruct (has r seen) eqn:Hs.
    { right. exists r, g, h0. apply has_true in Hs. repeat split; auto. }
    rewrite Hg in Hc. destruct fuel as [|f]; [done|].
    destruct (IHh h0 ltac:(lia) _ _ Hog _ _ _ _ Hc)
      as [? | (r' & g' & h' & Hr' & Hg' & Hlt & Ho')]; [by left|].
    apply set_add_elem in Hr' as [-> | Hr'].
    + assert (g' = g) as -> by congruence.
      destruct (IHh (S h') ltac:(lia) _ _ (oat_group groups n h' r o g Hg Ho') _ _ _ _ Hc0)
        as [? | (r2 & g2 & h2 & ? & ? & ? & ?)];
        [by left | right; exists r2, g2, h2; repeat split; auto; lia].
    + right. exists r', g', h'. repeat split; auto.
Qed.

Lemma occursIn_at n p : occursIn groups n p -> exists h, occursAt groups n h p.
Proof.
  induction 1 as [o | items o it Hin _ [h IH] | items o it Hin _ [h IH]
                 | items o it Hin _ [h IH] | r o g Hg _ [h IH]];
    [exists 0 | exists (S h) ..]; econstructor; eauto.
Qed.

End Facts.
End CollectNamesFacts.

(** X15. [collectElementNamesFromParticle], started with no group
    entered and allowed as many group entries as the index has groups,
    returns also when groups refer to each other in a circle; the set it
    returns holds the names it was given and the names of the element
    particles that lie in the particle or in a group reached from it,
    and no other. *)
Theorem X15_collect_element_names_reaches_all
    (groups : gmap str XsdParticle) fuel p names :
  size groups <= fuel ->
  exists out,
    XsdIndexBuilder.collectElementNamesFromParticle fuel groups p names [] = Some out
    /\ forall n, n ∈ out <-> n ∈ names \/ ParticleNames.occursIn groups n p.
Proof.
  intros Hf.
  destruct (CollectNamesFacts.collect_total groups fuel p names []) as [out Hc].
  { rewrite <- size_dom in Hf.
    etransitivity; [|exact Hf]. apply subseteq_size. set_solver. }
  exists out. split; [done|]. intros n. split.
  - by apply (CollectNamesFacts.collect_bounds groups fuel p names [] out).
  - intros [Hn | Ho].
    + by apply (CollectNamesFacts.collect_bounds groups fuel p names [] out).
    + apply CollectNamesFacts.occursIn_at in Ho as [h Ho].
      destruct (CollectNamesFacts.collect_complete groups h n p Ho _ _ _ _ Hc)
        as [? | (r & ? & ? & Hr & _)]; [done|].
      by apply elem_of_nil in Hr.
Qed.

Lemma X15_witness :
  exists out,
    XsdIndexBuilder.collectElementNamesFromParticle 1 (groups cyclicIndex)
      sample_groupAndElement [] [] = Some out
    /\ forall n,
         n ∈ out <->
         n ∈ [] \/ ParticleNames.occursIn (groups cyclicIndex) n sample_groupAndElement.
Proof.
  apply (X15_collect_element_names_reaches_all (groups cyclicIndex) 1).
  vm_compute. lia.
Defined.

(** ** The allowed children that are derived from a particle *)

Module DeriveAllowedFacts.
Import XsdIndexBuilder ParticleNames.

Local Abbreviation state := (bool * list str * list str)%type.

Local Abbreviation eachW fuel R :=
  (fix each (its : list XsdParticle) (st : state) : option state :=
     match its with
     | [] => Some st
     | it :: rest =>
         match deriveWalk fuel R it st with
         | None => None
         | Some st' => each rest st'
         end
     end).

Lemma walk_items fuel R items o st :
  deriveWalk fuel R (PSequence items o) st = eachW fuel R items st
  /\ deriveWalk fuel R (PChoice items o) st = eachW fuel R items st
  /\ deriveWalk fuel R (PAll items o) st = eachW fuel R items st.
Proof. destruct fuel, st as [[a ns] S]; repeat split; reflexivity. Qed.

Lemma walk_element fuel R n o a ns S :
  deriveWalk fuel R (PElement n o) (a, ns, S) = Some (a, set_add n ns, S).
Proof. destruct fuel; reflexivity. Qed.

Lemma walk_any fuel R o a ns S :
  deriveWalk fuel R (PAny o) (a, ns, S) = Some (true, ns, S).
Proof. destruct fuel; reflexivity. Qed.

Lemma walk_empty fuel R o st : deriveWalk fuel R (PEmpty o) st = Some st.
Proof. destruct fuel, st as [[a ns] S]; reflexivity. Qed.

Lemma walk_group fuel R r o a ns S :
  deriveWalk fuel R (PGroupRef r o) (a, ns, S) =
  if has r S then Some (a, ns, S) else
  match fuel with
  | O => None
  | S f => deriveWalk f R (R r (set_add r S)) (a, ns, set_add r S)
  end.
Proof. destruct fuel; reflexivity. Qed.

Lemma recorded_items a ns S items o :
  (recorded a ns S (PSequence items o) <-> Forall (recorded a ns S) items)
  /\ (recorded a ns S (PChoice items o) <-> Forall (recorded a ns S) items)
  /\ (recorded a ns S (PAll items o) <-> Forall (recorded a ns S) items).
Proof.
  cbn [recorded].
  assert ((fix all (its : list XsdParticle) : Prop :=
             match its with
             | [] => True
             | it :: rest => recorded a ns S it /\ all rest
             end) items <-> Forall (recorded a ns S) items) as H.
  { induction items as [|it items IH]; [by split; [constructor|] |].
    rewrite IH. split; [intros [? ?]; by constructor | by inversion 1]. }
  by rewrite H.
Qed.

Lemma recorded_mono a ns S a' ns' S' :
  (a = true -> a' = true) -> (forall n, n ∈ ns -> n ∈ ns') -> (forall r, r ∈ S -> r ∈ S') ->
  forall p, recorded a ns S p -> recorded a' ns' S' p.
Proof.
  intros Ha Hn Hs p.
  induction p as [o|n o|items o IH|items o IH|items o IH|r o|o]
    using XsdTerminationFacts.XsdParticle_ind'; cbn [recorded]; auto.
  all: destruct (recorded_items a ns S items o) as (E1 & E2 & E3);
    destruct (recorded_items a' ns' S' items o) as (F1 & F2 & F3);
    cbn [recorded] in E1, E2, E3, F1, F2, F3;
    rewrite ?E1, ?F1; clear E1 E2 E3 F1 F2 F3;
    intros H; induction IH as [|it items Hit _ IHi]; [constructor|];
    inversion H; subst; constructor; auto.
Qed.

Section Facts.
Context (groups : gmap str XsdParticle).

Local Abbreviation R := (resolveGroup groups).
Local Abbreviation body r := (default emptyParticle (groups !! r)).
Local Abbreviation unseen seen := (size (dom groups ∖ list_to_set seen : gset str)).

Lemma R_body r seen : R r seen = body r.
Proof. unfold resolveGroup. destruct (groups !! r); [done|]. by destruct (has r seen). Qed.

(** What a call keeps, what it records, and where that comes from. *)
Local Abbreviation grows a ns S a' ns' S' :=
  ((a = true -> a' = true) /\ (forall n : str, n ∈ ns -> n ∈ ns')
   /\ (forall r : str, r ∈ S -> r ∈ S')).

Local Abbreviation closes S a' ns' S' :=
  (forall r : str, r ∈ S'%list -> r ∉ S -> recorded a' ns' S' (body r)).

Lemma each_inv fuel items :
  Forall (fun it => forall a ns S a' ns' S',
            deriveWalk fuel R it (a, ns, S) = Some (a', ns', S') ->
            grows a ns S a' ns' S'
            /\ recorded a' ns' S' it
            /\ closes S a' ns' S'
            /\ (a' = true -> a = true \/ anyIn groups it)
            /\ (forall n, n ∈ ns' -> n ∈ ns \/ occursIn groups n it)) items ->
  forall a ns S a' ns' S',
    eachW fuel R items (a, ns, S) = Some (a', ns', S') ->
    grows a ns S a' ns' S'
    /\ Forall (recorded a' ns' S') items
    /\ closes S a' ns' S'
    /\ (a' = true -> a = true \/ exists it, it ∈ items /\ anyIn groups it)
    /\ (forall n, n ∈ ns' -> n ∈ ns \/ exists it, it ∈ items /\ occursIn groups n it).
Proof.
  induction 1 as [|it items Hit _ IHi]; intros a ns S a' ns' S' He.
  - inversion He; subst. repeat split; auto. intros; done.
  - destruct (deriveWalk fuel R it (a, ns, S)) as [[[a1 ns1] S1]|] eqn:E1; [|done].
    destruct (Hit _ _ _ _ _ _ E1) as ((Ha1 & Hn1 & HS1) & Hrec1 & Hcl1 & Hany1 & Hnm1).
    destruct (IHi _ _ _ _ _ _ He) as ((Ha2 & Hn2 & HS2) & Hrec2 & Hcl2 & Hany2 & Hnm2).
    repeat split; auto.
    + constructor; [|done]. by apply (recorded_mono a1 ns1 S1).
    + intros r Hr Hn. destruct (decide (r ∈ S1)) as [Hin | Hout].
      * apply (recorded_mono a1 ns1 S1); auto.
      * by apply Hcl2.
    + intros Ht. destruct (Hany2 Ht) as [Ht1 | (it' & Hin & Ho)].
      * destruct (Hany1 Ht1) as [? | ?]; [by left | right; exists it; split; [left | done]].
      * right. exists it'. split; [by right | done].
    + intros x Hx. destruct (Hnm2 x Hx) as [Hx1 | (it' & Hin & Ho)].
      * destruct (Hnm1 x Hx1) as [? | ?]; [by left | right; exists it; split; [left | done]].
      * right. exists it'. split; [by right | done].
Qed.

Lemma walk_inv fuel : forall p a ns S a' ns' S',
  deriveWalk fuel R p (a, ns, S) = Some (a', ns', S') ->
  grows a ns S a' ns' S'
  /\ recorded a' ns' S' p
  /\ closes S a' ns' S'
  /\ (a' = true -> a = true \/ anyIn groups p)
  /\ (forall n, n ∈ ns' -> n ∈ ns \/ occursIn groups n p).
Proof.
  induction fuel as [fuel IHf] using lt_wf_ind.
  intros p. induction p as [o|n o|items o IH|items o IH|items o IH|r o|o]
    using XsdTerminationFacts.XsdParticle_ind'; intros a ns S a' ns' S' Hw.
  - rewrite walk_empty in Hw. inversion Hw; subst. repeat split; auto. intros; done.
  - rewrite walk_element in Hw. inversion Hw; subst. repeat split; auto.
    + intros x. rewrite set_add_elem. auto.
    + cbn. apply set_add_elem. by left.
    + intros; done.
    + intros x. rewrite set_add_elem. intros [-> | ?]; [right; constructor | by left].
  - destruct (walk_items fuel R items o (a, ns, S)) as (E & _ & _). rewrite E in Hw.
    destruct (each_inv fuel items IH _ _ _ _ _ _ Hw) as (Hg & Hrec & Hcl & Hany & Hnm).
    split; [done|]. split; [by apply recorded_items|]. split; [done|]. split.
    + intros Ht. destruct (Hany Ht) as [? | (it & ? & ?)]; [by left | right; by econstructor].
    + intros x Hx. destruct (Hnm x Hx) as [? | (it & ? & ?)]; [by left | right; by econstructor].
  - destruct (walk_items fuel R items o (a, ns, S)) as (_ & E & _). rewrite E in Hw.
    destruct (each_inv fuel items IH _ _ _ _ _ _ Hw) as (Hg & Hrec & Hcl & Hany & Hnm).
    split; [done|]. split; [by apply recorded_items|]. split; [done|]. split.
    + intros Ht. destruct (Hany Ht) as [? | (it & ? & ?)]; [by left | right; by econstructor].
    + intros x Hx. destruct (Hnm x Hx) as [? | (it & ? & ?)]; [by left | right; by econstructor].
  - destruct (walk_items fuel R items o (a, ns, S)) as (_ & _ & E). rewrite E in Hw.
    destruct (each_inv fuel items IH _ _ _ _ _ _ Hw) as (Hg & Hrec & Hcl & Hany & Hnm).
    split; [done|]. split; [by apply recorded_items|]. split; [done|]. split.
    + intros Ht. destruct (Hany Ht) as [? | (it & ? & ?)]; [by left | right; by econstructor].
    + intros x Hx. destruct (Hnm x Hx) as [? | (it & ? & ?)]; [by left | right; by econstructor].
  - rewrite walk_group in Hw. destruct (has r S) eqn:Hs.
    { inversion Hw; subst. apply has_true in Hs. repeat split; auto. intros; done. }
    apply has_false in Hs.
    destruct fuel as [|f]; [done|]. rewrite R_body in Hw.
    apply IHf in Hw as ((Ha & Hn & HS) & Hrec & Hclosed & Hany & Hnames); [|lia].
    repeat split; auto.
    + intros x Hx. apply HS, set_add_elem. by right.
    + cbn. apply HS, set_add_elem. by left.
    + intros r' Hr' Hn'. destruct (decide (r' = r)) as [-> | Hne]; [done|].
      apply Hclosed; [done|]. rewrite set_add_elem. tauto.
    + intros Ht. destruct (Hany Ht) as [? | Hb]; [by left | right].
      destruct (groups !! r) as [g|] eqn:Hg; [by econstructor | inversion Hb].
    + intros x Hx. destruct (Hnames x Hx) as [? | Hb]; [by left | right].
      destruct (groups !! r) as [g|] eqn:Hg; [by econstructor | inversion Hb].
  - rewrite walk_any in Hw. inversion Hw; subst. repeat split; auto.
    + intros; done.
    + intros _. right. constructor.
Qed.

Lemma unseen_le S S' : (forall r : str, r ∈ S -> r ∈ S') -> unseen S' <= unseen S.
Proof.
  intros H. apply subseteq_size. intros x.
  rewrite !elem_of_difference, !elem_of_list_to_set. intros [? ?]. split; auto.
Qed.

Lemma deriveWalk_total fuel : forall p st,
  unseen st.2 < fuel -> exists st', deriveWalk fuel R p st = Some st'.
Proof.
  induction fuel as [fuel IHf] using lt_wf_ind.
  intros p. induction p as [o|n o|items o IH|items o IH|items o IH|r o|o]
    using XsdTerminationFacts.XsdParticle_ind'; intros [[a ns] S] Hu; cbn [snd] in Hu.
  1: eexists; apply walk_empty.
  1: eexists; apply walk_element.
  5: eexists; apply walk_any.
  4: { rewrite walk_group. destruct (has r S) eqn:Hs; [by eexists|].
       destruct fuel as [|f]; [lia|]. rewrite R_body.
       destruct (groups !! r) as [g|] eqn:Hg; cbn [default].
       - apply IHf; [lia|]. cbn [snd].
         pose proof (CollectNamesFacts.unseen_add groups r g S Hg Hs). lia.
       - eexists. apply walk_empty. }
  all: destruct (walk_items fuel R items o (a, ns, S)) as (E1 & E2 & E3);
    rewrite ?E1, ?E2, ?E3; clear E1 E2 E3 o;
    revert a ns S Hu; induction IH as [|it items Hit _ IHi]; intros a ns S Hu;
    [by eexists|];
    destruct (Hit (a, ns, S) Hu) as ([[a1 ns1] S1] & E1); rewrite E1;
    apply IHi;
    destruct (walk_inv _ _ _ _ _ _ _ _ E1) as ((_ & _ & HS) & _);
    pose proof (unseen_le S S1 HS); lia.
Qed.

Lemma recorded_item a ns S it items :
  it ∈ items -> Forall (recorded a ns S) items -> recorded a ns S it.
Proof. intros Hin H. by apply (proj1 (Forall_forall _ _) H). Qed.

Section Closed.
Context (a : bool) (ns S : list str).
Hypothesis closed : forall r, r ∈ S -> recorded a ns S (body r).

Lemma closed_names n p : occursIn groups n p -> recorded a ns S p -> n ∈ ns.
Proof.
  induction 1 as [o | items o it Hin _ IH | items o it Hin _ IH
                 | items o it Hin _ IH | r o g Hg _ IH]; intros Hrec.
  - exact Hrec.
  - apply IH, (recorded_item _ _ _ _ items); [done|]. by apply (recorded_items a ns S items o).
  - apply IH, (recorded_item _ _ _ _ items); [done|]. by apply (recorded_items a ns S items o).
  - apply IH, (recorded_item _ _ _ _ items); [done|]. by apply (recorded_items a ns S items o).
  - apply IH. cbn [recorded] in Hrec. specialize (closed r Hrec). by rewrite Hg in closed.
Qed.

Lemma closed_any p : anyIn groups p -> recorded a ns S p -> a = true.
Proof.
  induction 1 as [o | items o it Hin _ IH | items o it Hin _ IH
                 | items o it Hin _ IH | r o g Hg _ IH]; intros Hrec.
  - exact Hrec.
  - apply IH, (recorded_item _ _ _ _ items); [done|]. by apply (recorded_items a ns S items o).
  - apply IH, (recorded_item _ _ _ _ items); [done|]. by apply (recorded_items a ns S items o).
  - apply IH, (recorded_item _ _ _ _ items); [done|]. by apply (recorded_items a ns S items o).
  - apply IH. cbn [recorded] in Hrec. specialize (closed r Hrec). by rewrite Hg in closed.
Qed.
End Closed.

Lemma deriveWalk_sound fuel p a ns S :
  deriveWalk fuel R p (false, [], []) = Some (a, ns, S) ->
  (a = true <-> anyIn groups p) /\ (forall n, n ∈ ns <-> occursIn groups n p).
Proof.
  intros Hw.
  destruct (walk_inv _ _ _ _ _ _ _ _ Hw) as (_ & Hrec & Hcl & Hany & Hnm).
  assert (forall r, r ∈ S -> recorded a ns S (body r)) as Hclosed.
  { intros r Hr. apply Hcl; [done|]. apply not_elem_of_nil. }
  split; [split|intros n; split].
  - intros Ht. by destruct (Hany Ht).
  - intros Ha. by apply (closed_any a ns S Hclosed p).
  - intros Hn. destruct (Hnm n Hn) as [Hn0 | ?]; [by apply elem_of_nil in Hn0 | done].
  - intros Ho. by apply (closed_names a ns S Hclosed n p).
Qed.

Lemma deriveWalk_spec fuel p :
  size groups < fuel ->
  exists a ns S,
    deriveWalk fuel R p (false, [], []) = Some (a, ns, S)
    /\ (a = true <-> anyIn groups p)
    /\ (forall n, n ∈ ns <-> occursIn groups n p).
Proof.
  intros Hf.
  destruct (deriveWalk_total fuel p (false, [], [])) as ([[a ns] S] & Hw).
  { cbn [snd]. rewrite <- size_dom in Hf.
    eapply Nat.le_lt_trans; [|exact Hf]. apply subseteq_size. set_solver. }
  exists a, ns, S. split; [done|]. by apply (deriveWalk_sound fuel p a ns S).
Qed.

End Facts.
End DeriveAllowedFacts.

(** X16. [deriveAllowedChildrenFromParticle], with the groups of the
    index resolved and allowed more group entries than the index has
    groups, returns also when groups refer to each other in a circle.
    It answers ANY exactly when an [any] particle lies in the particle
    or in a group reached from it; otherwise EMPTY exactly when no
    element particle does, and otherwise the set of the names of the
    element particles that do. *)
Theorem X16_derived_allowed_children_are_the_reachable_names
    (groups : gmap str XsdParticle) fuel p :
  size groups < fuel ->
  exists out,
    XsdIndexBuilder.deriveAllowedChildrenFromParticle fuel p
      (XsdIndexBuilder.resolveGroup groups) = Some out
    /\ match out with
       | AllowedANY => ParticleNames.anyIn groups p
       | AllowedEMPTY =>
           ~ ParticleNames.anyIn groups p
           /\ forall n, ~ ParticleNames.occursIn groups n p
       | AllowedSet names =>
           ~ ParticleNames.anyIn groups p
           /\ names <> []
           /\ forall n, n ∈ names <-> ParticleNames.occursIn groups n p
       end.
Proof.
  intros Hf.
  destruct (DeriveAllowedFacts.deriveWalk_spec groups fuel p Hf)
    as (a & ns & S & Hw & Ha & Hn).
  unfold XsdIndexBuilder.deriveAllowedChildrenFromParticle. rewrite Hw.
  eexists. split; [reflexivity|].
  destruct a.
  - by apply Ha.
  - assert (~ ParticleNames.anyIn groups p) as Hno by (intros H; by apply Ha in H).
    destruct ns as [|n0 ns]; cbn [is_nil].
    + split; [done|]. intros n Ho. apply Hn in Ho. by apply elem_of_nil in Ho.
    + split; [done|]. split; [done|]. exact Hn.
Qed.

Lemma X16_witness :
  exists out,
    XsdIndexBuilder.deriveAllowedChildrenFromParticle 2 sample_groupAndElement
      (XsdIndexBuilder.resolveGroup (groups cyclicIndex)) = Some out
    /\ match out with
       | AllowedANY => ParticleNames.anyIn (groups cyclicIndex) sample_groupAndElement
       | AllowedEMPTY =>
           ~ ParticleNames.anyIn (groups cyclicIndex) sample_groupAndElement
           /\ forall n, ~ ParticleNames.occursIn (groups cyclicIndex) n sample_groupAndElement
       | AllowedSet names =>
           ~ ParticleNames.anyIn (groups cyclicIndex) sample_groupAndElement
           /\ names <> []
           /\ forall n,
               n ∈ names <-> ParticleNames.occursIn (groups cyclicIndex) n sample_groupAndElement
       end.
Proof.
  apply (X16_derived_allowed_children_are_the_reachable_names (groups cyclicIndex) 2).
  vm_compute. lia.
Defined.

(** ** Allowed children and substitution groups *)

Module ExpandAllowedFacts.
Import XsdIndexBuilder.

Lemma adds_elem (acc es : list str) n :
  n ∈ foldl (fun e sub => set_add sub e) acc es <-> n ∈ acc \/ n ∈ es.
Proof.
  revert acc. induction es as [|e es IH]; intros acc; cbn [foldl].
  - rewrite elem_of_nil. tauto.
  - rewrite IH, set_add_elem, elem_of_cons. tauto.
Qed.

Lemma extra_elem (sg : gmap str (list str)) names : forall acc n,
  n ∈ foldl (fun extra name =>
               match sg !! name with
               | Some subs => foldl (fun e sub => set_add sub e) extra subs
               | None => extra
               end) acc names
  <-> n ∈ acc \/ exists head subs, head ∈ names /\ sg !! head = Some subs /\ n ∈ subs.
Proof.
  induction names as [|nm names IH]; intros acc n; cbn [foldl].
  - split; [auto | intros [? | (h & s & Hh & _)]; [done | by apply elem_of_nil in Hh]].
  - rewrite IH. destruct (sg !! nm) as [subs|] eqn:E.
    + rewrite adds_elem. split.
      * intros [[? | ?] | (h & s & ? & ? & ?)]; [by left | right | right].
        -- exists nm, subs. split; [left | done].
        -- exists h, s. split; [by right | done].
      * intros [? | (h & s & Hh & Hs & Hn)]; [by left; left|].
        apply elem_of_cons in Hh as [-> | Hh].
        -- left. right. congruence.
        -- right. by exists h, s.
    + split.
      * intros [? | (h & s & ? & ? & ?)]; [by left | right].
        exists h, s. split; [by right | done].
      * intros [? | (h & s & Hh & Hs & Hn)]; [by left|].
        apply elem_of_cons in Hh as [-> | Hh]; [congruence|].
        right. by exists h, s.
Qed.

Lemma expand_set sg def ns :
  xe_allowedChildren def = AllowedSet ns ->
  exists ns',
    xe_allowedChildren (expandAllowedChildren sg def) = AllowedSet ns'
    /\ forall n, n ∈ ns' <->
         n ∈ ns \/ exists head subs, head ∈ ns /\ sg !! head = Some subs /\ n ∈ subs.
Proof.
  intros E. unfold expandAllowedChildren. rewrite E. cbn [xe_allowedChildren].
  eexists. split; [reflexivity|]. intros n.
  rewrite adds_elem, extra_elem, elem_of_nil. tauto.
Qed.

Lemma expand_other sg def :
  (forall ns, xe_allowedChildren def <> AllowedSet ns) -> expandAllowedChildren sg def = def.
Proof.
  intros H. unfold expandAllowedChildren.
  destruct (xe_allowedChildren def) eqn:E; [by destruct (H names) | done..].
Qed.

Lemma expand_content sg def : xe_content (expandAllowedChildren sg def) = xe_content def.
Proof. unfold expandAllowedChildren. by destruct (xe_allowedChildren def). Qed.

End ExpandAllowedFacts.

(** X17. After [expandAllowedChildrenForSubstitutions] an element keeps
    its content model, and [childrenAllowedBySet] accepts a list of
    children against its set of allowed children exactly when every
    child matches, as [matchesElementName] has it (the same name, or a
    member of the substitution group of the name), a name that was
    allowed before; ANY and EMPTY stay as they were. *)
Theorem X17_expanded_set_accepts_substitutes index name def kids :
  elements index !! name = Some def ->
  exists def',
    elements (XsdIndexBuilder.expandAllowedChildrenForSubstitutions index) !! name = Some def'
    /\ xe_content def' = xe_content def
    /\ (Xsd.childrenAllowedBySet (xe_allowedChildren def') kids = true <->
        match xe_allowedChildren def with
        | AllowedSet ns =>
            forall k, k ∈ kids -> exists e, e ∈ ns /\ Xsd.matchesElementName e k index = true
        | other => Xsd.childrenAllowedBySet other kids = true
        end).
Proof.
  intros Hd.
  assert (forall (ns : list str) (k : str),
            (exists e, e ∈ ns /\ Xsd.matchesElementName e k index = true) <->
            (k ∈ ns \/ exists head subs,
                head ∈ ns /\ substitutionGroups index !! head = Some subs /\ k ∈ subs)) as Hm.
  { intros ns k. unfold Xsd.matchesElementName. split.
    - intros (e & He & H). destruct (str_eqb e k) eqn:Ek.
      + apply str_eqb_true in Ek as ->. by left.
      + destruct (substitutionGroups index !! e) as [subs|] eqn:Es; [|done].
        right. exists e, subs. by apply has_true in H.
    - intros [Hk | (h & subs & Hh & Hs & Hk)].
      + exists k. by rewrite str_eqb_refl.
      + exists h. split; [done|]. destruct (str_eqb h k); [done|].
        rewrite Hs. by apply has_true. }
  assert (forall ns ns' : list str,
            (forall n, n ∈ ns' <-> exists e, e ∈ ns /\ Xsd.matchesElementName e n index = true) ->
            forallb (fun n => has n ns') kids = true <->
            forall k, k ∈ kids -> exists e, e ∈ ns /\ Xsd.matchesElementName e k index = true)
    as Hall.
  { intros ns ns' H. rewrite forallb_forall. split.
    - intros Hf k Hk. apply H, has_true, Hf. by apply list_elem_of_In.
    - intros Hf k Hk. apply has_true, H, Hf. by apply list_elem_of_In. }
  unfold XsdIndexBuilder.expandAllowedChildrenForSubstitutions.
  destruct (bool_decide (substitutionGroups index = ∅)) eqn:Hsg.
  - apply bool_decide_eq_true in Hsg. exists def. split; [done|]. split; [done|].
    destruct (xe_allowedChildren def) as [ns| |] eqn:Ea; [|done..].
    cbn [Xsd.childrenAllowedBySet]. apply Hall. intros n. rewrite Hm. split; [by left|].
    intros [? | (h & subs & _ & Hs & _)]; [done|]. rewrite Hsg in Hs. by rewrite lookup_empty in Hs.
  - cbn [elements]. rewrite lookup_fmap, Hd. cbn [fmap option_fmap option_map].
    eexists. split; [reflexivity|]. split; [apply ExpandAllowedFacts.expand_content|].
    destruct (xe_allowedChildren def) as [ns| |] eqn:Ea.
    + destruct (ExpandAllowedFacts.expand_set (substitutionGroups index) def ns Ea)
        as (ns' & -> & Hns).
      cbn [Xsd.childrenAllowedBySet]. apply Hall. intros n. by rewrite Hm, Hns.
    + rewrite ExpandAllowedFacts.expand_other; [by rewrite Ea | intros ns; by rewrite Ea].
    + rewrite ExpandAllowedFacts.expand_other; [by rewrite Ea | intros ns; by rewrite Ea].
Qed.

Lemma X17_witness :
  exists def',
    elements (XsdIndexBuilder.expandAllowedChildrenForSubstitutions sample_substElements)
      !! lit "p" = Some def'
    /\ xe_content def' = PElement (lit "x") occurs11
    /\ (Xsd.childrenAllowedBySet (xe_allowedChildren def') [lit "y"] = true <->
        forall k, k ∈ [lit "y"] ->
          exists e, e ∈ [lit "x"] /\ Xsd.matchesElementName e k sample_substElements = true).
Proof.
  apply (X17_expanded_set_accepts_substitutes sample_substElements (lit "p")
           {| xe_name := lit "p";
              xe_content := PElement (lit "x") occurs11;
              xe_attributes := [];
              xe_mixed := false;
              xe_allowAnyAttribute := false;
              xe_allowedChildren := AllowedSet [lit "x"] |} [lit "y"]).
  reflexivity.
Defined.

(** ** The XSD matcher computes the reachable end positions *)

Module XsdMatcherFacts.
Import Xsd XsdSemantics GroupRanks.

Local Abbreviation iter := DtdSemantics.iter.

Section Sound.
Context (xsd : XsdIndex) (rank : str -> nat) (children : list str) (root : XsdParticle).
Hypothesis Hacyclic : acyclic xsd rank.

Local Abbreviation reach := (reach xsd children).
Local Abbreviation times := (times xsd children).
Local Abbreviation once := (once xsd children).
Local Abbreviation chain := (chain xsd children).
Local Abbreviation memo_ok := (XsdMemo.memo_ok xsd children root).
Local Abbreviation yields := (XsdMemo.yields xsd children root).
Local Abbreviation len := (length children).

Lemma times_iter node k p e : times node k p e <-> iter (once node) k p e.
Proof.
  revert p. induction k as [|k IH]; intros p; cbn [DtdSemantics.iter].
  - split; [by inversion 1 | intros ->; constructor].
  - split.
    + inversion 1; subst. eexists. split; [done|]. by apply IH.
    + intros (q & Hq & H). econstructor; [done|]. by apply IH.
Qed.

Lemma reach_iff node p e :
  reach node p e <-> exists k, inRange (p_occurs node) k /\ iter (once node) k p e.
Proof.
  split.
  - inversion 1; subst. eexists. split; [done|]. by apply times_iter.
  - intros (k & Hk & H). econstructor; [done|]. by apply times_iter.
Qed.

Lemma chain_nil_iff p e : chain [] p e <-> e = p.
Proof. split; [by inversion 1 | intros ->; constructor]. Qed.

Lemma chain_cons_iff it rest p e :
  chain (it :: rest) p e <-> exists q, reach it p q /\ chain rest q e.
Proof.
  split; [inversion 1; subst; eauto | intros (q & ? & ?); by econstructor].
Qed.

Lemma once_iff node p e :
  once node p e <->
  match node with
  | PEmpty _ => e = p
  | PElement name _ =>
      exists c, children !! p = Some c /\ matchesElementName name c xsd = true /\ e = p + 1
  | PAny _ => p < len /\ e = p + 1
  | PGroupRef ref _ => exists g, groups xsd !! ref = Some g /\ reach g p e
  | PSequence items _ => chain items p e
  | PChoice items _ => exists it, it ∈ items /\ reach it p e
  | PAll items _ => p <= e <= len /\ allSatisfied items (slice children p e) = true
  end.
Proof.
  split.
  - inversion 1; subst; eauto.
  - destruct node; intros H.
    + subst. constructor.
    + destruct H as (c & ? & ? & ->). by econstructor.
    + by constructor.
    + destruct H as (it & ? & ?). by econstructor.
    + destruct H. by constructor.
    + destruct H as (g & ? & ?). by econstructor.
    + destruct H as [? ->]. by constructor.
Qed.

Local Abbreviation bounded p e := (p <= e <= Nat.max p len).

Lemma xsd_reach_bound node p e : reach node p e -> bounded p e.
Proof.
  revert node p e.
  apply (reach_mut xsd children
           (fun _ p e => bounded p e) (fun _ _ p e => bounded p e)
           (fun _ p e => bounded p e) (fun _ p e => bounded p e)); intros; try lia.
  apply lookup_lt_Some in H. lia.
Qed.

Lemma xsd_once_bound node p e : once node p e -> bounded p e.
Proof.
  revert node p e.
  apply (once_mut xsd children
           (fun _ p e => bounded p e) (fun _ _ p e => bounded p e)
           (fun _ p e => bounded p e) (fun _ p e => bounded p e)); intros; try lia.
  apply lookup_lt_Some in H. lia.
Qed.

Lemma once_bound_all node : forall p e, once node p e -> bounded p e.
Proof. intros p e. apply xsd_once_bound. Qed.

Lemma xsd_memo_ok_empty : memo_ok ∅.
Proof. intros id pos v H. by rewrite lookup_empty in H. Qed.

Lemma xsd_memo_ok_insert memo id pos v node :
  memo_ok memo -> nodeAt xsd root id = Some node ->
  (forall e, e ∈ v <-> reach node pos e) ->
  memo_ok (<[(id, pos) := v]> memo).
Proof.
  intros Hok Hn Hv id' pos' v' H.
  destruct (decide ((id, pos) = (id', pos'))) as [E | E].
  - inversion E; subst. rewrite lookup_insert_eq in H. inversion H; subst. eauto.
  - rewrite lookup_insert_ne in H by done. eauto.
Qed.

Lemma xsd_yields_ret l (S : nat -> Prop) : (forall e, e ∈ l <-> S e) -> yields (mret l) S.
Proof. intros H memo Hok. exists l, memo. auto. Qed.

Lemma xsd_yields_ext c (S S' : nat -> Prop) :
  (forall e, S e <-> S' e) -> yields c S -> yields c S'.
Proof.
  intros HS Hc memo Hok. destruct (Hc memo Hok) as (l & memo' & E & H1 & H2).
  exists l, memo'. split; [done|]. split; [done|]. intros e. by rewrite H2.
Qed.

Section Loops.
Context (step : nat -> M (list nat)) (R : nat -> nat -> Prop).
Hypothesis Hstep : forall p, yields (step p) (R p).

Lemma xsd_collect_yields current next :
  yields (collect step current next)
    (fun e => e ∈ next \/ exists p, p ∈ current /\ R p e).
Proof.
  revert next. induction current as [|p rest IH]; intros next memo Hok.
  - exists next, memo. split; [done|]. split; [done|]. intros e. split; [auto |].
    intros [H | (p & Hp & _)]; [done | by apply elem_of_nil in Hp].
  - cbn [collect]. unfold mbind.
    destruct (Hstep p memo Hok) as (es & memo1 & -> & Hok1 & Hes).
    destruct (IH (adds next es) memo1 Hok1) as (l & memo2 & -> & Hok2 & Hres).
    exists l, memo2. split; [done|]. split; [done |].
    intros e. rewrite Hres, XsdFacts.xsd_adds_elem, Hes.
    split.
    + intros [[H | H] | (q & Hq & H)]; eauto.
      * right. exists p. split; [by left | done].
      * right. exists q. split; [by right | done].
    + intros [H | (q & Hq & H)]; [auto |].
      apply elem_of_cons in Hq as [-> | Hq]; eauto.
Qed.

Lemma xsd_required_ok n : forall current memo,
  memo_ok memo ->
  exists r memo',
    required n step current memo = Some (r, memo')
    /\ memo_ok memo'
    /\ match r with
       | Some c => forall e, e ∈ c <-> exists p, p ∈ current /\ iter R n p e
       | None => forall e, ~ exists p, p ∈ current /\ iter R n p e
       end.
Proof.
  induction n as [|n IH]; intros current memo Hok.
  - exists (Some current), memo. split; [done|]. split; [done |]. intros e. split.
    + intros H. exists e. by split.
    + by intros (p & Hp & ->).
  - cbn [required]. unfold mbind.
    destruct (xsd_collect_yields current [] memo Hok) as (next & memo1 & -> & Hok1 & Hnext).
    assert (Hn : forall e, e ∈ next <-> exists p, p ∈ current /\ R p e).
    { intros e. rewrite Hnext, elem_of_nil. tauto. }
    destruct next as [|x next'] eqn:En; cbn [is_nil].
    + exists None, memo1. split; [done|]. split; [done |].
      intros e (p & Hp & q & Hq & _).
      assert (q ∈ @nil nat) as Hq0 by (apply Hn; eauto). by apply elem_of_nil in Hq0.
    + rewrite <- En in *.
      destruct (IH next memo1 Hok1) as (r & memo2 & -> & Hok2 & Hres).
      exists r, memo2. split; [done|]. split; [done |].
      destruct r as [c|].
      * intros e. rewrite Hres. split.
        -- intros (q & Hq & H). apply Hn in Hq as (p & Hp & Hpq).
           exists p. split; [done|]. exists q. by split.
        -- intros (p & Hp & q & Hpq & H). exists q. split; [| done]. apply Hn. eauto.
      * intros e (p & Hp & q & Hpq & H). apply (Hres e).
        exists q. split; [| done]. apply Hn. eauto.
Qed.

Lemma xsd_extras_yields n : forall prev results,
  yields (extras n step prev results)
    (fun e => e ∈ results \/
              exists j, 1 <= j <= n /\ exists p, p ∈ prev /\ iter R j p e).
Proof.
  induction n as [|n IH]; intros prev results memo Hok.
  - exists results, memo. split; [done|]. split; [done |]. intros e. split; [auto |].
    intros [H | (j & Hj & _)]; [done | lia].
  - cbn [extras]. unfold mbind.
    destruct (xsd_collect_yields prev [] memo Hok) as (next & memo1 & -> & Hok1 & Hnext).
    assert (Hn : forall e, e ∈ next <-> exists p, p ∈ prev /\ R p e).
    { intros e. rewrite Hnext, elem_of_nil. tauto. }
    assert (Hone : forall e, e ∈ next <-> exists p, p ∈ prev /\ iter R 1 p e).
    { intros e. rewrite Hn. simpl. split.
      - intros (p & Hp & H). eauto.
      - intros (p & Hp & q & H & ->). eauto. }
    assert (Hshift : forall j e,
              (exists p, p ∈ prev /\ iter R (S j) p e) <->
              (exists q, q ∈ next /\ iter R j q e)).
    { intros j e. split.
      - intros (p & Hp & q & Hpq & H). exists q. split; [| done]. apply Hn. eauto.
      - intros (q & Hq & H). apply Hn in Hq as (p & Hp & Hpq).
        exists p. split; [done |]. exists q. auto. }
    destruct (is_nil next || negb (existsb (fun e => negb (has e prev)) next)) eqn:Estop.
    + exists (adds results next), memo1. split; [done|]. split; [done |].
      intros e. rewrite XsdFacts.xsd_adds_elem.
      assert (Hstay : forall j e, 1 <= j ->
                (exists p, p ∈ prev /\ iter R j p e) -> e ∈ next).
      { apply orb_true_iff in Estop as [Enil | Eprog].
        - destruct next; [| done]. intros j e' Hj (p & Hp & H).
          destruct j as [|j]; [lia |]. destruct H as (q & Hpq & _).
          assert (Hq : q ∈ @nil nat) by (apply Hn; eauto).
          by apply elem_of_nil in Hq.
        - apply negb_true_iff in Eprog.
          assert (Hsub : forall e, e ∈ next -> e ∈ prev).
          { intros e' He'. destruct (decide (e' ∈ prev)) as [|Hnot]; [done |].
            exfalso. assert (existsb (fun e => negb (has e prev)) next = true) as Hex.
            { apply existsb_exists. exists e'. split; [by apply list_elem_of_In |].
              apply negb_true_iff. by apply has_false. }
            congruence. }
          intros j. induction j as [|j IHj]; [lia |].
          intros e' _ H. destruct j as [|j]; [by apply Hone |].
          apply Hshift in H as (q & Hq & H). apply IHj; [lia |].
          exists q. split; [by apply Hsub | done]. }
      split.
      * intros [H | H]; [auto |]. right. exists 1. split; [lia |]. by apply Hone.
      * intros [H | (j & Hj & H)]; [auto |]. right. apply (Hstay j); [lia | done].
    + destruct (IH next (adds results next) memo1 Hok1) as (l & memo2 & -> & Hok2 & Hres).
      exists l, memo2. split; [done|]. split; [done |].
      intros e. rewrite Hres, XsdFacts.xsd_adds_elem. split.
      * intros [[H | H] | (j & Hj & H)]; [auto | |].
        -- right. exists 1. split; [lia |]. by apply Hone.
        -- right. exists (S j). split; [lia |]. by apply Hshift.
      * intros [H | (j & Hj & H)]; [auto |].
        destruct j as [|[|j]]; [lia | |].
        -- left. right. by apply Hone.
        -- right. exists (S j). split; [lia |]. by apply Hshift.
Qed.
End Loops.

Lemma nodeAt_child id node k :
  nodeAt xsd root id = Some node -> nodeAt xsd root (child id k) = p_items node !! k.
Proof.
  assert (forall r place, subnode r place = Some node ->
            subnode r (place ++ [k]) = p_items node !! k) as Hsub.
  { intros r place. revert r. induction place as [|k0 place IH]; intros r; simpl.
    - intros [= ->]. by destruct (p_items node !! k).
    - destruct (p_items r !! k0); [apply IH | done]. }
  unfold nodeAt, child. destruct id as [[ref|] place]; cbn [fst snd].
  - destruct (groups xsd !! ref); [apply Hsub | done].
  - apply Hsub.
Qed.

Section Once.
Context (rec grp : XsdParticle -> NodeId -> nat -> M (list nat)).

Lemma xsd_seqLoop_yields id its : forall k positions,
  (forall i it, its !! i = Some it ->
     forall pos, yields (rec it (child id (k + i)) pos) (reach it pos)) ->
  yields (seqLoop rec id its k positions)
    (fun e => exists p, p ∈ positions /\ chain its p e).
Proof.
  induction its as [|it rest IH]; intros k positions Hits memo Hok.
  - exists positions, memo. split; [done|]. split; [done |]. intros e.
    split; [intros H; exists e; split; [done | constructor] |].
    intros (p & Hp & H). apply chain_nil_iff in H. by subst.
  - cbn [seqLoop]. unfold mbind.
    assert (Hit : forall p, yields (rec it (child id k) p) (reach it p)).
    { intros p. specialize (Hits 0 it eq_refl p). by rewrite Nat.add_0_r in Hits. }
    destruct (xsd_collect_yields _ _ Hit positions [] memo Hok)
      as (next & memo1 & -> & Hok1 & Hnext).
    assert (Hn : forall e, e ∈ next <-> exists p, p ∈ positions /\ reach it p e).
    { intros e. rewrite Hnext, elem_of_nil. tauto. }
    destruct next as [|x next'] eqn:En; cbn [is_nil].
    + exists [], memo1. split; [done|]. split; [done |].
      intros e. rewrite elem_of_nil. split; [done |].
      intros (p & Hp & H). apply chain_cons_iff in H as (m & Hm & _).
      assert (Hq : m ∈ @nil nat) by (apply Hn; eauto). by apply elem_of_nil in Hq.
    + rewrite <- En in *.
      assert (Hrest : forall i it', rest !! i = Some it' ->
                forall pos, yields (rec it' (child id (S k + i)) pos) (reach it' pos)).
      { intros i it' Hi pos. specialize (Hits (S i) it' Hi pos).
        by replace (k + S i) with (S k + i) in Hits by lia. }
      destruct (IH (S k) next Hrest memo1 Hok1) as (l & memo2 & -> & Hok2 & Hres).
      exists l, memo2. split; [done|]. split; [done |]. intros e. rewrite Hres. split.
      * intros (m & Hm & H). apply Hn in Hm as (p & Hp & Hpm).
        exists p. split; [done|]. by econstructor.
      * intros (p & Hp & H). apply chain_cons_iff in H as (m & Hpm & H).
        exists m. split; [| done]. apply Hn. eauto.
Qed.

Lemma xsd_altLoop_yields id pos its : forall k out,
  (forall i it, its !! i = Some it ->
     forall pos, yields (rec it (child id (k + i)) pos) (reach it pos)) ->
  yields (altLoop rec id pos its k out)
    (fun e => e ∈ out \/ exists it, it ∈ its /\ reach it pos e).
Proof.
  induction its as [|it rest IH]; intros k out Hits memo Hok.
  - exists out, memo. split; [done|]. split; [done |]. intros e.
    split; [auto | intros [? | (it & Hin & _)]; [done | by apply elem_of_nil in Hin]].
  - cbn [altLoop]. unfold mbind.
    assert (Hit : yields (rec it (child id k) pos) (reach it pos)).
    { specialize (Hits 0 it eq_refl pos). by rewrite Nat.add_0_r in Hits. }
    destruct (Hit memo Hok) as (es & memo1 & -> & Hok1 & Hes).
    assert (Hrest : forall i it', rest !! i = Some it' ->
              forall pos, yields (rec it' (child id (S k + i)) pos) (reach it' pos)).
    { intros i it' Hi pos'. specialize (Hits (S i) it' Hi pos').
      by replace (k + S i) with (S k + i) in Hits by lia. }
    destruct (IH (S k) (adds out es) Hrest memo1 Hok1) as (l & memo2 & -> & Hok2 & Hres).
    exists l, memo2. split; [done|]. split; [done |].
    intros e. rewrite Hres, XsdFacts.xsd_adds_elem, Hes. split.
    + intros [[? | ?] | (it' & ? & ?)]; [by left | right; exists it; split; [left | done] |].
      right. exists it'. split; [by right | done].
    + intros [? | (it' & Hin & ?)]; [by left; left |].
      apply elem_of_cons in Hin as [-> | Hin]; [by left; right |].
      right. by exists it'.
Qed.

Lemma xsd_matchOnce_yields node id :
  nodeAt xsd root id = Some node ->
  (forall i it, p_items node !! i = Some it ->
     forall pos, yields (rec it (child id i) pos) (reach it pos)) ->
  (forall ref o g, node = PGroupRef ref o -> groups xsd !! ref = Some g ->
     forall pos, yields (grp g (Some ref, []) pos) (reach g pos)) ->
  forall p, yields (matchOnce xsd children rec grp node id p) (once node p).
Proof.
  intros Hnode Hrec Hgrp p.
  destruct node as [o | name o | items o | items o | items o | ref o | o];
    cbn [matchOnce p_items] in *.
  - apply xsd_yields_ret. intros e. rewrite once_iff, list_elem_of_singleton. done.
  - apply xsd_yields_ret. intros e. rewrite once_iff.
    destruct (children !! p) as [c|] eqn:Ec.
    + destruct (matchesElementName name c xsd) eqn:E.
      * rewrite list_elem_of_singleton. split; [intros ->; by exists c |].
        by intros (c' & _ & _ & ->).
      * rewrite elem_of_nil. split; [done |]. intros (c' & [= <-] & ? & _). congruence.
    + rewrite elem_of_nil. split; [done |]. by intros (c' & [=] & _).
  - eapply xsd_yields_ext; [| by apply xsd_seqLoop_yields].
    intros e. rewrite once_iff. split.
    + intros (q & Hq & H). by apply list_elem_of_singleton in Hq as ->.
    + intros H. exists p. split; [by apply list_elem_of_singleton | done].
  - eapply xsd_yields_ext; [| by apply xsd_altLoop_yields].
    intros e. rewrite once_iff, elem_of_nil. tauto.
  - apply xsd_yields_ret. intros e. rewrite once_iff, list_elem_of_In, filter_In, in_seq.
    split; [intros [? ?]; split; [lia | done] | intros [? ?]; split; [lia | done]].
  - destruct (groups xsd !! ref) as [g|] eqn:Eg.
    + eapply xsd_yields_ext; [| by eapply Hgrp].
      intros e. rewrite once_iff. split; [by exists g |].
      intros (g' & Hg' & ?). rewrite Eg in Hg'. by inversion Hg'; subst.
    + apply xsd_yields_ret. intros e. rewrite once_iff, elem_of_nil.
      split; [done |]. intros (g' & Hg' & _). by rewrite Eg in Hg'.
  - apply xsd_yields_ret. intros e. rewrite once_iff.
    destruct (p <? len) eqn:E.
    + apply Nat.ltb_lt in E. rewrite list_elem_of_singleton. split; [by intros -> | by intros [_ ->]].
    + apply Nat.ltb_ge in E. rewrite elem_of_nil. split; [done | intros [? _]; lia].
Qed.
End Once.

Lemma iter_compress_max (R : nat -> nat -> Prop) :
  (forall p e, R p e -> bounded p e) ->
  forall m j p e,
    m <= j -> iter R j p e -> exists j', m <= j' <= Nat.max m (e - p) /\ iter R j' p e.
Proof.
  intros Rb m j p e Hm. induction j as [|j IH]; intros H.
  - exists 0. split; [lia | done].
  - destruct (decide (S j <= Nat.max m (e - p))) as [Hle | Hgt].
    + exists (S j). split; [lia | done].
    + apply IH; [lia |]. apply (DtdMatcherFacts.iter_shorten R len Rb); [done | lia].
Qed.

Lemma xsd_range_equiv node pos e :
  let lo := Z.to_nat (omin (p_occurs node)) in
  let maxCount :=
    match omax (p_occurs node) with
    | Unbounded => (Z.of_nat len - Z.of_nat pos)%Z
    | MaxN m => m
    end in
  (exists k, lo <= k <= lo + Z.to_nat (maxCount - omin (p_occurs node))
             /\ iter (once node) k pos e)
  <-> reach node pos e.
Proof.
  intros lo maxCount. rewrite reach_iff. unfold inRange. subst lo maxCount.
  destruct (omax (p_occurs node)) as [m|].
  - split; intros (k & Hk & H); exists k; (split; [lia | done]).
  - split.
    + intros (k & Hk & H). exists k. split; [lia | done].
    + intros (k & [Hk _] & H).
      destruct (iter_compress_max (once node) (once_bound_all node) _ k pos e Hk H)
        as (j & Hj & Hjr).
      pose proof (DtdMatcherFacts.iter_bound (once node) len (once_bound_all node) _ _ _ H).
      exists j. split; [lia | done].
Qed.

Lemma xsd_matchBody_yields (step : nat -> M (list nat)) node id pos :
  nodeAt xsd root id = Some node ->
  (forall p, yields (step p) (once node p)) ->
  yields (matchBody children step node id pos) (reach node pos).
Proof.
  intros Hnode Hstep memo Hok.
  unfold matchBody.
  pose proof (fun e => xsd_range_equiv node pos e) as Hrange. cbn zeta in Hrange.
  set (min := omin (p_occurs node)) in *.
  set (maxCount := match omax (p_occurs node) with
                   | Unbounded => (Z.of_nat len - Z.of_nat pos)%Z
                   | MaxN m => m
                   end) in *.
  set (lo := Z.to_nat min) in *.
  set (extraN := Z.to_nat (maxCount - min)) in *.
  unfold mbind.
  destruct (xsd_required_ok step (once node) Hstep lo [pos] memo Hok)
    as (cur & memo1 & -> & Hok1 & Hreq).
  destruct cur as [current|].
  - assert (Hcur : forall e, e ∈ current <-> iter (once node) lo pos e).
    { intros e. rewrite Hreq. split.
      - intros (p & Hp & H). by apply list_elem_of_singleton in Hp as ->.
      - intros H. exists pos. split; [by apply list_elem_of_singleton | done]. }
    destruct (xsd_extras_yields step (once node) Hstep extraN current current memo1 Hok1)
      as (results & memo2 & -> & Hok2 & Hres).
    assert (Hout : forall e, e ∈ merge_sort le results <-> reach node pos e).
    { intros e. rewrite merge_sort_elem, Hres, <- Hrange. split.
      - intros [H | (j & Hj & p & Hp & H)].
        + exists lo. split; [lia |]. by apply Hcur.
        + exists (lo + j). split; [lia |]. apply DtdMatcherFacts.iter_split. exists p.
          split; [by apply Hcur | done].
      - intros (k & Hk & H).
        destruct (decide (k = lo)) as [-> | Hne]; [left; by apply Hcur |].
        right. exists (k - lo). split; [lia |].
        replace k with (lo + (k - lo)) in H by lia.
        apply DtdMatcherFacts.iter_split in H as (q & Hq & H).
        exists q. split; [by apply Hcur | done]. }
    eexists _, _. split; [reflexivity|]. split; [| done]. by eapply xsd_memo_ok_insert.
  - assert (Hout : forall e, e ∈ @nil nat <-> reach node pos e).
    { intros e. rewrite elem_of_nil. split; [done |]. intros H.
      apply Hrange in H as (k & Hk & H).
      replace k with (lo + (k - lo)) in H by lia.
      apply DtdMatcherFacts.iter_split in H as (q & Hq & _). apply (Hreq q).
      exists pos. split; [by apply list_elem_of_singleton | done]. }
    eexists _, _. split; [reflexivity|]. split; [| done]. by eapply xsd_memo_ok_insert.
Qed.

Lemma xsd_match_yields fuel :
  forall node, refsBelow xsd rank fuel node = true ->
  forall id pos, nodeAt xsd root id = Some node ->
    yields (match_ fuel xsd children node id pos) (reach node pos).
Proof.
  induction fuel as [fuel IHf] using lt_wf_ind.
  induction node as [o | nm o | items o IH | items o IH | items o IH | r o | o]
    using XsdTerminationFacts.XsdParticle_ind'; intros Hr id pos Hnode memo Hok;
    rewrite XsdFacts.xsd_match_unfold;
    (destruct (memo !! (id, pos)) as [cached|] eqn:Ememo;
     [ exists cached, memo; split; [done|]; split; [done |];
       destruct (Hok id pos cached Ememo) as (node' & Hn' & Hv);
       rewrite Hnode in Hn'; by inversion Hn'; subst
     | apply xsd_matchBody_yields; [done | | done];
       apply xsd_matchOnce_yields; [done | | ] ]).
  all: try (intros i it Hi; cbn [p_items] in Hi; by rewrite lookup_nil in Hi).
  all: try (intros ref o' g [=]; fail).
  1-3: (intros i it Hi pos' ; cbn [p_items] in Hi; cbn [refsBelow] in Hr;
        rewrite forallb_forall in Hr; rewrite Forall_forall in IH;
        apply IH;
        [ by eapply list_elem_of_lookup_2
        | apply Hr, list_elem_of_In; by eapply list_elem_of_lookup_2
        | by rewrite (nodeAt_child _ _ _ Hnode) ]).
  intros ref o' g [= <- <-] Hg pos'. cbn [refsBelow] in Hr. rewrite Hg in Hr.
  apply Nat.ltb_lt in Hr. destruct fuel as [|f]; [lia|].
  apply IHf; [lia | | by unfold nodeAt; cbn; rewrite Hg].
  apply (XsdTerminationFacts.refsBelow_mono xsd rank (rank r)); [lia | by apply Hacyclic].
Qed.

Lemma matchesParticle_reach fuel :
  refsBelow xsd rank fuel root = true ->
  exists b, matchesParticle fuel root children xsd = Some b
            /\ (b = true <-> reach root 0 len).
Proof.
  intros Hr. unfold matchesParticle.
  destruct (xsd_match_yields fuel root Hr (None, []) 0 eq_refl ∅ xsd_memo_ok_empty)
    as (l & memo' & -> & _ & Hl).
  eexists. split; [reflexivity|]. by rewrite has_true.
Qed.

End Sound.
End XsdMatcherFacts.

(** X18. When no group of the index refers to itself, directly or
    through other groups, [matchesParticle] returns, and it accepts a
    list of children exactly when the number of children is an end
    position reachable from position 0 under the particle: elements
    match by name or substitution group, a sequence takes its items one
    after the other, a choice one of them, an [all] group a stretch of
    children that [allSatisfied] accepts, a group reference the
    particle of the group, each repeated a number of times that its
    [occurs] admits. For [0 <= min <= max] these are the numbers from
    [min] to [max]. *)
Theorem X18_xsd_matcher_accepts_the_reachable
    xsd rank fuel (p : XsdParticle) (children : list str) :
  GroupRanks.acyclic xsd rank ->
  GroupRanks.refsBelow xsd rank fuel p = true ->
  (exists b,
     Xsd.matchesParticle fuel p children xsd = Some b
     /\ (b = true <-> XsdSemantics.reach xsd children p 0 (length children)))
  /\ (forall min max k, (0 <= min <= max)%Z ->
        XsdSemantics.inRange {| omin := min; omax := MaxN max |} k
        <-> (min <= Z.of_nat k <= max)%Z)
  /\ (forall min k, (0 <= min)%Z ->
        XsdSemantics.inRange {| omin := min; omax := Unbounded |} k
        <-> (min <= Z.of_nat k)%Z).
Proof.
  intros Ha Hr. split; [|split].
  - by apply (XsdMatcherFacts.matchesParticle_reach xsd rank children p Ha fuel).
  - intros min max k H. unfold XsdSemantics.inRange. cbn [omin omax]. lia.
  - intros min k H. unfold XsdSemantics.inRange. cbn [omin omax]. lia.
Qed.

Lemma X18_witness :
  (exists b,
     Xsd.matchesParticle 1 (PGroupRef (lit "g") occurs11) [lit "a"] sample_groupIndex = Some b
     /\ (b = true <->
         XsdSemantics.reach sample_groupIndex [lit "a"] (PGroupRef (lit "g") occurs11) 0
           (length [lit "a"])))
  /\ (forall min max k, (0 <= min <= max)%Z ->
        XsdSemantics.inRange {| omin := min; omax := MaxN max |} k
        <-> (min <= Z.of_nat k <= max)%Z)
  /\ (forall min k, (0 <= min)%Z ->
        XsdSemantics.inRange {| omin := min; omax := Unbounded |} k
        <-> (min <= Z.of_nat k)%Z).
Proof.
  apply (X18_xsd_matcher_accepts_the_reachable sample_groupIndex (fun _ => 0) 1).
  - intros g p Hg. cbn [groups sample_groupIndex] in Hg.
    apply lookup_singleton_Some in Hg as [_ <-]. reflexivity.
  - reflexivity.
Defined.

(** ** What the matcher accepts is among the allowed children *)

Module XsdAllowedFacts.
Import Xsd XsdSemantics GroupRanks ParticleNames.

Section Names.
Context (xsd : XsdIndex) (children : list str).

(** The child at every position from [p] up to [e] is matched by a
    particle under the node. *)
Local Abbreviation matched node :=
  (fun p e : nat => forall i c, p <= i < e -> children !! i = Some c ->
     anyIn (groups xsd) node
     \/ exists n, occursIn (groups xsd) n node /\ matchesElementName n c xsd = true).

Local Abbreviation matchedItems items :=
  (fun p e : nat => forall i c, p <= i < e -> children !! i = Some c ->
     exists it, it ∈ items
       /\ (anyIn (groups xsd) it
           \/ exists n, occursIn (groups xsd) n it /\ matchesElementName n c xsd = true)).

Lemma allSatisfied_names items prefix c :
  allSatisfied items prefix = true -> c ∈ prefix ->
  (exists o, PAny o ∈ items) \/ (exists o, PElement c o ∈ items).
Proof.
  unfold allSatisfied. intros H Hc.
  apply andb_true_iff in H as [H _].
  destruct (List.filter _ items) as [|a rest] eqn:Ef; cbn [is_nil] in H.
  - right. apply andb_true_iff in H as [_ H]. rewrite forallb_forall in H.
    specialize (H c ltac:(by apply list_elem_of_In)). apply has_true in H.
    apply list_elem_of_omap in H as (it & Hin & Hit).
    destruct it; try done. inversion Hit; subst. eauto.
  - left. assert (In a (List.filter (fun i => match i with PAny _ => true | _ => false end) items))
      as Ha by (rewrite Ef; by left).
    apply filter_In in Ha as [Ha Hk]. destruct a; try done.
    exists occurs. by apply list_elem_of_In.
Qed.

Lemma reach_matched node p e : reach xsd children node p e -> matched node p e.
Proof.
  revert node p e.
  pose (P := fun node p e => matched node p e).
  pose (P0 := fun node (k : nat) p e => matched node p e).
  pose (P2 := fun (items : list XsdParticle) p e => matchedItems items p e).
  apply (reach_mut xsd children P P0 P P2); subst P P0 P2; cbv beta.
  - intros node k p e _ _ IH. exact IH.
  - intros node p i c Hi. lia.
  - intros node k p q e Ho IHo Ht IHt i c Hi Hc.
    destruct (decide (i < q)); [apply (IHo i c); [lia | done] | apply (IHt i c); [lia | done]].
  - intros o p i c Hi. lia.
  - intros name o p c Hc Hm i c' Hi Hc'. assert (i = p) as -> by lia.
    rewrite Hc in Hc'. inversion Hc'; subst. right. exists name. split; [constructor | done].
  - intros o p Hp i c Hi Hc. left. constructor.
  - intros ref o g p e Hg _ IH i c Hi Hc.
    destruct (IH i c Hi Hc) as [Ha | (n & Hn & Hm)].
    + left. by econstructor.
    + right. exists n. split; [by econstructor | done].
  - intros items o p e _ IH i c Hi Hc.
    destruct (IH i c Hi Hc) as (it & Hin & [Ha | (n & Hn & Hm)]).
    + left. by econstructor.
    + right. exists n. split; [by econstructor | done].
  - intros items o it p e Hin _ IH i c Hi Hc.
    destruct (IH i c Hi Hc) as [Ha | (n & Hn & Hm)].
    + left. by econstructor.
    + right. exists n. split; [by econstructor | done].
  - intros items o p e Hpe Hall i c Hi Hc.
    assert (c ∈ slice children p e) as Hin.
    { unfold slice. apply list_elem_of_lookup. exists (i - p).
      rewrite lookup_take_lt by lia. rewrite lookup_drop.
      by replace (p + (i - p)) with i by lia. }
    destruct (allSatisfied_names items _ c Hall Hin) as [(o' & Ho) | (o' & Ho)].
    + left. econstructor; [exact Ho | constructor].
    + right. exists c. split; [econstructor; [exact Ho | constructor] |].
      unfold matchesElementName. by rewrite str_eqb_refl.
  - intros p i c Hi. lia.
  - intros it rest p q e Hr IHr Hch IHc i c Hi Hc.
    destruct (decide (i < q)).
    + exists it. split; [left | apply (IHr i c); [lia | done]].
    + destruct (IHc i c ltac:(lia) Hc) as (it' & Hin & H).
      exists it'. split; [by right | done].
Qed.
End Names.
End XsdAllowedFacts.

(** X19. The children that [matchesParticle] accepts against the
    content model of an element pass [childrenAllowedBySet] against
    the allowed children of the element, when these are the ones that
    [deriveAllowedChildrenFromParticle] derives from the content model
    and [expandAllowedChildrenForSubstitutions] then extends: the
    strict check never accepts a child that the relaxed one refuses. *)
Theorem X19_xsd_matched_children_are_allowed
    xsd rank fuel fuel' (def : XsdElementDef) (kids : list str) :
  GroupRanks.acyclic xsd rank ->
  GroupRanks.refsBelow xsd rank fuel (xe_content def) = true ->
  XsdIndexBuilder.deriveAllowedChildrenFromParticle fuel' (xe_content def)
    (XsdIndexBuilder.resolveGroup (groups xsd)) = Some (xe_allowedChildren def) ->
  Xsd.matchesParticle fuel (xe_content def) kids xsd = Some true ->
  Xsd.childrenAllowedBySet
    (xe_allowedChildren
       (XsdIndexBuilder.expandAllowedChildren (substitutionGroups xsd) def)) kids = true.
Proof.
  intros Hacyc Hr Hd Hm.
  destruct (XsdMatcherFacts.matchesParticle_reach xsd rank kids (xe_content def) Hacyc fuel Hr)
    as (b & Hb & Hreach).
  rewrite Hm in Hb. inversion Hb; subst b. clear Hb.
  assert (XsdSemantics.reach xsd kids (xe_content def) 0 (length kids)) as Hre
    by (by apply Hreach).
  pose proof (XsdAllowedFacts.reach_matched xsd kids _ _ _ Hre) as Hmat.
  assert (forall c, c ∈ kids ->
            ParticleNames.anyIn (groups xsd) (xe_content def)
            \/ exists n, ParticleNames.occursIn (groups xsd) n (xe_content def)
                         /\ Xsd.matchesElementName n c xsd = true) as Hkid.
  { intros c Hc. apply list_elem_of_lookup in Hc as [i Hi].
    apply (Hmat i c); [|done]. apply lookup_lt_Some in Hi. lia. }
  clear Hmat Hre Hreach Hm.
  unfold XsdIndexBuilder.deriveAllowedChildrenFromParticle in Hd.
  destruct (XsdIndexBuilder.deriveWalk fuel' _ (xe_content def) (false, [], []))
    as [[[a ns] S]|] eqn:Hw; [|done].
  destruct (DeriveAllowedFacts.deriveWalk_sound (groups xsd) fuel' _ a ns S Hw) as [Ha Hn].
  inversion Hd as [Hallowed]. clear Hd.
  destruct a.
  - rewrite ExpandAllowedFacts.expand_other; [by rewrite <- Hallowed |].
    intros names. by rewrite <- Hallowed.
  - assert (forall c, c ∈ kids ->
              exists n, n ∈ ns /\ Xsd.matchesElementName n c xsd = true) as Hkid'.
    { intros c Hc. destruct (Hkid c Hc) as [Hany | (n & Ho & Hmn)].
      - by apply Ha in Hany.
      - exists n. split; [by apply Hn | done]. }
    destruct ns as [|n0 ns']; cbn [is_nil] in Hallowed.
    + rewrite ExpandAllowedFacts.expand_other;
        [rewrite <- Hallowed | intros names; by rewrite <- Hallowed].
      destruct kids as [|c kids']; [done|].
      destruct (Hkid' c ltac:(left)) as (n & Hin & _). by apply elem_of_nil in Hin.
    + destruct (ExpandAllowedFacts.expand_set (substitutionGroups xsd) def (n0 :: ns')
                  (eq_sym Hallowed)) as (ns2 & -> & Hns2).
      cbn [Xsd.childrenAllowedBySet]. apply forallb_forall. intros c Hc.
      apply list_elem_of_In in Hc. apply has_true, Hns2.
      destruct (Hkid' c Hc) as (n & Hin & Hmn).
      apply XsdFacts.matchesElementName_spec in Hmn as [-> | (subs & Hs & Hcs)].
      * by left.
      * right. by exists n, subs.
Qed.

Lemma X19_witness :
  Xsd.childrenAllowedBySet
    (xe_allowedChildren
       (XsdIndexBuilder.expandAllowedChildren (substitutionGroups sample_groupIndex)
          sample_groupElement)) [lit "a"] = true.
Proof.
  apply (X19_xsd_matched_children_are_allowed sample_groupIndex (fun _ => 0) 1 2
           sample_groupElement [lit "a"]).
  - intros g p Hg. cbn [groups sample_groupIndex] in Hg.
    apply lookup_singleton_Some in Hg as [_ <-]. reflexivity.
  - reflexivity.
  - vm_compute. reflexivity.
  - vm_compute. reflexivity.
Defined.

(** ** The XSD validator on whole documents *)

Module XsdWalkFacts.
Import Xsd Document.

Local Abbreviation hereOf el path_ :=
  (match path_ with
   | [] => lit "/" ++ localName (el_name el)
   | _ => path_ ++ lit "/" ++ localName (el_name el)
   end)%list.

Local Abbreviation kidsWalk fuel r xsd here ks :=
  (foldr (fun k acc =>
            match walk fuel r xsd k here with
            | None => None
            | Some e1 =>
                match acc with
                | None => None
                | Some e2 => Some (e1 ++ e2)
                end
            end) (Some []) ks).

(** Whether a check finds something does not depend on the path. *)
Lemma xsd_validateAttrs_nil_path el name def h h' :
  validateAttrs el name def h = [] -> validateAttrs el name def h' = [].
Proof.
  unfold validateAttrs. intros H.
  apply app_eq_nil in H as [H1 H]. apply app_eq_nil in H as [H2 H3].
  apply app_nil. split; [|apply app_nil; split].
  - destruct (xe_allowAnyAttribute def); [done|].
    rewrite DtdWalkFacts.omap_nil in H1 |- *. intros a Ha. specialize (H1 a Ha).
    cbn beta in H1 |- *. by destruct (isSome _ || _).
  - rewrite DtdWalkFacts.omap_nil in H2 |- *. intros [a decl] Ha. specialize (H2 _ Ha).
    cbn beta iota in H2 |- *. by destruct (str_eqb _ _ && _).
  - rewrite DtdWalkFacts.flat_map_nil in H3 |- *. intros a Ha. specialize (H3 a Ha).
    cbn beta in H3 |- *. destruct (assoc a (xe_attributes def)) as [decl|]; [|done].
    apply app_eq_nil in H3 as [Hf He]. apply app_nil. split.
    + destruct (fixed decl); [|done]. by destruct (str_eqb _ _).
    + destruct (enum decl); [|done]. by destruct (has _ _).
Qed.

Lemma xsd_validateChildren_nil_path fuel el name def xsd h h' :
  validateChildren fuel el name def h xsd = Some [] ->
  validateChildren fuel el name def h' xsd = Some [].
Proof.
  unfold validateChildren.
  destruct (filterCompatChildren (kidNamesOf el)) as [compat same].
  assert (forall h0, match nonWhitespaceText el with
                     | Some _ =>
                         if xe_mixed def then []
                         else [{| path := h0;
                                  msg := lit "<" ++ name
                                         ++ lit "> does not allow character data" |}]
                     | None => []
                     end = [] <->
                     (nonWhitespaceText el = None \/ xe_mixed def = true)) as Ht.
  { intros h0. destruct (nonWhitespaceText el); [|by split; auto].
    destruct (xe_mixed def); [by split; auto|]. split; [done | by intros [? | ?]]. }
  destruct (orElse _ _) as [[|]|]; [| |done].
  - intros [= H]. f_equal. apply Ht. by apply Ht in H.
  - destruct (has name RELAXED_CHILD_ORDER && _).
    + destruct (requiredChildrenSatisfied _ _ _ _) as [[|]|]; [| |done].
      * intros [= H]. f_equal. apply Ht. by apply Ht in H.
      * intros [= H]. by apply app_eq_nil in H as [_ ?].
    + intros [= H]. by apply app_eq_nil in H as [_ ?].
Qed.

(** What [walk] pushes for the element itself. *)
Local Abbreviation own fuel xsd el here :=
  (match resolveElementDef (localName (el_name el)) xsd with
   | None =>
       Some [{| path := here;
                msg := lit "Element <" ++ localName (el_name el)
                       ++ lit "> not declared in XSD" |}]
   | Some def =>
       match validateChildren fuel el (localName (el_name el)) def here xsd with
       | None => None
       | Some ce => Some (validateAttrs el (localName (el_name el)) def here ++ ce)
       end
   end).

Lemma xsd_own_nil fuel xsd el here : own fuel xsd el here = Some [] <-> xsdLocalOk fuel xsd el.
Proof.
  unfold xsdLocalOk. destruct (resolveElementDef (localName (el_name el)) xsd) as [def|].
  - split.
    + intros H.
      destruct (validateChildren fuel el _ def here xsd) as [ce|] eqn:Ec; [|done].
      assert (validateAttrs el (localName (el_name el)) def here ++ ce = []) as H'
        by congruence.
      clear H. apply app_eq_nil in H' as [Ha ->].
      exists def. split; [done |]. split.
      * by apply (xsd_validateAttrs_nil_path el _ def here).
      * by apply (xsd_validateChildren_nil_path fuel el _ def xsd here).
    + intros (def' & [= <-] & Ha & Hc).
      rewrite (xsd_validateChildren_nil_path fuel el _ def xsd [] here Hc).
      by rewrite (xsd_validateAttrs_nil_path el _ def [] here Ha).
  - split; [done | intros (def & H & _); done].
Qed.

Lemma kidsWalk_nil fuel r xsd here ks :
  kidsWalk fuel r xsd here ks = Some [] <->
  forall k, k ∈ ks -> walk fuel r xsd k here = Some [].
Proof.
  induction ks as [|k ks IH]; cbn [foldr].
  - split; [intros _ k Hk; by apply elem_of_nil in Hk | done].
  - split.
    + intros H. destruct (walk fuel r xsd k here) as [e1|] eqn:E1; [|done].
      destruct (kidsWalk fuel r xsd here ks) as [e2|] eqn:E2; [|done].
      assert (e1 ++ e2 = []) as H' by congruence.
      clear H. apply app_eq_nil in H' as [-> ->].
      intros k' Hk'. apply elem_of_cons in Hk' as [-> | Hk']; [done|]. by apply IH.
    + intros H. rewrite (H k) by left.
      assert (kidsWalk fuel r xsd here ks = Some []) as -> by (apply IH; intros k' ?; apply H; by right).
      done.
Qed.

Lemma xsd_walk_nil fuel r xsd el path_ :
  walk fuel r xsd el path_ = Some [] <->
  (is_nil path_ && negb (str_eqb (localName (el_name el)) r) = false)
  /\ own fuel xsd el (hereOf el path_) = Some []
  /\ kidsWalk fuel r xsd (hereOf el path_) (childElements el) = Some [].
Proof.
  rewrite XsdTerminationFacts.xsd_walk_eq.
  destruct (own fuel xsd el (hereOf el path_)) as [ownErrs|]; [|by split; [|intros (_ & ? & _)]].
  destruct (kidsWalk fuel r xsd (hereOf el path_) (childElements el)) as [kidErrs|];
    [|by split; [|intros (_ & _ & ?)]].
  split.
  - intros [= H]. apply app_eq_nil in H as [H1 H]. apply app_eq_nil in H as [-> ->].
    split; [|done]. by destruct (is_nil path_ && _).
  - intros (-> & [= ->] & [= ->]). done.
Qed.

Lemma xsd_walk_below_nil fuel r xsd el : forall path_,
  path_ <> [] ->
  walk fuel r xsd el path_ = Some [] <->
  forall el', subElement el' el -> xsdLocalOk fuel xsd el'.
Proof.
  induction el as [nm a cs IH | v |] using DtdWalkFacts.Node_ind'; intros path_ Hp;
    rewrite xsd_walk_nil, xsd_own_nil, kidsWalk_nil;
    assert (Hroot : is_nil path_ = false) by (by destruct path_); rewrite Hroot; cbn [andb].
  - split.
    + intros (_ & Hown & Hkids) el' Hs.
      apply DtdWalkFacts.subElement_inv in Hs as [-> | (k & Hk & Hs)]; [done |].
      specialize (Hkids k Hk).
      apply DtdWalkFacts.childElements_elem in Hk as [Hin _]. cbn [el_children] in Hin.
      rewrite Forall_forall in IH.
      by apply (IH k Hin _ (DtdWalkFacts.hereOf_nonempty (Element nm a cs) path_)).
    + intros H. split; [done|]. split; [apply H; constructor |].
      intros k Hk. pose proof Hk as Hk'.
      apply DtdWalkFacts.childElements_elem in Hk' as [Hin _]. cbn [el_children] in Hin.
      rewrite Forall_forall in IH.
      apply (IH k Hin _ (DtdWalkFacts.hereOf_nonempty (Element nm a cs) path_)).
      intros el' Hs. apply H. apply DtdWalkFacts.subElement_inv. right. by exists k.
  - split.
    + intros (_ & Hown & _) el' Hs.
      apply DtdWalkFacts.subElement_inv in Hs as [-> | (k & Hk & _)]; [done |].
      by apply elem_of_nil in Hk.
    + intros H. split; [done|]. split; [apply H; constructor |].
      intros k Hk. by apply elem_of_nil in Hk.
  - split.
    + intros (_ & Hown & _) el' Hs.
      apply DtdWalkFacts.subElement_inv in Hs as [-> | (k & Hk & _)]; [done |].
      by apply elem_of_nil in Hk.
    + intros H. split; [done|]. split; [apply H; constructor |].
      intros k Hk. by apply elem_of_nil in Hk.
Qed.

Lemma xsd_walk_root_nil fuel r xsd root :
  walk fuel r xsd root [] = Some [] <->
  localName (el_name root) = r /\ forall el', subElement el' root -> xsdLocalOk fuel xsd el'.
Proof.
  rewrite xsd_walk_nil, xsd_own_nil, kidsWalk_nil. cbn [is_nil andb].
  split.
  - intros (Hr & Hown & Hkids). split.
    + destruct (str_eqb (localName (el_name root)) r) eqn:E; [by apply str_eqb_true | done].
    + intros el' Hs.
      apply DtdWalkFacts.subElement_inv in Hs as [-> | (k & Hk & Hs)]; [done |].
      by apply (xsd_walk_below_nil fuel r xsd k _ (DtdWalkFacts.hereOf_nonempty root []));
        [apply Hkids |].
  - intros [Hr H]. apply str_eqb_true in Hr. rewrite Hr. split; [done|]. split.
    + apply H. constructor.
    + intros k Hk.
      apply (xsd_walk_below_nil fuel r xsd k _ (DtdWalkFacts.hereOf_nonempty root [])).
      intros el' Hs. apply H. apply DtdWalkFacts.subElement_inv. right. by exists k.
Qed.

End XsdWalkFacts.

(** X20. [validateAgainstXsd] returns without throwing exactly when the
    root element has the expected local name and every element of the
    tree resolves to a declaration of the index and passes its own
    attribute and children checks: no element is skipped, and a
    violation anywhere makes it throw. *)
Theorem X20_xsd_returns_iff_every_element_ok fuel root expectedRoot xsd :
  Xsd.validateAgainstXsd fuel root expectedRoot xsd = Some Returns <->
  localName (el_name root) = expectedRoot
  /\ forall el, Document.subElement el root -> Document.xsdLocalOk fuel xsd el.
Proof.
  rewrite <- XsdWalkFacts.xsd_walk_root_nil. unfold Xsd.validateAgainstXsd.
  destruct (Xsd.walk fuel expectedRoot xsd root []) as [[|e es]|]; split; done.
Qed.

(** ** The container step only escapes angle brackets *)

Module EscapeFacts.
Import Sanitizer AngleEscapes.

Lemma escapes_refl s : escapes s s.
Proof. induction s; by constructor. Qed.

Lemma escapes_app o1 s1 o2 s2 :
  escapes o1 s1 -> escapes o2 s2 -> escapes (o1 ++ o2) (s1 ++ s2).
Proof.
  intros H1 H2. induction H1; cbn [app]; [done | by constructor | |].
  - rewrite <- app_assoc. by constructor.
  - rewrite <- app_assoc. by constructor.
Qed.

Lemma escapes_replaceAngles s : escapes (replaceAngles s) s.
Proof.
  unfold replaceAngles. induction s as [|c s IH]; [constructor|].
  cbn [flat_map]. destruct (c =? 60)%N eqn:E1.
  - apply N.eqb_eq in E1 as ->. by constructor.
  - destruct (c =? 62)%N eqn:E2.
    + apply N.eqb_eq in E2 as ->. by constructor.
    + by constructor.
Qed.

(** The scan ends on a [">"]. *)
Lemma scanTagEnd_gt s : forall quote lastNonWs n0 n sc,
  scanTagEnd s quote lastNonWs n0 = Some (n, sc) ->
  n0 < n /\ s !! (n - n0 - 1) = Some 62%N.
Proof.
  induction s as [|ch r IH]; intros quote lastNonWs n0 n sc H; [done|].
  cbn [scanTagEnd] in H. destruct quote as [q|].
  - apply IH in H as [Hn Hl]. split; [lia|].
    replace (n - n0 - 1) with (S (n - S n0 - 1)) by lia. exact Hl.
  - destruct ((ch =? 34)%N || (ch =? 39)%N).
    { apply IH in H as [Hn Hl]. split; [lia|].
      replace (n - n0 - 1) with (S (n - S n0 - 1)) by lia. exact Hl. }
    destruct (ch =? 62)%N eqn:E.
    { inversion H; subst. apply N.eqb_eq in E as ->. split; [lia|].
      by replace (S n0 - n0 - 1) with 0 by lia. }
    destruct (ch =? 60)%N; [done|].
    apply IH in H as [Hn Hl]. split; [lia|].
    replace (n - n0 - 1) with (S (n - S n0 - 1)) by lia. exact Hl.
Qed.

(** A well-formed tag is ["<"], its inner text and [">"]. *)
Lemma tagText_shape after tag :
  parseTagDetailed after = Some tag ->
  take (tend tag) (60%N :: after)
  = 60%N :: inner (take (tend tag) (60%N :: after)) ++ [62%N].
Proof.
  unfold parseTagDetailed.
  set (cr := match after with 47%N :: r' => (true, r') | _ => (false, after) end).
  assert (after = (if cr.1 then [47%N] else []) ++ cr.2) as Hafter.
  { subst cr. destruct after as [|c r]; [done|].
    destruct (N.eqb_spec c 47) as [-> | Hne]; [done|].
    destruct c as [|p]; [done|].
    repeat (destruct p as [p|p|]; try done). }
  destruct cr as [cl r]. cbn [fst snd] in Hafter.
  destruct r as [|c0 r0] eqn:Er; [done|].
  destruct (negb _); [done|].
  destruct (scanTagEnd _ _ _ _) as [[n sc]|] eqn:Es; [|done].
  intros [= <-]. cbn [tend].
  apply scanTagEnd_gt in Es as [Hn Hl]. rewrite Nat.sub_0_r in Hl.
  set (name := takeWhile isTagNameChar (c0 :: r0)) in *.
  set (r' := dropWhile isTagNameChar (c0 :: r0)) in *.
  assert (c0 :: r0 = name ++ r') as Hr by (symmetry; apply DtdParserFacts.takeWhile_dropWhile).
  set (pre := (if cl then [47%N] else []) ++ name).
  assert (after = pre ++ r') as Ha.
  { subst pre. rewrite Hafter, Hr. by rewrite app_assoc. }
  assert (length pre = (if cl then 1 else 0) + length name) as Hlen.
  { subst pre. rewrite length_app. by destruct cl. }
  pose proof (lookup_lt_Some _ _ _ Hl) as Hlt.
  change (if isTagNameChar c0 then c0 :: takeWhile isTagNameChar r0 else []) with name.
  assert (take (S ((if cl then 1 else 0) + length name + n)) (60%N :: after)
          = 60%N :: (pre ++ take (n - 1) r') ++ [62%N]) as ->.
  { cbn [take]. f_equal. rewrite Ha, <- Hlen.
    rewrite take_app_add'  by done.
    rewrite <- app_assoc. f_equal.
    replace n with (S (n - 1)) at 1 by lia.
    by apply take_S_r. }
  f_equal. unfold inner. cbn [length drop].
  rewrite length_app. cbn [length].
  replace (S (length (pre ++ take (n - 1) r') + 1) - 2)
    with (length (pre ++ take (n - 1) r')) by lia.
  by rewrite drop_0, take_app_length.
Qed.

Lemma escapes_escaped tagText (body : str) :
  tagText = 60%N :: inner tagText ++ [62%N] ->
  escapes body (inner tagText) ->
  escapes (lit "&lt;" ++ body ++ lit "&gt;") tagText.
Proof.
  intros Hs Hb.
  enough (escapes (lit "&lt;" ++ body ++ lit "&gt;") (60%N :: inner tagText ++ [62%N])) as H
    by (by rewrite Hs).
  apply esc_lt. apply escapes_app; [done|].
  apply (esc_gt [] []). constructor.
Qed.

Lemma onTag_escapes o tag tagText ctxStack :
  tagText = 60%N :: inner tagText ++ [62%N] ->
  escapes (onTag o tag tagText ctxStack).1 tagText.
Proof.
  intros Hs. unfold onTag.
  destruct (negb (closing tag) && _); [apply escapes_refl|].
  destruct ctxStack as [|current below]; [apply escapes_refl|].
  destruct (closing tag && str_eqb _ _); [apply escapes_refl|].
  destruct (forceTextInContainers o).
  { apply escapes_escaped; [done | apply escapes_replaceAngles]. }
  destruct (hasColon (qname tag)); [apply escapes_refl|].
  destruct (has (local tag) _).
  { destruct (closing tag); [|apply escapes_refl].
    destruct (match innerStack current with _ :: _ => _ | [] => false end);
      [apply escapes_refl|].
    apply escapes_escaped; [done | apply escapes_refl]. }
  destruct (escapeUnknownTagMentionsInText o); [|apply escapes_refl].
  apply escapes_escaped; [done | apply escapes_replaceAngles].
Qed.

Lemma streamLoop_escapes o fuel : forall ctxStack s,
  escapes (streamLoop fuel o ctxStack s) s.
Proof.
  induction fuel as [|f IH]; intros ctxStack s; [apply escapes_refl|].
  destruct s as [|ch r]; [constructor|]. cbn [streamLoop].
  destruct (ch =? 60)%N eqn:Ech; cbn [negb].
  - apply N.eqb_eq in Ech as ->.
    destruct (parseTagDetailed r) as [tag|] eqn:Et.
    + pose proof (tagText_shape r tag Et) as Hs.
      pose proof (onTag_escapes o tag _ ctxStack Hs) as He.
      destruct (onTag o tag (take (tend tag) (60%N :: r)) ctxStack) as [out ctx'].
      cbn [fst] in He.
      pose proof (escapes_app _ _ _ _ He (IH ctx' (drop (tend tag) (60%N :: r)))) as Happ.
      by rewrite take_drop in Happ.
    + destruct (negb (is_nil ctxStack) && escapeBareAnglesInText o).
      * by apply esc_lt.
      * by apply (esc_keep 60%N).
  - by constructor.
Qed.

End EscapeFacts.

(** X21. [applyContainerPoliciesStream] changes its input only by
    writing some of its ["<"] as ["&lt;"] and some of its [">"] as
    ["&gt;"]: nothing is dropped, added or reordered. *)
Theorem X21_container_step_only_escapes_angles s o :
  AngleEscapes.escapes (Sanitizer.applyContainerPoliciesStream s o) s.
Proof. apply EscapeFacts.streamLoop_escapes. Qed.

(** ** What the matcher accepts has its required children *)

Module XsdRequiredFacts.
Import Xsd XsdSemantics GroupRanks ParticleShape.

Local Abbreviation eachReq go :=
  (fix each (its : list XsdParticle) : option bool :=
     match its with
     | [] => Some true
     | it :: rest =>
         match go it with
         | None => None
         | Some false => Some false
         | Some true => each rest
         end
     end).

Local Abbreviation someReq go :=
  (fix some (its : list XsdParticle) : option bool :=
     match its with
     | [] => Some false
     | it :: rest =>
         match go it with
         | None => None
         | Some true => Some true
         | Some false => some rest
         end
     end).

Lemma eachReq_true (go : XsdParticle -> option bool) items b :
  (forall it, it ∈ items -> forall b', go it = Some b' -> b' = true) ->
  eachReq go items = Some b -> b = true.
Proof.
  induction items as [|it items IH]; intros H He; [by inversion He|].
  destruct (go it) as [[|]|] eqn:E; [| |done].
  - apply IH; [|done]. intros it' Hin. apply H. by right.
  - by specialize (H it ltac:(left) false E).
Qed.

Lemma someReq_true (go : XsdParticle -> option bool) items b :
  (exists it, it ∈ items /\ forall b', go it = Some b' -> b' = true) ->
  someReq go items = Some b -> b = true.
Proof.
  induction items as [|it items IH]; intros (it0 & Hin & H) He;
    [by apply elem_of_nil in Hin|].
  destruct (go it) as [[|]|] eqn:E; [by inversion He | | done].
  apply elem_of_cons in Hin as [-> | Hin]; [by specialize (H false E)|].
  apply IH; [|done]. by exists it0.
Qed.

(** *** Counting *)

Lemma countOf_app name (l1 l2 : list str) :
  countOf name (l1 ++ l2) = countOf name l1 + countOf name l2.
Proof. unfold countOf. by rewrite List.filter_app, length_app. Qed.

Lemma foldl_sum {A} (f : A -> nat) (l : list A) a :
  foldl (fun t s => t + f s) a l = a + foldl (fun t s => t + f s) 0 l.
Proof.
  revert a. induction l as [|x l IH]; intros a; cbn [foldl]; [lia|].
  rewrite (IH (a + f x)), (IH (0 + f x)). lia.
Qed.

Lemma foldl_sum_add {A} (f g : A -> nat) (l : list A) :
  foldl (fun t s => t + (f s + g s)) 0 l
  = foldl (fun t s => t + f s) 0 l + foldl (fun t s => t + g s) 0 l.
Proof.
  induction l as [|x l IH]; cbn [foldl]; [done|].
  rewrite (foldl_sum _ l (0 + (f x + g x))), (foldl_sum f l (0 + f x)),
    (foldl_sum g l (0 + g x)), IH. lia.
Qed.

Section Count.
Context (xsd : XsdIndex).

Lemma countForName_app name (l1 l2 : list str) :
  countForName name (l1 ++ l2) xsd = countForName name l1 xsd + countForName name l2 xsd.
Proof.
  unfold countForName. rewrite countOf_app.
  destruct (substitutionGroups xsd !! name) as [subs|]; [|done].
  rewrite (foldl_sum _ subs (_ + _)), (foldl_sum _ subs (countOf name l1)),
    (foldl_sum _ subs (countOf name l2)).
  assert (foldl (fun t s => t + countOf s (l1 ++ l2)) 0 subs
          = foldl (fun t s => t + (countOf s l1 + countOf s l2)) 0 subs) as ->.
  { clear. generalize 0. induction subs as [|s subs IH]; intros a; cbn [foldl]; [done|].
    by rewrite countOf_app, IH. }
  rewrite foldl_sum_add. lia.
Qed.

Lemma countOf_le_countForName name (l : list str) : countOf name l <= countForName name l xsd.
Proof.
  unfold countForName. destruct (substitutionGroups xsd !! name) as [subs|]; [|done].
  rewrite foldl_sum. lia.
Qed.

Lemma countForName_one name c :
  matchesElementName name c xsd = true -> 1 <= countForName name [c] xsd.
Proof.
  intros H. apply XsdFacts.matchesElementName_spec in H as [-> | (subs & Hs & Hc)].
  - etransitivity; [|apply countOf_le_countForName].
    unfold countOf. cbn. by rewrite str_eqb_refl.
  - unfold countForName. rewrite Hs. rewrite foldl_sum.
    apply list_elem_of_split in Hc as (s1 & s2 & ->).
    rewrite foldl_app. cbn [foldl]. rewrite (foldl_sum _ s2).
    assert (countOf c [c] = 1) as -> by (unfold countOf; cbn; by rewrite str_eqb_refl).
    lia.
Qed.

Lemma run_count name (seg : list str) :
  (forall c, c ∈ seg -> matchesElementName name c xsd = true) ->
  length seg <= countForName name seg xsd.
Proof.
  induction seg as [|c seg IH]; intros H; [cbn; lia|].
  change (c :: seg) with ([c] ++ seg). rewrite countForName_app, length_app.
  pose proof (countForName_one name c (H c ltac:(left))).
  assert (length seg <= countForName name seg xsd) by (apply IH; intros c' ?; apply H; by right).
  cbn [length]. lia.
Qed.

Lemma slice_count name (kids : list str) p e :
  countForName name (slice kids p e) xsd <= countForName name kids xsd.
Proof.
  unfold slice.
  rewrite <- (take_drop p kids) at 2. rewrite countForName_app.
  rewrite <- (take_drop (e - p) (drop p kids)) at 2. rewrite countForName_app. lia.
Qed.
End Count.

Section Required.
Context (xsd : XsdIndex) (kids : list str).
Hypothesis Hgroups : forall r g, groups xsd !! r = Some g -> minsNonNegative g = true.

(** Whenever the check of the required children of a particle comes to
    an end, it is satisfied. *)
Local Abbreviation sat node :=
  (forall fuel b, requiredChildrenSatisfied fuel xsd kids node = Some b -> b = true).

Local Abbreviation onceOk node :=
  (match node with
   | PSequence items _ | PAll items _ => forall it : XsdParticle, it ∈ items -> sat it
   | PChoice items _ => exists it : XsdParticle, it ∈ items /\ sat it
   | PGroupRef r _ => forall g, groups xsd !! r = Some g -> sat g
   | _ => True
   end).

Local Abbreviation elemRun node :=
  (fun k p e : nat =>
     match node with
     | PElement name _ =>
         e = p + k
         /\ forall i, p <= i < e ->
              exists c, kids !! i = Some c /\ matchesElementName name c xsd = true
     | _ => True
     end).

Lemma minsNonNegative_items items o :
  (minsNonNegative (PSequence items o) = true -> Forall (fun it => minsNonNegative it = true) items)
  /\ (minsNonNegative (PChoice items o) = true -> Forall (fun it => minsNonNegative it = true) items)
  /\ (minsNonNegative (PAll items o) = true -> Forall (fun it => minsNonNegative it = true) items).
Proof.
  repeat split; cbn [minsNonNegative]; intros H; apply andb_true_iff in H as [_ H];
    rewrite forallb_forall in H; apply Forall_forall; intros it Hin;
    apply H; by apply list_elem_of_In.
Qed.

Lemma minsNonNegative_min p : minsNonNegative p = true -> (0 <= omin (p_occurs p))%Z.
Proof.
  destruct p; cbn [minsNonNegative p_occurs]; intros H; apply andb_true_iff in H as [H _];
    by apply Z.leb_le.
Qed.

Lemma allSatisfied_sat items prefix :
  allSatisfied items prefix = true ->
  forall it, it ∈ items ->
    match it with
    | PElement nm o => (omin o <= Z.of_nat (countOf nm prefix))%Z
    | PAny _ => True
    | _ => False
    end.
Proof.
  unfold allSatisfied. intros H it Hin. apply andb_true_iff in H as [_ H].
  rewrite forallb_forall in H. specialize (H it ltac:(by apply list_elem_of_In)).
  destruct it; try done.
  apply negb_true_iff, orb_false_iff in H as [H _]. by apply Z.ltb_ge in H.
Qed.

Lemma reach_sat node p e :
  reach xsd kids node p e -> minsNonNegative node = true -> sat node.
Proof.
  revert node p e.
  pose (P := fun (node : XsdParticle) (p e : nat) => minsNonNegative node = true -> sat node).
  pose (P0 := fun (node : XsdParticle) (k p e : nat) =>
                minsNonNegative node = true -> (1 <= k -> onceOk node) /\ elemRun node k p e).
  pose (P1 := fun (node : XsdParticle) (p e : nat) =>
                minsNonNegative node = true -> onceOk node /\ elemRun node 1 p e).
  pose (P2 := fun (items : list XsdParticle) (p e : nat) =>
                Forall (fun it => minsNonNegative it = true) items ->
                forall it : XsdParticle, it ∈ items -> sat it).
  apply (reach_mut xsd kids P P0 P1 P2); subst P P0 P1 P2; cbv beta.
  - (* reach_times *)
    intros node k p e [Hlo _] _ IH Hwf fuel b Hb.
    destruct (IH Hwf) as [Honce Hrun].
    pose proof (minsNonNegative_min _ Hwf) as Hmin.
    rewrite XsdTerminationFacts.required_unfold in Hb.
    destruct node as [o | name o | items o | items o | items o | r o | o];
      cbn [p_occurs] in Hlo, Hmin.
    + by inversion Hb.
    + inversion Hb; subst b. apply Z.leb_le.
      destruct Hrun as [-> Hrun].
      assert (k <= countForName name kids xsd); [|lia].
      assert (length (slice kids p (p + k)) = k) as Hlen.
      { unfold slice. rewrite length_take, length_drop.
        destruct k as [|k']; [lia|].
        destruct (Hrun (p + k') ltac:(lia)) as (c & Hc & _).
        apply lookup_lt_Some in Hc. lia. }
      rewrite <- Hlen at 1. etransitivity; [|apply (slice_count xsd name kids p (p + k))].
      apply run_count. intros c Hc. apply list_elem_of_lookup in Hc as [i Hi].
      unfold slice in Hi. pose proof (lookup_lt_Some _ _ _ Hi) as Hlt.
      rewrite length_take in Hlt.
      rewrite lookup_take_lt in Hi by lia. rewrite lookup_drop in Hi.
      destruct (Hrun (p + i) ltac:(lia)) as (c' & Hc' & Hm). congruence.
    + destruct (omin o =? 0)%Z eqn:E0; [by inversion Hb|]. apply Z.eqb_neq in E0.
      apply (eachReq_true (requiredChildrenSatisfied fuel xsd kids) items b); [|done].
      intros it Hin b'. apply Honce; [lia | done].
    + destruct (omin o =? 0)%Z eqn:E0; [by inversion Hb|]. apply Z.eqb_neq in E0.
      apply (someReq_true (requiredChildrenSatisfied fuel xsd kids) items b); [|done].
      destruct Honce as (it & Hin & Hs); [lia|]. exists it. split; [done|]. apply Hs.
    + destruct (omin o =? 0)%Z eqn:E0; [by inversion Hb|]. apply Z.eqb_neq in E0.
      apply (eachReq_true (requiredChildrenSatisfied fuel xsd kids) items b); [|done].
      intros it Hin b'. apply Honce; [lia | done].
    + destruct (omin o =? 0)%Z eqn:E0; [by inversion Hb|]. apply Z.eqb_neq in E0.
      destruct (groups xsd !! r) as [g|] eqn:Eg; [|by inversion Hb].
      destruct fuel as [|f]; [done|]. by apply (Honce ltac:(lia) g eq_refl f).
    + by inversion Hb.
  - (* times_O *)
    intros node p Hwf. split; [lia|]. destruct node; try done. split; [lia|]. intros i Hi. lia.
  - (* times_S *)
    intros node k p q e _ IH1 _ IH0 Hwf.
    destruct (IH1 Hwf) as [Honce Hrun1]. destruct (IH0 Hwf) as [_ Hrun].
    split; [done|]. destruct node; try done.
    destruct Hrun1 as [-> Hrun1]. destruct Hrun as [-> Hrun]. split; [lia|].
    intros i Hi. destruct (decide (i < p + 1)); [apply Hrun1 | apply Hrun]; lia.
  - (* once_empty *) done.
  - (* once_element *)
    intros name o p c Hc Hm _. split; [done|]. split; [done|].
    intros i Hi. assert (i = p) as -> by lia. by exists c.
  - (* once_any *) done.
  - (* once_group *)
    intros ref o g p e Hg _ IH _. split; [|done].
    intros g' Hg'. rewrite Hg in Hg'. inversion Hg'; subst g'. apply IH. by eapply Hgroups.
  - (* once_sequence *)
    intros items o p e _ IH Hwf. split; [|done].
    apply IH. by apply (minsNonNegative_items items o).
  - (* once_choice *)
    intros items o it p e Hin _ IH Hwf. split; [|done].
    exists it. split; [done|]. apply IH.
    pose proof (proj1 (proj2 (minsNonNegative_items items o)) Hwf) as Hall.
    by apply (proj1 (Forall_forall _ _) Hall).
  - (* once_all *)
    intros items o p e _ Hall _. split; [|done].
    intros it Hin fuel b Hb.
    pose proof (allSatisfied_sat _ _ Hall it Hin) as Hit.
    rewrite XsdTerminationFacts.required_unfold in Hb.
    destruct it as [| nm o' | | | | |]; try done; [|by inversion Hb].
    inversion Hb; subst b. apply Z.leb_le.
    pose proof (countOf_le_countForName xsd nm (slice kids p e)).
    pose proof (slice_count xsd nm kids p e). lia.
  - (* chain_nil *)
    intros p _ it Hin. by apply elem_of_nil in Hin.
  - (* chain_cons *)
    intros it rest p q e _ IH _ IH2 Hwf it' Hin.
    inversion Hwf; subst.
    apply elem_of_cons in Hin as [-> | Hin]; [by apply IH | by apply IH2].
Qed.
End Required.

(** With a negative [occurs.min] the strict check accepts the empty
    list of children while the required children are found missing. *)
Lemma negative_min_accepts_without_required :
  matchesParticle 1 sample_negativeMin [] sample_groupIndex = Some true
  /\ requiredChildrenSatisfied 1 sample_groupIndex [] sample_negativeMin = Some false.
Proof. split; vm_compute; reflexivity. Qed.

End XsdRequiredFacts.

(** X22. When no [occurs.min] of the content model and of the groups is
    negative, the children that [matchesParticle] accepts also pass
    [requiredChildrenSatisfied]: what the strict check accepts has the
    required children that the relaxed check asks for. *)
Theorem X22_xsd_matched_children_have_the_required
    xsd rank fuel (p : XsdParticle) (kids : list str) :
  GroupRanks.acyclic xsd rank ->
  GroupRanks.refsBelow xsd rank fuel p = true ->
  ParticleShape.minsNonNegative p = true ->
  (forall r g, groups xsd !! r = Some g -> ParticleShape.minsNonNegative g = true) ->
  Xsd.matchesParticle fuel p kids xsd = Some true ->
  Xsd.requiredChildrenSatisfied fuel xsd kids p = Some true.
Proof.
  intros Hacyc Hr Hp Hg Hm.
  destruct (XsdMatcherFacts.matchesParticle_reach xsd rank kids p Hacyc fuel Hr)
    as (b & Hb & Hreach).
  rewrite Hm in Hb. inversion Hb; subst b. clear Hb.
  destruct (XsdTerminationFacts.requiredChildrenSatisfied_total xsd rank Hacyc kids fuel p Hr)
    as [b Hb].
  rewrite Hb. f_equal.
  apply (XsdRequiredFacts.reach_sat xsd kids Hg p 0 (length kids) ltac:(by apply Hreach) Hp
           fuel b Hb).
Qed.

Lemma X22_witness :
  Xsd.requiredChildrenSatisfied 1 sample_groupIndex [lit "a"] (PGroupRef (lit "g") occurs11)
  = Some true.
Proof.
  apply (X22_xsd_matched_children_have_the_required sample_groupIndex (fun _ => 0) 1).
  - intros g p Hg. cbn [groups sample_groupIndex] in Hg.
    apply lookup_singleton_Some in Hg as [_ <-]. reflexivity.
  - reflexivity.
  - reflexivity.
  - intros r g Hg. cbn [groups sample_groupIndex] in Hg.
    apply lookup_singleton_Some in Hg as [_ <-]. reflexivity.
  - vm_compute. reflexivity.
Defined.

(** ** The content of an extended type *)

Module ExtensionFacts.
Import Xsd XsdSemantics XsdIndexBuilder.

Section Merge.
Context (xsd : XsdIndex) (children : list str).

Lemma once_one node p e :
  p_occurs node = occurs11 ->
  reach xsd children node p e <-> once xsd children node p e.
Proof.
  intros Ho. rewrite XsdMatcherFacts.reach_iff. rewrite Ho. unfold inRange, occurs11. cbn.
  split.
  - intros (k & [Hlo Hhi] & H). assert (k = 1) as -> by lia.
    destruct H as (q & Hq & ->). exact Hq.
  - intros H. exists 1. split; [lia|]. exists e. by split.
Qed.

Lemma reach_default_empty p e : reach xsd children (PEmpty occurs11) p e <-> e = p.
Proof. rewrite once_one by done. by rewrite XsdMatcherFacts.once_iff. Qed.

Lemma is_default_empty (x : XsdParticle) :
  match x with
  | PEmpty {| omin := 1; omax := MaxN 1 |} => true
  | _ => false
  end = true -> x = PEmpty occurs11.
Proof.
  destruct x as [[mn [mx|]] | | | | | |]; try done.
  - destruct mn as [|mn|mn]; try done. destruct mn; try done.
    destruct mx as [|mx|mx]; try done. by destruct mx.
  - destruct mn as [|mn|mn]; try done. by destruct mn.
Qed.

Lemma merge_reach base extra p e :
  reach xsd children (mergeExtensionContent base extra) p e <->
  exists q, reach xsd children base p q /\ reach xsd children extra q e.
Proof.
  unfold mergeExtensionContent.
  destruct (match base with
            | PEmpty {| omin := 1; omax := MaxN 1 |} => true
            | _ => false
            end) eqn:Eb.
  { apply is_default_empty in Eb as ->. split.
    - intros H. exists p. split; [by apply reach_default_empty | done].
    - intros (q & Hq & H). apply reach_default_empty in Hq as ->. done. }
  destruct (match extra with
            | PEmpty {| omin := 1; omax := MaxN 1 |} => true
            | _ => false
            end) eqn:Ee.
  { apply is_default_empty in Ee as ->. split.
    - intros H. exists e. split; [done | by apply reach_default_empty].
    - intros (q & H & Hq). apply reach_default_empty in Hq as ->. done. }
  rewrite once_one by done. rewrite XsdMatcherFacts.once_iff. split.
  - intros H. apply XsdMatcherFacts.chain_cons_iff in H as (q & Hb & H).
    apply XsdMatcherFacts.chain_cons_iff in H as (q' & He & H).
    apply XsdMatcherFacts.chain_nil_iff in H as ->. by exists q.
  - intros (q & Hb & He). apply XsdMatcherFacts.chain_cons_iff. exists q. split; [done|].
    apply XsdMatcherFacts.chain_cons_iff. exists e. split; [done|].
    by apply XsdMatcherFacts.chain_nil_iff.
Qed.
End Merge.
End ExtensionFacts.

(** X23. The content that [mergeExtensionContent] gives an extended
    type accepts exactly a stretch of children that the content of the
    base type accepts followed by one that the content of the
    extension accepts. *)
Theorem X23_extension_content_is_base_then_extension
    xsd (children : list str) (base extra : XsdParticle) p e :
  XsdSemantics.reach xsd children (XsdIndexBuilder.mergeExtensionContent base extra) p e <->
  exists q, XsdSemantics.reach xsd children base p q
            /\ XsdSemantics.reach xsd children extra q e.
Proof. apply ExtensionFacts.merge_reach. Qed.

(** ** Where a pattern occurs first *)

Module TextSearch.
Import Sanitizer XmlText.

Lemma firstAt_nil pat z : firstAt pat [] z.
Proof. intros k Hk. simpl in Hk. lia. Qed.

Lemma firstAt_tail pat c u z : firstAt pat (c :: u) z -> firstAt pat u z.
Proof. intros H k Hk. apply (H (S k)). simpl. lia. Qed.

Lemma firstAt_app pat u v z :
  firstAt pat u (v ++ z) -> firstAt pat v z -> firstAt pat (u ++ v) z.
Proof.
  intros Hu Hv k Hk. rewrite length_app in Hk.
  destruct (decide (k < length u)) as [Hlt | Hge].
  - rewrite <- app_assoc. by apply Hu.
  - rewrite <- app_assoc, drop_app_ge by lia. apply Hv. lia.
Qed.

Lemma noStartIn_nil pat : noStartIn pat [].
Proof. intros z. apply firstAt_nil. Qed.

Lemma noStartIn_app pat u v : noStartIn pat u -> noStartIn pat v -> noStartIn pat (u ++ v).
Proof. intros Hu Hv z. apply firstAt_app; [apply Hu | apply Hv]. Qed.

Lemma startsWith_head c pat d s : c <> d -> startsWith (d :: s) (c :: pat) = false.
Proof. intros H. simpl. destruct (N.eqb_spec c d); [done | done]. Qed.

(** A text without the first character of the pattern. *)
Lemma noStartIn_absent c pat u : c ∉ u -> noStartIn (c :: pat) u.
Proof.
  intros Hc z k Hk.
  destruct (drop k (u ++ z)) as [|d s] eqn:E; [done |].
  apply startsWith_head. intros <-. apply Hc.
  assert (Hl : (u ++ z) !! k = Some c).
  { rewrite <- (take_drop k (u ++ z)), E.
    rewrite lookup_app_r by (rewrite length_take; lia).
    rewrite length_take, length_app. replace (k - _) with 0 by lia. done. }
  rewrite lookup_app_l in Hl by done. by apply list_elem_of_lookup_2 in Hl.
Qed.

Lemma indexOf_aux_first pat u z i :
  firstAt pat u z -> startsWith z pat = true ->
  indexOf_aux (u ++ z) pat i = Some (i + length u).
Proof.
  revert i. induction u as [|c u IH]; intros i Hu Hz.
  - cbn [app length]. rewrite Nat.add_0_r. destruct z as [|d z]; cbn [indexOf_aux].
    + by destruct pat.
    + by rewrite Hz.
  - cbn [app indexOf_aux].
    pose proof (Hu 0 ltac:(simpl; lia)) as H0. rewrite drop_0 in H0.
    cbn [app] in H0. rewrite H0.
    rewrite IH; [f_equal; simpl; lia | by eapply firstAt_tail | done].
Qed.

Lemma indexOf_aux_absent pat u i :
  pat <> [] -> firstAt pat u [] -> indexOf_aux u pat i = None.
Proof.
  intros Hp. revert i. induction u as [|c u IH]; intros i Hu.
  - simpl. by destruct pat.
  - cbn [indexOf_aux].
    pose proof (Hu 0 ltac:(simpl; lia)) as H0. rewrite drop_0, app_nil_r in H0.
    rewrite H0. apply IH. by eapply firstAt_tail.
Qed.

Lemma indexOf_first pat u z :
  firstAt pat u z -> startsWith z pat = true ->
  indexOf (u ++ z) pat 0 = Some (length u).
Proof.
  intros Hu Hz. unfold indexOf. rewrite drop_0. simpl.
  by rewrite indexOf_aux_first.
Qed.

Lemma indexOf_absent pat u :
  pat <> [] -> firstAt pat u [] -> indexOf u pat 0 = None.
Proof.
  intros Hp Hu. unfold indexOf. rewrite drop_0. by apply indexOf_aux_absent.
Qed.

(** The search from the end of a prefix [p]. *)
Lemma indexOf_after pat p u z :
  firstAt pat u z -> startsWith z pat = true ->
  indexOf (p ++ u ++ z) pat (length p) = Some (length p + length u).
Proof.
  intros Hu Hz. unfold indexOf. rewrite drop_app_length.
  rewrite Nat.min_l by (rewrite length_app; lia).
  by apply indexOf_aux_first.
Qed.

Lemma startsWith_app_long u tail pat :
  length pat <= length u -> startsWith (u ++ tail) pat = startsWith u pat.
Proof.
  revert u. induction pat as [|c pat IH]; intros u Hl;
    [by rewrite !MaskFacts.startsWith_nil |].
  destruct u as [|d u]; [simpl in Hl; lia |]. simpl.
  destruct (N.eqb c d); [| done]. apply IH. simpl in Hl. lia.
Qed.

Lemma endsFirst_firstAt term b tail :
  endsFirst term b = true -> firstAt term b (term ++ tail).
Proof.
  unfold endsFirst. destruct (indexOf (b ++ term) term 0) as [j|] eqn:E; [| done].
  intros Hj. apply Nat.eqb_eq in Hj as ->.
  apply MaskFacts.indexOf_zero in E as (_ & _ & Hmin).
  intros k Hk. rewrite app_assoc, drop_app_le by (rewrite length_app; lia).
  rewrite startsWith_app_long; [by apply Hmin |].
  rewrite length_drop, length_app. lia.
Qed.

Lemma occurs_drop pat s k : occurs pat s = false -> startsWith (drop k s) pat = false.
Proof.
  revert k. induction s as [|c s IH]; intros k H.
  - rewrite drop_nil. simpl in H. by apply orb_false_iff in H as [H _].
  - cbn [occurs] in H. apply orb_false_iff in H as [H0 Hr].
    destruct k as [|k]; [done |]. simpl. by apply IH.
Qed.

(** A text that holds no occurrence of the pattern, followed by a
    character that continues no beginning of the pattern. *)
Lemma firstAt_occurs pat b z :
  occurs pat b = false ->
  (forall j, 0 < j < length pat -> startsWith z (drop j pat) = false) ->
  firstAt pat b z.
Proof.
  intros Hocc Hz k Hk.
  destruct (startsWith (drop k (b ++ z)) pat) eqn:E; [| done]. exfalso.
  rewrite drop_app_le in E by lia.
  pose proof (occurs_drop pat b k Hocc) as Hb.
  assert (Hd : 0 < length (drop k b)) by (rewrite length_drop; lia).
  revert Hb E Hz Hd. generalize (drop k b) as s. clear Hocc Hk.
  induction pat as [|c pat IH]; intros s Hb E Hz Hd; [by destruct s |].
  destruct s as [|d s]; [simpl in Hd; lia |].
  simpl in Hb, E. destruct (N.eqb c d); [| done].
  destruct s as [|d' s].
  - simpl in E. specialize (Hz 1). simpl in Hz.
    destruct pat as [|c' pat]; [done |].
    rewrite drop_0 in Hz. rewrite Hz in E; [done | simpl; lia].
  - apply (IH (d' :: s)); [done | done | | simpl; lia].
    intros j Hj. apply (Hz (S j)). simpl. lia.
Qed.

Lemma dropWhile_spaces_app (f : N -> bool) w s :
  forallb f w = true -> dropWhile f (w ++ s) = dropWhile f s.
Proof.
  induction w as [|c w IH]; [done |]. simpl. intros H.
  apply andb_true_iff in H as [Hc Hw]. rewrite Hc. by apply IH.
Qed.

Lemma dropWhile_stop (f : N -> bool) c s : f c = false -> dropWhile f (c :: s) = c :: s.
Proof. intros H. simpl. by rewrite H. Qed.

Lemma takeWhile_app_stop_gen (f : N -> bool) u c v :
  f c = false ->
  takeWhile f (u ++ c :: v) = takeWhile f u
  /\ dropWhile f (u ++ c :: v) = dropWhile f u ++ c :: v.
Proof.
  intros Hc. induction u as [|x u [IH1 IH2]]; simpl.
  - by rewrite Hc.
  - destruct (f x); [by rewrite IH1, IH2 | done].
Qed.

Lemma forallb_not_elem (c : N) (u : str) :
  forallb (fun x => negb (x =? c)%N) u = true -> c ∉ u.
Proof.
  intros H Hin. rewrite forallb_forall in H. apply list_elem_of_In in Hin.
  apply H in Hin. by rewrite N.eqb_refl in Hin.
Qed.

Lemma forallb_elem_false (f : N -> bool) (u : str) c :
  c ∈ u -> f c = false -> forallb f u = false.
Proof.
  intros Hin Hc. destruct (forallb f u) eqn:E; [| done].
  rewrite forallb_forall in E. apply list_elem_of_In in Hin.
  apply E in Hin. congruence.
Qed.
End TextSearch.

(** ** Code fences and the prolog of a well-formed document *)

Module PrologStrip.
Import Sanitizer XmlText TextSearch.

Lemma cutAtNewline_keep (tail : str -> bool) body w :
  (forall r, 62%N ∈ r -> tail r = false) ->
  (forall r, forallb isJsSpace r = true -> tail r = false) ->
  forallb isJsSpace w = true ->
  cutAtNewline tail (body ++ 62%N :: w) = body ++ 62%N :: w.
Proof.
  intros Hgt Hws Hw. induction body as [|c body IH].
  - cbn [app cutAtNewline]. simpl. f_equal.
    induction w as [|c w IHw]; [done |]. cbn [cutAtNewline].
    simpl in Hw. apply andb_true_iff in Hw as [Hc Hw].
    rewrite (Hws w Hw), andb_false_r. f_equal. by apply IHw.
  - cbn [app cutAtNewline]. rewrite Hgt.
    + rewrite andb_false_r. by rewrite IH.
    + apply elem_of_app. right. left.
Qed.

Lemma fenceTail_angle ch r : ch <> 62%N -> 62%N ∈ r -> fenceTail ch r = false.
Proof.
  intros Hch Hin. unfold fenceTail. apply andb_false_iff. right.
  apply (forallb_elem_false _ _ 62%N); [| done].
  clear -Hch Hin. induction r as [|c r IH]; [by apply elem_of_nil in Hin |].
  simpl. destruct (N.eqb_spec ch c) as [<- | Hne].
  - apply IH. apply elem_of_cons in Hin as [H | H]; [congruence | done].
  - done.
Qed.

Lemma fenceTail_spaces ch r :
  isJsSpace ch = false -> forallb isJsSpace r = true -> fenceTail ch r = false.
Proof.
  intros Hch Hr. unfold fenceTail. destruct r as [|c r]; [done |].
  simpl in Hr. apply andb_true_iff in Hr as [Hc _]. simpl.
  destruct (N.eqb_spec ch c) as [<- | _]; [congruence | done].
Qed.

(** A text that begins with ["<"] and ends with [">"], white space
    aside, holds no code fence. *)
Lemma stripCodeFences_markup x r body w :
  dropWhile isJsSpace x = 60%N :: r ->
  x = body ++ 62%N :: w -> forallb isJsSpace w = true ->
  stripCodeFences x = x.
Proof.
  intros Hhead Hx Hw. unfold stripCodeFences. rewrite Hhead.
  change (startsWith (60%N :: r) (lit "``") || startsWith (60%N :: r) (lit "~~~"))
    with false. cbn iota.
  rewrite Hx at 1. rewrite cutAtNewline_keep; [| | | done].
  - rewrite cutAtNewline_keep; [done | | | done].
    + intros t Ht. destruct (startsWith t (lit "``")) eqn:Es; [| done].
      apply DtdParserFacts.startsWith_app in Es as [t' ->]. simpl.
      apply (forallb_elem_false _ _ 62%N); [| done].
      apply elem_of_cons in Ht as [Ht | Ht]; [discriminate |].
      apply elem_of_cons in Ht as [Ht | Ht]; [discriminate | by rewrite drop_0].
    + intros t Ht. destruct t as [|c t]; [done |].
      simpl in Ht. apply andb_true_iff in Ht as [Hc _].
      change (lit "``") with [96%N; 96%N]. cbn [startsWith].
      destruct (N.eqb_spec 96 c) as [<- | _]; [by vm_compute in Hc | done].
  - intros t Ht. by rewrite !fenceTail_angle.
  - intros t Ht. by rewrite !fenceTail_spaces.
Qed.

(** *** The prolog *)

Lemma drop_app3 (a b c : str) n :
  n = length a + length b -> drop n (a ++ b ++ c) = c.
Proof. intros ->. by rewrite app_assoc, <- length_app, drop_app_length. Qed.

Lemma firstAt_literal pat (lit_ : str) z :
  (forall k, k < length lit_ -> startsWith (drop k (lit_ ++ z)) pat = false) ->
  firstAt pat lit_ z.
Proof. done. Qed.

(** No occurrence of a pattern of two characters or more starts in a
    text that lacks the second one and does not end with the first. *)
Lemma noStartIn_second c1 c2 pat u l :
  c2 ∉ u ++ [l] -> l <> c1 -> noStartIn (c1 :: c2 :: pat) (u ++ [l]).
Proof.
  intros Hc2 Hl z k Hk.
  destruct (drop k ((u ++ [l]) ++ z)) as [|d s] eqn:E; [done |].
  cbn [startsWith]. destruct (N.eqb_spec c1 d) as [<- | _]; [| done].
  destruct s as [|d' s]; [done |].
  cbn [startsWith]. destruct (N.eqb_spec c2 d') as [<- | _]; [| done]. exfalso.
  assert (Hk0 : ((u ++ [l]) ++ z) !! k = Some c1).
  { rewrite <- (take_drop k ((u ++ [l]) ++ z)), E.
    rewrite lookup_app_r by (rewrite length_take; lia).
    rewrite length_take. replace (k - _) with 0; [done |].
    rewrite length_app. lia. }
  assert (Hk1 : ((u ++ [l]) ++ z) !! (S k) = Some c2).
  { rewrite <- (take_drop k ((u ++ [l]) ++ z)), E.
    rewrite lookup_app_r by (rewrite length_take; lia).
    rewrite length_take. replace (S k - _) with 1; [done |].
    rewrite length_app. lia. }
  rewrite length_app in Hk. simpl in Hk.
  destruct (decide (S k < length u + 1)) as [Hlt | Hge].
  - rewrite lookup_app_l in Hk1 by (rewrite length_app; simpl; lia).
    apply Hc2. by apply list_elem_of_lookup_2 in Hk1.
  - assert (k = length u) as -> by lia.
    rewrite lookup_app_l in Hk0 by (rewrite length_app; simpl; lia).
    rewrite lookup_app_r in Hk0 by lia.
    rewrite Nat.sub_diag in Hk0. simpl in Hk0. congruence.
Qed.

Lemma forallb_neither (a b : N) (u : str) :
  forallb (fun c => negb ((c =? a)%N || (c =? b)%N)) u = true -> (a ∉ u) /\ (b ∉ u).
Proof.
  intros H. rewrite forallb_forall in H.
  split; intros Hin; apply list_elem_of_In in Hin; apply H in Hin;
    rewrite N.eqb_refl in Hin; [done | by rewrite orb_true_r in Hin].
Qed.

(** One turn of the loop on white space and a declaration. *)
Lemma stripPrologStep_decl w d rest :
  forallb isJsSpace w = true -> wfDecl d = true ->
  stripPrologStep (w ++ renderDecl d ++ rest) = (rest, true).
Proof.
  intros Hw Hd. unfold stripPrologStep.
  rewrite (dropWhile_spaces_app _ w) by done.
  destruct d as [b | b | b sub]; cbn [renderDecl wfDecl] in *.
  - rewrite <- !app_assoc.
    change (dropWhile isJsSpace (lit "<?xml" ++ b ++ lit "?>" ++ rest))
      with (lit "<?xml" ++ b ++ lit "?>" ++ rest).
    rewrite MaskFacts.startsWith_prefix.
    replace (lit "<?xml" ++ b ++ lit "?>" ++ rest)
      with ((lit "<?xml" ++ b) ++ lit "?>" ++ rest) by (by rewrite <- app_assoc).
    rewrite indexOf_first.
    + rewrite length_app. f_equal.
      rewrite <- app_assoc. rewrite (drop_app3 (lit "<?xml" ++ b) (lit "?>") rest); [done |].
      rewrite length_app. simpl. lia.
    + apply firstAt_app; [| by apply endsFirst_firstAt].
      intros k Hk. do 5 (destruct k as [|k]; [reflexivity |]). simpl in Hk. lia.
    + apply MaskFacts.startsWith_prefix.
  - rewrite <- !app_assoc.
    change (dropWhile isJsSpace (lit "<!DOCTYPE" ++ b ++ lit ">" ++ rest))
      with (lit "<!DOCTYPE" ++ b ++ lit ">" ++ rest).
    change (startsWith (lit "<!DOCTYPE" ++ b ++ lit ">" ++ rest) (lit "<?xml")) with false.
    cbn iota. rewrite MaskFacts.startsWith_prefix.
    destruct (forallb_neither _ _ _ Hd) as [Hgt Hbr].
    set (s := lit "<!DOCTYPE" ++ b ++ lit ">" ++ rest).
    assert (Hs : s = (lit "<!DOCTYPE" ++ b) ++ lit ">" ++ rest)
      by (subst s; by rewrite <- app_assoc).
    assert (Hg : indexOf s (lit ">") 0 = Some (length (lit "<!DOCTYPE" ++ b))).
    { rewrite Hs. apply indexOf_first; [| apply MaskFacts.startsWith_prefix].
      apply (noStartIn_absent 62%N []). intros Hin.
      apply elem_of_app in Hin as [Hin | Hin]; [| done].
      apply list_elem_of_In in Hin. vm_compute in Hin. intuition discriminate. }
    rewrite Hg.
    assert (Hdrop : drop (length (lit "<!DOCTYPE" ++ b) + 1) s = rest).
    { rewrite Hs. rewrite (drop_app3 _ (lit ">") rest); [done | simpl; lia]. }
    destruct (indexOf s (lit "[") 0) as [b0|] eqn:Eb; [| by rewrite Hdrop].
    assert (Hlt : length (lit "<!DOCTYPE" ++ b) < b0).
    { apply MaskFacts.indexOf_zero in Eb as (_ & Hb0 & _).
      destruct (decide (length (lit "<!DOCTYPE" ++ b) < b0)) as [? | Hge]; [done |].
      exfalso.
      assert (Hno : firstAt (lit "[") (lit "<!DOCTYPE" ++ b ++ lit ">") rest).
      { apply (noStartIn_absent 91%N []). intros Hin.
        apply elem_of_app in Hin as [Hin | Hin];
          [apply list_elem_of_In in Hin; vm_compute in Hin; intuition discriminate |].
        apply elem_of_app in Hin as [Hin | Hin]; [done |].
        apply list_elem_of_In in Hin. vm_compute in Hin. intuition discriminate. }
      assert (Hk : startsWith (drop b0 s) (lit "[") = false).
      { subst s.
        replace (lit "<!DOCTYPE" ++ b ++ lit ">" ++ rest)
          with ((lit "<!DOCTYPE" ++ b ++ lit ">") ++ rest)
          by (by rewrite <- !app_assoc).
        apply Hno. rewrite !length_app in *. simpl in *. lia. }
      by rewrite Hk in Hb0. }
    apply Nat.ltb_lt in Hlt. by rewrite Hlt, Hdrop.
  - apply andb_true_iff in Hd as [Hb Hsub].
    rewrite <- !app_assoc.
    change (dropWhile isJsSpace (lit "<!DOCTYPE" ++ b ++ lit "[" ++ sub ++ lit "]>" ++ rest))
      with (lit "<!DOCTYPE" ++ b ++ lit "[" ++ sub ++ lit "]>" ++ rest).
    change (startsWith (lit "<!DOCTYPE" ++ b ++ lit "[" ++ sub ++ lit "]>" ++ rest)
              (lit "<?xml")) with false.
    cbn iota. rewrite MaskFacts.startsWith_prefix.
    destruct (forallb_neither _ _ _ Hb) as [Hgt Hbr].
    set (s := lit "<!DOCTYPE" ++ b ++ lit "[" ++ sub ++ lit "]>" ++ rest).
    set (p := lit "<!DOCTYPE" ++ b).
    assert (Hs : s = p ++ lit "[" ++ sub ++ lit "]>" ++ rest)
      by (subst s p; by rewrite <- app_assoc).
    assert (Hb0 : indexOf s (lit "[") 0 = Some (length p)).
    { rewrite Hs. apply indexOf_first; [| apply MaskFacts.startsWith_prefix].
      apply (noStartIn_absent 91%N []). intros Hin.
      apply elem_of_app in Hin as [Hin | Hin]; [| done].
      apply list_elem_of_In in Hin. vm_compute in Hin. intuition discriminate. }
    rewrite Hb0.
    assert (He : indexOf s (lit "]>") 0 = Some (length (p ++ lit "[") + length sub)).
    { rewrite Hs.
      replace (p ++ lit "[" ++ sub ++ lit "]>" ++ rest)
        with (((p ++ lit "[") ++ sub) ++ lit "]>" ++ rest)
        by (by rewrite <- !app_assoc).
      rewrite indexOf_first; [by rewrite length_app | | apply MaskFacts.startsWith_prefix].
      apply firstAt_app; [| by apply endsFirst_firstAt].
      apply (noStartIn_second 93%N 62%N [] p 91%N); [| done].
      intros Hin. apply elem_of_app in Hin as [Hin | Hin].
      - apply elem_of_app in Hin as [Hin | Hin]; [| done].
        apply list_elem_of_In in Hin. vm_compute in Hin. intuition discriminate.
      - apply list_elem_of_In in Hin. vm_compute in Hin. intuition discriminate. }
    assert (Hdrop : drop (length (p ++ lit "[") + length sub + 2) s = rest).
    { rewrite Hs.
      replace (p ++ lit "[" ++ sub ++ lit "]>" ++ rest)
        with (((p ++ lit "[") ++ sub) ++ lit "]>" ++ rest)
        by (by rewrite <- !app_assoc).
      rewrite (drop_app3 _ (lit "]>") rest); [done |].
      rewrite !length_app. simpl. lia. }
    destruct (indexOf s (lit ">") 0) as [g|] eqn:Eg; [| by rewrite He, Hdrop].
    assert (Hge : (g <? length p) = false).
    { apply Nat.ltb_ge. apply MaskFacts.indexOf_zero in Eg as (_ & Hg & _).
      destruct (decide (length p <= g)) as [? | Hlt]; [done |]. exfalso.
      assert (Hno : firstAt (lit ">") p (lit "[" ++ sub ++ lit "]>" ++ rest)).
      { apply (noStartIn_absent 62%N []). intros Hin. subst p.
        apply elem_of_app in Hin as [Hin | Hin]; [| done].
        apply list_elem_of_In in Hin. vm_compute in Hin. intuition discriminate. }
      assert (Hk : startsWith (drop g s) (lit ">") = false)
        by (rewrite Hs; apply Hno; lia).
      by rewrite Hk in Hg. }
    by rewrite Hge, He, Hdrop.
Qed.

(** The last turns of the loop, on the document after its prolog. *)
Lemma stripPrologStep_body a r :
  a = 60%N :: r ->
  startsWith a (lit "<?xml") = false -> startsWith a (lit "<!DOCTYPE") = false ->
  stripPrologStep a = (a, false).
Proof.
  intros Ha Hx Hd. unfold stripPrologStep.
  assert (Hs : dropWhile isJsSpace a = a) by (by rewrite Ha).
  rewrite Hs, Hx, Hd. by rewrite Nat.eqb_refl.
Qed.

Lemma stripPrologLoop_body fuel w a r :
  forallb isJsSpace w = true -> a = 60%N :: r ->
  startsWith a (lit "<?xml") = false -> startsWith a (lit "<!DOCTYPE") = false ->
  stripPrologLoop (S (S fuel)) (w ++ a) = a.
Proof.
  intros Hw Ha Hx Hd. cbn [stripPrologLoop].
  assert (Hstep : exists again, stripPrologStep (w ++ a) = (a, again)).
  { unfold stripPrologStep. rewrite (dropWhile_spaces_app _ w) by done.
    assert (Hs : dropWhile isJsSpace a = a) by (by rewrite Ha).
    rewrite Hs, Hx, Hd. eauto. }
  destruct Hstep as [again ->]. destruct again; [| done].
  by rewrite (stripPrologStep_body a r).
Qed.

Lemma stripPrologLoop_prolog ds : forall fuel w0 w a r,
  length ds + 2 <= fuel ->
  forallb isJsSpace w0 = true -> wfProlog ds w = true ->
  a = 60%N :: r ->
  startsWith a (lit "<?xml") = false -> startsWith a (lit "<!DOCTYPE") = false ->
  stripPrologLoop fuel (w0 ++ prologText ds w ++ a) = a.
Proof.
  induction ds as [|[w1 d] ds IH]; intros fuel w0 w a r Hf Hw0 Hwf Ha Hx Hd.
  - unfold prologText. cbn [flat_map app]. rewrite app_assoc.
    destruct fuel as [|[|fuel]]; [simpl in Hf; lia .. |].
    apply (stripPrologLoop_body fuel _ a r); [| done ..].
    rewrite forallb_app, Hw0. simpl.
    unfold wfProlog in Hwf. simpl in Hwf. exact Hwf.
  - unfold wfProlog in Hwf. cbn [forallb] in Hwf.
    apply andb_true_iff in Hwf as [Hh Hw].
    apply andb_true_iff in Hh as [Hh Hds].
    apply andb_true_iff in Hh as [Hw1 Hdecl]. simpl in Hw1, Hdecl.
    destruct fuel as [|fuel]; [simpl in Hf; lia |].
    cbn [stripPrologLoop].
    replace (w0 ++ prologText ((w1, d) :: ds) w ++ a)
      with ((w0 ++ w1) ++ renderDecl d ++ ([] ++ prologText ds w ++ a)).
    2:{ unfold prologText. cbn [flat_map fst snd app]. by rewrite <- !app_assoc. }
    rewrite stripPrologStep_decl; [| by rewrite forallb_app, Hw0, Hw1 | done].
    apply (IH fuel [] w a r); [simpl in Hf; lia | done | | done ..].
    unfold wfProlog. by rewrite Hds, Hw.
Qed.

Lemma prologText_length ds w : length ds <= length (prologText ds w).
Proof.
  unfold prologText. rewrite length_app.
  induction ds as [|[w1 d] ds IH]; [simpl; lia |].
  cbn [flat_map length fst snd]. rewrite !length_app.
  assert (1 <= length (renderDecl d)).
  { destruct d; cbn [renderDecl]; rewrite length_app; simpl; lia. }
  simpl in *. lia.
Qed.

(** [stripProlog] removes a well-formed prolog and nothing else. *)
Lemma stripProlog_prolog ds w a r :
  wfProlog ds w = true -> a = 60%N :: r ->
  startsWith a (lit "<?xml") = false -> startsWith a (lit "<!DOCTYPE") = false ->
  stripProlog (prologText ds w ++ a) = a.
Proof.
  intros Hwf Ha Hx Hd. unfold stripProlog.
  set (input := prologText ds w ++ a).
  assert (Hcase : exists w0,
            forallb isJsSpace w0 = true
            /\ match input with 65279%N :: t => t | _ => input end
               = w0 ++ prologText (match ds with
                                   | (_, d) :: ds' => ([], d) :: ds'
                                   | [] => []
                                   end)
                         (match ds with [] => [] | _ => w end) ++ a
            /\ wfProlog (match ds with
                         | (_, d) :: ds' => ([], d) :: ds'
                         | [] => []
                         end) (match ds with [] => [] | _ => w end) = true).
  { subst input. unfold wfProlog in Hwf.
    assert (Hnb : forall (X Y : str) c,
              c <> 65279%N -> match c with 65279%N => X | _ => Y end = Y).
    { intros X Y c Hc. destruct c as [|p]; [done |].
      repeat (destruct p as [p | p |]; try done). }
    destruct ds as [|[w1 d] ds'].
    - unfold prologText. cbn [flat_map app]. simpl in Hwf.
      destruct w as [|c w'].
      + exists []. split; [done |]. split; [| done]. cbn [app].
        by rewrite Ha.
      + simpl in Hwf. apply andb_true_iff in Hwf as [Hc Hw'].
        destruct (N.eqb_spec c 65279) as [-> | Hne].
        * exists w'. split; [done |]. split; [| done]. reflexivity.
        * exists (c :: w'). split; [simpl; by rewrite Hc |]. split; [| done].
          cbn [app]. by apply Hnb.
    - cbn [forallb] in Hwf. apply andb_true_iff in Hwf as [Hh Hw].
      apply andb_true_iff in Hh as [Hw1 Hdecl]. simpl in Hw1, Hdecl.
      apply andb_true_iff in Hw1 as [Hw1 Hd1].
      assert (Hwf' : wfProlog (([], d) :: ds') w = true).
      { unfold wfProlog. cbn [forallb fst snd]. by rewrite Hd1, Hdecl, Hw. }
      assert (Htext : forall u, prologText ((u, d) :: ds') w ++ a
                                = u ++ prologText (([], d) :: ds') w ++ a).
      { intros u. unfold prologText. cbn [flat_map fst snd app].
        by rewrite <- !app_assoc. }
      rewrite Htext. destruct w1 as [|c w1'].
      + exists []. split; [done |]. split; [| done].
        cbn [app]. unfold prologText. cbn [flat_map fst snd app].
        destruct d; cbn [renderDecl]; reflexivity.
      + simpl in Hw1. apply andb_true_iff in Hw1 as [Hc Hw1'].
        destruct (N.eqb_spec c 65279) as [-> | Hne].
        * exists w1'. split; [done |]. split; [done | done].
        * exists (c :: w1'). split; [simpl; by rewrite Hc |]. split; [| done].
          cbn [app]. by apply Hnb. }
  destruct Hcase as (w0 & Hw0 & -> & Hwf').
  apply (stripPrologLoop_prolog _ _ w0 _ a r); [| done ..].
  rewrite !length_app.
  pose proof (prologText_length
                (match ds with (_, d) :: ds' => ([], d) :: ds' | [] => [] end)
                (match ds with [] => [] | _ => w end)). lia.
Qed.
End PrologStrip.

(** ** Comment repair, scrubbing and masking of a well-formed document *)

Module ItemScan.
Import Sanitizer XmlText TextSearch.

Lemma render_cons it items : render (it :: items) = render1 it ++ render items.
Proof. reflexivity. Qed.

Lemma tagName_not_lt c : isTagNameChar c = true -> c <> 60%N.
Proof. intros H ->. done. Qed.

(** What a well-formed tag is made of. *)
Lemma wfItem_tag cs closing name rest :
  wfItem cs (Tag closing name rest) = true ->
  forallb isXmlChar (render1 (Tag closing name rest)) = true
  /\ (exists c0 more, name = c0 :: more /\ (isLetter c0 || (c0 =? 95)%N) = true)
  /\ forallb isTagNameChar name = true
  /\ match rest with
     | c :: _ => (isTagNameChar c || isZeroWidthMark c) = false
     | [] => True
     end
  /\ (60%N ∉ rest)
  /\ quotesClosed None rest = true
  /\ has (toLowerCase (localName name)) cs = false.
Proof.
  unfold wfItem. rewrite !andb_true_iff.
  intros (Hx & (((((Hn & Hnm) & Hr) & Hlt) & Hq) & Hc)).
  split; [done |]. split.
  { destruct name as [|c0 more]; [done | eauto]. }
  split; [done |]. split.
  { destruct rest as [|c r]; [done |]. by apply negb_true_iff in Hr. }
  split; [by apply forallb_not_elem |]. split; [done |].
  by apply negb_true_iff in Hc.
Qed.

Lemma render1_tag closing name rest :
  render1 (Tag closing name rest) = 60%N :: tagBody closing name rest.
Proof. reflexivity. Qed.

Lemma tagBody_no_lt cs closing name rest :
  wfItem cs (Tag closing name rest) = true -> 60%N ∉ tagBody closing name rest.
Proof.
  intros H. destruct (wfItem_tag _ _ _ _ H) as (_ & _ & Hnm & _ & Hlt & _).
  unfold tagBody. intros Hin.
  apply elem_of_app in Hin as [Hin | Hin].
  { destruct closing; [| by apply elem_of_nil in Hin].
    apply list_elem_of_singleton in Hin. discriminate. }
  apply elem_of_app in Hin as [Hin | Hin].
  { rewrite forallb_forall in Hnm. apply list_elem_of_In in Hin.
    apply Hnm in Hin. done. }
  apply elem_of_app in Hin as [Hin | Hin]; [done |].
  apply list_elem_of_singleton in Hin. discriminate.
Qed.

(** The character after the ["<"] of a tag: a ["/"] or the first
    character of the name. *)
Lemma tagBody_head cs closing name rest :
  wfItem cs (Tag closing name rest) = true ->
  exists h t, tagBody closing name rest = h :: t
              /\ (isLetter h || (h =? 95)%N || (h =? 47)%N) = true.
Proof.
  intros H. destruct (wfItem_tag _ _ _ _ H) as (_ & (c0 & more & -> & Hc0) & _).
  unfold tagBody. destruct closing.
  - exists 47%N. eexists. split; [reflexivity |]. by rewrite orb_true_r.
  - exists c0. eexists. split; [reflexivity |]. by rewrite Hc0.
Qed.

Lemma not_markup_chars it : isMarkup it = false -> exists t, it = Chars t.
Proof. destruct it; try done. eauto. Qed.

(** *** Where a comment opens *)

Lemma noStartIn_literal pat (l : str) :
  (forall z k, k < length l -> startsWith (drop k (l ++ z)) pat = false) ->
  noStartIn pat l.
Proof. intros H z k Hk. by apply H. Qed.

Lemma noComment_tag cs closing name rest :
  wfItem cs (Tag closing name rest) = true ->
  noStartIn (lit "<!--") (render1 (Tag closing name rest)).
Proof.
  intros H. rewrite render1_tag.
  destruct (tagBody_head _ _ _ _ H) as (h & t & Hb & Hh).
  pose proof (tagBody_no_lt _ _ _ _ H) as Hlt.
  intros z k Hk. destruct k as [|k].
  - rewrite drop_0, Hb.
    change (lit "<!--") with [60%N; 33%N; 45%N; 45%N].
    cbn [app startsWith]. rewrite N.eqb_refl.
    destruct (N.eqb_spec 33 h) as [<- | _]; [done | done].
  - cbn [app drop]. apply (noStartIn_absent 60%N); [done |].
    simpl in Hk. lia.
Qed.

Lemma noComment_cdata cs b :
  wfItem cs (CData b) = true -> noStartIn (lit "<!--") (render1 (CData b)).
Proof.
  unfold wfItem. rewrite !andb_true_iff. intros (_ & Hocc & _).
  apply negb_true_iff in Hocc. cbn [render1]. intros z.
  apply firstAt_app.
  - intros k Hk. do 9 (destruct k as [|k]; [reflexivity |]). simpl in Hk. lia.
  - apply firstAt_app.
    + apply firstAt_occurs; [done |].
      intros j Hj. destruct j as [|[|[|[|j]]]]; try reflexivity; simpl in Hj; lia.
    + apply (noStartIn_absent 60%N). intros Hin. apply list_elem_of_In in Hin.
      vm_compute in Hin. intuition discriminate.
Qed.

Lemma noComment_pi cs b :
  wfItem cs (PI b) = true -> noStartIn (lit "<!--") (render1 (PI b)).
Proof.
  unfold wfItem. rewrite !andb_true_iff. intros (_ & Hocc & _).
  apply negb_true_iff in Hocc. cbn [render1]. intros z.
  apply firstAt_app.
  - intros k Hk. do 2 (destruct k as [|k]; [reflexivity |]). simpl in Hk. lia.
  - apply firstAt_app.
    + apply firstAt_occurs; [done |].
      intros j Hj. destruct j as [|[|[|[|j]]]]; try reflexivity; simpl in Hj; lia.
    + apply (noStartIn_absent 60%N). intros Hin. apply list_elem_of_In in Hin.
      vm_compute in Hin. intuition discriminate.
Qed.

Lemma wfItem_chars cs t :
  wfItem cs (Chars t) = true -> forallb isXmlChar t = true /\ (60%N ∉ t).
Proof.
  unfold wfItem. rewrite !andb_true_iff. intros [Hx Hlt].
  split; [done | by apply forallb_not_elem].
Qed.

Lemma noComment_item cs it :
  wfItem cs it = true ->
  match it with Comment _ => True | _ => noStartIn (lit "<!--") (render1 it) end.
Proof.
  intros H. destruct it as [t | closing name rest | b | b | b].
  - apply wfItem_chars in H as [_ H]. by apply (noStartIn_absent 60%N).
  - by eapply noComment_tag.
  - done.
  - by eapply noComment_cdata.
  - by eapply noComment_pi.
Qed.

(** *** Comment repair *)

Lemma replaceDoubleDash_id b : occurs (lit "--") b = false -> replaceDoubleDash b = b.
Proof.
  induction b as [|c b IH]; [done |]. intros H.
  cbn [occurs] in H. apply orb_false_iff in H as [H0 Hr].
  specialize (IH Hr).
  destruct (N.eqb_spec c 45) as [-> | Hc].
  - destruct b as [|d b]; [done |].
    destruct (N.eqb_spec d 45) as [-> | Hd].
    { change (45%N :: 45%N :: b) with (lit "--" ++ b) in H0.
      by rewrite MaskFacts.startsWith_prefix in H0. }
    replace (replaceDoubleDash (45%N :: d :: b))
      with (45%N :: replaceDoubleDash (d :: b)); [by rewrite IH |].
    cbn [replaceDoubleDash]. destruct d as [|p]; [done |].
    repeat (destruct p as [p | p |]; try done).
  - replace (replaceDoubleDash (c :: b)) with (c :: replaceDoubleDash b);
      [by rewrite IH |].
    cbn [replaceDoubleDash]. destruct c as [|p]; [done |].
    repeat (destruct p as [p | p |]; try done).
Qed.

Lemma repair_items cs items : forall fuel u,
  forallb (wfItem cs) items = true ->
  noStartIn (lit "<!--") u ->
  repairInvalidCommentsLoop fuel (u ++ render items) = u ++ render items.
Proof.
  induction items as [|it items IH]; intros fuel u Hwf Hu.
  - cbn [render flat_map]. rewrite app_nil_r. destruct fuel as [|f]; [done |].
    cbn [repairInvalidCommentsLoop].
    rewrite indexOf_absent; [done | done | apply Hu].
  - cbn [forallb] in Hwf. apply andb_true_iff in Hwf as [Hit Hwf].
    rewrite render_cons.
    pose proof (noComment_item _ _ Hit) as Hn.
    destruct it as [t | closing name rest | b | b | b];
      try (rewrite app_assoc; apply IH; [done | by apply noStartIn_app]).
    destruct fuel as [|f]; [done |].
    cbn [repairInvalidCommentsLoop render1].
    unfold wfItem in Hit. rewrite !andb_true_iff in Hit.
    destruct Hit as (_ & Hocc & Hend). apply negb_true_iff in Hocc.
    set (tail := render items).
    rewrite <- !app_assoc.
    rewrite indexOf_first; [| apply Hu | apply MaskFacts.startsWith_prefix].
    replace (u ++ lit "<!--" ++ b ++ lit "-->" ++ tail)
      with ((u ++ lit "<!--") ++ b ++ lit "-->" ++ tail) by (by rewrite <- app_assoc).
    replace (length u + 4) with (length (u ++ lit "<!--"))
      by (rewrite length_app; reflexivity).
    rewrite indexOf_after; [| by apply endsFirst_firstAt | apply MaskFacts.startsWith_prefix].
    rewrite <- app_assoc, take_app_length. f_equal.
    unfold slice.
    replace (length (u ++ lit "<!--") + length b - length (u ++ lit "<!--"))
      with (length b) by lia.
    replace (u ++ lit "<!--" ++ b ++ lit "-->" ++ tail)
      with ((u ++ lit "<!--") ++ b ++ lit "-->" ++ tail) by (by rewrite <- app_assoc).
    rewrite drop_app_length, take_app_length, replaceDoubleDash_id by done.
    do 3 f_equal.
    replace ((u ++ lit "<!--") ++ b ++ lit "-->" ++ tail)
      with (((u ++ lit "<!--") ++ b) ++ lit "-->" ++ tail) by (by rewrite <- !app_assoc).
    rewrite (PrologStrip.drop_app3 _ (lit "-->") tail);
      [| rewrite !length_app; simpl; lia].
    apply (IH f []); [done | apply noStartIn_nil].
Qed.

Lemma repair_render cs items :
  forallb (wfItem cs) items = true ->
  repairInvalidComments (render items) = render items.
Proof.
  intros H. unfold repairInvalidComments.
  apply (repair_items cs items _ []); [done | apply noStartIn_nil].
Qed.

(** *** Scrubbing *)

Lemma wfItem_xmlChars cs it : wfItem cs it = true -> forallb isXmlChar (render1 it) = true.
Proof. unfold wfItem. rewrite andb_true_iff. by intros [H _]. Qed.

Lemma render_xmlChars cs items :
  forallb (wfItem cs) items = true -> forallb isXmlChar (render items) = true.
Proof.
  induction items as [|it items IH]; [done |]. cbn [forallb]. intros H.
  apply andb_true_iff in H as [Hit H]. rewrite render_cons, forallb_app.
  by rewrite (wfItem_xmlChars _ _ Hit), IH.
Qed.

Lemma filter_all {A} (f : A -> bool) (l : list A) :
  forallb f l = true -> List.filter f l = l.
Proof.
  induction l as [|x l IH]; [done |]. simpl. intros H.
  apply andb_true_iff in H as [Hx Hl]. by rewrite Hx, IH.
Qed.

Lemma scrub_render cs items :
  forallb (wfItem cs) items = true ->
  scrubInvalidXmlCharsInText (render items) = render items.
Proof.
  intros H. apply (filter_all isXmlChar). by eapply render_xmlChars.
Qed.
End ItemScan.

(** ** Masking the protected segments of a well-formed document *)

Module ItemMask.
Import Sanitizer XmlText TextSearch ItemScan.

Lemma protectedSegment_tag cs closing name rest z :
  wfItem cs (Tag closing name rest) = true ->
  protectedSegment (render1 (Tag closing name rest) ++ z) = None.
Proof.
  intros H. rewrite render1_tag.
  destruct (tagBody_head _ _ _ _ H) as (h & t & -> & Hh).
  unfold protectedSegment.
  change (lit "<![CDATA[") with (60%N :: 33%N :: lit "[CDATA[").
  change (lit "<?") with [60%N; 63%N].
  change (lit "<!--") with (60%N :: 33%N :: lit "--").
  cbn [app startsWith]. rewrite N.eqb_refl.
  destruct (N.eqb_spec 33 h) as [<- | _]; [done |].
  destruct (N.eqb_spec 63 h) as [<- | _]; [done | done].
Qed.

Lemma protectedSegment_cdata cs b z :
  wfItem cs (CData b) = true ->
  protectedSegment (render1 (CData b) ++ z) = Some (length (render1 (CData b))).
Proof.
  unfold wfItem. rewrite !andb_true_iff. intros (_ & _ & Hend).
  unfold protectedSegment. cbn [render1]. rewrite <- !app_assoc.
  rewrite MaskFacts.startsWith_prefix.
  change 9 with (length (lit "<![CDATA[")).
  rewrite indexOf_after; [| by apply endsFirst_firstAt | apply MaskFacts.startsWith_prefix].
  f_equal. rewrite !length_app. simpl. lia.
Qed.

Lemma protectedSegment_pi cs b z :
  wfItem cs (PI b) = true ->
  protectedSegment (render1 (PI b) ++ z) = Some (length (render1 (PI b))).
Proof.
  unfold wfItem. rewrite !andb_true_iff. intros (_ & _ & Hend).
  unfold protectedSegment. cbn [render1]. rewrite <- !app_assoc.
  change (startsWith (lit "<?" ++ b ++ lit "?>" ++ z) (lit "<![CDATA[")) with false.
  cbn iota. rewrite MaskFacts.startsWith_prefix.
  change 2 with (length (lit "<?")) at 1.
  rewrite indexOf_after; [| by apply endsFirst_firstAt | apply MaskFacts.startsWith_prefix].
  f_equal. rewrite !length_app. simpl. lia.
Qed.

Lemma protectedSegment_comment cs b z :
  wfItem cs (Comment b) = true ->
  protectedSegment (render1 (Comment b) ++ z) = Some (length (render1 (Comment b))).
Proof.
  unfold wfItem. rewrite !andb_true_iff. intros (_ & _ & Hend).
  unfold protectedSegment. cbn [render1]. rewrite <- !app_assoc.
  change (startsWith (lit "<!--" ++ b ++ lit "-->" ++ z) (lit "<![CDATA[")) with false.
  change (startsWith (lit "<!--" ++ b ++ lit "-->" ++ z) (lit "<?")) with false.
  cbn iota. rewrite MaskFacts.startsWith_prefix.
  change 4 with (length (lit "<!--")) at 1.
  rewrite indexOf_after; [| by apply endsFirst_firstAt | apply MaskFacts.startsWith_prefix].
  f_equal. rewrite !length_app. simpl. lia.
Qed.

Lemma render1_head_lt it :
  isMarkup it = true -> exists t, render1 it = 60%N :: t.
Proof. destruct it; try done; intros _; eexists; reflexivity. Qed.

Lemma render1_length it : isMarkup it = true -> 1 <= length (render1 it).
Proof. intros H. destruct (render1_head_lt _ H) as [t ->]. simpl. lia. Qed.

(** The masking loop on a well-formed document: a token for every
    protected segment, everything else as it is. *)
Lemma mask_items cs items : forall fuel u holes,
  forallb (wfItem cs) items = true ->
  60%N ∉ u ->
  length (u ++ render items) <= fuel ->
  maskLoop fuel (u ++ render items) holes
  = (u ++ masked (length holes) items, holes ++ holesOf items).
Proof.
  induction items as [|it items IH]; intros fuel u holes Hwf Hu Hf.
  - cbn [render flat_map masked holesOf omap]. rewrite !app_nil_r.
    destruct fuel as [|f]; [done |]. rewrite MaskFacts.maskLoop_S.
    rewrite indexOf_absent; [done | done |].
    by apply (noStartIn_absent 60%N []).
  - cbn [forallb] in Hwf. apply andb_true_iff in Hwf as [Hit Hwf].
    rewrite render_cons in *.
    destruct (isMarkup it) eqn:Em.
    2:{ apply not_markup_chars in Em as [t ->].
        apply wfItem_chars in Hit as [_ Ht].
        cbn [masked isMarkup andb render1 holesOf omap].
        rewrite !app_assoc. apply IH; [done | | by rewrite <- app_assoc].
        intros Hin. apply elem_of_app in Hin as [? | ?]; done. }
    destruct (render1_head_lt _ Em) as [t Ht].
    destruct fuel as [|f].
    { rewrite !length_app, Ht in Hf. simpl in Hf. lia. }
    rewrite MaskFacts.maskLoop_S.
    rewrite indexOf_first;
      [| by apply (noStartIn_absent 60%N [])
       | rewrite Ht; apply (MaskFacts.startsWith_prefix (lit "<"))].
    cbn zeta. rewrite drop_app_length, take_app_length.
    assert (Hlen : length (render items) <= f /\ length (t ++ render items) <= f).
    { rewrite !length_app, Ht in Hf. rewrite length_app. simpl in Hf. lia. }
    destruct Hlen as [Hl1 Hl2].
    destruct it as [? | closing name rest | b | b | b]; [done | | | |].
    + rewrite (protectedSegment_tag cs) by done.
      rewrite Ht. cbn [app drop]. rewrite drop_0.
      rewrite (IH f t holes); [| done | | done].
      * cbn [masked isMarkup andb negb holesOf omap]. by rewrite Ht.
      * rewrite render1_tag in Ht. inversion Ht; subst t.
        by eapply tagBody_no_lt.
    + rewrite (protectedSegment_comment cs) by done.
      rewrite drop_app_length, take_app_length.
      pose proof (IH f [] (holes ++ [render1 (Comment b)]) Hwf
                    ltac:(apply not_elem_of_nil) Hl1) as Hrec.
      cbn [app] in Hrec. rewrite Hrec.
      rewrite length_app. cbn [length]. rewrite Nat.add_1_r.
      cbn [masked isMarkup andb negb holesOf omap app]. by rewrite <- app_assoc.
    + rewrite (protectedSegment_cdata cs) by done.
      rewrite drop_app_length, take_app_length.
      pose proof (IH f [] (holes ++ [render1 (CData b)]) Hwf
                    ltac:(apply not_elem_of_nil) Hl1) as Hrec.
      cbn [app] in Hrec. rewrite Hrec.
      rewrite length_app. cbn [length]. rewrite Nat.add_1_r.
      cbn [masked isMarkup andb negb holesOf omap app]. by rewrite <- app_assoc.
    + rewrite (protectedSegment_pi cs) by done.
      rewrite drop_app_length, take_app_length.
      pose proof (IH f [] (holes ++ [render1 (PI b)]) Hwf
                    ltac:(apply not_elem_of_nil) Hl1) as Hrec.
      cbn [app] in Hrec. rewrite Hrec.
      rewrite length_app. cbn [length]. rewrite Nat.add_1_r.
      cbn [masked isMarkup andb negb holesOf omap app]. by rewrite <- app_assoc.
Qed.

Lemma mask_render cs items :
  forallb (wfItem cs) items = true ->
  maskProtectedSegments (render items) = (masked 0 items, holesOf items).
Proof.
  intros H. unfold maskProtectedSegments.
  apply (mask_items cs items _ [] []); [done | apply not_elem_of_nil | done].
Qed.
End ItemMask.

(** ** The white-space step on the masked text *)

Module ItemSpaces.
Import Sanitizer XmlText TextSearch ItemScan.

Local Abbreviation spaced :=
  (fun it => match it with
             | Tag closing name rest => Tag closing name (spacesLoop true None rest)
             | _ => it
             end).

Lemma spacesLoop_outside q u z :
  60%N ∉ u -> spacesLoop false q (u ++ z) = u ++ spacesLoop false q z.
Proof.
  induction u as [|c u IH]; [done |]. intros Hu. cbn [app spacesLoop negb].
  assert (Hc : (c =? 60)%N = false).
  { apply N.eqb_neq. intros ->. apply Hu. left. }
  rewrite Hc. cbn [andb]. rewrite IH; [done |].
  intros Hin. apply Hu. by right.
Qed.

Lemma spacesLoop_tagPlain p z :
  forallb tagPlain p = true ->
  spacesLoop true None (p ++ z) = p ++ spacesLoop true None z.
Proof.
  induction p as [|c p IH]; [done |]. cbn [forallb]. intros H.
  apply andb_true_iff in H as [Hc Hp]. unfold tagPlain in Hc.
  apply negb_true_iff in Hc. rewrite !orb_false_iff in Hc.
  destruct Hc as ((((H34 & H39) & H62) & Hu) & Hz).
  cbn [app spacesLoop negb]. rewrite H34, H39, H62, Hu, Hz. cbn [orb].
  by rewrite IH.
Qed.

Lemma tagNameChar_plain c : isTagNameChar c = true -> tagPlain c = true.
Proof.
  unfold isTagNameChar, isWord, isLetter, isUpper, isLower, isDigit. intros H.
  assert (Hc : (65 <= c <= 90 \/ 97 <= c <= 122 \/ 48 <= c <= 57 \/ c = 95
                \/ c = 58 \/ c = 46 \/ c = 45)%N).
  { rewrite !orb_true_iff, !andb_true_iff, !N.leb_le, !N.eqb_eq in H. lia. }
  unfold tagPlain, isUnicodeSpaceInTag, isZeroWidthMark.
  apply negb_true_iff.
  rewrite !orb_false_iff, !andb_false_iff, !N.leb_gt, !N.eqb_neq. lia.
Qed.

(** The rest of a tag up to its [">"]. *)
Lemma spacesLoop_rest rest : forall q z,
  quotesClosed q rest = true ->
  spacesLoop true q (rest ++ 62%N :: z)
  = spacesLoop true q rest ++ 62%N :: spacesLoop false None z.
Proof.
  induction rest as [|c rest IH]; intros q z H.
  - destruct q; [done |]. reflexivity.
  - cbn [app spacesLoop negb quotesClosed] in *. destruct q as [q0|].
    + by rewrite IH.
    + destruct ((c =? 34)%N || (c =? 39)%N); [by rewrite IH |].
      destruct (c =? 62)%N; [done |].
      destruct (isUnicodeSpaceInTag c); [by rewrite IH |].
      destruct (isZeroWidthMark c); [by rewrite IH | by rewrite IH].
Qed.

Lemma tagPrefix_plain (closing : bool) (name : str) :
  forallb isTagNameChar name = true ->
  forallb tagPlain ((if closing then lit "/" else @nil N) ++ name) = true.
Proof.
  intros H. rewrite forallb_app. apply andb_true_iff. split.
  - by destruct closing.
  - rewrite forallb_forall in *. intros c Hc. apply tagNameChar_plain. by apply H.
Qed.

Lemma spacesLoop_tag cs closing name rest z :
  wfItem cs (Tag closing name rest) = true ->
  spacesLoop false None (render1 (Tag closing name rest) ++ z)
  = render1 (Tag closing name (spacesLoop true None rest)) ++ spacesLoop false None z.
Proof.
  intros H.
  destruct (tagBody_head _ _ _ _ H) as (h & t & Hb & Hh).
  destruct (wfItem_tag _ _ _ _ H) as (_ & _ & Hnm & _ & _ & Hq & _).
  rewrite !render1_tag. cbn [app spacesLoop negb].
  assert (Hstart : isLikelyTagStart (tagBody closing name rest ++ z) = true).
  { rewrite Hb. cbn [app isLikelyTagStart].
    apply orb_true_iff in Hh as [Hh | Hh]; [| by rewrite Hh, orb_true_r].
    by rewrite Hh. }
  rewrite Hstart, N.eqb_refl. cbn [andb]. f_equal.
  unfold tagBody. rewrite <- !app_assoc.
  rewrite (app_assoc _ name (rest ++ lit ">" ++ z)).
  rewrite spacesLoop_tagPlain by (by apply tagPrefix_plain).
  rewrite <- app_assoc. do 2 f_equal.
  change (lit ">" ++ z) with (62%N :: z).
  by rewrite spacesLoop_rest.
Qed.

Lemma showNat_no c k : isDigit c = false -> c ∉ showNat k.
Proof.
  intros Hc Hin. destruct (MaskFacts.showNat_digits k) as [_ Hd].
  rewrite forallb_forall in Hd. apply list_elem_of_In in Hin.
  apply Hd in Hin. congruence.
Qed.

(** A token holds none of the characters the steps look for. *)
Lemma token_no c k :
  isDigit c = false -> c <> 0%N -> c ∉ lit "__HOLE_" -> c ∉ token k.
Proof.
  intros Hd H0 Hl. unfold token. intros Hin.
  apply elem_of_app in Hin as [Hin | Hin];
    [apply list_elem_of_singleton in Hin; done |].
  apply elem_of_app in Hin as [Hin | Hin]; [done |].
  apply elem_of_app in Hin as [Hin | Hin]; [by apply showNat_no in Hin |].
  apply elem_of_app in Hin as [Hin | Hin].
  - apply Hl. apply list_elem_of_In in Hin. apply list_elem_of_In.
    vm_compute in Hin. vm_compute. intuition.
  - apply list_elem_of_singleton in Hin. done.
Qed.

Lemma token_no_lt k : 60%N ∉ token k.
Proof.
  apply token_no; [done | done |]. intros Hin. apply list_elem_of_In in Hin.
  vm_compute in Hin. intuition discriminate.
Qed.

Lemma token_no_amp k : 38%N ∉ token k.
Proof.
  apply token_no; [done | done |]. intros Hin. apply list_elem_of_In in Hin.
  vm_compute in Hin. intuition discriminate.
Qed.

(** The white-space step on the masked text works tag by tag. *)
Lemma spaces_masked cs items k :
  forallb (wfItem cs) items = true ->
  spacesLoop false None (masked k items) = masked k (map spaced items).
Proof.
  revert k. induction items as [|it items IH]; intros k Hwf; [done |].
  cbn [forallb] in Hwf. apply andb_true_iff in Hwf as [Hit Hwf].
  destruct it as [t | closing name rest | b | b | b];
    cbn [masked map isMarkup andb negb].
  - apply wfItem_chars in Hit as [_ Ht]. cbn [render1].
    by rewrite spacesLoop_outside, IH.
  - by rewrite (spacesLoop_tag cs), IH.
  - rewrite spacesLoop_outside by apply token_no_lt. by rewrite IH.
  - rewrite spacesLoop_outside by apply token_no_lt. by rewrite IH.
  - rewrite spacesLoop_outside by apply token_no_lt. by rewrite IH.
Qed.
End ItemSpaces.

(** ** The entity step on the masked text *)

Module ItemEntities.
Import Sanitizer Entities EntityFacts EntityRefs EntityIdem XmlText TextSearch ItemScan.

Local Abbreviation E s := (normalizeEntitiesAndAmpersands s convert []).

Local Abbreviation entitied :=
  (fun it => match it with
             | Chars t => Chars (entities t)
             | Tag closing name rest => Tag closing name (entities rest)
             | _ => it
             end).

Lemma E_entities s : E s = Ok (entities s).
Proof.
  unfold entities. change (entityPolicy DEFAULTS) with convert.
  change (namedEntities DEFAULTS) with (@nil (str * JsNumber.t)).
  destruct (E_total convert [] s ltac:(done)) as [out ->]. done.
Qed.

Lemma entities_nil : entities [] = [].
Proof. reflexivity. Qed.

Lemma entities_plain u w : 38%N ∉ u -> entities (u ++ w) = u ++ entities w.
Proof.
  intros Hu. pose proof (E_plain convert [] u w Hu) as H.
  rewrite !E_entities in H. simpl in H. by inversion H.
Qed.

Lemma entities_all_plain u : 38%N ∉ u -> entities u = u.
Proof.
  intros Hu. rewrite <- (app_nil_r u) at 1.
  by rewrite entities_plain, entities_nil, app_nil_r.
Qed.

Lemma entities_cons ch r :
  entities (ch :: r)
  = if negb (ch =? 38)%N then ch :: entities r else
    match scanAmp r with
    | NumericRef text rest => text ++ entities rest
    | NamedRef name rest =>
        if has (toLowerCase name) XML5
        then (lit "&" ++ toLowerCase name ++ lit ";") ++ entities rest
        else match entityCode [] (toLowerCase name) with
             | Some code => (lit "&#" ++ code ++ lit ";") ++ entities rest
             | None => (lit "&amp;" ++ name ++ lit ";") ++ entities rest
             end
    | BareAmp => lit "&amp;" ++ entities r
    end.
Proof.
  pose proof (E_cons convert [] ch r) as H. cbv beta in H. rewrite E_entities in H.
  destruct (negb (ch =? 38)%N).
  - rewrite E_entities in H. simpl in H. by inversion H.
  - unfold EntityLoop.onAmp in H.
    destruct (scanAmp r) as [text rest | name rest |].
    + rewrite E_entities in H. simpl in H. by inversion H.
    + cbn zeta in H. destruct (has (toLowerCase name) XML5).
      * rewrite E_entities in H. simpl in H. by inversion H.
      * destruct (entityCode [] (toLowerCase name));
          rewrite E_entities in H; simpl in H; by inversion H.
    + rewrite E_entities in H. simpl in H. by inversion H.
Qed.

(** *** References end before a character that is none of theirs *)

Lemma stopChar_spec c :
  stopChar c = true ->
  isAlphaNum c = false /\ isHexDigit c = false /\ isDigit c = false
  /\ isLetter c = false
  /\ c <> 35%N /\ c <> 59%N /\ c <> 38%N /\ c <> 120%N /\ c <> 88%N.
Proof.
  unfold stopChar. rewrite negb_true_iff, !orb_false_iff.
  intros ((((Ha & Hh) & H35) & H59) & H38).
  apply N.eqb_neq in H35, H59, H38.
  assert (Hd : isDigit c = false).
  { unfold isAlphaNum in Ha. rewrite !orb_false_iff in Ha. tauto. }
  assert (Hl : isLetter c = false).
  { unfold isAlphaNum in Ha. rewrite !orb_false_iff in Ha. unfold isLetter.
    apply orb_false_iff. tauto. }
  repeat split; try done.
  - intros ->. done.
  - intros ->. done.
Qed.

Lemma forallb_absent (f : N -> bool) (u : str) c :
  f c = false -> forallb f u = true -> c ∉ u.
Proof.
  intros Hf Hu Hin. apply list_elem_of_In in Hin.
  rewrite forallb_forall in Hu. apply Hu in Hin. congruence.
Qed.

Lemma scanAmp_numeric_no c r text rest :
  stopChar c = true ->
  scanAmp r = NumericRef text rest ->
  exists u, text = 38%N :: u /\ r = u ++ rest /\ (c ∉ u).
Proof.
  intros Hstop.
  destruct (stopChar_spec _ Hstop) as (_ & Hh & Hd & _ & H35 & H59 & _ & H120 & H88).
  unfold scanAmp. destruct r as [|c0 r1]; [done |].
  destruct (N.eqb_spec c0 35) as [-> | Hc].
  - set (hx := match r1 with
               | c :: r' => if (c =? 120)%N || (c =? 88)%N then (true, [c], r') else (false, [], r1)
               | [] => (false, [], r1)
               end).
    assert (Hhx : r1 = hx.1.2 ++ hx.2 /\ (c ∉ hx.1.2)).
    { subst hx. destruct r1 as [|x r']; [simpl; split; [done | apply not_elem_of_nil] |].
      destruct ((x =? 120)%N || (x =? 88)%N) eqn:Ex; simpl.
      - split; [done |]. intros Hin. apply list_elem_of_singleton in Hin. subst x.
        apply orb_true_iff in Ex as [Ex | Ex]; apply N.eqb_eq in Ex; done.
      - split; [done | apply not_elem_of_nil]. }
    destruct hx as [[isHex pre] r2]. simpl in Hhx. destruct Hhx as [-> Hpre].
    set (isD := if isHex then isHexDigit else isDigit).
    assert (HisD : isD c = false) by (subst isD; by destruct isHex).
    pose proof (DtdParserFacts.takeWhile_dropWhile isD r2) as Htd.
    pose proof (DtdParserFacts.takeWhile_forall isD r2) as Htf.
    destruct (takeWhile isD r2) as [|d ds] eqn:Et; [done |].
    destruct (dropWhile isD r2) as [|x rest0] eqn:Ed; [done |].
    destruct (N.eqb_spec x 59) as [-> | Hx].
    + intros [= <- <-]. exists ([35%N] ++ pre ++ (d :: ds) ++ [59%N]). split; [done |].
      split; [by rewrite <- Htd, <- !app_assoc |].
      rewrite !elem_of_app. intros [H | [H | [H | H]]].
      * apply list_elem_of_singleton in H. done.
      * done.
      * by apply (forallb_absent isD (d :: ds) c).
      * apply list_elem_of_singleton in H. done.
    + destruct x as [|p]; [done |]. repeat (destruct p as [p | p |]; try done).
  - replace (match c0 with 35%N => _ | _ => _ end)
      with (if isLetter c0
            then match dropWhile isAlphaNum r1 with
                 | 59%N :: rest => NamedRef (c0 :: takeWhile isAlphaNum r1) rest
                 | _ => BareAmp
                 end
            else BareAmp).
    + destruct (isLetter c0); [| done].
      destruct (dropWhile isAlphaNum r1) as [|x rest0]; [done |].
      destruct x as [|p]; [done |]. repeat (destruct p as [p | p |]; try done).
    + destruct c0 as [|p]; [done |]. repeat (destruct p as [p | p |]; try done).
Qed.

Lemma letter_alphaNum c : isLetter c = true -> isAlphaNum c = true.
Proof.
  unfold isLetter, isAlphaNum. intros H. apply orb_true_iff in H as [-> | ->];
    by rewrite ?orb_true_r.
Qed.

Lemma validName_alphaNum name : validName name = true -> forallb isAlphaNum name = true.
Proof.
  destruct name as [|c name]; [done |]. simpl. rewrite !andb_true_iff.
  intros [Hc Hn]. split; [by apply letter_alphaNum | done].
Qed.

Lemma scanAmp_named_no c r name rest :
  stopChar c = true ->
  scanAmp r = NamedRef name rest ->
  r = name ++ 59%N :: rest /\ validName name = true /\ (c ∉ name ++ [59%N]).
Proof.
  intros Hstop H.
  destruct (stopChar_spec _ Hstop) as (Ha & _ & _ & _ & _ & H59 & _).
  destruct (scanAmp_named _ _ _ H) as (Hr & Hv & _).
  split; [done |]. split; [done |]. intros Hin.
  apply elem_of_app in Hin as [Hin | Hin].
  - by apply (forallb_absent isAlphaNum name c Ha (validName_alphaNum _ Hv)).
  - apply list_elem_of_singleton in Hin. done.
Qed.

Lemma app_prefix_before (u rest r v : str) c :
  c ∉ u -> r ++ c :: v = u ++ rest -> exists r', r = u ++ r'.
Proof.
  revert r. induction u as [|a u IH]; intros r Hc H; [by exists r |].
  destruct r as [|b r]; simpl in H.
  - inversion H; subst. exfalso. apply Hc. left.
  - inversion H; subst. destruct (IH r) as [r' ->]; [| done | by exists r'].
    intros Hin. apply Hc. by right.
Qed.

(** The scan after an ampersand does not look past a character that
    ends every reference. *)
Lemma scanAmp_app r c v :
  stopChar c = true ->
  scanAmp (r ++ c :: v)
  = match scanAmp r with
    | NumericRef text rest => NumericRef text (rest ++ c :: v)
    | NamedRef name rest => NamedRef name (rest ++ c :: v)
    | BareAmp => BareAmp
    end.
Proof.
  intros Hstop. destruct (scanAmp r) as [text rest | name rest |] eqn:Er.
  - destruct (scanAmp_numeric _ _ _ Er) as (u & Ht & Hr & _).
    destruct (scanAmp_numeric_again _ _ _ (rest ++ c :: v) Er) as (u' & Ht' & Hs).
    assert (u' = u) as -> by congruence.
    by rewrite Hr, <- app_assoc.
  - destruct (scanAmp_named _ _ _ Er) as (Hr & Hv & _).
    rewrite Hr, <- app_assoc. cbn [app]. by apply scanAmp_valid.
  - destruct (scanAmp (r ++ c :: v)) as [text rest | name rest |] eqn:E2; [| | done].
    + exfalso.
      destruct (scanAmp_numeric_no c _ _ _ Hstop E2) as (u & Ht & Hr & Hc).
      destruct (app_prefix_before _ _ _ _ _ Hc Hr) as [r' Hr'].
      destruct (scanAmp_numeric_again _ _ _ r' E2) as (u' & Ht' & Hs).
      assert (u' = u) as -> by congruence.
      rewrite <- Hr' in Hs. congruence.
    + exfalso.
      destruct (scanAmp_named_no c _ _ _ Hstop E2) as (Hr & Hv & Hc).
      replace (name ++ 59%N :: rest) with ((name ++ [59%N]) ++ rest) in Hr
        by (by rewrite <- app_assoc).
      destruct (app_prefix_before _ _ _ _ _ Hc Hr) as [r' Hr'].
      rewrite <- app_assoc in Hr'. cbn [app] in Hr'.
      pose proof (scanAmp_valid name r' Hv) as Hs. rewrite <- Hr' in Hs. congruence.
Qed.

(** The entity step works on both sides of such a character apart. *)
Lemma entities_split u c v :
  stopChar c = true ->
  entities (u ++ c :: v) = entities u ++ c :: entities v.
Proof.
  intros Hstop.
  assert (Hc38 : negb (c =? 38)%N = true).
  { destruct (stopChar_spec _ Hstop) as (_ & _ & _ & _ & _ & _ & H38 & _).
    apply negb_true_iff. by apply N.eqb_neq. }
  remember (length u) as n eqn:Hn. revert u Hn.
  induction n as [n IH] using lt_wf_ind. intros u Hn.
  destruct u as [|ch r].
  - cbn [app]. by rewrite entities_cons, Hc38.
  - cbn [app]. rewrite !entities_cons. simpl in Hn.
    destruct (negb (ch =? 38)%N).
    + cbn [app]. f_equal. apply (IH (length r)); [lia | done].
    + rewrite scanAmp_app by done.
      pose proof (scanAmp_rest_length r) as Hl.
      destruct (scanAmp r) as [text rest | name rest |].
      * rewrite (IH (length rest)) by (lia || done). by rewrite <- app_assoc.
      * destruct (has (toLowerCase name) XML5).
        { rewrite (IH (length rest)) by (lia || done). by rewrite <- !app_assoc. }
        destruct (entityCode [] (toLowerCase name));
          rewrite (IH (length rest)) by (lia || done); by rewrite <- !app_assoc.
      * rewrite (IH (length r)) by (lia || done). by rewrite <- app_assoc.
Qed.
End ItemEntities.

(** ** The entity step item by item *)

Module ItemEntitiesMasked.
Import Sanitizer Entities EntityFacts EntityRefs EntityIdem XmlText TextSearch ItemScan
  ItemSpaces ItemEntities.

Local Abbreviation entitied :=
  (fun it => match it with
             | Chars t => Chars (entities t)
             | Tag closing name rest => Tag closing name (entities rest)
             | _ => it
             end).

(** What follows character data in the masked text: nothing, or the
    ["<"] of a tag, or the first character of a token. *)
Lemma masked_after_chars k items :
  match items with Chars _ :: _ => False | _ => True end ->
  masked k items = [] \/ exists c z, masked k items = c :: z /\ stopChar c = true.
Proof.
  destruct items as [|it items]; [by left |]. intros H. right.
  destruct it as [t | closing name rest | b | b | b]; [done | | | |];
    cbn [masked isMarkup andb negb].
  - exists 60%N. eexists. split; [reflexivity | done].
  - exists 0%N. eexists. split; [reflexivity | done].
  - exists 0%N. eexists. split; [reflexivity | done].
  - exists 0%N. eexists. split; [reflexivity | done].
Qed.

Lemma tagName_no_amp name : forallb isTagNameChar name = true -> 38%N ∉ name.
Proof. intros H. by apply (forallb_absent isTagNameChar). Qed.

Lemma entities_tag cs closing name rest z :
  wfItem cs (Tag closing name rest) = true ->
  entities (render1 (Tag closing name rest) ++ z)
  = render1 (Tag closing name (entities rest)) ++ entities z.
Proof.
  intros H. destruct (wfItem_tag _ _ _ _ H) as (_ & _ & Hnm & _).
  cbn [render1]. rewrite <- !app_assoc.
  rewrite (app_assoc (lit "<")), (app_assoc _ name).
  rewrite entities_plain.
  - rewrite <- !app_assoc. do 3 f_equal.
    change (lit ">" ++ z) with (62%N :: z).
    by rewrite entities_split.
  - intros Hin. apply elem_of_app in Hin as [Hin | Hin].
    + apply elem_of_app in Hin as [Hin | Hin].
      * apply list_elem_of_singleton in Hin. done.
      * destruct closing; [| by apply elem_of_nil in Hin].
        apply list_elem_of_singleton in Hin. done.
    + by apply tagName_no_amp in Hin.
Qed.

(** The entity step on the masked text works item by item. *)
Lemma entities_masked cs items k :
  forallb (wfItem cs) items = true -> noAdjacentChars items = true ->
  entities (masked k items) = masked k (map entitied items).
Proof.
  revert k. induction items as [|it items IH]; intros k Hwf Hadj; [done |].
  cbn [forallb] in Hwf. apply andb_true_iff in Hwf as [Hit Hwf].
  assert (Hadj' : noAdjacentChars items = true).
  { destruct it; try done. cbn [noAdjacentChars] in Hadj. by destruct items as [|[]]. }
  destruct it as [t | closing name rest | b | b | b];
    cbn [masked map isMarkup andb negb].
  - cbn [render1].
    destruct (masked_after_chars k items) as [Hnil | (c & z & Hz & Hstop)].
    { cbn [noAdjacentChars] in Hadj. by destruct items as [|[]]. }
    + rewrite <- IH by done. rewrite Hnil. change (entities []) with (@nil N).
      by rewrite !app_nil_r.
    + rewrite <- IH by done. rewrite Hz.
      rewrite entities_split by done. f_equal.
      symmetry. apply (entities_split [] c z Hstop).
  - by rewrite (entities_tag cs), IH.
  - rewrite entities_plain by apply token_no_amp. by rewrite IH.
  - rewrite entities_plain by apply token_no_amp. by rewrite IH.
  - rewrite entities_plain by apply token_no_amp. by rewrite IH.
Qed.
End ItemEntitiesMasked.

(** ** What the entity step leaves alone *)

Module EntityRewrites.
Import Sanitizer Entities EntityFacts EntityRefs EntityIdem XmlText TextSearch ItemScan
  ItemSpaces ItemEntities.

Lemma alphaNum_tagName c : isAlphaNum c = true -> isTagNameChar c = true.
Proof.
  unfold isAlphaNum, isTagNameChar, isWord, isLetter. intros H.
  rewrite !orb_true_iff in *. tauto.
Qed.

Lemma alphaNum_inert c : isAlphaNum c = true -> inert c = true.
Proof.
  intros H. unfold inert.
  rewrite (tagNameChar_plain c) by (by apply alphaNum_tagName).
  unfold isAlphaNum, isDigit, isUpper, isLower in H.
  assert (Hc : (65 <= c <= 90 \/ 97 <= c <= 122 \/ 48 <= c <= 57 \/ c = 95
                \/ c = 58 \/ c = 46 \/ c = 45)%N).
  { rewrite !orb_true_iff, !andb_true_iff, !N.leb_le, !N.eqb_eq in H. lia. }
  rewrite !andb_true_r. apply andb_true_iff. split.
  - unfold isXmlChar. apply negb_true_iff.
    rewrite !orb_false_iff, !andb_false_iff, !N.leb_gt, !N.eqb_neq. lia.
  - apply negb_true_iff, N.eqb_neq. lia.
Qed.

Lemma forallb_alphaNum_inert u : forallb isAlphaNum u = true -> forallb inert u = true.
Proof.
  rewrite !forallb_forall. intros H c Hc. apply alphaNum_inert. by apply H.
Qed.

Lemma digit_alphaNum c : isDigit c = true -> isAlphaNum c = true.
Proof. unfold isAlphaNum. by intros ->. Qed.

Lemma forallb_digit_inert u : forallb isDigit u = true -> forallb inert u = true.
Proof.
  rewrite !forallb_forall. intros H c Hc. apply alphaNum_inert, digit_alphaNum. by apply H.
Qed.

(** What the built-in table answers is inert text. *)
Lemma entityCode_inert lower code :
  entityCode [] lower = Some code -> forallb inert code = true.
Proof.
  unfold entityCode. cbn [Sanitizer.assoc].
  destruct (Sanitizer.assoc lower BUILTIN_ENTITIES) as [n|] eqn:Eb.
  - intros [= <-]. apply forallb_digit_inert.
    apply JsNumberFacts.toString_short.
    apply (JsNumberFacts.assoc_Forall _ _ _ _ JsNumberFacts.builtin_short Eb).
  - destruct (str_eqb lower (lit "constructor")); [| done].
    intros [= <-]. reflexivity.
Qed.

Lemma rewrites_refl u : rewrites u u.
Proof. induction u; [apply rewrites_nil | by apply rewrites_copy]. Qed.

Lemma rewrites_prefix p u w : rewrites u w -> rewrites (p ++ u) (p ++ w).
Proof. intros H. induction p; [done | by apply rewrites_copy]. Qed.

(** The entity step rewrites references and nothing else. *)
Lemma entities_rewrites u : rewrites u (entities u).
Proof.
  remember (length u) as n eqn:Hn. revert u Hn.
  induction n as [n IH] using lt_wf_ind. intros u Hn.
  destruct u as [|ch r]; [apply rewrites_nil |].
  rewrite entities_cons. simpl in Hn.
  destruct (negb (ch =? 38)%N) eqn:Ech.
  { apply rewrites_copy. apply (IH (length r)); [lia | done]. }
  apply negb_false_iff, N.eqb_eq in Ech as ->.
  pose proof (scanAmp_rest_length r) as Hl.
  destruct (scanAmp r) as [text rest | name rest |] eqn:Es.
  - destruct (scanAmp_numeric _ _ _ Es) as (u0 & -> & -> & _).
    apply (rewrites_prefix (38%N :: u0)). apply (IH (length rest)); [lia | done].
  - destruct (scanAmp_named _ _ _ Es) as (-> & Hv & _).
    assert (Hrest : rewrites rest (entities rest))
      by (apply (IH (length rest)); [lia | done]).
    assert (Ha : forallb inert (name ++ [59%N]) = true).
    { rewrite forallb_app, (forallb_alphaNum_inert name) by (by apply validName_alphaNum).
      reflexivity. }
    replace (38%N :: name ++ 59%N :: rest) with (38%N :: (name ++ [59%N]) ++ rest)
      by (by rewrite <- app_assoc).
    destruct (has (toLowerCase name) XML5).
    { replace ((lit "&" ++ toLowerCase name ++ lit ";") ++ entities rest)
        with (38%N :: (toLowerCase name ++ [59%N]) ++ entities rest)
        by (cbn [app lit]; by rewrite <- !app_assoc).
      apply rewrites_ref; [done | | done].
      rewrite forallb_app, (forallb_alphaNum_inert (toLowerCase name)); [done |].
      apply validName_alphaNum. by apply validName_lower. }
    destruct (entityCode [] (toLowerCase name)) as [code|] eqn:Ec.
    + replace ((lit "&#" ++ code ++ lit ";") ++ entities rest)
        with (38%N :: ((35%N :: code) ++ [59%N]) ++ entities rest)
        by (cbn [app]; by rewrite <- !app_assoc).
      apply rewrites_ref; [done | | done].
      rewrite forallb_app. cbn [forallb].
      by rewrite (entityCode_inert _ _ Ec).
    + replace ((lit "&amp;" ++ name ++ lit ";") ++ entities rest)
        with (38%N :: (lit "amp;" ++ name ++ [59%N]) ++ entities rest)
        by (cbn [app]; by rewrite <- !app_assoc).
      apply rewrites_ref; [done | | done].
      rewrite forallb_app. by rewrite Ha.
  - change (38%N :: r) with (38%N :: [] ++ r).
    change (lit "&amp;" ++ entities r) with (38%N :: lit "amp;" ++ entities r).
    apply rewrites_ref; [done | done |]. apply (IH (length r)); [lia | done].
Qed.

Lemma rewrites_forall (P : N -> bool) u w :
  (forall c, inert c = true -> P c = true) -> P 38%N = true ->
  rewrites u w -> forallb P u = true -> forallb P w = true.
Proof.
  intros Hin H38 H. induction H as [| c u w H IH | a b u w Ha Hb H IH]; [done | |].
  - cbn [forallb]. rewrite !andb_true_iff. intros [Hc Hu]. auto.
  - cbn [forallb]. rewrite !forallb_app, !andb_true_iff. intros (_ & _ & Hu).
    split; [done |]. split; [| auto].
    rewrite forallb_forall in *. intros c Hc. apply Hin. by apply Hb.
Qed.

Lemma rewrites_head u w :
  rewrites u w ->
  match u, w with
  | c :: _, d :: _ => c = d
  | [], [] => True
  | _, _ => False
  end.
Proof. intros H. by destruct H. Qed.

(** *** The scans of a tag *)

Lemma spacesLoop_length inTag q u : length (spacesLoop inTag q u) <= length u.
Proof.
  revert inTag q. induction u as [|c u IH]; intros inTag q; [done |].
  cbn [spacesLoop]. destruct (negb inTag); [simpl; specialize (IH ((c =? 60)%N && isLikelyTagStart u) q); lia |].
  destruct q as [q0|]; [simpl; specialize (IH true (if (c =? q0)%N then None else Some q0)); lia |].
  destruct ((c =? 34)%N || (c =? 39)%N); [simpl; specialize (IH true (Some c)); lia |].
  destruct (c =? 62)%N; [simpl; specialize (IH false None); lia |].
  destruct (isUnicodeSpaceInTag c); [simpl; specialize (IH true None); lia |].
  destruct (isZeroWidthMark c); simpl; specialize (IH true None); lia.
Qed.

Lemma inert_spec c :
  inert c = true ->
  (c =? 34)%N = false /\ (c =? 39)%N = false /\ (c =? 62)%N = false
  /\ isUnicodeSpaceInTag c = false /\ isZeroWidthMark c = false.
Proof.
  unfold inert, tagPlain. rewrite !andb_true_iff, !negb_true_iff.
  intros (_ & H). rewrite !orb_false_iff in H. tauto.
Qed.

(** The scans pass over inert text. *)
Lemma scan_inert p u q :
  forallb inert p = true -> quoteState q ->
  quotesClosed q (p ++ u) = quotesClosed q u
  /\ spacesLoop true q (p ++ u) = p ++ spacesLoop true q u.
Proof.
  intros Hp Hq. induction p as [|c p IH]; [done |].
  cbn [forallb] in Hp. apply andb_true_iff in Hp as [Hc Hp].
  destruct (inert_spec _ Hc) as (H34 & H39 & H62 & Hu & Hz).
  destruct (IH Hp) as [IH1 IH2].
  cbn [app quotesClosed spacesLoop negb].
  destruct Hq as [-> | [-> | ->]].
  - rewrite H34, H39, H62, Hu, Hz. cbn [orb]. by rewrite IH1, IH2.
  - rewrite H34. by rewrite IH1, IH2.
  - rewrite H39. by rewrite IH1, IH2.
Qed.

(** A rewrite of references changes nothing for the scans of a tag. *)
Lemma rewrites_scan u w :
  rewrites u w -> forall q, quoteState q ->
  quotesClosed q u = true -> spacesLoop true q u = u ->
  quotesClosed q w = true /\ spacesLoop true q w = w.
Proof.
  intros H. induction H as [| c u w H IH | a b u w Ha Hb H IH]; intros q Hq Hcl Hfix.
  - done.
  - cbn [quotesClosed spacesLoop negb] in *. destruct q as [q0|].
    + inversion Hfix as [Hfix'].
      destruct (IH (if (c =? q0)%N then None else Some q0)) as [H1 H2]; [| done | done |].
      * destruct (c =? q0)%N; [by left | done].
      * by rewrite H1, H2.
    + destruct ((c =? 34)%N || (c =? 39)%N) eqn:Eq.
      { inversion Hfix as [Hfix'].
        destruct (IH (Some c)) as [H1 H2]; [| done | done |].
        - apply orb_true_iff in Eq as [Eq | Eq]; apply N.eqb_eq in Eq; subst;
            [by right; left | by right; right].
        - by rewrite H1, H2. }
      destruct (c =? 62)%N; [done |].
      destruct (isUnicodeSpaceInTag c) eqn:Eu.
      { inversion Hfix; subst c. done. }
      destruct (isZeroWidthMark c).
      { pose proof (spacesLoop_length true None u) as Hl.
        rewrite Hfix in Hl. simpl in Hl. lia. }
      inversion Hfix as [Hfix'].
      destruct (IH None) as [H1 H2]; [by left | done | done |].
      by rewrite H1, H2.
  - change (38%N :: a ++ u) with ((38%N :: a) ++ u) in *.
    change (38%N :: b ++ w) with ((38%N :: b) ++ w).
    assert (Ha' : forallb inert (38%N :: a) = true) by (cbn [forallb]; by rewrite Ha).
    assert (Hb' : forallb inert (38%N :: b) = true) by (cbn [forallb]; by rewrite Hb).
    destruct (scan_inert _ u q Ha' Hq) as [Hc1 Hs1].
    destruct (scan_inert _ w q Hb' Hq) as [Hc2 Hs2].
    rewrite Hc1 in Hcl. rewrite Hs1 in Hfix. apply app_inv_head in Hfix.
    destruct (IH q Hq Hcl Hfix) as [H1 H2].
    by rewrite Hc2, Hs2, H1, H2.
Qed.

Lemma spaces_forall (P : N -> bool) inTag q u :
  P 32%N = true -> forallb P u = true -> forallb P (spacesLoop inTag q u) = true.
Proof.
  intros H32. revert inTag q. induction u as [|c u IH]; intros inTag q; [done |].
  cbn [forallb]. intros H. apply andb_true_iff in H as [Hc Hu].
  cbn [spacesLoop]. destruct (negb inTag); [cbn [forallb]; by rewrite Hc, IH |].
  destruct q as [q0|]; [cbn [forallb]; by rewrite Hc, IH |].
  destruct ((c =? 34)%N || (c =? 39)%N); [cbn [forallb]; by rewrite Hc, IH |].
  destruct (c =? 62)%N; [cbn [forallb]; by rewrite Hc, IH |].
  destruct (isUnicodeSpaceInTag c); [cbn [forallb]; by rewrite H32, IH |].
  destruct (isZeroWidthMark c); [by apply IH |].
  cbn [forallb]. by rewrite Hc, IH.
Qed.

Lemma spaces_closed u : forall q,
  quotesClosed q u = true -> quotesClosed q (spacesLoop true q u) = true.
Proof.
  induction u as [|c u IH]; intros q H; [done |].
  cbn [quotesClosed spacesLoop negb] in *. destruct q as [q0|].
  - cbn [quotesClosed]. by apply IH.
  - destruct ((c =? 34)%N || (c =? 39)%N) eqn:Eq.
    { cbn [quotesClosed]. rewrite Eq. by apply IH. }
    destruct (c =? 62)%N eqn:Eg; [done |].
    destruct (isUnicodeSpaceInTag c); [cbn [quotesClosed]; by apply IH |].
    destruct (isZeroWidthMark c); [by apply IH |].
    cbn [quotesClosed]. rewrite Eq, Eg. by apply IH.
Qed.

Lemma spaces_head rest :
  match rest with
  | c :: _ => (isTagNameChar c || isZeroWidthMark c) = false
  | [] => True
  end ->
  quotesClosed None rest = true ->
  match spacesLoop true None rest with
  | c :: _ => (isTagNameChar c || isZeroWidthMark c) = false
  | [] => True
  end.
Proof.
  destruct rest as [|c r]; [done |]. intros Hh Hq.
  cbn [quotesClosed spacesLoop negb] in *.
  destruct ((c =? 34)%N || (c =? 39)%N); [done |].
  destruct (c =? 62)%N; [done |].
  destruct (isUnicodeSpaceInTag c); [done |].
  destruct (isZeroWidthMark c) eqn:Ez; [by rewrite orb_true_r in Hh |].
  by rewrite Ez.
Qed.
End EntityRewrites.

(** ** Normalized items *)

Module ItemNormal.
Import Sanitizer Entities EntityFacts EntityRefs EntityIdem XmlText TextSearch ItemScan
  ItemSpaces ItemEntities EntityRewrites.

Local Abbreviation spaced :=
  (fun it => match it with
             | Tag closing name rest => Tag closing name (spacesLoop true None rest)
             | _ => it
             end).

Local Abbreviation entitied :=
  (fun it => match it with
             | Chars t => Chars (entities t)
             | Tag closing name rest => Tag closing name (entities rest)
             | _ => it
             end).

Lemma normalize_steps items : map normalize items = map entitied (map spaced items).
Proof. rewrite map_map. apply map_ext. by intros []. Qed.

Lemma inert_xmlChar c : inert c = true -> isXmlChar c = true.
Proof. unfold inert. rewrite !andb_true_iff. tauto. Qed.

Lemma inert_not_lt c : inert c = true -> negb (c =? 60)%N = true.
Proof. unfold inert. rewrite !andb_true_iff. tauto. Qed.

(** In a tag, the white-space step changes nothing in its own output. *)
Lemma spaces_fixed u : forall q,
  quotesClosed q u = true ->
  spacesLoop true q (spacesLoop true q u) = spacesLoop true q u.
Proof.
  induction u as [|c u IH]; intros q H; [done |].
  cbn [quotesClosed spacesLoop negb] in *. destruct q as [q0|].
  - cbn [spacesLoop negb]. f_equal. by apply IH.
  - destruct ((c =? 34)%N || (c =? 39)%N) eqn:Eq.
    { cbn [spacesLoop negb]. rewrite Eq. f_equal. by apply IH. }
    destruct (c =? 62)%N eqn:Eg; [done |].
    destruct (isUnicodeSpaceInTag c) eqn:Eu.
    { change (spacesLoop true None (32%N :: spacesLoop true None u))
        with (32%N :: spacesLoop true None (spacesLoop true None u)).
      f_equal. by apply IH. }
    destruct (isZeroWidthMark c) eqn:Ez; [by apply IH |].
    cbn [spacesLoop negb]. rewrite Eq, Eg, Eu, Ez. f_equal. by apply IH.
Qed.

(** The rest of a tag after both normalizations. *)
Lemma normalize_rest rest :
  match rest with
  | c :: _ => (isTagNameChar c || isZeroWidthMark c) = false
  | [] => True
  end ->
  quotesClosed None rest = true ->
  let rest' := entities (spacesLoop true None rest) in
  match rest' with
  | c :: _ => (isTagNameChar c || isZeroWidthMark c) = false
  | [] => True
  end
  /\ quotesClosed None rest' = true
  /\ spacesLoop true None rest' = rest'.
Proof.
  intros Hh Hq rest'.
  pose proof (entities_rewrites (spacesLoop true None rest)) as Hrw.
  fold rest' in Hrw.
  destruct (rewrites_scan _ _ Hrw None) as [H1 H2];
    [by left | by apply spaces_closed | by apply spaces_fixed |].
  split; [| done].
  pose proof (spaces_head rest Hh Hq) as Hh'.
  pose proof (rewrites_head _ _ Hrw) as Hd.
  destruct (spacesLoop true None rest) as [|c r]; destruct rest' as [|d r']; try done.
  by subst d.
Qed.

Lemma forallb_tag (P : N -> bool) closing name rest :
  forallb P (render1 (Tag closing name rest))
  = P 60%N && (if closing then P 47%N else true) && forallb P name
    && forallb P rest && P 62%N.
Proof.
  cbn [render1]. rewrite !forallb_app. cbn [lit forallb].
  change (forallb P (lit "<")) with (P 60%N && true).
  change (forallb P (lit ">")) with (P 62%N && true).
  destruct closing.
  - change (forallb P (lit "/")) with (P 47%N && true).
    destruct (P 60%N), (P 47%N), (forallb P name), (forallb P rest), (P 62%N); done.
  - cbn [forallb].
    destruct (P 60%N), (forallb P name), (forallb P rest), (P 62%N); done.
Qed.

(** Both normalizations leave an item well formed. *)
Lemma normalize_wfItem cs it : wfItem cs it = true -> wfItem cs (normalize it) = true.
Proof.
  destruct it as [t | closing name rest | b | b | b]; try done.
  - unfold wfItem. cbn [normalize render1]. rewrite !andb_true_iff. intros [Hx Hlt].
    pose proof (entities_rewrites t) as Hrw. split.
    + by apply (rewrites_forall isXmlChar _ _ inert_xmlChar eq_refl Hrw).
    + by apply (rewrites_forall _ _ _ inert_not_lt eq_refl Hrw).
  - intros H. destruct (wfItem_tag _ _ _ _ H) as (Hx & (c0 & more & -> & Hc0) & Hnm & Hh & Hlt & Hq & Hc).
    destruct (normalize_rest rest Hh Hq) as (Hh' & Hq' & _).
    pose proof (entities_rewrites (spacesLoop true None rest)) as Hrw.
    rewrite forallb_tag in Hx. rewrite !andb_true_iff in Hx.
    destruct Hx as ((((_ & Hx47) & Hxn) & Hxr) & _).
    cbn [normalize]. unfold wfItem. rewrite forallb_tag.
    rewrite Hxn, Hx47, Hc0, Hnm, Hq', Hc.
    rewrite (rewrites_forall isXmlChar _ _ inert_xmlChar eq_refl Hrw)
      by (by apply spaces_forall).
    rewrite (rewrites_forall (fun c => negb (c =? 60)%N) _ _ inert_not_lt eq_refl Hrw).
    2:{ apply spaces_forall; [done |]. rewrite forallb_forall. intros c Hin.
        apply negb_true_iff, N.eqb_neq. intros ->. apply Hlt. by apply list_elem_of_In. }
    destruct (entities (spacesLoop true None rest)) as [|d r']; [done |].
    by rewrite Hh'.
Qed.

Lemma normalize_wf cs items :
  forallb (wfItem cs) items = true -> forallb (wfItem cs) (map normalize items) = true.
Proof.
  rewrite !forallb_forall. intros H it Hin. apply in_map_iff in Hin as (it0 & <- & Hin).
  apply normalize_wfItem. by apply H.
Qed.

Lemma spaced_wf cs items :
  forallb (wfItem cs) items = true -> forallb (wfItem cs) (map spaced items) = true.
Proof.
  rewrite !forallb_forall. intros H it Hin. apply in_map_iff in Hin as (it0 & <- & Hin).
  specialize (H _ Hin).
  destruct it0 as [t | closing name rest | b | b | b]; try done.
  destruct (wfItem_tag _ _ _ _ H) as (Hx & (c0 & more & -> & Hc0) & Hnm & Hh & Hlt & Hq & Hc).
  rewrite forallb_tag in Hx. rewrite !andb_true_iff in Hx.
  destruct Hx as ((((_ & Hx47) & Hxn) & Hxr) & _).
  unfold wfItem. rewrite forallb_tag.
  rewrite Hxn, Hx47, Hc0, Hnm, Hc, spaces_closed by done.
  rewrite (spaces_forall isXmlChar) by done.
  rewrite (spaces_forall (fun c => negb (c =? 60)%N)).
  2: done.
  2:{ rewrite forallb_forall. intros c Hin'.
      apply negb_true_iff, N.eqb_neq. intros ->. apply Hlt. by apply list_elem_of_In. }
  pose proof (spaces_head _ Hh Hq) as Hh'.
  destruct (spacesLoop true None rest) as [|d r']; [done |].
  by rewrite Hh'.
Qed.

Lemma isMarkup_normalize it : isMarkup (normalize it) = isMarkup it.
Proof. by destruct it. Qed.

Lemma normalize_noAdjacentChars items :
  noAdjacentChars (map normalize items) = noAdjacentChars items.
Proof.
  induction items as [|it items IH]; [done |].
  destruct it; destruct items as [|[] items']; done.
Qed.

Lemma spaced_noAdjacentChars items :
  noAdjacentChars (map spaced items) = noAdjacentChars items.
Proof.
  induction items as [|it items IH]; [done |].
  destruct it; destruct items as [|[] items']; done.
Qed.

Lemma spaces_only_fixed w : forallb isJsSpace w = true -> entities w = w.
Proof.
  intros H. apply entities_all_plain. apply (forallb_absent isJsSpace); [done | done].
Qed.

Lemma tag_not_declaration cs closing name rest :
  wfItem cs (Tag closing name rest) = true ->
  startsWith (render1 (Tag closing name rest)) (lit "<?xml") = false.
Proof.
  intros H. destruct (wfItem_tag _ _ _ _ H) as (_ & (c0 & more & -> & Hc0) & _).
  destruct closing; [done |].
  cbn [render1]. change (lit "<?xml") with (60%N :: 63%N :: lit "xml").
  change (lit "<") with [60%N]. cbn [app startsWith]. rewrite N.eqb_refl.
  destruct (N.eqb_spec 63 c0) as [<- | _]; [vm_compute in Hc0; discriminate | done].
Qed.

Lemma normalize_startsDocument cs items :
  forallb (wfItem cs) items = true ->
  startsDocument items = true -> startsDocument (map normalize items) = true.
Proof.
  destruct items as [|it items]; [done |]. cbn [forallb map startsDocument].
  rewrite !andb_true_iff. intros [Hit _] [Hm Hx].
  rewrite isMarkup_normalize. split; [done |].
  destruct it as [t | closing name rest | b | b | b]; try done.
  apply negb_true_iff. apply (tag_not_declaration cs). by apply (normalize_wfItem cs (Tag closing name rest)).
Qed.

Lemma normalize_endsDocument items :
  endsDocument items = true -> endsDocument (map normalize items) = true.
Proof.
  unfold endsDocument. rewrite <- map_rev.
  destruct (rev items) as [|a l]; [done |].
  destruct a as [w | closing name rest | b | b | b]; cbn [map normalize]; try done.
  destruct l as [|m l]; [done |]. cbn [map]. rewrite !andb_true_iff. intros [Hw Hm].
  rewrite isMarkup_normalize, (spaces_only_fixed w Hw). done.
Qed.

(** Both normalizations leave a document well formed. *)
Lemma normalize_wellFormed o items :
  wellFormed o items = true -> wellFormed o (map normalize items) = true.
Proof.
  unfold wellFormed. rewrite !andb_true_iff. intros (((Hwf & Hadj) & Hs) & He).
  rewrite normalize_noAdjacentChars.
  repeat split; [by apply normalize_wf | done | by apply (normalize_startsDocument _ _ Hwf)
                 | by apply normalize_endsDocument].
Qed.

Lemma normalize_holes items : holesOf (map normalize items) = holesOf items.
Proof.
  induction items as [|it items IH]; [done |].
  destruct it; cbn [map normalize]; first [exact IH | exact (f_equal (cons _) IH)].
Qed.

(** *** Idempotence item by item *)

Lemma entities_idem s :
  ~ refersTo (lit "constructor") s -> entities (entities s) = entities s.
Proof.
  intros Hno. pose proof (E_entities s) as Hs.
  pose proof (E_idem convert [] (Forall_nil_2 _) s _ Hno Hs) as Hw.
  rewrite E_entities in Hw. by injection Hw.
Qed.

Lemma normalize_idem cs it :
  wfItem cs it = true -> noConstructorRef it -> normalize (normalize it) = normalize it.
Proof.
  destruct it as [t | closing name rest | b | b | b]; try done.
  - intros _ Hno. cbn [normalize]. f_equal. by apply entities_idem.
  - intros H Hno. destruct (wfItem_tag _ _ _ _ H) as (_ & _ & _ & Hh & _ & Hq & _).
    destruct (normalize_rest rest Hh Hq) as (_ & _ & Hfix).
    cbn [normalize]. f_equal. cbv zeta in Hfix. rewrite Hfix. by apply entities_idem.
Qed.

Lemma normalize_map_idem cs items :
  forallb (wfItem cs) items = true -> Forall noConstructorRef items ->
  map normalize (map normalize items) = map normalize items.
Proof.
  intros Hwf Hno. rewrite map_map. apply map_ext_in. intros it Hin.
  apply (normalize_idem cs).
  - rewrite forallb_forall in Hwf. by apply Hwf.
  - rewrite Forall_forall in Hno. apply Hno. by apply list_elem_of_In.
Qed.
End ItemNormal.

(** ** Containers and holes of a well-formed document *)

Module ItemRestore.
Import Sanitizer Entities EntityFacts EntityRefs EntityIdem XmlText TextSearch ItemScan
  ItemMask ItemSpaces ItemEntities EntityRewrites ItemNormal Containers.

Lemma noContainerOpen_plain o u z :
  60%N ∉ u -> noContainerOpen o (u ++ z) = noContainerOpen o z.
Proof.
  induction u as [|c u IH]; [done |]. intros H.
  cbn [app noContainerOpen].
  destruct (N.eqb_spec c 60) as [-> | _]; [exfalso; apply H; left |].
  cbn [andb negb]. apply IH. intros Hin. apply H. by right.
Qed.

Lemma not_slash_head {A} (c : N) (r : str) (X : str -> A) (Y : A) :
  c <> 47%N ->
  match c :: r with
  | 47%N :: r' => X r'
  | _ => Y
  end = Y.
Proof.
  intros H. destruct c as [|p]; [done |].
  do 7 (try (destruct p as [p|p|]; try done)).
Qed.

Lemma has_containers o x :
  has x (containerNames o) = false ->
  has x (map toLowerCase (richTextContainers o))
  || has x (map toLowerCase (inlineTextContainers o)) = false.
Proof.
  unfold containerNames. rewrite !has_false, not_elem_of_app. intros [H1 H2].
  apply orb_false_iff. by rewrite !has_false.
Qed.

(** A well-formed tag opens no configured container. *)
Lemma opensContainer_tag o closing name rest z :
  wfItem (containerNames o) (Tag closing name rest) = true ->
  opensContainer o (tagBody closing name rest ++ z) = false.
Proof.
  intros H.
  destruct (wfItem_tag _ _ _ _ H) as (_ & (c0 & more & Hname & Hc0) & Hnm & Hh & _ & _ & Hc).
  unfold opensContainer, parseTagDetailed, tagBody. destruct closing.
  - change ((lit "/" ++ name ++ rest ++ lit ">") ++ z)
      with (47%N :: (name ++ rest ++ lit ">") ++ z).
    cbn iota. rewrite Hname. cbn [app]. rewrite Hc0. cbn [negb].
    by destruct (scanTagEnd _ None None 0) as [[n sc]|].
  - cbn [app]. rewrite Hname. cbn [app].
    rewrite (not_slash_head c0 _ (fun r' => (true, r')) (false, c0 :: (more ++ rest ++ lit ">") ++ z)).
    2:{ intros ->. vm_compute in Hc0. discriminate. }
    rewrite Hc0. cbn [negb].
    assert (Htake : takeWhile isTagNameChar (c0 :: (more ++ rest ++ lit ">") ++ z) = name).
    { rewrite Hname. change (c0 :: (more ++ rest ++ lit ">") ++ z)
        with (((c0 :: more) ++ rest ++ lit ">") ++ z).
      rewrite <- Hname in *. rewrite <- !app_assoc.
      destruct rest as [|c r].
      - change ([] ++ lit ">" ++ z) with (62%N :: z).
        by destruct (takeWhile_app_stop isTagNameChar name 62%N z Hnm eq_refl) as [-> _].
      - apply orb_false_iff in Hh as [Hh _]. cbn [app].
        by destruct (takeWhile_app_stop isTagNameChar name c (r ++ lit ">" ++ z) Hnm Hh)
          as [-> _]. }
    rewrite Htake.
    destruct (scanTagEnd _ None None 0) as [[n sc]|]; [| done].
    cbn [Sanitizer.closing Sanitizer.selfClosing Sanitizer.local].
    rewrite (has_containers _ _ Hc). by rewrite andb_false_r.
Qed.

(** The masked text of a well-formed document opens no container. *)
Lemma noContainerOpen_masked o items k :
  forallb (wfItem (containerNames o)) items = true ->
  noContainerOpen o (masked k items) = true.
Proof.
  revert k. induction items as [|it items IH]; intros k Hwf; [done |].
  cbn [forallb] in Hwf. apply andb_true_iff in Hwf as [Hit Hwf].
  destruct it as [t | closing name rest | b | b | b];
    cbn [masked isMarkup andb negb].
  - apply wfItem_chars in Hit as [_ Ht]. cbn [render1].
    rewrite noContainerOpen_plain by done. by apply IH.
  - rewrite render1_tag. cbn [app noContainerOpen].
    rewrite (opensContainer_tag o) by done. cbn [andb negb].
    rewrite noContainerOpen_plain by (by apply (tagBody_no_lt (containerNames o))).
    by apply IH.
  - rewrite noContainerOpen_plain by apply token_no_lt. by apply IH.
  - rewrite noContainerOpen_plain by apply token_no_lt. by apply IH.
  - rewrite noContainerOpen_plain by apply token_no_lt. by apply IH.
Qed.

(** *** Closing the holes *)

Lemma xmlChars_no_nul u : forallb isXmlChar u = true -> 0%N ∉ u.
Proof. by apply forallb_absent. Qed.

Lemma restoreLoop_masked cs items : forall pre fuel,
  forallb (wfItem cs) items = true ->
  length (masked (length pre) items) <= fuel ->
  restoreLoop fuel (pre ++ holesOf items) (masked (length pre) items) = render items.
Proof.
  induction items as [|it items IH]; intros pre fuel Hwf Hl.
  { by destruct fuel. }
  cbn [forallb] in Hwf. apply andb_true_iff in Hwf as [Hit Hwf].
  assert (Hplain : forall u, u = render1 it -> holesOf (it :: items) = holesOf items ->
            masked (length pre) (it :: items) = u ++ masked (length pre) items ->
            restoreLoop fuel (pre ++ holesOf (it :: items)) (masked (length pre) (it :: items))
            = render (it :: items)).
  { intros u -> Hh Hm. rewrite Hh, Hm in *. rewrite render_cons.
    rewrite MaskFacts.restoreLoop_app_plain;
      [| by apply xmlChars_no_nul, (wfItem_xmlChars cs) | done].
    f_equal. apply IH; [done |]. rewrite length_app in Hl. lia. }
  assert (Hhole : holesOf (it :: items) = render1 it :: holesOf items ->
            masked (length pre) (it :: items) = token (length pre) ++ masked (S (length pre)) items ->
            restoreLoop fuel (pre ++ holesOf (it :: items)) (masked (length pre) (it :: items))
            = render (it :: items)).
  { intros Hh Hm. rewrite Hh, Hm in *. rewrite render_cons.
    rewrite (MaskFacts.restoreLoop_token _ _ _ _ (render1 it)); [| | done].
    2:{ rewrite lookup_app_r by done. by rewrite Nat.sub_diag. }
    f_equal.
    replace (pre ++ render1 it :: holesOf items) with ((pre ++ [render1 it]) ++ holesOf items)
      by (by rewrite <- app_assoc).
    replace (S (length pre)) with (length (pre ++ [render1 it]))
      by (rewrite length_app; simpl; lia).
    by apply IH. }
  destruct it as [t | closing name rest | b | b | b].
  - by apply (Hplain t).
  - by apply (Hplain (render1 (Tag closing name rest))).
  - by apply Hhole.
  - by apply Hhole.
  - by apply Hhole.
Qed.

Lemma restore_masked cs items :
  forallb (wfItem cs) items = true ->
  restore (holesOf items) (masked 0 items) = render items.
Proof.
  intros H. unfold restore. by apply (restoreLoop_masked cs items []).
Qed.

(** *** The ends of a document *)

Lemma render_app a b : render (a ++ b) = render a ++ render b.
Proof. unfold render. by rewrite flat_map_app. Qed.

Lemma render1_last_gt it : isMarkup it = true -> exists b, render1 it = b ++ [62%N].
Proof.
  destruct it as [t | closing name rest | b | b | b]; [done | | | |]; intros _; cbn [render1].
  - exists (lit "<" ++ (if closing then lit "/" else []) ++ name ++ rest).
    by rewrite <- !app_assoc.
  - exists (lit "<!--" ++ b ++ lit "--"). by rewrite <- !app_assoc.
  - exists (lit "<![CDATA[" ++ b ++ lit "]]"). by rewrite <- !app_assoc.
  - exists (lit "<?" ++ b ++ lit "?"). by rewrite <- !app_assoc.
Qed.

Lemma render_tail items :
  endsDocument items = true ->
  exists body w, render items = body ++ 62%N :: w /\ forallb isJsSpace w = true.
Proof.
  unfold endsDocument. intros H.
  assert (Hi : items = rev (rev items)) by (by rewrite rev_involutive).
  rewrite Hi. revert H. clear Hi.
  destruct (rev items) as [|a l]; [done |].
  assert (Hm : forall m l', isMarkup m = true ->
            exists body, render (rev (m :: l')) = body ++ [62%N]).
  { intros m l' H. destruct (render1_last_gt m H) as [b Hb].
    exists (render (rev l') ++ b). cbn [rev]. rewrite render_app.
    unfold render at 2. cbn [flat_map]. rewrite app_nil_r, Hb. by rewrite app_assoc. }
  destruct a as [w | closing name rest | b | b | b].
  - destruct l as [|m l]; [done |]. rewrite andb_true_iff. intros [Hw Hmk].
    destruct (Hm m l Hmk) as [body Hb].
    exists body, w. split; [| done].
    change (rev (Chars w :: m :: l)) with (rev (m :: l) ++ [Chars w]).
    rewrite render_app, Hb. unfold render. cbn [flat_map render1].
    by rewrite app_nil_r, <- app_assoc.
  - intros _. destruct (Hm (Tag closing name rest) l eq_refl) as [body Hb].
    by exists body, [].
  - intros _. destruct (Hm (Comment b) l eq_refl) as [body Hb]. by exists body, [].
  - intros _. destruct (Hm (CData b) l eq_refl) as [body Hb]. by exists body, [].
  - intros _. destruct (Hm (PI b) l eq_refl) as [body Hb]. by exists body, [].
Qed.

Lemma render_head cs items :
  forallb (wfItem cs) items = true -> startsDocument items = true ->
  exists r, render items = 60%N :: r
            /\ startsWith (render items) (lit "<?xml") = false
            /\ startsWith (render items) (lit "<!DOCTYPE") = false.
Proof.
  destruct items as [|it items]; [done |]. cbn [forallb startsDocument].
  rewrite !andb_true_iff, negb_true_iff. intros [Hit _] [Hm Hx].
  rewrite render_cons.
  destruct it as [t | closing name rest | b | b | b]; [done | | | |].
  - destruct (wfItem_tag _ _ _ _ Hit) as (_ & (c0 & more & -> & Hc0) & _).
    eexists. split; [reflexivity |].
    cbn [render1]. change (lit "<") with [60%N].
    change (lit "<?xml") with (60%N :: 63%N :: lit "xml").
    change (lit "<!DOCTYPE") with (60%N :: 33%N :: lit "DOCTYPE").
    destruct closing; [done |].
    cbn [app startsWith]. rewrite N.eqb_refl.
    destruct (N.eqb_spec 63 c0) as [<- | _]; [vm_compute in Hc0; discriminate |].
    destruct (N.eqb_spec 33 c0) as [<- | _]; [vm_compute in Hc0; discriminate |].
    done.
  - eexists. split; [reflexivity |]. done.
  - eexists. split; [reflexivity |]. done.
  - eexists. split; [reflexivity |]. split; [| done].
    destruct b as [|c b]; [done |].
    rewrite startsWith_app_long; [done |]. cbn [render1].
    rewrite !length_app. simpl. lia.
Qed.

Lemma prolog_head ds w a r :
  wfProlog ds w = true -> a = 60%N :: r ->
  exists r', dropWhile isJsSpace (prologText ds w ++ a) = 60%N :: r'.
Proof.
  unfold wfProlog, prologText. rewrite andb_true_iff. intros [Hds Hw] ->.
  destruct ds as [|[w1 d] ds].
  - exists r. cbn [flat_map app]. rewrite dropWhile_spaces_app by done.
    by apply dropWhile_stop.
  - cbn [forallb fst snd] in Hds. rewrite !andb_true_iff in Hds.
    destruct Hds as [[Hw1 _] _].
    cbn [flat_map fst snd]. rewrite <- !app_assoc.
    rewrite dropWhile_spaces_app by done.
    destruct d; eexists; cbn [renderDecl]; rewrite <- !app_assoc; by apply dropWhile_stop.
Qed.
End ItemRestore.

(** ** The sanitizer on a well-formed document *)

Module SanitizeFacts.
Import Sanitizer Entities EntityFacts EntityRefs EntityIdem XmlText TextSearch PrologStrip
  ItemScan ItemMask ItemSpaces ItemEntities ItemEntitiesMasked EntityRewrites ItemNormal
  ItemRestore Containers.

(** Steps 1 to 2a on a well-formed document with a prolog. *)
Lemma maskedWork_document ds w items :
  wfProlog ds w = true -> wellFormed DEFAULTS items = true ->
  maskedWork (prologText ds w ++ render items) DEFAULTS
  = (masked 0 (map (fun it => match it with
                              | Tag closing name rest =>
                                  Tag closing name (spacesLoop true None rest)
                              | _ => it
                              end) items), holesOf items).
Proof.
  intros Hp Hwf. unfold wellFormed in Hwf. rewrite !andb_true_iff in Hwf.
  destruct Hwf as (((Hit & Hadj) & Hs) & He).
  destruct (render_head _ _ Hit Hs) as (r & Hr & Hx & Hd).
  destruct (render_tail _ He) as (body & w' & Hb & Hw').
  destruct (prolog_head ds w _ r Hp Hr) as [r' Hhead].
  unfold maskedWork. cbn [DEFAULTS stripProlog_ fixInvalidComments scrubInvalidXmlChars
                           normalizeUnicodeSpacesInTags].
  rewrite (stripCodeFences_markup _ r' (prologText ds w ++ body) w' Hhead);
    [| by rewrite Hb, <- app_assoc | done].
  rewrite (stripProlog_prolog ds w (render items) r Hp Hr Hx Hd).
  rewrite (repair_render _ _ Hit), (scrub_render _ _ Hit), (mask_render _ _ Hit).
  unfold normalizeUnicodeSpacesInsideTags.
  by rewrite (spaces_masked _ _ _ Hit).
Qed.

Lemma preSanitize_document ds w items :
  wfProlog ds w = true -> wellFormed DEFAULTS items = true ->
  preSanitize (prologText ds w ++ render items) DEFAULTS
  = Ok (render (map normalize items)).
Proof.
  intros Hp Hwf. unfold preSanitize. rewrite (maskedWork_document ds w items Hp Hwf).
  unfold wellFormed in Hwf. rewrite !andb_true_iff in Hwf.
  destruct Hwf as (((Hit & Hadj) & Hs) & He).
  change (entityPolicy DEFAULTS) with convert.
  change (namedEntities DEFAULTS) with (@nil (str * JsNumber.t)).
  rewrite E_entities.
  rewrite (entities_masked (containerNames DEFAULTS))
    by (by rewrite ?spaced_noAdjacentChars; try apply spaced_wf).
  rewrite <- normalize_steps.
  rewrite ContainerFacts.applyContainerPoliciesStream_identity
    by (by apply noContainerOpen_masked, normalize_wf).
  rewrite <- (normalize_holes items).
  by rewrite (restore_masked (containerNames DEFAULTS)) by (by apply normalize_wf).
Qed.

Lemma short_no_constructorRef s :
  length s < 13 -> ~ refersTo (lit "constructor") s.
Proof.
  intros Hl (pre & name & post & -> & _ & Hn).
  apply (f_equal length) in Hn. unfold toLowerCase in Hn. rewrite length_map in Hn.
  change (length (lit "constructor")) with 11 in Hn.
  rewrite !length_app in Hl. simpl in Hl. lia.
Qed.
End SanitizeFacts.


